(** * noise-repellent: a shallow embedding of the spectral denoising core

    The development follows the C sources file by file.  Definitions:
    - [Float32], [Float64]  the C types [float] and [double]
    - [CArray]              arrays of [float], [memcpy], the loops over bins
    - [Libm]                the functions of <math.h> the code calls
    - [Rounding]            the numbers binary32 denotes, and their rounding
    - [SpectralProcessor]   src/src/spectral_processor.c
    - [MaskingEstimator]    subprojects/libnrepel/src/denoiser/masking_estimator.c
    - [MaskingPlugin]       src/src/masking_estimator.c
    - [STFT]                src/src/stft_processor.c
    - [PluginState]         src/src/noise_repellent_state.c
    - [Nrepel]              src/nrepel.c, the reassembly of the spectrum
    - [SpectralFrames], [STFTCalls], [STFTAudio], [PluginStateChecks]
                            predicates on the states of these files
    - [MaskingBands], [MaskingTables], [MaskingReset]
                            the band partition, the spreading function and
                            the reset of the masking estimators
    - [Reference], [Examples], [MoreExamples]
                            stand-ins for the interfaces, concrete frames

    Proofs: [Float32Facts], [RoundingFacts], [FloatIntegers], [CArrayFacts]
    and [CLoopFacts] on the data, then the modules of proofs for each source
    file ([SpectralProcessorProofs], [SpectralFrameProofs],
    [SpectralRobustness]; [MaskingProofs], [MaskingBehaviour],
    [MaskingTableFacts], [MaskingResetFacts], [MaskingAssignment];
    [STFTProofs], [STFTBehaviour], [STFTStart], [STFTAudioFacts];
    [PluginStateProofs], [PluginStateBehaviour]; [NrepelProofs]), and [Runs]
    and [MoreRuns], where the theorems are applied to concrete engines and
    frames.

    C [float] values are IEEE-754 binary32 numbers, taken from the
    specification of floating-point arithmetic of the standard library
    ([spec_float] at precision 24 and maximal exponent 128, rounding to
    nearest even).  Arrays are lists indexed by position. *)

From Stdlib Require Import ZArith Lia Bool List.
From Stdlib Require Import Floats.SpecFloat.
From Stdlib Require Import Reals Lra.
From stdpp Require Import base tactics option list strings gmap.

Local Open Scope Z_scope.


(** ** IEEE binary32 *)

Module Float32.

Abbreviation float := spec_float.

Definition prec : Z := 24.
Definition emax : Z := 128.

Definition fadd : float -> float -> float := SFadd prec emax.
Definition fsub : float -> float -> float := SFsub prec emax.
Definition fmul : float -> float -> float := SFmul prec emax.
Definition fdiv : float -> float -> float := SFdiv prec emax.
Definition fneg : float -> float := SFopp.

(** Conversion of a C integer to [float] (exact below 2^24, rounded to
    nearest even above). *)
Definition of_Z (z : Z) : float := binary_normalize prec emax z 0 false.

(** A decimal literal [n/d] with the suffix [f]: the binary32 number nearest
    to the quotient. *)
Definition lit (n d : Z) : float := fdiv (of_Z n) (of_Z d).

Definition fzero : float := S754_zero false.
Definition fone : float := of_Z 1.

(** [FLT_MIN] of <float.h>: the least positive normal number, 2^-126. *)
Definition FLT_MIN : float := S754_finite false 8388608 (-149).

(** The C comparison operators on [float]; every comparison with a NaN is
    false. *)
Definition flt (x y : float) : bool := SFltb x y.
Definition fle (x y : float) : bool := SFleb x y.
Definition fgt (x y : float) : bool := SFltb y x.
Definition fge (x y : float) : bool := SFleb y x.
Definition feq (x y : float) : bool := SFeqb x y.

Definition is_nan (x : float) : bool :=
  match x with S754_nan => true | _ => false end.

Definition is_finite (x : float) : bool :=
  match x with S754_zero _ | S754_finite _ _ _ => true | _ => false end.

(** A zero or a finite number whose mantissa and exponent are in the form
    and range of the format: what a [float] object holds when it is not an
    infinity or a NaN. *)
Definition is_binary32 (x : float) : bool :=
  is_finite x && valid_binary prec emax x.

(** [fmaxf] and [fminf] of <math.h>: a NaN argument is treated as missing
    data, the other argument is returned. *)
Definition fmaxf (x y : float) : float :=
  match x, y with
  | S754_nan, _ => y
  | _, S754_nan => x
  | _, _ => if flt x y then y else x
  end.

Definition fminf (x y : float) : float :=
  match x, y with
  | S754_nan, _ => y
  | _, S754_nan => x
  | _, _ => if flt y x then y else x
  end.

(** Conversion of a [float] to a C integer: the fraction is discarded
    (a NaN or an infinity has no integer value in C; 0 stands for it). *)
Definition to_Z (x : float) : Z :=
  match x with
  | S754_finite s m e =>
      let v := if 0 <=? e then Z.pos m * 2 ^ e else Z.pos m / 2 ^ (- e) in
      if s then - v else v
  | _ => 0
  end.

(** [floorf] of <math.h>. *)
Definition floorf (x : float) : float :=
  match x with
  | S754_finite s m e =>
      if 0 <=? e then x
      else
        let q := Z.pos m / 2 ^ (- e) in
        if s then
          let c := if q * 2 ^ (- e) =? Z.pos m then q else q + 1 in
          of_Z (- c)
        else if q =? 0 then S754_zero false else of_Z q
  | _ => x
  end.

(** *** Storage format

    The 32-bit pattern of a binary32 number (sign, biased exponent, 23
    fraction bits).  [spec_float] has one NaN, stored as the default quiet
    NaN. *)
Definition bits_of_float (x : float) : Z :=
  let sign (s : bool) := if s then 2 ^ 31 else 0 in
  match x with
  | S754_zero s => sign s
  | S754_infinity s => sign s + 255 * 2 ^ 23
  | S754_nan => 255 * 2 ^ 23 + 2 ^ 22
  | S754_finite s m e =>
      if Z.pos m <? 2 ^ 23 then sign s + Z.pos m
      else sign s + (e + 150) * 2 ^ 23 + (Z.pos m - 2 ^ 23)
  end.

Definition float_of_bits (b : Z) : float :=
  let s := Z.testbit b 31 in
  let ex := (b / 2 ^ 23) mod 256 in
  let frac := b mod 2 ^ 23 in
  if ex =? 0 then
    match frac with Z.pos m => S754_finite s m (-149) | _ => S754_zero s end
  else if ex =? 255 then
    (if frac =? 0 then S754_infinity s else S754_nan)
  else
    match frac + 2 ^ 23 with Z.pos m => S754_finite s m (ex - 150) | _ => S754_nan end.

(** The object whose [n] lowest-addressed bytes come from [src] and whose
    other bytes come from [dst] (little-endian storage). *)
Definition splice_bytes (n : nat) (src dst : float) : float :=
  let w := 2 ^ (8 * Z.of_nat n) in
  float_of_bits (bits_of_float dst / w * w + bits_of_float src mod w).

End Float32.

Import Float32.

#[global] Instance float_inhabited : Inhabited float := populate fzero.

(** ** Arrays of [float] *)

Module CArray.

Local Open Scope nat_scope.

Definition sizeof_float : nat := 4.
Definition sizeof_int : nat := 4.

(** [calloc(n, sizeof(float))]: [n] floats with all bits zero. *)
Definition calloc (n : nat) : list float := replicate n fzero.

(** [memcpy(dst, src, nbytes)] between arrays of [float]: the whole
    elements covered by [nbytes] are replaced, and an element covered in part
    receives its first bytes only. *)
Definition memcpy (dst src : list float) (nbytes : nat) : list float :=
  let whole := nbytes / sizeof_float in
  let part := nbytes mod sizeof_float in
  imap (fun i d =>
          if i <? whole then src !!! i
          else if (i =? whole) && negb (part =? 0) then splice_bytes part (src !!! i) d
          else d) dst.

(** [memset(a, 0, nbytes)] on an array of [float]. *)
Definition memset_zero (a : list float) (nbytes : nat) : list float :=
  memcpy a (replicate (length a) fzero) nbytes.

(** The loop [for (k = lo; k < lo + n; k++) body]. *)
Definition for_range {A : Type} (lo n : nat) (body : nat -> A -> A) (a : A) : A :=
  fold_left (fun acc k => body k acc) (seq lo n) a.

(** The loop [for (k = 1; k <= half; k++) body] over the bins above DC. *)
Definition for_bins {A : Type} (half : nat) (body : nat -> A -> A) (a : A) : A :=
  for_range 1 half body a.

(** The loops whose body is the assignment [a[k] = f k a[k]]. *)
Definition update_range (lo n : nat) (f : nat -> float -> float) (a : list float)
  : list float :=
  for_range lo n (fun k acc => <[k := f k (acc !!! k)]> acc) a.

Definition update_bins (half : nat) (f : nat -> float -> float) (a : list float)
  : list float :=
  update_range 1 half f a.

End CArray.

(** ** IEEE binary64, for the [double] sub-expressions *)

Module Float64.

Definition prec : Z := 53.
Definition emax : Z := 1024.

Definition dmul : float -> float -> float := SFmul prec emax.
Definition ddiv : float -> float -> float := SFdiv prec emax.
Definition dadd : float -> float -> float := SFadd prec emax.
Definition dsub : float -> float -> float := SFsub prec emax.
Definition of_Z (z : Z) : float := binary_normalize prec emax z 0 false.

(** A decimal literal [n/d] of type [double]. *)
Definition lit (n d : Z) : float := ddiv (of_Z n) (of_Z d).

(** Conversions between [float] and [double]. *)
Definition of_float (x : float) : float :=
  match x with S754_finite s m e => binary_round prec emax s m e | _ => x end.
Definition to_float (x : float) : float :=
  match x with
  | S754_finite s m e => binary_round Float32.prec Float32.emax s m e
  | _ => x
  end.

(** [M_PI] of <math.h>, 3.14159265358979323846. *)
Definition M_PI : float := S754_finite false 7074237752028440 (-51).

End Float64.

(** ** <math.h>

    The transcendental functions of the C library are not fixed bit for bit
    by the C standard; the code is modelled over any implementation of
    them.  [sqrtf] is correctly rounded and needs no parameter. *)
Class Libm := {
  expf : float -> float;
  log10f : float -> float;
  powf : float -> float -> float;
  sinf : float -> float;
  cosf : float -> float;
  atan2f : float -> float -> float }.

Definition sqrtf : float -> float := SFsqrt Float32.prec Float32.emax.

(** ** The numbers binary32 denotes

    The arithmetic of [SpecFloat] works on mantissas and exponents.  To
    compare results of [+], [-] and [*] on [float] with the numbers they
    stand for, a finite [float] is given its value, scaled by [2^298] so
    that every binary32 number, and every product of two of them, is an
    integer (the least positive binary32 number is [2^-149]). *)

Module Rounding.

(** The scale: the value [x] is represented by the integer [x * 2^K]. *)
Definition K : Z := 298.

(** The scaled value of [m * 2^e]. *)
Definition Val (m e : Z) : Z := m * 2 ^ (e + K).

(** The scaled value of a [float] (0 for an infinity or a NaN, which have
    none). *)
Definition F2Z (x : spec_float) : Z :=
  match x with
  | S754_finite s m e => if s then - Val (Z.pos m) e else Val (Z.pos m) e
  | _ => 0
  end.

(** The number of binary digits of a positive scaled value. *)
Definition mag (v : Z) : Z := Z.log2 v + 1.

(** The exponent of the last place binary32 keeps of a scaled value: 24
    digits are kept, and no digit below [2^-149] (scaled: [2^149]). *)
Definition cexp (v : Z) : Z := Z.max (mag v - 24) 149.

(** [v / 2^s] rounded to the nearest integer, a tie to the even one. *)
Definition rne (v s : Z) : Z :=
  let q := v / 2 ^ s in
  let r := v mod 2 ^ s in
  let h := 2 ^ (s - 1) in
  q + (if (h <? r) || ((r =? h) && Z.odd q) then 1 else 0).

(** Rounding to nearest even of a nonnegative scaled value to binary32, and
    of a value of either sign. *)
Definition rnd (v : Z) : Z := rne v (cexp v) * 2 ^ (cexp v).

Definition rnds (z : Z) : Z := if z <? 0 then - rnd (- z) else rnd z.

Abbreviation fexp32 := (fexp 24 128).

(** A mantissa and an exponent in the form binary32 stores them. *)
Definition canonical32 (m : positive) (e : Z) : Prop :=
  fexp32 (Z.pos (digits2_pos m) + e) = e.

(** A zero or a finite number within the format. *)
Definition finite32 (x : spec_float) : Prop :=
  valid_binary 24 128 x = true
  /\ match x with S754_zero _ | S754_finite _ _ _ => True | _ => False end.

(** The scaled values of 1, of [FLT_MIN] = 2^-126 and of 2^-24, half the
    distance from 1 to the next binary32 number. *)
Definition s_one : Z := 2 ^ K.
Definition s_min : Z := 2 ^ 172.
Definition s_ulp : Z := 2 ^ 274.

End Rounding.

(** ** src/src/spectral_processor.c *)

Module SpectralProcessor.

Import CArray.
Local Open Scope nat_scope.

Definition WHITENING_DECAY_RATE : float := Float32.of_Z 1000.
Definition WHITENING_FLOOR : float := lit 2 100.

Record SoftBypass := {
  tau : float;
  wet_dry_target : float;
  wet_dry : float }.

Record Whitening := {
  residual_max_spectrum : list float;
  whitened_residual_spectrum : list float;
  max_decay_rate : float;
  whitening_window_count : Z (* uint32_t *) }.

Record SpectralDenoiseBuilder := {
  gain_spectrum : list float;
  residual_spectrum : list float;
  denoised_spectrum : list float }.

(** Of the three pointers of [ProcessingSpectrums] only [power_spectrum] is
    ever allocated or used. *)
Record ProcessingSpectrums := {
  power_spectrum : list float }.

(** [ProcessorParameters], declared in spectral_processor.h; the fields are
    the ones [spectral_processor_run] reads. *)
Record ProcessorParameters := {
  enable : bool;
  learn_noise : bool;
  residual_listen : bool;
  transient_threshold : float;
  masking_ceiling_limit : float;
  release_time : float;
  noise_rescale : float;
  reduction_amount : float;
  whitening_factor : float }.

(** The gain and noise estimators (gain_estimator.h, noise_estimator.h) and
    the power spectrum of spectral_utils.h are used by this file and defined
    elsewhere: they form an interface.  An estimator call receives the
    buffers it is passed and returns the ones it may write. *)
Class Estimators := {
  GainEstimator : Type;
  NoiseEstimator : Type;
  gain_estimation_initialize : nat -> nat -> nat -> GainEstimator;
  noise_estimation_initialize : nat -> NoiseEstimator;
  gain_estimation_run :
    GainEstimator -> list float -> list float -> list float ->
    float -> float -> float -> float -> GainEstimator * list float;
  noise_estimation_run :
    NoiseEstimator -> list float -> list float -> NoiseEstimator * list float;
  is_noise_estimation_available : NoiseEstimator -> bool;
  get_fft_power_spectrum : list float -> nat -> list float -> nat -> list float }.

Section WithEstimators.

Context `{Libm} `{Estimators}.

Record SpectralProcessor := {
  fft_size : nat;
  half_fft_size : nat;
  sample_rate : nat;
  hop : nat;
  fft_spectrum : list float;
  processed_fft_spectrum : list float;
  crossfade_spectrum : SoftBypass;
  whiten_spectrum : Whitening;
  denoise_builder : SpectralDenoiseBuilder;
  processing_spectrums : ProcessingSpectrums;
  gain_estimation : GainEstimator;
  noise_estimation : NoiseEstimator }.

(** Field assignments. *)
Definition set_fft_spectrum (v : list float) (s : SpectralProcessor) :=
  {| fft_size := fft_size s; half_fft_size := half_fft_size s;
     sample_rate := sample_rate s; hop := hop s;
     fft_spectrum := v;
     processed_fft_spectrum := processed_fft_spectrum s;
     crossfade_spectrum := crossfade_spectrum s;
     whiten_spectrum := whiten_spectrum s;
     denoise_builder := denoise_builder s;
     processing_spectrums := processing_spectrums s;
     gain_estimation := gain_estimation s;
     noise_estimation := noise_estimation s |}.

Definition set_processed_fft_spectrum (v : list float) (s : SpectralProcessor) :=
  {| fft_size := fft_size s; half_fft_size := half_fft_size s;
     sample_rate := sample_rate s; hop := hop s;
     fft_spectrum := fft_spectrum s;
     processed_fft_spectrum := v;
     crossfade_spectrum := crossfade_spectrum s;
     whiten_spectrum := whiten_spectrum s;
     denoise_builder := denoise_builder s;
     processing_spectrums := processing_spectrums s;
     gain_estimation := gain_estimation s;
     noise_estimation := noise_estimation s |}.

Definition set_crossfade_spectrum (v : SoftBypass) (s : SpectralProcessor) :=
  {| fft_size := fft_size s; half_fft_size := half_fft_size s;
     sample_rate := sample_rate s; hop := hop s;
     fft_spectrum := fft_spectrum s;
     processed_fft_spectrum := processed_fft_spectrum s;
     crossfade_spectrum := v;
     whiten_spectrum := whiten_spectrum s;
     denoise_builder := denoise_builder s;
     processing_spectrums := processing_spectrums s;
     gain_estimation := gain_estimation s;
     noise_estimation := noise_estimation s |}.

Definition set_whiten_spectrum (v : Whitening) (s : SpectralProcessor) :=
  {| fft_size := fft_size s; half_fft_size := half_fft_size s;
     sample_rate := sample_rate s; hop := hop s;
     fft_spectrum := fft_spectrum s;
     processed_fft_spectrum := processed_fft_spectrum s;
     crossfade_spectrum := crossfade_spectrum s;
     whiten_spectrum := v;
     denoise_builder := denoise_builder s;
     processing_spectrums := processing_spectrums s;
     gain_estimation := gain_estimation s;
     noise_estimation := noise_estimation s |}.

Definition set_denoise_builder (v : SpectralDenoiseBuilder) (s : SpectralProcessor) :=
  {| fft_size := fft_size s; half_fft_size := half_fft_size s;
     sample_rate := sample_rate s; hop := hop s;
     fft_spectrum := fft_spectrum s;
     processed_fft_spectrum := processed_fft_spectrum s;
     crossfade_spectrum := crossfade_spectrum s;
     whiten_spectrum := whiten_spectrum s;
     denoise_builder := v;
     processing_spectrums := processing_spectrums s;
     gain_estimation := gain_estimation s;
     noise_estimation := noise_estimation s |}.

Definition set_processing_spectrums (v : ProcessingSpectrums) (s : SpectralProcessor) :=
  {| fft_size := fft_size s; half_fft_size := half_fft_size s;
     sample_rate := sample_rate s; hop := hop s;
     fft_spectrum := fft_spectrum s;
     processed_fft_spectrum := processed_fft_spectrum s;
     crossfade_spectrum := crossfade_spectrum s;
     whiten_spectrum := whiten_spectrum s;
     denoise_builder := denoise_builder s;
     processing_spectrums := v;
     gain_estimation := gain_estimation s;
     noise_estimation := noise_estimation s |}.

Definition set_gain_estimation (v : GainEstimator) (s : SpectralProcessor) :=
  {| fft_size := fft_size s; half_fft_size := half_fft_size s;
     sample_rate := sample_rate s; hop := hop s;
     fft_spectrum := fft_spectrum s;
     processed_fft_spectrum := processed_fft_spectrum s;
     crossfade_spectrum := crossfade_spectrum s;
     whiten_spectrum := whiten_spectrum s;
     denoise_builder := denoise_builder s;
     processing_spectrums := processing_spectrums s;
     gain_estimation := v;
     noise_estimation := noise_estimation s |}.

Definition set_noise_estimation (v : NoiseEstimator) (s : SpectralProcessor) :=
  {| fft_size := fft_size s; half_fft_size := half_fft_size s;
     sample_rate := sample_rate s; hop := hop s;
     fft_spectrum := fft_spectrum s;
     processed_fft_spectrum := processed_fft_spectrum s;
     crossfade_spectrum := crossfade_spectrum s;
     whiten_spectrum := whiten_spectrum s;
     denoise_builder := denoise_builder s;
     processing_spectrums := processing_spectrums s;
     gain_estimation := gain_estimation s;
     noise_estimation := v |}.

Definition set_wet_dry (target w : float) (c : SoftBypass) : SoftBypass :=
  {| tau := tau c; wet_dry_target := target; wet_dry := w |}.

Definition set_gain_spectrum (v : list float) (b : SpectralDenoiseBuilder) :=
  {| gain_spectrum := v; residual_spectrum := residual_spectrum b;
     denoised_spectrum := denoised_spectrum b |}.
Definition set_residual_spectrum (v : list float) (b : SpectralDenoiseBuilder) :=
  {| gain_spectrum := gain_spectrum b; residual_spectrum := v;
     denoised_spectrum := denoised_spectrum b |}.
Definition set_denoised_spectrum (v : list float) (b : SpectralDenoiseBuilder) :=
  {| gain_spectrum := gain_spectrum b; residual_spectrum := residual_spectrum b;
     denoised_spectrum := v |}.

(** [uint32_t] increment. *)
Definition uint32_incr (n : Z) : Z := ((n + 1) mod 2 ^ 32)%Z.

Definition spectral_processor_initialize
    (sample_rate0 fft_size0 overlap_factor : nat) : SpectralProcessor :=
  let half := fft_size0 / 2 in
  let hop0 := fft_size0 / overlap_factor in
  {| fft_size := fft_size0;
     half_fft_size := half;
     sample_rate := sample_rate0;
     hop := hop0;
     fft_spectrum := calloc fft_size0;
     processed_fft_spectrum := calloc (half + 1);
     gain_estimation := gain_estimation_initialize fft_size0 sample_rate0 hop0;
     noise_estimation := noise_estimation_initialize fft_size0;
     processing_spectrums := {| power_spectrum := calloc (half + 1) |};
     denoise_builder :=
       {| residual_spectrum := calloc (half + 1);
          denoised_spectrum := calloc (half + 1);
          gain_spectrum := calloc (half + 1) |};
     crossfade_spectrum :=
       {| tau :=
            fsub fone
              (expf (Float64.to_float
                 (Float64.ddiv
                    (Float64.dmul
                       (Float64.dmul
                          (Float64.dmul (Float64.of_float (Float32.of_Z (-2)))
                                        Float64.M_PI)
                          (Float64.of_float (Float32.of_Z 25)))
                       (Float64.of_float (Float32.of_Z 64)))
                    (Float64.of_Z (Z.of_nat sample_rate0)))));
          wet_dry_target := fzero;
          wet_dry := fzero |};
     whiten_spectrum :=
       {| whitened_residual_spectrum := calloc (half + 1);
          residual_max_spectrum := calloc (half + 1);
          max_decay_rate :=
            expf (fdiv (Float32.of_Z (-1000))
                       (fdiv (fmul WHITENING_DECAY_RATE
                                   (Float32.of_Z (Z.of_nat sample_rate0)))
                             (Float32.of_Z (Z.of_nat hop0))));
          whitening_window_count := 0%Z |} |}.

Definition is_empty (spectrum : list float) (half : nat) : bool :=
  forallb (fun k => negb (fgt (spectrum !!! k) FLT_MIN)) (seq 1 half).

Definition fft_denoiser_update_wetdry_target
    (self : SpectralProcessor) (enable0 : bool) : SpectralProcessor :=
  let c := crossfade_spectrum self in
  let target := if enable0 then fone else fzero in
  set_crossfade_spectrum
    (set_wet_dry target
       (fadd (wet_dry c)
             (fadd (fmul (tau c) (fsub target (wet_dry c))) FLT_MIN)) c)
    self.

Definition fft_denoiser_soft_bypass (self : SpectralProcessor) : SpectralProcessor :=
  let w := wet_dry (crossfade_spectrum self) in
  set_processed_fft_spectrum
    (update_bins (half_fft_size self)
       (fun k p => fadd (fmul (fsub fone w) (fft_spectrum self !!! k)) (fmul p w))
       (processed_fft_spectrum self))
    self.

Definition get_denoised_spectrum (self : SpectralProcessor) : SpectralProcessor :=
  let b := denoise_builder self in
  set_denoise_builder
    (set_denoised_spectrum
       (update_bins (half_fft_size self)
          (fun k _ => fmul (fft_spectrum self !!! k) (gain_spectrum b !!! k))
          (denoised_spectrum b)) b)
    self.

(** One pass of the second loop of [residual_spectrum_whitening], on the
    pair (whitened residual, residual). *)
Definition whiten_bin (residual_max : list float) (whitening_factor0 : float)
    (k : nat) (wr : list float * list float) : list float * list float :=
  let '(whitened, residual) := wr in
  if fgt (residual !!! k) FLT_MIN then
    let whitened' := <[k := fdiv (residual !!! k) (residual_max !!! k)]> whitened in
    (whitened',
     <[k := fadd (fmul (fsub fone whitening_factor0) (residual !!! k))
                 (fmul whitening_factor0 (whitened' !!! k))]> residual)
  else wr.

Definition residual_spectrum_whitening
    (self : SpectralProcessor) (whitening_factor0 : float) : SpectralProcessor :=
  let w := whiten_spectrum self in
  let b := denoise_builder self in
  let count := uint32_incr (whitening_window_count w) in
  let residual_max :=
    update_bins (half_fft_size self)
      (fun k old =>
         if fgt (Float32.of_Z count) fone then
           fmaxf (fmaxf (residual_spectrum b !!! k) WHITENING_FLOOR)
                 (fmul old (max_decay_rate w))
         else fmaxf (residual_spectrum b !!! k) WHITENING_FLOOR)
      (residual_max_spectrum w) in
  let '(whitened, residual) :=
    for_bins (half_fft_size self) (whiten_bin residual_max whitening_factor0)
      (whitened_residual_spectrum w, residual_spectrum b) in
  set_denoise_builder (set_residual_spectrum residual b)
    (set_whiten_spectrum
       {| residual_max_spectrum := residual_max;
          whitened_residual_spectrum := whitened;
          max_decay_rate := max_decay_rate w;
          whitening_window_count := count |}
       self).

Definition get_residual_spectrum
    (self : SpectralProcessor) (whitening_factor0 : float) : SpectralProcessor :=
  let b := denoise_builder self in
  let self1 :=
    set_denoise_builder
      (set_residual_spectrum
         (update_bins (half_fft_size self)
            (fun k _ => fsub (fft_spectrum self !!! k) (denoised_spectrum b !!! k))
            (residual_spectrum b)) b)
      self in
  if fgt whitening_factor0 fzero then residual_spectrum_whitening self1 whitening_factor0
  else self1.

Definition get_final_spectrum (self : SpectralProcessor)
    (residual_listen0 : bool) (reduction_amount0 : float) : SpectralProcessor :=
  let b := denoise_builder self in
  set_processed_fft_spectrum
    (if residual_listen0 then
       update_bins (half_fft_size self) (fun k _ => residual_spectrum b !!! k)
         (processed_fft_spectrum self)
     else
       update_bins (half_fft_size self)
         (fun k _ => fadd (denoised_spectrum b !!! k)
                          (fmul (residual_spectrum b !!! k) reduction_amount0))
         (processed_fft_spectrum self))
    self.

(** The denoising branch of [spectral_processor_run], taken when the frame
    is not empty, learning is off and a noise estimate is available. *)
Definition denoise_frame (self : SpectralProcessor) (p : ProcessorParameters)
    (noise_spectrum : list float) : SpectralProcessor :=
  let '(ge, gain) :=
    gain_estimation_run (gain_estimation self)
      (power_spectrum (processing_spectrums self)) noise_spectrum
      (gain_spectrum (denoise_builder self))
      (transient_threshold p) (masking_ceiling_limit p) (release_time p)
      (noise_rescale p) in
  let self1 :=
    set_denoise_builder (set_gain_spectrum gain (denoise_builder self))
      (set_gain_estimation ge self) in
  get_final_spectrum
    (get_residual_spectrum (get_denoised_spectrum self1) (whitening_factor p))
    (residual_listen p) (reduction_amount p).

(** The first statements of [spectral_processor_run]: the crossfade level
    advances, the caller's spectrum is copied in, its power spectrum is
    taken. *)
Definition frame_loaded (self : SpectralProcessor) (p : ProcessorParameters)
    (fft_spectrum0 : list float) : SpectralProcessor :=
  let self1 := fft_denoiser_update_wetdry_target self (enable p) in
  let self2 :=
    set_fft_spectrum
      (memcpy (fft_spectrum self1) fft_spectrum0 (sizeof_float * fft_size self1))
      self1 in
  set_processing_spectrums
    {| power_spectrum :=
         get_fft_power_spectrum (fft_spectrum self2) (fft_size self2)
           (power_spectrum (processing_spectrums self2)) (half_fft_size self2) |}
    self2.

(** [spectral_processor_run]: the new processor, the noise profile array
    behind [self->noise_profile] and the caller's buffer after the call. *)
Definition spectral_processor_run (self : SpectralProcessor)
    (p : ProcessorParameters) (noise_spectrum : list float)
    (fft_spectrum0 : list float)
  : SpectralProcessor * list float * list float :=
  let self3 := frame_loaded self p fft_spectrum0 in
  let '(self4, noise') :=
    if negb (is_empty (power_spectrum (processing_spectrums self3))
                      (half_fft_size self3)) then
      if learn_noise p then
        let '(ne, noise1) :=
          noise_estimation_run (noise_estimation self3) noise_spectrum
            (power_spectrum (processing_spectrums self3)) in
        (set_noise_estimation ne self3, noise1)
      else if is_noise_estimation_available (noise_estimation self3) then
        (denoise_frame self3 p noise_spectrum, noise_spectrum)
      else (self3, noise_spectrum)
    else (self3, noise_spectrum) in
  let self5 := fft_denoiser_soft_bypass self4 in
  (self5, noise',
   memcpy fft_spectrum0 (processed_fft_spectrum self5)
     (sizeof_float * half_fft_size self5 + 1)).

(** The crossfade coefficient and the crossfade level are numbers between
    0 and 1. *)
Definition crossfade_in_range (self : SpectralProcessor) : bool :=
  let c := crossfade_spectrum self in
  is_binary32 (tau c) && fle fzero (tau c) && fle (tau c) fone
  && is_binary32 (wet_dry c) && fle fzero (wet_dry c) && fle (wet_dry c) fone.

(** The states an engine goes through: the initial one, and the one after
    each frame, for any parameters, noise profile and spectrum handed in. *)
Inductive reachable : SpectralProcessor -> Prop :=
  | reachable_init sample_rate0 fft_size0 overlap_factor :
      reachable (spectral_processor_initialize sample_rate0 fft_size0 overlap_factor)
  | reachable_run self p noise_spectrum fft_spectrum0 :
      reachable self ->
      reachable (spectral_processor_run self p noise_spectrum fft_spectrum0).1.1.

(** The floor on the bins above DC, and the length that keeps them in
    range. *)
Definition floor_holds (self : SpectralProcessor) : Prop :=
  length (residual_max_spectrum (whiten_spectrum self)) = half_fft_size self + 1
  /\ ((1 <= whitening_window_count (whiten_spectrum self))%Z ->
      forall k, 1 <= k <= half_fft_size self ->
        exists v, residual_max_spectrum (whiten_spectrum self) !! k = Some v
                  /\ fle WHITENING_FLOOR v = true).

End WithEstimators.

Arguments SpectralProcessor {_}.

End SpectralProcessor.

(** ** src/src/spectral_processor.c: the branches of a frame *)

Module SpectralFrames.

Import CArray SpectralProcessor.
Local Open Scope nat_scope.

Section WithEstimators.

Context `{Libm} `{Estimators}.

(** The condition under which [spectral_processor_run] reaches
    [gain_estimation_run]: the loaded frame is not empty, [learn_noise] is off
    and a noise estimate is available. *)
Definition frame_is_denoised (self : SpectralProcessor) (p : ProcessorParameters)
    (fft_spectrum0 : list float) : bool :=
  let self3 := frame_loaded self p fft_spectrum0 in
  negb (is_empty (power_spectrum (processing_spectrums self3)) (half_fft_size self3))
  && negb (learn_noise p)
  && is_noise_estimation_available (noise_estimation self3).

(** The condition under which it reaches [noise_estimation_run]. *)
Definition frame_is_learned (self : SpectralProcessor) (p : ProcessorParameters)
    (fft_spectrum0 : list float) : bool :=
  let self3 := frame_loaded self p fft_spectrum0 in
  negb (is_empty (power_spectrum (processing_spectrums self3)) (half_fft_size self3))
  && learn_noise p.

(** The arrays the processor allocates itself have the sizes
    [spectral_processor_initialize] asked [calloc] for. *)
Definition arrays_allocated (self : SpectralProcessor) : Prop :=
  half_fft_size self = fft_size self / 2
  /\ length (fft_spectrum self) = fft_size self
  /\ length (processed_fft_spectrum self) = half_fft_size self + 1
  /\ length (residual_spectrum (denoise_builder self)) = half_fft_size self + 1
  /\ length (denoised_spectrum (denoise_builder self)) = half_fft_size self + 1
  /\ length (residual_max_spectrum (whiten_spectrum self)) = half_fft_size self + 1
  /\ length (whitened_residual_spectrum (whiten_spectrum self)) = half_fft_size self + 1.

(** An estimator of the C code writes into the array it is handed: the gain
    estimator into [gain_spectrum], [get_fft_power_spectrum] into
    [power_spectrum].  Neither can change the size of what it writes to. *)
Definition estimators_keep_lengths : Prop :=
  (forall ge power noise gain transient masking release rescale,
     length (gain_estimation_run ge power noise gain transient masking release rescale).2
     = length gain)
  /\ (forall spectrum n power half,
        length (get_fft_power_spectrum spectrum n power half) = length power).

(** The two arrays the estimators write have the sizes
    [spectral_processor_initialize] asked [calloc] for. *)
Definition estimated_arrays_allocated (self : SpectralProcessor) : Prop :=
  length (gain_spectrum (denoise_builder self)) = half_fft_size self + 1
  /\ length (power_spectrum (processing_spectrums self)) = half_fft_size self + 1.

End WithEstimators.

End SpectralFrames.

(** ** subprojects/libnrepel/src/denoiser/masking_estimator.c *)

Module MaskingEstimator.

Import CArray.
Local Open Scope nat_scope.

Definition N_BARK_BANDS : nat := 25.
(** [#define BIAS 0]: the block under [#if BIAS] is not compiled. *)
Definition BIAS : bool := false.
Definition HIGH_FREQ_BIAS : float := Float32.of_Z 20.

(** The table under [#if BIAS]. *)
Definition relative_thresholds : list float :=
  map Float32.of_Z
    [-16; -17; -18; -19; -20; -21; -22; -23; -24; -25; -25; -25; -25; -25; -25;
     -24; -23; -22; -19; -18; -18; -18; -18; -18; -18]%Z.

(** Modelled from the spec: the SPL converter of
    shared/spl_spectrum_converter.h, which is not under src/.  It holds the
    calibration [spl_reference], and [convert_spectrum_to_dbspl] adds
    [spl_reference[k]] to every bin. *)
Record SplSpectrumConverter := {
  spl_half_fft_size : nat;
  spl_reference_values : list float }.

Definition convert_spectrum_to_dbspl (c : SplSpectrumConverter)
    (spectrum : list float) : list float :=
  update_range 0 (spl_half_fft_size c + 1)
    (fun k v => fadd v (spl_reference_values c !!! k)) spectrum.

(** Modelled from the spec: [naive_matrix_to_vector_spectral_convolution] of
    shared/spectral_utils.h, which is not under src/: the product of the
    row-major [n] by [n] spreading matrix with the Bark spectrum. *)
Definition naive_matrix_to_vector_spectral_convolution
    (matrix vector out : list float) (n : nat) : list float :=
  for_range 0 n
    (fun i acc =>
       for_range 0 n
         (fun j acc' =>
            <[i := fadd (acc' !!! i) (fmul (matrix !!! (i * n + j)) (vector !!! j))]> acc')
         (<[i := fzero]> acc))
    out.

Record MaskingEstimator := {
  fft_size : nat;
  half_fft_size : nat;
  sample_rate : nat;
  reference_spectrum : SplSpectrumConverter;
  bark_z_spectrum : list float;
  absolute_thresholds : list float;
  spectral_spreading_function : list float;
  unity_gain_bark_spectrum : list float;
  spreaded_unity_gain_bark_spectrum : list float;
  intermediate_band_bins : list float;
  n_bins_per_band : list float;
  bark_spectrum : list float;
  threshold_j : list float;
  masking_offset : list float;
  spreaded_spectrum : list float }.

(** The scratch arrays a call writes. *)
Definition set_bands (bark n_bins inter : list float) (s : MaskingEstimator) :=
  {| fft_size := fft_size s; half_fft_size := half_fft_size s;
     sample_rate := sample_rate s; reference_spectrum := reference_spectrum s;
     bark_z_spectrum := bark_z_spectrum s;
     absolute_thresholds := absolute_thresholds s;
     spectral_spreading_function := spectral_spreading_function s;
     unity_gain_bark_spectrum := unity_gain_bark_spectrum s;
     spreaded_unity_gain_bark_spectrum := spreaded_unity_gain_bark_spectrum s;
     intermediate_band_bins := inter;
     n_bins_per_band := n_bins;
     bark_spectrum := bark;
     threshold_j := threshold_j s;
     masking_offset := masking_offset s;
     spreaded_spectrum := spreaded_spectrum s |}.

Definition set_spreaded_spectrum (v : list float) (s : MaskingEstimator) :=
  {| fft_size := fft_size s; half_fft_size := half_fft_size s;
     sample_rate := sample_rate s; reference_spectrum := reference_spectrum s;
     bark_z_spectrum := bark_z_spectrum s;
     absolute_thresholds := absolute_thresholds s;
     spectral_spreading_function := spectral_spreading_function s;
     unity_gain_bark_spectrum := unity_gain_bark_spectrum s;
     spreaded_unity_gain_bark_spectrum := spreaded_unity_gain_bark_spectrum s;
     intermediate_band_bins := intermediate_band_bins s;
     n_bins_per_band := n_bins_per_band s;
     bark_spectrum := bark_spectrum s;
     threshold_j := threshold_j s;
     masking_offset := masking_offset s;
     spreaded_spectrum := v |}.

Definition set_band_threshold (offsets thresholds : list float) (s : MaskingEstimator) :=
  {| fft_size := fft_size s; half_fft_size := half_fft_size s;
     sample_rate := sample_rate s; reference_spectrum := reference_spectrum s;
     bark_z_spectrum := bark_z_spectrum s;
     absolute_thresholds := absolute_thresholds s;
     spectral_spreading_function := spectral_spreading_function s;
     unity_gain_bark_spectrum := unity_gain_bark_spectrum s;
     spreaded_unity_gain_bark_spectrum := spreaded_unity_gain_bark_spectrum s;
     intermediate_band_bins := intermediate_band_bins s;
     n_bins_per_band := n_bins_per_band s;
     bark_spectrum := bark_spectrum s;
     threshold_j := thresholds;
     masking_offset := offsets;
     spreaded_spectrum := spreaded_spectrum s |}.

(** The [while] of [compute_bark_spectrum]: bins are added to the band while
    [floorf(bark_z[last_position + counter]) == band]; the result is the
    final [counter] and the band's sum.  The C loop has no bound of its own:
    here a read past the end of [bark_z] ends it. *)
Fixpoint bark_band_scan (fuel : nat) (bark_z spectrum : list float) (band : float)
    (last_position counter : nat) (sum : float) : nat * float :=
  match fuel with
  | O => (counter, sum)
  | S fuel' =>
      match bark_z !! (last_position + counter) with
      | Some z =>
          if feq (floorf z) band then
            bark_band_scan fuel' bark_z spectrum band last_position (counter + 1)
              (fadd sum (spectrum !!! (last_position + counter)))
          else (counter, sum)
      | None => (counter, sum)
      end
  end.

Definition compute_bark_spectrum (self : MaskingEstimator) (spectrum : list float)
  : MaskingEstimator :=
  let '(_, bark, n_bins, inter) :=
    for_range 0 N_BARK_BANDS
      (fun j '(last_position, bark, n_bins, inter) =>
         let '(counter, sum) :=
           bark_band_scan (length (bark_z_spectrum self)) (bark_z_spectrum self)
             spectrum (Float32.of_Z (Z.of_nat (j + 1))) last_position
             (if j =? 0 then 1 else 0) fzero in
         let last_position' := last_position + counter in
         (last_position',
          <[j := sum]> bark,
          <[j := Float32.of_Z (Z.of_nat counter)]> n_bins,
          <[j := Float32.of_Z (Z.of_nat last_position')]> inter))
      (0, bark_spectrum self, n_bins_per_band self, intermediate_band_bins self) in
  set_bands bark n_bins inter self.

Section WithLibm.

Context `{Libm}.

(** The spectral flatness measure of [compute_tonality_factor]. *)
Definition SFM (self : MaskingEstimator) (spectrum : list float) (band : nat) : float :=
  let start_pos :=
    if band =? 0 then band
    else Z.to_nat (to_Z (intermediate_band_bins self !!! (band - 1))) in
  let end_pos :=
    if band =? 0 then Z.to_nat (to_Z (n_bins_per_band self !!! band))
    else Z.to_nat (to_Z (fadd (intermediate_band_bins self !!! (band - 1))
                              (n_bins_per_band self !!! band))) in
  let '(sum_bins, sum_log_bins) :=
    for_range start_pos (end_pos - start_pos)
      (fun k '(sum_bins, sum_log_bins) =>
         (fadd sum_bins (spectrum !!! k),
          fadd sum_log_bins (log10f (spectrum !!! k))))
      (fzero, fzero) in
  fmul (Float32.of_Z 10)
       (fsub (fdiv sum_log_bins (n_bins_per_band self !!! band))
             (log10f (fdiv sum_bins (n_bins_per_band self !!! band)))).

Definition compute_tonality_factor (self : MaskingEstimator)
    (spectrum : list float) (band : nat) : float :=
  fminf (fdiv (SFM self spectrum band) (Float32.of_Z (-60))) fone.

(** The offset of band [j] for a tonality factor. *)
Definition tonality_offset (tonality_factor : float) (j : nat) : float :=
  fadd (fmul tonality_factor (fadd (lit 145 10) (Float32.of_Z (Z.of_nat (j + 1)))))
       (fmul (lit 55 10) (fsub fone tonality_factor)).

(** One pass of the loop over the Bark bands, on the estimator and the
    caller's [masking_thresholds]. *)
Definition band_threshold (spectrum : list float) (j : nat)
    (st : MaskingEstimator * list float) : MaskingEstimator * list float :=
  let '(self, masking_thresholds) := st in
  let tonality_factor := compute_tonality_factor self spectrum j in
  let offsets0 := <[j := tonality_offset tonality_factor j]> (masking_offset self) in
  let offsets :=
    if BIAS then
      let offsets1 := <[j := relative_thresholds !!! j]> offsets0 in
      if 15 <? j then <[j := fadd (offsets1 !!! j) HIGH_FREQ_BIAS]> offsets1
      else offsets1
    else offsets0 in
  let threshold :=
    fsub (powf (Float32.of_Z 10)
               (fsub (log10f (spreaded_spectrum self !!! j))
                     (fdiv (offsets !!! j) (Float32.of_Z 10))))
         (fmul (Float32.of_Z 10)
               (log10f (spreaded_unity_gain_bark_spectrum self !!! j))) in
  let thresholds := <[j := threshold]> (threshold_j self) in
  let start_pos :=
    if j =? 0 then 0 else Z.to_nat (to_Z (intermediate_band_bins self !!! (j - 1))) in
  let end_pos := Z.to_nat (to_Z (intermediate_band_bins self !!! j)) in
  (set_band_threshold offsets thresholds self,
   for_range start_pos (end_pos - start_pos)
     (fun k acc => <[k := thresholds !!! j]> acc) masking_thresholds).

(** The estimator and the caller's array after all bands. *)
Definition band_thresholds (self : MaskingEstimator)
    (spectrum masking_thresholds : list float) : MaskingEstimator * list float :=
  let self1 := compute_bark_spectrum self spectrum in
  let self2 :=
    set_spreaded_spectrum
      (naive_matrix_to_vector_spectral_convolution
         (spectral_spreading_function self1) (bark_spectrum self1)
         (spreaded_spectrum self1) N_BARK_BANDS)
      self1 in
  for_range 0 N_BARK_BANDS (band_threshold spectrum) (self2, masking_thresholds).

(** [compute_masking_thresholds] on arguments that are not null: the
    estimator with its scratch arrays, the caller's [masking_thresholds] and
    the value returned. *)
Definition compute_masking_thresholds (self : MaskingEstimator)
    (spectrum masking_thresholds : list float)
  : MaskingEstimator * list float * bool :=
  let '(self3, thresholds) := band_thresholds self spectrum masking_thresholds in
  let in_dbspl := convert_spectrum_to_dbspl (reference_spectrum self3) thresholds in
  (self3,
   update_bins (half_fft_size self3)
     (fun k v => fmaxf v (absolute_thresholds self3 !!! k)) in_dbspl,
   true).

(** The invariant of the loop over the bands, before pass [i]: the band
    partition and the tables are the ones of [self0], and the offsets of the
    bands below [i] are set. *)
Definition bands_done (self0 : MaskingEstimator) (spectrum mt0 : list float) (i : nat)
    (st : MaskingEstimator * list float) : Prop :=
  intermediate_band_bins st.1 = intermediate_band_bins self0
  /\ n_bins_per_band st.1 = n_bins_per_band self0
  /\ half_fft_size st.1 = half_fft_size self0
  /\ absolute_thresholds st.1 = absolute_thresholds self0
  /\ reference_spectrum st.1 = reference_spectrum self0
  /\ length (masking_offset st.1) = length (masking_offset self0)
  /\ length st.2 = length mt0
  /\ forall j, j < i ->
       masking_offset st.1 !! j
       = Some (tonality_offset (compute_tonality_factor self0 spectrum j) j).

End WithLibm.

End MaskingEstimator.

(** ** src/src/masking_estimator.c *)

Module MaskingPlugin.

Import CArray.
Local Open Scope nat_scope.

Definition N_BARK_BANDS : nat := 25.
(** [#define BIAS 1]: the block under [#if BIAS] is compiled. *)
Definition BIAS : bool := true.
Definition HIGH_FREQ_BIAS : float := Float32.of_Z 20.

Definition relative_thresholds : list float :=
  map Float32.of_Z
    [-16; -17; -18; -19; -20; -21; -22; -23; -24; -25; -25; -25; -25; -25; -25;
     -24; -23; -22; -19; -18; -18; -18; -18; -18; -18]%Z.

Record MaskingEstimator := {
  fft_size : nat;
  half_fft_size : nat;
  samp_rate : nat;
  bark_z : list float;
  absolute_thresholds : list float;
  spl_reference_values : list float;
  input_fft_buffer_at : list float;
  output_fft_buffer_at : list float;
  spectral_spreading_function : list float;
  unity_gain_bark_spectrum : list float;
  spreaded_unity_gain_bark_spectrum : list float }.

Definition convolve_with_spectral_spreading_function (self : MaskingEstimator)
    (bark_spectrum spreaded_spectrum : list float) : list float :=
  for_range 0 N_BARK_BANDS
    (fun i acc =>
       for_range 0 N_BARK_BANDS
         (fun j acc' =>
            <[i := fadd (acc' !!! i)
                        (fmul (spectral_spreading_function self !!! (i * N_BARK_BANDS + j))
                              (bark_spectrum !!! j))]> acc')
         (<[i := fzero]> acc))
    spreaded_spectrum.

(** The [while] of [compute_bark_spectrum]; a read past the end of [bark_z]
    ends it. *)
Fixpoint bark_band_scan (fuel : nat) (bark_z0 spectrum : list float) (band : float)
    (last_position cont : nat) (sum : float) : nat * float :=
  match fuel with
  | O => (cont, sum)
  | S fuel' =>
      match bark_z0 !! (last_position + cont) with
      | Some z =>
          if feq (floorf z) band then
            bark_band_scan fuel' bark_z0 spectrum band last_position (cont + 1)
              (fadd sum (spectrum !!! (last_position + cont)))
          else (cont, sum)
      | None => (cont, sum)
      end
  end.

(** [compute_bark_spectrum]: the arrays [bark_spectrum],
    [intermediate_band_bins] and [n_bins_per_band] it fills. *)
Definition compute_bark_spectrum (self : MaskingEstimator)
    (bark_spectrum spectrum intermediate_band_bins n_bins_per_band : list float)
  : list float * list float * list float :=
  let '(_, bark, inter, n_bins) :=
    for_range 0 N_BARK_BANDS
      (fun j '(last_position, bark, inter, n_bins) =>
         let '(cont, sum) :=
           bark_band_scan (length (bark_z self)) (bark_z self) spectrum
             (Float32.of_Z (Z.of_nat (j + 1))) last_position
             (if j =? 0 then 1 else 0) fzero in
         let last_position' := last_position + cont in
         (last_position',
          <[j := sum]> bark,
          <[j := Float32.of_Z (Z.of_nat last_position')]> inter,
          <[j := Float32.of_Z (Z.of_nat cont)]> n_bins))
      (0, bark_spectrum, intermediate_band_bins, n_bins_per_band) in
  (bark, inter, n_bins).

Definition convert_to_dbspl (self : MaskingEstimator)
    (masking_thresholds : list float) : list float :=
  update_range 0 (half_fft_size self + 1)
    (fun k v => fadd v (spl_reference_values self !!! k)) masking_thresholds.

Section WithLibm.

Context `{Libm}.

Definition SFM (spectrum intermediate_band_bins n_bins_per_band : list float)
    (band : nat) : float :=
  let start_pos :=
    if band =? 0 then band
    else Z.to_nat (to_Z (intermediate_band_bins !!! (band - 1))) in
  let end_pos :=
    if band =? 0 then Z.to_nat (to_Z (n_bins_per_band !!! band))
    else Z.to_nat (to_Z (fadd (intermediate_band_bins !!! (band - 1))
                              (n_bins_per_band !!! band))) in
  let '(sum_p, sum_log_p) :=
    for_range start_pos (end_pos - start_pos)
      (fun k '(sum_p, sum_log_p) =>
         (fadd sum_p (spectrum !!! k), fadd sum_log_p (log10f (spectrum !!! k))))
      (fzero, fzero) in
  fmul (Float32.of_Z 10)
       (fsub (fdiv sum_log_p (n_bins_per_band !!! band))
             (log10f (fdiv sum_p (n_bins_per_band !!! band)))).

Definition compute_tonality_factor
    (spectrum intermediate_band_bins n_bins_per_band : list float) (band : nat) : float :=
  fminf (fdiv (SFM spectrum intermediate_band_bins n_bins_per_band band)
              (Float32.of_Z (-60))) fone.

Definition tonality_offset (tonality_factor : float) (j : nat) : float :=
  fadd (fmul tonality_factor (fadd (lit 145 10) (Float32.of_Z (Z.of_nat (j + 1)))))
       (fmul (lit 55 10) (fsub fone tonality_factor)).

(** The local arrays of [compute_masking_thresholds] that the loop over the
    bands writes, with the caller's [masking_thresholds]. *)
(** The offset under [BIAS]: the table entry, raised by [HIGH_FREQ_BIAS]
    above band 15. *)
Definition biased_offset (j : nat) : float :=
  if 15 <? j then fadd (relative_thresholds !!! j) HIGH_FREQ_BIAS
  else relative_thresholds !!! j.

Record BandLocals := {
  threshold_j : list float;
  masking_offset : list float;
  masking_thresholds_out : list float }.

Definition band_threshold (self : MaskingEstimator)
    (spectrum intermediate_band_bins n_bins_per_band spreaded_spectrum : list float)
    (j : nat) (l : BandLocals) : BandLocals :=
  let tonality_factor :=
    compute_tonality_factor spectrum intermediate_band_bins n_bins_per_band j in
  let offsets0 := <[j := tonality_offset tonality_factor j]> (masking_offset l) in
  let offsets :=
    if BIAS then
      let offsets1 := <[j := relative_thresholds !!! j]> offsets0 in
      if 15 <? j then <[j := fadd (offsets1 !!! j) HIGH_FREQ_BIAS]> offsets1
      else offsets1
    else offsets0 in
  let thresholds0 :=
    <[j := powf (Float32.of_Z 10)
                (fsub (log10f (spreaded_spectrum !!! j))
                      (fdiv (offsets !!! j) (Float32.of_Z 10)))]> (threshold_j l) in
  let thresholds :=
    <[j := fsub (thresholds0 !!! j)
                (fmul (Float32.of_Z 10)
                      (log10f (spreaded_unity_gain_bark_spectrum self !!! j)))]>
      thresholds0 in
  let start_pos :=
    if j =? 0 then 0 else Z.to_nat (to_Z (intermediate_band_bins !!! (j - 1))) in
  let end_pos := Z.to_nat (to_Z (intermediate_band_bins !!! j)) in
  {| threshold_j := thresholds;
     masking_offset := offsets;
     masking_thresholds_out :=
       for_range start_pos (end_pos - start_pos)
         (fun k acc => <[k := thresholds !!! j]> acc) (masking_thresholds_out l) |}.

(** The locals after the loop over the bands.  The local arrays are not
    initialised in C; each entry is written before it is read, and they
    start here as zeros. *)
Definition band_thresholds (self : MaskingEstimator)
    (spectrum masking_thresholds : list float) : BandLocals :=
  let '(bark_spectrum, intermediate_band_bins, n_bins_per_band) :=
    compute_bark_spectrum self (calloc N_BARK_BANDS) spectrum
      (calloc N_BARK_BANDS) (calloc N_BARK_BANDS) in
  let spreaded_spectrum :=
    convolve_with_spectral_spreading_function self bark_spectrum
      (calloc N_BARK_BANDS) in
  for_range 0 N_BARK_BANDS
    (band_threshold self spectrum intermediate_band_bins n_bins_per_band
       spreaded_spectrum)
    {| threshold_j := calloc N_BARK_BANDS;
       masking_offset := calloc N_BARK_BANDS;
       masking_thresholds_out := masking_thresholds |}.

(** [compute_masking_thresholds]: the caller's [masking_thresholds] after
    the call. *)
Definition compute_masking_thresholds (self : MaskingEstimator)
    (spectrum masking_thresholds : list float) : list float :=
  let l := band_thresholds self spectrum masking_thresholds in
  update_range 0 (half_fft_size self + 1)
    (fun k v => fmaxf v (absolute_thresholds self !!! k))
    (convert_to_dbspl self (masking_thresholds_out l)).

(** The invariant of the loop over the bands, before pass [i]. *)
Definition bands_done (mt0 : list float) (i : nat) (l : BandLocals) : Prop :=
  length (masking_offset l) = N_BARK_BANDS
  /\ length (masking_thresholds_out l) = length mt0
  /\ forall j, j < i -> masking_offset l !! j = Some (biased_offset j).

End WithLibm.

End MaskingPlugin.

(** ** The Bark bands of the masking estimators *)

Module MaskingBands.

Import CArray.
Local Open Scope nat_scope.

(** What [compute_bark_spectrum] leaves in its three arrays, for the band
    ends [e j] (the value of [last_position] after band [j]): band [j] is
    the run of bins from [first j] (the end of the band before; bin 1 for
    band 0) up to [e j], all of them bins whose [floorf(bark_z)] is [j + 1],
    and the bin at [e j] is not one; [bark] holds the sum of the run, in the
    order of the bins, [inter] its end and [n_bins] the value of the counter,
    which for band 0 counts bin 0 too. *)
Definition bands_partition (bark_z spectrum bark n_bins inter : list float) : Prop :=
  exists e : nat -> nat,
    let boundary j := match j with 0 => 0 | S i => e i end in
    let first j := boundary j + (if j =? 0 then 1 else 0) in
    forall j, j < MaskingEstimator.N_BARK_BANDS ->
      first j <= e j
      /\ inter !! j = Some (Float32.of_Z (Z.of_nat (e j)))
      /\ n_bins !! j = Some (Float32.of_Z (Z.of_nat (e j - boundary j)))
      /\ bark !! j
         = Some (for_range (first j) (e j - first j)
                   (fun k acc => fadd acc (spectrum !!! k)) fzero)
      /\ (forall k, first j <= k < e j ->
            exists z, bark_z !! k = Some z
                      /\ feq (floorf z) (Float32.of_Z (Z.of_nat (j + 1))) = true)
      /\ match bark_z !! (e j) with
         | Some z => feq (floorf z) (Float32.of_Z (Z.of_nat (j + 1))) = false
         | None => True
         end.

End MaskingBands.

(** ** The spreading function of the masking estimators *)

Module MaskingTables.

Import CArray.
Local Open Scope nat_scope.

(** Arithmetic on [uint32_t]. *)
Definition uint32 (z : Z) : Z := (z mod 2 ^ 32)%Z.

(** The first assignment to an entry: the level in dB at a distance of [y]
    Bark. *)
Definition spreading_db (y : float) : float :=
  fsub (fadd (lit 1581 100) (fmul (lit 75 10) (fadd y (lit 474 1000))))
       (fmul (lit 175 10)
             (sqrtf (fadd fone (fmul (fadd y (lit 474 1000)) (fadd y (lit 474 1000)))))).

Section WithLibm.

Context `{Libm}.

(** The second assignment, from the entry as stored by the first. *)
Definition spreading_gain (stored : float) : float :=
  powf (Float32.of_Z 10) (fdiv stored (Float32.of_Z 10)).

(** [compute_spectral_spreading_function] of the library, on the array
    [spectral_spreading_function]: [i] and [j] are [uint32_t], and so is
    [(i + 1) - (j + 1)], which is converted to [float]. *)
Definition compute_spectral_spreading_function (spreading : list float) : list float :=
  for_range 0 MaskingEstimator.N_BARK_BANDS
    (fun i a =>
       for_range 0 MaskingEstimator.N_BARK_BANDS
         (fun j a' =>
            let y := Float32.of_Z (uint32 (Z.of_nat (i + 1) - Z.of_nat (j + 1))) in
            let a1 := <[i * MaskingEstimator.N_BARK_BANDS + j := spreading_db y]> a' in
            <[i * MaskingEstimator.N_BARK_BANDS + j :=
                spreading_gain (a1 !!! (i * MaskingEstimator.N_BARK_BANDS + j))]> a1)
         a)
    spreading.

(** *** The plugin

    A store into an array of the heap, and a read from it: outside the
    array neither has a meaning in C. *)
Definition store (a : list float) (i : nat) (v : float) : option (list float) :=
  if i <? length a then Some (<[i := v]> a) else None.

Definition load (a : list float) (i : nat) : option float := a !! i.

(** A loop whose body can fail. *)
Definition for_range_opt {A : Type} (lo n : nat) (body : nat -> A -> option A) (a : A)
  : option A :=
  fold_left (fun acc k => acc ≫= body k) (seq lo n) (Some a).

(** [compute_spectral_spreading_function] of the plugin: [i] and [j] are
    [int]. *)
Definition plugin_compute_spectral_spreading_function (spreading : list float)
  : option (list float) :=
  for_range_opt 0 MaskingPlugin.N_BARK_BANDS
    (fun i a =>
       for_range_opt 0 MaskingPlugin.N_BARK_BANDS
         (fun j a' =>
            let y := Float32.of_Z (Z.of_nat (i + 1) - Z.of_nat (j + 1)) in
            a1 ← store a' (i * MaskingPlugin.N_BARK_BANDS + j) (spreading_db y);
            stored ← load a1 (i * MaskingPlugin.N_BARK_BANDS + j);
            store a1 (i * MaskingPlugin.N_BARK_BANDS + j) (spreading_gain stored))
         a)
    spreading.

(** The array as [masking_estimation_initialize] of the plugin hands it to
    [compute_spectral_spreading_function]: [calloc(N_BARK_BANDS,
    sizeof(float))], then [memset] to 0 over [N_BARK_BANDS] bytes in
    [masking_estimation_reset]. *)
Definition plugin_spreading_allocated : list float :=
  memset_zero (calloc MaskingPlugin.N_BARK_BANDS) MaskingPlugin.N_BARK_BANDS.

End WithLibm.

End MaskingTables.

(** ** src/src/masking_estimator.c: reset *)

Module MaskingReset.

Import CArray MaskingPlugin.
Local Open Scope nat_scope.

(** [memset(a, c, nbytes)] on an array of [float]: every byte covered
    receives [(unsigned char)c]. *)
Definition memset (a : list float) (c : Z) (nbytes : nat) : list float :=
  let b := (c mod 256)%Z in
  let pattern := float_of_bits (b + b * 2 ^ 8 + b * 2 ^ 16 + b * 2 ^ 24)%Z in
  memcpy a (replicate (length a) pattern) nbytes.

(** [masking_estimation_reset].  The second argument of [memset] is an
    [int]: [0.f] is passed as 0 and [1.f] as 1. *)
Definition masking_estimation_reset (self : MaskingEstimator) : MaskingEstimator :=
  {| fft_size := fft_size self;
     half_fft_size := half_fft_size self;
     samp_rate := samp_rate self;
     bark_z := memset (bark_z self) 0 (half_fft_size self + 1);
     absolute_thresholds := memset (absolute_thresholds self) 0 (half_fft_size self + 1);
     spl_reference_values := memset (spl_reference_values self) 0 (half_fft_size self + 1);
     input_fft_buffer_at := memset (input_fft_buffer_at self) 0 (half_fft_size self + 1);
     output_fft_buffer_at := memset (output_fft_buffer_at self) 0 (half_fft_size self + 1);
     spectral_spreading_function :=
       memset (spectral_spreading_function self) 0 N_BARK_BANDS;
     unity_gain_bark_spectrum := memset (unity_gain_bark_spectrum self) 1 N_BARK_BANDS;
     spreaded_unity_gain_bark_spectrum :=
       memset (spreaded_unity_gain_bark_spectrum self) 0 N_BARK_BANDS |}.

End MaskingReset.

(** ** src/src/stft_processor.c *)

Module STFT.

Import CArray.

Definition INPUT_WINDOW_TYPE : Z := 3.
Definition OUTPUT_WINDOW_TYPE : Z := 3.

(** [WindowTypes]. *)
Definition HANN_WINDOW : Z := 0.
Definition HAMMING_WINDOW : Z := 1.
Definition BLACKMAN_WINDOW : Z := 2.
Definition VORBIS_WINDOW : Z := 3.

(** The arguments [stft_processor_run] hands on to [fft_denoiser_run]. *)
Record DenoiseArguments := {
  enable : Z;
  learn_noise : Z;
  whitening_factor : float;
  reduction_amount : float;
  residual_listen : bool;
  transient_threshold : float;
  masking_ceiling_limit : float;
  release : float;
  noise_rescale : float }.

(** FFTW and the denoiser are used by this file and defined elsewhere.
    [forward] is the plan from [input_fft_buffer] to [output_fft_buffer]
    (FFTW_R2HC); [backward] is the plan back (FFTW_HC2R), which may overwrite
    its input and so returns both buffers.  [fft_denoiser_run] receives the
    noise profile and the power spectrum and may write them. *)
Class Backend := {
  FFTDenoiser : Type;
  NoiseProfile : Type;
  fftwf_execute_forward : list float -> list float;
  fftwf_execute_backward : list float -> list float * list float;
  fft_denoiser_run :
    FFTDenoiser -> NoiseProfile -> list float -> DenoiseArguments ->
    FFTDenoiser * NoiseProfile * list float }.

Section WithBackend.

Context `{Libm} `{Backend}.

Record STFTProcessor := {
  fft_size : Z;
  half_fft_size : Z;
  window_option_input : Z;
  window_option_output : Z;
  overlap_factor : Z;
  overlap_scale_factor : float;
  hop : Z;
  input_latency : Z;
  read_position : Z;
  input_window : list float;
  output_window : list float;
  in_fifo : list float;
  out_fifo : list float;
  output_accum : list float;
  input_fft_buffer : list float;
  output_fft_buffer : list float;
  power_spectrum : list float;
  phase_spectrum : list float;
  magnitude_spectrum : list float;
  fft_denoiser : FFTDenoiser }.

(** The buffers of a processor. *)
Record Buffers := {
  b_input_window : list float;
  b_output_window : list float;
  b_in_fifo : list float;
  b_out_fifo : list float;
  b_output_accum : list float;
  b_input_fft_buffer : list float;
  b_output_fft_buffer : list float;
  b_power_spectrum : list float;
  b_phase_spectrum : list float;
  b_magnitude_spectrum : list float }.

Definition buffers (s : STFTProcessor) : Buffers :=
  {| b_input_window := input_window s; b_output_window := output_window s;
     b_in_fifo := in_fifo s; b_out_fifo := out_fifo s;
     b_output_accum := output_accum s;
     b_input_fft_buffer := input_fft_buffer s;
     b_output_fft_buffer := output_fft_buffer s;
     b_power_spectrum := power_spectrum s;
     b_phase_spectrum := phase_spectrum s;
     b_magnitude_spectrum := magnitude_spectrum s |}.

(** Assignment of the buffers, of [read_position], of the denoiser and of the
    scale factor; the other fields are set once, by
    [stft_processor_initialize]. *)
Definition with_state (b : Buffers) (pos : Z) (d : FFTDenoiser) (scale : float)
    (s : STFTProcessor) : STFTProcessor :=
  {| fft_size := fft_size s; half_fft_size := half_fft_size s;
     window_option_input := window_option_input s;
     window_option_output := window_option_output s;
     overlap_factor := overlap_factor s;
     overlap_scale_factor := scale;
     hop := hop s; input_latency := input_latency s;
     read_position := pos;
     input_window := b_input_window b; output_window := b_output_window b;
     in_fifo := b_in_fifo b; out_fifo := b_out_fifo b;
     output_accum := b_output_accum b;
     input_fft_buffer := b_input_fft_buffer b;
     output_fft_buffer := b_output_fft_buffer b;
     power_spectrum := b_power_spectrum b;
     phase_spectrum := b_phase_spectrum b;
     magnitude_spectrum := b_magnitude_spectrum b;
     fft_denoiser := d |}.

Definition with_buffers (b : Buffers) (s : STFTProcessor) : STFTProcessor :=
  with_state b (read_position s) (fft_denoiser s) (overlap_scale_factor s) s.

Definition with_read_position (pos : Z) (s : STFTProcessor) : STFTProcessor :=
  with_state (buffers s) pos (fft_denoiser s) (overlap_scale_factor s) s.

(** Reads and writes at an [int] index. *)
Definition rd (a : list float) (i : Z) : float := a !!! Z.to_nat i.
Definition wr (a : list float) (i : Z) (v : float) : list float := <[Z.to_nat i := v]> a.

(** The loop [for (k = 0; k < n; k++)] with an [int] bound. *)
Definition for_int {A : Type} (n : Z) (body : Z -> A -> A) (a : A) : A :=
  for_range 0 (Z.to_nat n) (fun k => body (Z.of_nat k)) a.

(** *** Windows *)

Definition ratio (k N : Z) : float := fdiv (Float32.of_Z k) (Float32.of_Z N).

(** [2.f * M_PI * p] and [4.f * M_PI * p] are products of type [double],
    converted to [float] for [cosf]. *)
Definition angle (c : Z) (p : float) : float :=
  Float64.to_float
    (Float64.dmul (Float64.dmul (Float64.of_float (Float32.of_Z c)) Float64.M_PI)
                  (Float64.of_float p)).

Definition blackman (k N : Z) : float :=
  let p := ratio k N in
  Float64.to_float
    (Float64.dadd
       (Float64.dsub (Float64.lit 42 100)
          (Float64.dmul (Float64.lit 5 10) (Float64.of_float (cosf (angle 2 p)))))
       (Float64.dmul (Float64.lit 8 100) (Float64.of_float (cosf (angle 4 p))))).

Definition hanning (k N : Z) : float :=
  let p := ratio k N in
  Float64.to_float
    (Float64.dsub (Float64.lit 5 10)
       (Float64.dmul (Float64.lit 5 10) (Float64.of_float (cosf (angle 2 p))))).

Definition hamming (k N : Z) : float :=
  let p := ratio k N in
  Float64.to_float
    (Float64.dsub (Float64.lit 54 100)
       (Float64.dmul (Float64.lit 46 100) (Float64.of_float (cosf (angle 2 p))))).

Definition vorbis (k N : Z) : float :=
  let p := ratio k N in
  let s :=
    sinf (Float64.to_float (Float64.dmul Float64.M_PI (Float64.of_float p))) in
  sinf (Float64.to_float
          (Float64.dmul
             (Float64.ddiv Float64.M_PI (Float64.of_float (Float32.of_Z 2)))
             (Float64.of_float (powf s (Float32.of_Z 2))))).

Definition fft_window (window : list float) (N window_type : Z) : list float :=
  for_int N
    (fun k w =>
       if window_type =? BLACKMAN_WINDOW then wr w k (blackman k N)
       else if window_type =? HANN_WINDOW then wr w k (hanning k N)
       else if window_type =? HAMMING_WINDOW then wr w k (hamming k N)
       else if window_type =? VORBIS_WINDOW then wr w k (vorbis k N)
       else w)
    window.

(** Both [switch] statements hand the window type on unchanged. *)
Definition stft_processor_pre_and_post_window (self : STFTProcessor) : STFTProcessor :=
  let known t :=
    (t =? HANN_WINDOW) || (t =? HAMMING_WINDOW) || (t =? BLACKMAN_WINDOW)
    || (t =? VORBIS_WINDOW) in
  let win :=
    if known (window_option_input self)
    then fft_window (input_window self) (fft_size self) (window_option_input self)
    else input_window self in
  let wout :=
    if known (window_option_output self)
    then fft_window (output_window self) (fft_size self) (window_option_output self)
    else output_window self in
  let sum :=
    for_int (fft_size self) (fun i acc => fadd acc (fmul (rd win i) (rd wout i))) fzero in
  let b := buffers self in
  with_state
    {| b_input_window := win; b_output_window := wout;
       b_in_fifo := b_in_fifo b; b_out_fifo := b_out_fifo b;
       b_output_accum := b_output_accum b;
       b_input_fft_buffer := b_input_fft_buffer b;
       b_output_fft_buffer := b_output_fft_buffer b;
       b_power_spectrum := b_power_spectrum b;
       b_phase_spectrum := b_phase_spectrum b;
       b_magnitude_spectrum := b_magnitude_spectrum b |}
    (read_position self) (fft_denoiser self)
    (fdiv sum (Float32.of_Z (fft_size self))) self.

(** *** One frame *)

(** [get_info_from_bins]: the power, magnitude and phase arrays. *)
Definition get_info_from_bins (fft_power fft_magnitude fft_phase : list float)
    (half_fft_size0 fft_size0 : Z) (fft_buffer : list float)
  : list float * list float * list float :=
  let real_p := rd fft_buffer 0 in
  let init :=
    (wr fft_power 0 (fmul real_p real_p),
     wr fft_magnitude 0 real_p,
     wr fft_phase 0 (atan2f real_p fzero)) in
  for_int half_fft_size0
    (fun k0 '(pw, mg, ph) =>
       let k := k0 + 1 in
       let real_p := rd fft_buffer k in
       let imag_n := rd fft_buffer (fft_size0 - k) in
       if k <? half_fft_size0 then
         let power := fadd (fmul real_p real_p) (fmul imag_n imag_n) in
         (wr pw k power, wr mg k (sqrtf power), wr ph k (atan2f real_p imag_n))
       else
         (wr pw k (fmul real_p real_p), wr mg k real_p,
          wr ph k (atan2f real_p fzero)))
    init.

(** [memcpy] of the input FIFO, [stft_processor_analysis],
    [get_info_from_bins], [fft_denoiser_run] and [stft_processor_synthesis]:
    the cycle run when a frame is complete. *)
Definition transform_cycle (self : STFTProcessor) (noise_profile : NoiseProfile)
    (args : DenoiseArguments) : STFTProcessor * NoiseProfile :=
  let n := fft_size self in
  (* memcpy(self->input_fft_buffer, self->in_fifo, sizeof(float) * fft_size) *)
  let input1 :=
    memcpy (input_fft_buffer self) (in_fifo self) (sizeof_float * Z.to_nat n) in
  (* stft_processor_analysis *)
  let input2 :=
    for_int n (fun k a => wr a k (fmul (rd a k) (rd (input_window self) k))) input1 in
  let output1 := fftwf_execute_forward input2 in
  let '(pw, mg, ph) :=
    get_info_from_bins (power_spectrum self) (magnitude_spectrum self)
      (phase_spectrum self) (half_fft_size self) n output1 in
  let '(denoiser, noise_profile', pw') :=
    fft_denoiser_run (fft_denoiser self) noise_profile pw args in
  (* stft_processor_synthesis *)
  let '(input3, output2) := fftwf_execute_backward output1 in
  let input4 := for_int n (fun k a => wr a k (fdiv (rd a k) (Float32.of_Z n))) input3 in
  let input5 :=
    for_int n
      (fun k a =>
         wr a k (fdiv (fmul (rd (output_window self) k) (rd a k))
                      (fmul (overlap_scale_factor self)
                            (Float32.of_Z (overlap_factor self)))))
      input4 in
  let accum1 :=
    for_int n (fun k a => wr a k (fadd (rd a k) (rd input5 k))) (output_accum self) in
  let out_fifo1 :=
    for_int (hop self) (fun k a => wr a k (rd accum1 k)) (out_fifo self) in
  (* memmove(output_accum, output_accum + hop, fft_size * sizeof(float)) *)
  let accum2 := for_int n (fun k a => wr a k (rd accum1 (k + hop self))) accum1 in
  let in_fifo1 :=
    for_int (input_latency self) (fun k a => wr a k (rd a (k + hop self)))
      (in_fifo self) in
  (with_state
     {| b_input_window := input_window self; b_output_window := output_window self;
        b_in_fifo := in_fifo1; b_out_fifo := out_fifo1;
        b_output_accum := accum2;
        b_input_fft_buffer := input5;
        b_output_fft_buffer := output2;
        b_power_spectrum := pw';
        b_phase_spectrum := ph;
        b_magnitude_spectrum := mg |}
     (read_position self) denoiser (overlap_scale_factor self) self,
   noise_profile').

(** *** The sample loop *)

(** What [stft_processor_run] has done so far: the processor, the noise
    profile, the caller's [output] array, and the number of transform cycles
    run. *)
Record Progress := {
  processor : STFTProcessor;
  profile : NoiseProfile;
  output : list float;
  cycles : nat }.

(** The body of the loop of [stft_processor_run] for sample [k]. *)
Definition stft_sample (input : list float) (args : DenoiseArguments)
    (k : Z) (p : Progress) : Progress :=
  let self := processor p in
  let b := buffers self in
  let in_fifo1 := wr (in_fifo self) (read_position self) (rd input k) in
  let output1 :=
    wr (output p) k (rd (out_fifo self) (read_position self - input_latency self)) in
  let pos := read_position self + 1 in
  let self1 :=
    with_state
      {| b_input_window := b_input_window b; b_output_window := b_output_window b;
         b_in_fifo := in_fifo1; b_out_fifo := b_out_fifo b;
         b_output_accum := b_output_accum b;
         b_input_fft_buffer := b_input_fft_buffer b;
         b_output_fft_buffer := b_output_fft_buffer b;
         b_power_spectrum := b_power_spectrum b;
         b_phase_spectrum := b_phase_spectrum b;
         b_magnitude_spectrum := b_magnitude_spectrum b |}
      pos (fft_denoiser self) (overlap_scale_factor self) self in
  if fft_size self1 <=? read_position self1 then
    let '(self2, profile') :=
      transform_cycle (with_read_position (input_latency self1) self1)
        (profile p) args in
    {| processor := self2; profile := profile'; output := output1;
       cycles := S (cycles p) |}
  else
    {| processor := self1; profile := profile p; output := output1;
       cycles := cycles p |}.

Definition stft_processor_run (self : STFTProcessor) (noise_profile : NoiseProfile)
    (n_samples : Z) (input output0 : list float) (args : DenoiseArguments)
  : Progress :=
  for_int n_samples (stft_sample input args)
    {| processor := self; profile := noise_profile; output := output0; cycles := 0 |}.

Definition stft_processor_get_latency (self : STFTProcessor) : Z :=
  input_latency self.

(** *** Construction *)

(** [memset(p, 0.f, n)] clears [n] bytes, not [n] floats. *)
Definition stft_processor_reset (self : STFTProcessor) : STFTProcessor :=
  let n := Z.to_nat (fft_size self) in
  let h := Z.to_nat (half_fft_size self + 1) in
  with_buffers
    {| b_input_fft_buffer := memset_zero (input_fft_buffer self) n;
       b_output_fft_buffer := memset_zero (output_fft_buffer self) n;
       b_input_window := memset_zero (input_window self) n;
       b_output_window := memset_zero (output_window self) n;
       b_in_fifo := memset_zero (in_fifo self) n;
       b_out_fifo := memset_zero (out_fifo self) n;
       b_output_accum := memset_zero (output_accum self) (Z.to_nat (fft_size self * 2));
       b_power_spectrum := memset_zero (power_spectrum self) h;
       b_magnitude_spectrum := memset_zero (magnitude_spectrum self) h;
       b_phase_spectrum := memset_zero (phase_spectrum self) h |}
    self.

(** [stft_processor_initialize].  [fresh] is what [malloc] returned for
    the ten buffers: blocks of the requested sizes with indeterminate
    contents. *)
Definition stft_processor_initialize (fft_denoiser0 : FFTDenoiser)
    (sample_rate fft_size0 overlap_factor0 : Z) (fresh : Buffers) : STFTProcessor :=
  let hop0 := Z.quot fft_size0 overlap_factor0 in
  let input_latency0 := fft_size0 - hop0 in
  stft_processor_pre_and_post_window
    (stft_processor_reset
       {| fft_size := fft_size0;
          half_fft_size := Z.quot fft_size0 2;
          window_option_input := INPUT_WINDOW_TYPE;
          window_option_output := OUTPUT_WINDOW_TYPE;
          overlap_factor := overlap_factor0;
          overlap_scale_factor := fzero;
          hop := hop0;
          input_latency := input_latency0;
          read_position := input_latency0;
          input_window := b_input_window fresh;
          output_window := b_output_window fresh;
          in_fifo := b_in_fifo fresh;
          out_fifo := b_out_fifo fresh;
          output_accum := b_output_accum fresh;
          input_fft_buffer := b_input_fft_buffer fresh;
          output_fft_buffer := b_output_fft_buffer fresh;
          power_spectrum := b_power_spectrum fresh;
          phase_spectrum := b_phase_spectrum fresh;
          magnitude_spectrum := b_magnitude_spectrum fresh;
          fft_denoiser := fft_denoiser0 |}).

(** The framing invariant: [input_latency = fft_size - hop] with a hop of at
    least one sample, and [read_position] in [[input_latency, fft_size)]. *)
Definition framed (self : STFTProcessor) : Prop :=
  0 < hop self
  /\ input_latency self = fft_size self - hop self
  /\ input_latency self <= read_position self < fft_size self.

(** The position of the next sample within its hop. *)
Definition offset_in_hop (self : STFTProcessor) : Z :=
  read_position self - input_latency self.

(** The invariant of the sample loop after [k] samples, from a processor
    [self0]. *)
Definition after_samples (self0 : STFTProcessor) (k : nat) (p : Progress) : Prop :=
  let n := offset_in_hop self0 + Z.of_nat k in
  fft_size (processor p) = fft_size self0
  /\ hop (processor p) = hop self0
  /\ input_latency (processor p) = input_latency self0
  /\ offset_in_hop (processor p) = n mod hop self0
  /\ Z.of_nat (cycles p) = n / hop self0.

End WithBackend.

Arguments STFTProcessor {_}.
Arguments Progress {_}.

End STFT.

(** ** src/src/stft_processor.c: a call in parts *)

Module STFTCalls.

Import CArray STFT.
Local Open Scope Z_scope.

Section WithBackend.

Context `{Libm} `{Backend}.

(** Two runs that differ in where the caller's arrays start. *)
Definition shifted (c : nat) (before : list float) (p p' : Progress) : Prop :=
  processor p = processor p'
  /\ profile p = profile p'
  /\ cycles p = (c + cycles p')%nat
  /\ output p = before ++ output p'.

End WithBackend.

End STFTCalls.

(** ** src/src/stft_processor.c: the fields that carry audio *)

Module STFTAudio.

Import CArray STFT.
Local Open Scope Z_scope.

Section WithBackend.

Context `{Libm} `{Backend}.

(** Two processors that agree on every field but [fft_denoiser] and
    [power_spectrum], the two that [fft_denoiser_run] is handed. *)
Definition same_audio (s s' : STFTProcessor) : Prop :=
  fft_size s = fft_size s'
  /\ half_fft_size s = half_fft_size s'
  /\ window_option_input s = window_option_input s'
  /\ window_option_output s = window_option_output s'
  /\ overlap_factor s = overlap_factor s'
  /\ overlap_scale_factor s = overlap_scale_factor s'
  /\ hop s = hop s'
  /\ input_latency s = input_latency s'
  /\ read_position s = read_position s'
  /\ input_window s = input_window s'
  /\ output_window s = output_window s'
  /\ in_fifo s = in_fifo s'
  /\ out_fifo s = out_fifo s'
  /\ output_accum s = output_accum s'
  /\ input_fft_buffer s = input_fft_buffer s'
  /\ output_fft_buffer s = output_fft_buffer s'
  /\ phase_spectrum s = phase_spectrum s'
  /\ magnitude_spectrum s = magnitude_spectrum s'.

End WithBackend.

End STFTAudio.

(** ** src/src/noise_repellent_state.c *)

Module PluginState.

Import CArray.

Definition NOISEREPELLENT_URI : string := "https://github.com/lucianodato/noise-repellent"%string.
Definition LV2_URID__map : string := "http://lv2plug.in/ns/ext/urid#map"%string.
Definition LV2_ATOM__Vector : string := "http://lv2plug.in/ns/ext/atom#Vector"%string.
Definition LV2_ATOM__Int : string := "http://lv2plug.in/ns/ext/atom#Int"%string.
Definition LV2_ATOM__Float : string := "http://lv2plug.in/ns/ext/atom#Float"%string.

Local Open Scope Z_scope.

Definition LV2_STATE_IS_POD : Z := 1.
Definition LV2_STATE_IS_PORTABLE : Z := 2.

(** Memory is read and written in 32-bit words; a pointer takes two (LP64),
    an [int], a [uint32_t] and a [float] one each. *)
Definition word := Z.

Definition word_of_int (z : Z) : word := z mod 2 ^ 32.
Definition int_of_word (w : word) : Z := if w <? 2 ^ 31 then w else w - 2 ^ 32.
Definition words_of_pointer (p : Z) : list word := [p mod 2 ^ 32; (p / 2 ^ 32) mod 2 ^ 32].

(** [NoiseProfile]: three 32-bit fields, four bytes of padding and the
    pointer [values]. *)
Record NoiseProfile := {
  child_size : Z;
  child_type : Z;
  noise_profile_size : Z;
  values : Z (* float *, an address *) }.

Definition sizeof_NoiseProfile : Z := 24.

(** The object representation of a [NoiseProfile]; [pad] is what the
    padding happens to hold. *)
Definition words_of_NoiseProfile (pad : word) (p : NoiseProfile) : list word :=
  [word_of_int (child_size p); word_of_int (child_type p);
   word_of_int (noise_profile_size p); pad] ++ words_of_pointer (values p).

(** [PluginState], with the two blocks its [noise_profile] pointer leads
    to: the words of the [NoiseProfile] object and the array of floats that
    [calloc] returned for [values]. *)
Record PluginState := {
  map : option (string -> Z) (* LV2_URID_Map *, NULL or the host's map *);
  atom_Vector : Z;
  atom_Int : Z;
  atom_Float : Z;
  property_fft_size : Z;
  property_block_count : Z;
  property_saved_noise_profile : Z;
  noise_profile_object : list word;
  noise_profile_values : list float }.

(** What the host keeps for one key. *)
Record Item := {
  item_size : Z;
  item_type : Z;
  item_flags : Z;
  item_body : list word }.

(** The host's store behind [LV2_State_Store_Function] and
    [LV2_State_Retrieve_Function]. *)
Abbreviation Store := (gmap Z Item).

Definition store (st : Store) (key : Z) (body : list word) (size type flags : Z) : Store :=
  <[key := {| item_size := size; item_type := type; item_flags := flags;
              item_body := body |}]> st.

Record LV2_Feature := {
  URI : string;
  data : option (string -> Z) }.

(** [noise_profile_initialize]: the object, at whose [values] address
    ([block]) [calloc] placed [noise_profile_size] zeros. *)
Definition noise_profile_initialize (child_type0 noise_profile_size0 block : Z)
  : NoiseProfile * list float :=
  ({| child_type := child_type0;
      child_size := Z.of_nat sizeof_float;
      noise_profile_size := noise_profile_size0;
      values := block |},
   calloc (Z.to_nat noise_profile_size0)).

(** [plugin_state_configure]. *)
Definition plugin_state_configure (self : PluginState) (features : list LV2_Feature)
    (noise_profile_size0 block pad : Z) : PluginState * bool :=
  let map1 :=
    fold_left
      (fun m f => if String.eqb (URI f) LV2_URID__map then data f else m)
      features (map self) in
  match map1 with
  | None =>
      ({| map := map1; atom_Vector := atom_Vector self; atom_Int := atom_Int self;
          atom_Float := atom_Float self;
          property_fft_size := property_fft_size self;
          property_block_count := property_block_count self;
          property_saved_noise_profile := property_saved_noise_profile self;
          noise_profile_object := noise_profile_object self;
          noise_profile_values := noise_profile_values self |},
       false)
  | Some m =>
      let '(profile, block_values) :=
        noise_profile_initialize (m LV2_ATOM__Float) noise_profile_size0 block in
      ({| map := map1;
          atom_Vector := m LV2_ATOM__Vector;
          atom_Int := m LV2_ATOM__Int;
          atom_Float := m LV2_ATOM__Float;
          property_fft_size := m (String.append NOISEREPELLENT_URI "#fftsize"%string);
          property_block_count := m (String.append NOISEREPELLENT_URI "#blockcount"%string);
          property_saved_noise_profile :=
            m (String.append NOISEREPELLENT_URI "#savednoiseprofile"%string);
          noise_profile_object := words_of_NoiseProfile pad profile;
          noise_profile_values := block_values |},
       true)
  end.

Definition with_profile (object : list word) (block_values : list float)
    (self : PluginState) : PluginState :=
  {| map := map self; atom_Vector := atom_Vector self; atom_Int := atom_Int self;
     atom_Float := atom_Float self;
     property_fft_size := property_fft_size self;
     property_block_count := property_block_count self;
     property_saved_noise_profile := property_saved_noise_profile self;
     noise_profile_object := object;
     noise_profile_values := block_values |}.

(** [plugin_state_savestate].  [noise_window_count] is a pointer, and it is
    the pointer variable itself whose first four bytes are stored under
    [property_block_count].  The bytes stored under
    [property_saved_noise_profile] are the [NoiseProfile] object, which holds
    the address of the values. *)
Definition plugin_state_savestate (self : PluginState) (st : Store)
    (fft_size : Z) (noise_window_count : Z (* float * *))
    (noise_profile : list float) : PluginState * Store :=
  let flags := Z.lor LV2_STATE_IS_POD LV2_STATE_IS_PORTABLE in
  let st1 :=
    store st (property_fft_size self) [word_of_int fft_size]
      (Z.of_nat sizeof_int) (atom_Int self) flags in
  let st2 :=
    store st1 (property_block_count self) [noise_window_count mod 2 ^ 32]
      (Z.of_nat sizeof_float) (atom_Float self) flags in
  (* sizeof(self->noise_profile->noise_profile_size) is sizeof(int) *)
  let block_values := memcpy (noise_profile_values self) noise_profile sizeof_int in
  let st3 :=
    store st2 (property_saved_noise_profile self) (noise_profile_object self)
      sizeof_NoiseProfile (atom_Vector self) flags in
  (with_profile (noise_profile_object self) block_values self, st3).

(** What a call of [plugin_state_restorestate] does.  [Returned] carries the
    value returned, the plugin state, and the caller's [noise_profile] array
    after the call.  [Undefined] stands for a call that reads or writes
    outside an object, or through a null pointer. *)
Inductive Outcome :=
  | Returned (value : bool) (self : PluginState) (noise_profile : list float)
  | Undefined.

(** [LV2_ATOM_BODY(atom)]: the address eight bytes (an [LV2_Atom] header)
    into the object. *)
Definition LV2_ATOM_BODY (body : list word) : list word := drop 2 body.

(** [plugin_state_restorestate].  [noise_window_count] is passed by value:
    the assignment to it is to the callee's copy. *)
Definition plugin_state_restorestate (self : PluginState) (st : Store)
    (noise_profile : list float) (noise_window_count : float)
    (fft_size half_fft_size : Z) : Outcome :=
  match st !! property_fft_size self with
  | None => Returned false self noise_profile
  | Some fftsize =>
      if negb (item_type fftsize =? atom_Int self)
         || negb (int_of_word (item_body fftsize !!! 0%nat) =? half_fft_size)
      then Returned false self noise_profile
      else
        match st !! property_saved_noise_profile self with
        | None => Returned false self noise_profile
        | Some saved =>
            if negb (item_size saved =? sizeof_NoiseProfile)
               || negb (item_type saved =? atom_Vector self)
            then Returned false self noise_profile
            else
              (* memcpy(self->noise_profile, LV2_ATOM_BODY(saved),
                        (half_fft_size + 1) * sizeof(float)) *)
              let n := Z.to_nat (half_fft_size + 1) in
              let source := LV2_ATOM_BODY (item_body saved) in
              if (length source <? n)%nat || (length (noise_profile_object self) <? n)%nat
              then Undefined
              else
                let object := take n source ++ drop n (noise_profile_object self) in
                let self' := with_profile object (noise_profile_values self) self in
                match st !! property_block_count self with
                | Some block_count =>
                    (* if (fftsize && type == atom_Float)
                         noise_window_count = *block_count; *)
                    Returned true self' noise_profile
                | None =>
                    (* [type] still holds the type of the saved profile *)
                    if item_type saved =? atom_Float self then Undefined
                    else Returned true self' noise_profile
                end
        end
  end.

End PluginState.

(** ** src/src/noise_repellent_state.c: the checks of a restore *)

Module PluginStateChecks.

Import PluginState.

(** The conditions under which [plugin_state_restorestate] goes on to copy:
    the item under [property_fft_size] is there, is an [Int] and equals
    [half_fft_size]; the item under [property_saved_noise_profile] is there,
    has the size of a [NoiseProfile] and is a [Vector]. *)
Definition restore_checks (self : PluginState) (st : Store) (half_fft_size : Z) : bool :=
  match st !! property_fft_size self, st !! property_saved_noise_profile self with
  | Some fftsize, Some saved =>
      (item_type fftsize =? atom_Int self)
      && (int_of_word (item_body fftsize !!! 0%nat) =? half_fft_size)
      && (item_size saved =? sizeof_NoiseProfile)
      && (item_type saved =? atom_Vector self)
  | _, _ => false
  end.

(** The three keys of a state are different URIDs, as they are with a host
    whose map gives different URIs different numbers. *)
Definition distinct_keys (self : PluginState) : Prop :=
  property_fft_size self <> property_block_count self
  /\ property_fft_size self <> property_saved_noise_profile self
  /\ property_block_count self <> property_saved_noise_profile self.

(** The [data] of the last feature whose URI is [LV2_URID__map], if there is
    one. *)
Definition last_urid_map (features : list LV2_Feature) : option (option (string -> Z)) :=
  data <$> last (filter (fun f => String.eqb (URI f) LV2_URID__map = true) features).

End PluginStateChecks.

(** ** src/nrepel.c

    The first version of the plugin works on magnitudes and phases with the
    [double] functions of <math.h>.  Its bins are modelled over the real
    numbers, [cos] and [sin] being the real functions. *)

Module Nrepel.

Import CArray.
Local Open Scope R_scope.

#[global] Instance R_inhabited : Inhabited R := populate 0.

(** One entry of [fftwf_complex *output_fft_buffer]: the real and the
    imaginary part. *)
Definition fftwf_complex : Type := R * R.

(** The loop of [run] under "Reassemble complex spectrum (replace processed
    magnitude)", over [k = 0 .. output_size]. *)
Definition reassemble (output_size : nat) (magnitude phase : list R)
    (output_fft_buffer : list fftwf_complex) : list fftwf_complex :=
  for_range 0 (output_size + 1)
    (fun k buffer =>
       let real := magnitude !!! k * cos (phase !!! k) in
       let imag := magnitude !!! k * cos (phase !!! k) in
       <[k := (real, imag)]> buffer)
    output_fft_buffer.

(** The bin of magnitude [m] and phase [p]: [m (cos p + i sin p)]. *)
Definition polar (m p : R) : fftwf_complex := (m * cos p, m * sin p).

End Nrepel.

(** ** Stand-ins for the code outside src/, to run the model

    The theorems below hold for every implementation of <math.h> and of
    the estimator interface.  To run the model on concrete inputs one
    implementation of each is fixed here. *)

Module Reference.

Import CArray.

(** *** A small <math.h> in binary32 arithmetic *)

Definition LN2 : float := lit 6931472 10000000.
Definition LN10 : float := lit 2302585 1000000.

Fixpoint exp_series (n : nat) (x term sum : float) (i : Z) : float :=
  match n with
  | O => sum
  | S n' =>
      let term' := fdiv (fmul term x) (Float32.of_Z i) in
      exp_series n' x term' (fadd sum term') (i + 1)
  end.

(** [exp x] by halving the argument until it is below 1, the power series,
    and squaring back. *)
Definition expf_ref (x : float) : float :=
  match x with
  | S754_nan => S754_nan
  | S754_infinity true => fzero
  | S754_infinity false => x
  | S754_zero _ => fone
  | S754_finite _ _ _ =>
      let k := Z.to_nat (Z.log2 (Z.abs (to_Z x) + 1) + 1) in
      let y := Nat.iter k (fun v => fdiv v (Float32.of_Z 2)) x in
      Nat.iter k (fun v => fmul v v) (exp_series 16 y fone fone 1)
  end.

Fixpoint atanh_series (n : nat) (u2 power sum : float) (i : Z) : float :=
  match n with
  | O => sum
  | S n' =>
      let power' := fmul power u2 in
      atanh_series n' u2 power' (fadd sum (fdiv power' (Float32.of_Z i))) (i + 2)
  end.

(** [ln x] for a positive number [m * 2^e]: the mantissa scaled into [1, 2)
    and the series of [2 atanh ((t - 1) / (t + 1))]. *)
Definition lnf_ref (x : float) : float :=
  match x with
  | S754_nan => S754_nan
  | S754_zero _ => S754_infinity true
  | S754_infinity false => x
  | S754_infinity true => S754_nan
  | S754_finite true _ _ => S754_nan
  | S754_finite false m e =>
      let d := Z.pos (digits2_pos m) in
      let t := binary_round Float32.prec Float32.emax false m (- (d - 1)) in
      let u := fdiv (fsub t fone) (fadd t fone) in
      fadd (fmul (Float32.of_Z (e + d - 1)) LN2)
           (fmul (Float32.of_Z 2) (atanh_series 12 (fmul u u) u u 3))
  end.

Definition log10f_ref (x : float) : float := fdiv (lnf_ref x) LN10.

Definition powf_ref (x y : float) : float :=
  match y with
  | S754_zero _ => fone
  | _ => expf_ref (fmul y (lnf_ref x))
  end.

Definition PI : float := lit 31415927 10000000.

Fixpoint sin_series (n : nat) (x2 term sum : float) (i : Z) : float :=
  match n with
  | O => sum
  | S n' =>
      let term' := fneg (fdiv (fmul term x2) (Float32.of_Z (i * (i + 1)))) in
      sin_series n' x2 term' (fadd sum term') (i + 2)
  end.

(** The argument is brought into [-pi, pi] by subtracting a multiple of
    [2 pi]; then the power series. *)
Definition reduce_angle (x : float) : float :=
  let two_pi := fmul (Float32.of_Z 2) PI in
  let n := to_Z (fdiv x two_pi) in
  let y := fsub x (fmul (Float32.of_Z n) two_pi) in
  if fgt y PI then fsub y two_pi
  else if flt y (fneg PI) then fadd y two_pi
  else y.

Definition sinf_ref (x : float) : float :=
  match x with
  | S754_finite _ _ _ =>
      let y := reduce_angle x in sin_series 12 (fmul y y) y y 2
  | S754_zero _ => x
  | _ => S754_nan
  end.

Definition cosf_ref (x : float) : float :=
  match x with
  | S754_finite _ _ _ =>
      let y := reduce_angle x in sin_series 12 (fmul y y) fone fone 1
  | S754_zero _ => fone
  | _ => S754_nan
  end.

Fixpoint atan_series (n : nat) (x2 power sum : float) (i : Z) : float :=
  match n with
  | O => sum
  | S n' =>
      let power' := fneg (fmul power x2) in
      atan_series n' x2 power' (fadd sum (fdiv power' (Float32.of_Z i))) (i + 2)
  end.

(** [atan x] for a finite [x]: the argument is halved three times by
    [atan x = 2 atan (x / (1 + sqrt (1 + x^2)))], then the series. *)
Definition atanf_ref (x : float) : float :=
  let halve v := fdiv v (fadd fone (sqrtf (fadd fone (fmul v v)))) in
  let y := halve (halve (halve x)) in
  fmul (Float32.of_Z 8) (atan_series 12 (fmul y y) y y 3).

Definition atan2f_ref (y x : float) : float :=
  if is_nan x || is_nan y then S754_nan
  else if fgt x fzero then atanf_ref (fdiv y x)
  else if flt x fzero then
    (if flt y fzero then fsub (atanf_ref (fdiv y x)) PI
     else fadd (atanf_ref (fdiv y x)) PI)
  else if fgt y fzero then fdiv PI (Float32.of_Z 2)
  else if flt y fzero then fneg (fdiv PI (Float32.of_Z 2))
  else fzero.

#[global] Instance libm_ref : Libm :=
  {| expf := expf_ref; log10f := log10f_ref; powf := powf_ref;
     sinf := sinf_ref; cosf := cosf_ref; atan2f := atan2f_ref |}.

(** *** The estimator interface

    Modelled from the spec: gain_estimator.c, noise_estimator.c and
    spectral_utils.c are not under src/.  The power spectrum is
    [Re^2 + Im^2] of the halfcomplex bins, [Re^2] at DC and at Nyquist; the
    noise estimator keeps the running mean of the power spectra and the
    number of frames learned; the gain is the spectral subtraction
    [max (0, 1 - noise_rescale * noise / max (power, FLT_MIN))]. *)
Definition power_spectrum_ref (fft_spectrum : list float) (fft_size : nat)
    (power : list float) (half : nat) : list float :=
  for_range 0 (half + 1)
    (fun k acc =>
       let re := fft_spectrum !!! k in
       let im := fft_spectrum !!! (fft_size - k)%nat in
       <[k := if ((k =? 0) || (k =? half))%nat then fmul re re
              else fadd (fmul re re) (fmul im im)]> acc)
    power.

Definition noise_learn_ref (frames_learned : Z) (noise power : list float)
  : Z * list float :=
  if frames_learned =? 0 then (1, power)
  else
    (frames_learned + 1,
     imap (fun k v =>
             fdiv (fadd (fmul (Float32.of_Z (frames_learned - 1)) v) (power !!! k))
                  (Float32.of_Z frames_learned))
          noise).

Definition gain_ref (u : unit) (power noise gain : list float)
    (transient masking release noise_rescale : float) : unit * list float :=
  (u,
   imap (fun k _ =>
           fmaxf fzero
             (fsub fone (fdiv (fmul noise_rescale (noise !!! k))
                              (fmaxf (power !!! k) FLT_MIN))))
        gain).

#[global] Instance estimators_ref : SpectralProcessor.Estimators :=
  {| SpectralProcessor.GainEstimator := unit;
     SpectralProcessor.NoiseEstimator := Z;
     SpectralProcessor.gain_estimation_initialize := fun _ _ _ => tt;
     SpectralProcessor.noise_estimation_initialize := fun _ => 0;
     SpectralProcessor.gain_estimation_run := gain_ref;
     SpectralProcessor.noise_estimation_run := noise_learn_ref;
     SpectralProcessor.is_noise_estimation_available := fun n => 0 <? n;
     SpectralProcessor.get_fft_power_spectrum := power_spectrum_ref |}.

(** *** FFTW and the denoiser of the STFT framer

    Modelled from the spec: the FFT is "an opaque real-to-halfcomplex
    transform", here the discrete Fourier sum in halfcomplex layout and its
    unnormalised inverse; the denoiser leaves the spectrum alone. *)
Definition dft_angle (k n N : nat) : float :=
  fdiv (fmul (fmul (Float32.of_Z 2) PI) (Float32.of_Z (Z.of_nat (k * n))))
       (Float32.of_Z (Z.of_nat N)).

Definition r2hc_ref (x : list float) : list float :=
  let N := length x in
  imap (fun i _ =>
          if (i <=? N / 2)%nat then
            fold_left (fun acc n => fadd acc (fmul (x !!! n) (cosf_ref (dft_angle i n N))))
                      (seq 0 N) fzero
          else
            fold_left
              (fun acc n =>
                 fsub acc (fmul (x !!! n) (sinf_ref (dft_angle (N - i) n N))))
              (seq 0 N) fzero)
       x.

Definition hc2r_ref (X : list float) : list float * list float :=
  let N := length X in
  (imap (fun n _ =>
           fold_left
             (fun acc k =>
                let re := X !!! k in
                let im := if ((k =? 0) || (2 * k =? N))%nat then fzero
                          else X !!! (N - k)%nat in
                let w := if ((k =? 0) || (2 * k =? N))%nat then fone
                         else Float32.of_Z 2 in
                fadd acc
                  (fmul w (fsub (fmul re (cosf_ref (dft_angle k n N)))
                                (fmul im (sinf_ref (dft_angle k n N))))))
             (seq 0 (N / 2 + 1)) fzero)
        X,
   X).

#[global] Instance backend_ref : STFT.Backend :=
  {| STFT.FFTDenoiser := unit;
     STFT.NoiseProfile := list float;
     STFT.fftwf_execute_forward := r2hc_ref;
     STFT.fftwf_execute_backward := hc2r_ref;
     STFT.fft_denoiser_run := fun d noise power _ => (d, noise, power) |}.

End Reference.

(** ** Concrete engines and frames *)

Module Examples.

Import CArray Reference.

(** An engine of eight bins at 4 kHz with four-fold overlap, over the
    stand-in estimators. *)
Definition engine0 : SpectralProcessor.SpectralProcessor :=
  SpectralProcessor.spectral_processor_initialize 4000 8 4.

Definition learn_parameters : SpectralProcessor.ProcessorParameters :=
  {| SpectralProcessor.enable := true;
     SpectralProcessor.learn_noise := true;
     SpectralProcessor.residual_listen := false;
     SpectralProcessor.transient_threshold := fone;
     SpectralProcessor.masking_ceiling_limit := fone;
     SpectralProcessor.release_time := fone;
     SpectralProcessor.noise_rescale := fone;
     SpectralProcessor.reduction_amount := lit 5 10;
     SpectralProcessor.whitening_factor := fone |}.

Definition denoise_parameters : SpectralProcessor.ProcessorParameters :=
  {| SpectralProcessor.enable := true;
     SpectralProcessor.learn_noise := false;
     SpectralProcessor.residual_listen := false;
     SpectralProcessor.transient_threshold := fone;
     SpectralProcessor.masking_ceiling_limit := fone;
     SpectralProcessor.release_time := fone;
     SpectralProcessor.noise_rescale := fone;
     SpectralProcessor.reduction_amount := lit 5 10;
     SpectralProcessor.whitening_factor := fone |}.

(** A halfcomplex spectrum of eight entries, and the silent one. *)
Definition spectrum8 : list float := map Float32.of_Z [1; 2; 3; 4; 5; 6; 7; 8].
Definition silence8 : list float := calloc 8.

(** [engine0] after a frame in learn mode, and after a denoised frame with
    whitening. *)
Definition after_learning :=
  SpectralProcessor.spectral_processor_run engine0 learn_parameters (calloc 5) spectrum8.

Definition after_denoising :=
  SpectralProcessor.spectral_processor_run after_learning.1.1 denoise_parameters
    after_learning.1.2 spectrum8.

(** A masking estimator of libnrepel with four bins above DC, in Bark
    bands 1, 1, 2 and 3. *)
Definition bark_z5 : list float := [fzero; lit 15 10; lit 17 10; lit 22 10; lit 39 10].
Definition thresholds5 : list float := map Float32.of_Z [0; 30; 20; 10; 5].
Definition power5 : list float := map Float32.of_Z [1; 2; 3; 4; 5].

Definition masking0 : MaskingEstimator.MaskingEstimator :=
  {| MaskingEstimator.fft_size := 8;
     MaskingEstimator.half_fft_size := 4;
     MaskingEstimator.sample_rate := 4000;
     MaskingEstimator.reference_spectrum :=
       {| MaskingEstimator.spl_half_fft_size := 4;
          MaskingEstimator.spl_reference_values := replicate 5 (Float32.of_Z 90) |};
     MaskingEstimator.bark_z_spectrum := bark_z5;
     MaskingEstimator.absolute_thresholds := thresholds5;
     MaskingEstimator.spectral_spreading_function := replicate 625 (lit 1 25);
     MaskingEstimator.unity_gain_bark_spectrum := replicate 25 fone;
     MaskingEstimator.spreaded_unity_gain_bark_spectrum := replicate 25 fone;
     MaskingEstimator.intermediate_band_bins := calloc 25;
     MaskingEstimator.n_bins_per_band := calloc 25;
     MaskingEstimator.bark_spectrum := calloc 25;
     MaskingEstimator.threshold_j := calloc 25;
     MaskingEstimator.masking_offset := calloc 25;
     MaskingEstimator.spreaded_spectrum := calloc 25 |}.

(** The same tables in the plugin's estimator. *)
Definition masking_plugin0 : MaskingPlugin.MaskingEstimator :=
  {| MaskingPlugin.fft_size := 8;
     MaskingPlugin.half_fft_size := 4;
     MaskingPlugin.samp_rate := 4000;
     MaskingPlugin.bark_z := bark_z5;
     MaskingPlugin.absolute_thresholds := thresholds5;
     MaskingPlugin.spl_reference_values := replicate 5 (Float32.of_Z 90);
     MaskingPlugin.input_fft_buffer_at := calloc 5;
     MaskingPlugin.output_fft_buffer_at := calloc 5;
     MaskingPlugin.spectral_spreading_function := replicate 625 (lit 1 25);
     MaskingPlugin.unity_gain_bark_spectrum := replicate 25 fone;
     MaskingPlugin.spreaded_unity_gain_bark_spectrum := replicate 25 fone |}.

(** The band partition the plugin's estimator finds for [power5]. *)
Definition plugin_bands0 : list float * list float * list float :=
  MaskingPlugin.compute_bark_spectrum masking_plugin0 (calloc 25) power5
    (calloc 25) (calloc 25).

(** An STFT framer of eight samples with four-fold overlap, on blocks that
    [malloc] returned full of ones. *)
Definition ones (n : nat) : list float := replicate n fone.

Definition fresh8 : STFT.Buffers :=
  {| STFT.b_input_window := ones 8; STFT.b_output_window := ones 8;
     STFT.b_in_fifo := ones 8; STFT.b_out_fifo := ones 8;
     STFT.b_output_accum := ones 16;
     STFT.b_input_fft_buffer := ones 8; STFT.b_output_fft_buffer := ones 8;
     STFT.b_power_spectrum := ones 5; STFT.b_phase_spectrum := ones 5;
     STFT.b_magnitude_spectrum := ones 5 |}.

Definition framer0 : STFT.STFTProcessor :=
  STFT.stft_processor_initialize tt 4000 8 4 fresh8.

Definition no_arguments : STFT.DenoiseArguments :=
  {| STFT.enable := 1; STFT.learn_noise := 0;
     STFT.whitening_factor := fzero; STFT.reduction_amount := fone;
     STFT.residual_listen := false; STFT.transient_threshold := fone;
     STFT.masking_ceiling_limit := fone; STFT.release := fone;
     STFT.noise_rescale := fone |}.

(** A host that maps six URIs, a plugin state configured for three bins, and
    a profile of three floats. *)
Definition host_map (uri : string) : Z :=
  if String.eqb uri PluginState.LV2_ATOM__Vector then 1
  else if String.eqb uri PluginState.LV2_ATOM__Int then 2
  else if String.eqb uri PluginState.LV2_ATOM__Float then 3
  else if String.eqb uri (String.append PluginState.NOISEREPELLENT_URI "#fftsize") then 4
  else if String.eqb uri (String.append PluginState.NOISEREPELLENT_URI "#blockcount") then 5
  else if String.eqb uri (String.append PluginState.NOISEREPELLENT_URI "#savednoiseprofile")
  then 6
  else 0.

Definition unconfigured : PluginState.PluginState :=
  {| PluginState.map := None;
     PluginState.atom_Vector := 0; PluginState.atom_Int := 0;
     PluginState.atom_Float := 0; PluginState.property_fft_size := 0;
     PluginState.property_block_count := 0;
     PluginState.property_saved_noise_profile := 0;
     PluginState.noise_profile_object := [];
     PluginState.noise_profile_values := [] |}.

(** The engine of the state: [fft_size] 4, so [half_fft_size] 2 and a
    profile of three floats. *)
Definition plugin0 : PluginState.PluginState :=
  (PluginState.plugin_state_configure unconfigured
     [{| PluginState.URI := PluginState.LV2_URID__map;
         PluginState.data := Some host_map |}]
     3 4096 0).1.

Definition profile3 : list float := map Float32.of_Z [1; 2; 3].

(** The plugin state and the host's store after saving [profile3] with
    [fft_size] 4; the counter lives at address 8192. *)
Definition saved0 : PluginState.PluginState * gmap Z PluginState.Item :=
  PluginState.plugin_state_savestate plugin0 ∅ 4 8192 profile3.

End Examples.

(** ** More inputs *)

Module MoreExamples.

Import CArray Reference Examples.

(** Five samples of input. *)
Definition samples5 : list float := map Float32.of_Z [1; 2; 3; 4; 5].

(** [spectrum8] with a NaN in the bin above DC. *)
Definition spectrum8_nan : list float := <[1%nat := S754_nan]> spectrum8.

(** [engine0] after ten frames with [enable] set: the crossfade level has
    reached 1. *)
Definition engine_wet : SpectralProcessor.SpectralProcessor :=
  Nat.iter 10
    (fun s =>
       (SpectralProcessor.spectral_processor_run s denoise_parameters (calloc 5)
          spectrum8).1.1)
    engine0.

(** Denoising without whitening, and [engine0] with [spectrum8] loaded. *)
Definition plain_parameters : SpectralProcessor.ProcessorParameters :=
  {| SpectralProcessor.enable := true;
     SpectralProcessor.learn_noise := false;
     SpectralProcessor.residual_listen := false;
     SpectralProcessor.transient_threshold := fone;
     SpectralProcessor.masking_ceiling_limit := fone;
     SpectralProcessor.release_time := fone;
     SpectralProcessor.noise_rescale := fone;
     SpectralProcessor.reduction_amount := lit 5 10;
     SpectralProcessor.whitening_factor := fzero |}.

Definition engine_loaded : SpectralProcessor.SpectralProcessor :=
  SpectralProcessor.frame_loaded engine0 plain_parameters spectrum8.

(** The arguments of a call in learn mode, with other amounts. *)
Definition learn_arguments : STFT.DenoiseArguments :=
  {| STFT.enable := 0; STFT.learn_noise := 1;
     STFT.whitening_factor := fone; STFT.reduction_amount := Float32.of_Z 10;
     STFT.residual_listen := true; STFT.transient_threshold := Float32.of_Z 2;
     STFT.masking_ceiling_limit := fzero; STFT.release := fzero;
     STFT.noise_rescale := fzero |}.

End MoreExamples.

(** ** Order facts of binary32 comparison *)

Module Float32Facts.

Lemma compare_cont_Eq_antisym (p q : positive) :
  Pos.compare_cont Eq q p = CompOpp (Pos.compare_cont Eq p q).
Proof. exact (Pos.compare_antisym p q). Qed.

Lemma SFcompare_antisym (x y : float) :
  SFcompare y x = option_map CompOpp (SFcompare x y).
Proof.
  destruct x as [[]|[]| |[] mx ex], y as [[]|[]| |[] my ey]; simpl; try reflexivity.
  - rewrite (Z.compare_antisym ex ey).
    destruct (ex ?= ey); simpl; try reflexivity.
    f_equal. rewrite (compare_cont_Eq_antisym mx my). reflexivity.
  - rewrite (Z.compare_antisym ex ey).
    destruct (ex ?= ey); simpl; try reflexivity.
    f_equal. rewrite (compare_cont_Eq_antisym mx my).
    destruct (Pos.compare_cont Eq mx my); reflexivity.
Qed.

Lemma SFcompare_refl (x : float) : is_nan x = false -> SFcompare x x = Some Eq.
Proof.
  destruct x as [[]|[]| |[] m e]; simpl; intros H; try reflexivity; try discriminate.
  - rewrite Z.compare_refl. change (Pos.compare_cont Eq m m) with (m ?= m)%positive.
    rewrite Pos.compare_refl. reflexivity.
  - rewrite Z.compare_refl. change (Pos.compare_cont Eq m m) with (m ?= m)%positive.
    rewrite Pos.compare_refl. reflexivity.
Qed.

Lemma fle_refl (x : float) : is_nan x = false -> fle x x = true.
Proof. intros H. unfold fle, SFleb. rewrite (SFcompare_refl x H). reflexivity. Qed.

Lemma fle_not_nan_l (x y : float) : fle x y = true -> is_nan x = false.
Proof. destruct x as [[]|[]| |[] m e]; try reflexivity. discriminate. Qed.

Lemma fle_not_nan_r (x y : float) : fle x y = true -> is_nan y = false.
Proof.
  destruct y as [[]|[]| |[] m e]; try reflexivity.
  unfold fle, SFleb. destruct x as [[]|[]| |[] mx ex]; discriminate.
Qed.

(** [x <= y] excludes [x > y]. *)
Lemma fle_fgt (x y : float) : fle x y = true -> fgt x y = false.
Proof.
  unfold fle, fgt, SFleb, SFltb. rewrite (SFcompare_antisym x y).
  destruct (SFcompare x y) as [[]|]; simpl; congruence.
Qed.

(** Without NaN the order is total: not [x < y] gives [y <= x]. *)
Lemma not_flt_fle (x y : float) :
  is_nan x = false -> is_nan y = false -> flt x y = false -> fle y x = true.
Proof.
  unfold flt, fle, SFleb, SFltb. rewrite (SFcompare_antisym x y).
  intros Hx Hy.
  destruct x as [[]|[]| |[] mx ex], y as [[]|[]| |[] my ey]; try discriminate;
    simpl; try reflexivity; try discriminate;
    destruct (ex ?= ey); simpl; try reflexivity; try discriminate;
    destruct (Pos.compare_cont Eq mx my); simpl; congruence.
Qed.

Lemma flt_fle (x y : float) : flt x y = true -> fle x y = true.
Proof. unfold flt, fle, SFltb, SFleb. destruct (SFcompare x y) as [[]|]; congruence. Qed.

Ltac compare_cases :=
  repeat match goal with
    | H : context [Pos.compare_cont Eq ?a ?b] |- _ =>
        change (Pos.compare_cont Eq a b) with (Pos.compare a b) in H
    | |- context [Pos.compare_cont Eq ?a ?b] =>
        change (Pos.compare_cont Eq a b) with (Pos.compare a b)
    end;
  repeat match goal with
    | H : context [Z.compare ?a ?b] |- _ => destruct (Z.compare_spec a b)
    | |- context [Z.compare ?a ?b] => destruct (Z.compare_spec a b)
    | H : context [Pos.compare ?a ?b] |- _ => destruct (Pos.compare_spec a b)
    | |- context [Pos.compare ?a ?b] => destruct (Pos.compare_spec a b)
    end.

Lemma fle_trans (x y z : float) :
  fle x y = true -> fle y z = true -> fle x z = true.
Proof.
  unfold fle, SFleb.
  destruct x as [[]|[]| |[] mx ex], y as [[]|[]| |[] my ey], z as [[]|[]| |[] mz ez];
    simpl; try reflexivity; try discriminate;
    intros H1 H2; compare_cases; simpl in *;
    try reflexivity; try discriminate; subst; lia.
Qed.

Lemma flt_fle_trans (x y z : float) :
  fle x y = true -> flt y z = true -> fle x z = true.
Proof. intros H1 H2. exact (fle_trans x y z H1 (flt_fle y z H2)). Qed.

(** [fmaxf] dominates each argument that is a number. *)
Lemma fmaxf_ge_r (x y : float) : is_nan y = false -> fle y (fmaxf x y) = true.
Proof.
  intros Hy. unfold fmaxf.
  destruct x as [sx|sx| |sx mx ex] eqn:Ex; try (destruct y; try discriminate);
    try (apply fle_refl; reflexivity);
    match goal with
    | |- fle ?b (if flt ?a ?b then _ else _) = true =>
        destruct (flt a b) eqn:Hlt;
        [ apply fle_refl; reflexivity
        | apply not_flt_fle; [reflexivity | reflexivity | exact Hlt] ]
    end.
Qed.

Lemma fmaxf_ge_l (x y : float) : is_nan x = false -> fle x (fmaxf x y) = true.
Proof.
  intros Hx. unfold fmaxf.
  destruct x as [sx|sx| |sx mx ex] eqn:Ex; try discriminate;
    destruct y as [sy|sy| |sy my ey] eqn:Ey;
    try (apply fle_refl; reflexivity);
    match goal with
    | |- fle ?a (if flt ?a ?b then _ else _) = true =>
        destruct (flt a b) eqn:Hlt;
        [ apply flt_fle; exact Hlt | apply fle_refl; reflexivity ]
    end.
Qed.

(** A lower bound of either argument is a lower bound of [fmaxf]; the
    bound passes through NaN arguments, which [fmaxf] drops. *)
Lemma fmaxf_lower_l (c x y : float) : fle c x = true -> fle c (fmaxf x y) = true.
Proof.
  intros H. apply (fle_trans c x); [exact H|].
  apply fmaxf_ge_l. exact (fle_not_nan_r c x H).
Qed.

Lemma fmaxf_lower_r (c x y : float) : fle c y = true -> fle c (fmaxf x y) = true.
Proof.
  intros H. apply (fle_trans c y); [exact H|].
  apply fmaxf_ge_r. exact (fle_not_nan_r c y H).
Qed.

End Float32Facts.

Import Float32Facts.

(** ** Rounding in binary32

    The operations of [SpecFloat] on finite numbers of the format compute
    the exact result rounded to nearest even; rounding is monotone and
    leaves the numbers of the format alone. *)

Module RoundingFacts.

Import Rounding.

Lemma digits2_size (m : positive) : Z.pos (digits2_pos m) = Z.log2 (Z.pos m) + 1.
Proof.
  induction m as [m IH|m IH|]; simpl; try reflexivity.
  - rewrite Pos2Z.inj_succ, IH. destruct m; simpl; lia.
  - rewrite Pos2Z.inj_succ, IH. destruct m; simpl; lia.
Qed.

Lemma iter_pos_nat {A} (f : A -> A) (p : positive) (x : A) :
  SpecFloat.iter_pos f p x = Nat.iter (Pos.to_nat p) f x.
Proof.
  revert x. induction p as [p IH|p IH|]; intros x; cbn [SpecFloat.iter_pos].
  - rewrite !IH. rewrite Pos2Nat.inj_xI.
    replace (S (2 * Pos.to_nat p))%nat with (Pos.to_nat p + S (Pos.to_nat p))%nat by lia.
    rewrite Nat.iter_add. f_equal. simpl. apply Nat.iter_swap.
  - rewrite !IH. rewrite Pos2Nat.inj_xO.
    replace (2 * Pos.to_nat p)%nat with (Pos.to_nat p + Pos.to_nat p)%nat by lia.
    rewrite Nat.iter_add. reflexivity.
  - reflexivity.
Qed.

(* one step on a nonnegative mantissa *)
Lemma div2_xI (p : positive) : Z.pos p~1 / 2 = Z.pos p.
Proof. symmetry. apply Z.div_unique with 1; lia. Qed.

Lemma div2_xO (p : positive) : Z.pos p~0 / 2 = Z.pos p.
Proof. symmetry. apply Z.div_unique with 0; lia. Qed.

Lemma shr_1_spec (m : Z) (r s : bool) : 0 <= m ->
  shr_1 {| shr_m := m; shr_r := r; shr_s := s |}
  = {| shr_m := m / 2; shr_r := Z.odd m; shr_s := r || s |}.
Proof.
  intros Hm. destruct m as [|p|p]; try lia.
  - reflexivity.
  - destruct p as [p|p|].
    + rewrite div2_xI. reflexivity.
    + rewrite div2_xO. reflexivity.
    + reflexivity.
Qed.

(* k >= 1 steps from an exact record *)
Lemma shr_iter_spec (k : nat) (m : Z) : 0 <= m ->
  Nat.iter (S k) shr_1 {| shr_m := m; shr_r := false; shr_s := false |}
  = {| shr_m := m / 2 ^ Z.of_nat (S k);
       shr_r := Z.testbit m (Z.of_nat k);
       shr_s := negb (m mod 2 ^ Z.of_nat k =? 0) |}.
Proof.
  intros Hm. induction k as [|k IH].
  - cbn [Nat.iter]. rewrite shr_1_spec by exact Hm.
    change (Z.of_nat 1) with 1. change (Z.of_nat 0) with 0.
    rewrite Z.pow_1_r, Z.pow_0_r, Z.mod_1_r, Z.bit0_odd. reflexivity.
  - change (Nat.iter (S (S k)) shr_1 ?x) with (shr_1 (Nat.iter (S k) shr_1 x)).
    rewrite IH. rewrite shr_1_spec by (apply Z.div_pos; lia).
    f_equal.
    + rewrite Z.div_div by lia. f_equal.
      rewrite (Nat2Z.inj_succ (S k)), Z.pow_succ_r by lia. lia.
    + rewrite (Nat2Z.inj_succ k) at 1. rewrite <- Z.bit0_odd.
      rewrite Z.div_pow2_bits by lia. f_equal. lia.
    + rewrite (Nat2Z.inj_succ k).
      rewrite Z.testbit_eqb by lia.
      rewrite Z.pow_succ_r by lia.
      pose proof (Z.mod_pos_bound m (2 ^ Z.of_nat k) ltac:(lia)) as Hb.
      pose proof (Z.div_mod m (2 ^ Z.of_nat k) ltac:(lia)) as Hd.
      pose proof (Z.mod_pos_bound (m / 2 ^ Z.of_nat k) 2 ltac:(lia)) as Hb2.
      pose proof (Z.div_mod (m / 2 ^ Z.of_nat k) 2 ltac:(lia)) as Hd2.
      assert (Hm2 : m mod (2 * 2 ^ Z.of_nat k)
                    = ((m / 2 ^ Z.of_nat k) mod 2) * 2 ^ Z.of_nat k + m mod 2 ^ Z.of_nat k).
      { symmetry. apply Z.mod_unique_pos with (q := (m / 2 ^ Z.of_nat k) / 2); nia. }
      rewrite Hm2.
      clear IH.
      destruct (Z.eqb_spec ((m / 2 ^ Z.of_nat k) mod 2) 1) as [E|E];
        destruct (Z.eqb_spec (m mod 2 ^ Z.of_nat k) 0) as [E0|E0];
        destruct (Z.eqb_spec ((m / 2 ^ Z.of_nat k) mod 2 * 2 ^ Z.of_nat k
                              + m mod 2 ^ Z.of_nat k) 0) as [E1|E1];
        simpl; try reflexivity; exfalso; nia.
Qed.

Lemma fexp32_eq e : fexp32 e = Z.max (e - 24) (-149).
Proof. reflexivity. Qed.

Lemma mag_Val (m : positive) (e : Z) : - K <= e ->
  mag (Val (Z.pos m) e) = Z.pos (digits2_pos m) + e + K.
Proof.
  intros He. unfold mag, Val. rewrite Z.log2_mul_pow2 by (unfold K in *; lia).
  rewrite digits2_size. lia.
Qed.

Lemma cexp_Val (m : positive) (e : Z) : - K <= e ->
  cexp (Val (Z.pos m) e) = fexp32 (Z.pos (digits2_pos m) + e) + K.
Proof.
  intros He. unfold cexp. rewrite mag_Val by exact He. rewrite fexp32_eq.
  unfold K. lia.
Qed.

(* the mantissa after the first shift and rounding *)
Lemma shr_round (m : Z) (e n : Z) : 0 <= m -> 0 <= n -> - K <= e -> 1 <= e + n + K ->
  let '(mrs, e') := shr {| shr_m := m; shr_r := false; shr_s := false |} e n in
  e' = e + n
  /\ round_nearest_even (shr_m mrs) (loc_of_shr_record mrs) = rne (Val m e) (e + n + K).
Proof.
  intros Hm Hn He Hs. unfold shr.
  assert (Ha : 0 <= e + K) by lia.
  destruct n as [|p|p]; try lia.
  - (* no shift *)
    split; [lia|]. cbn [shr_m loc_of_shr_record round_nearest_even].
    unfold rne, Val. rewrite Z.add_0_r.
    rewrite Z.div_mul by lia. rewrite Z.mod_mul by lia.
    assert (0 < 2 ^ (e + K - 1)) by (apply Z.pow_pos_nonneg; lia).
    destruct (Z.ltb_spec (2 ^ (e + K - 1)) 0); [lia|].
    destruct (Z.eqb_spec 0 (2 ^ (e + K - 1))); [lia|]. simpl. lia.
  - split; [reflexivity|].
    rewrite iter_pos_nat.
    destruct (Pos2Nat.is_succ p) as [k Hk]. rewrite Hk.
    rewrite shr_iter_spec by exact Hm.
    assert (Hp : Z.pos p = Z.of_nat (S k)) by lia.
    rewrite <- Hp. cbn [shr_m shr_r shr_s].
    unfold rne, Val.
    replace (e + Z.pos p + K - 1) with ((Z.pos p - 1) + (e + K)) by lia.
    replace (e + Z.pos p + K) with (Z.pos p + (e + K)) by lia.
    rewrite (Z.pow_add_r 2 (Z.pos p - 1) (e + K)) by lia.
    rewrite (Z.pow_add_r 2 (Z.pos p) (e + K)) by lia.
    assert (Hapos : 0 < 2 ^ (e + K)) by (apply Z.pow_pos_nonneg; lia).
    assert (Hbpos : 0 < 2 ^ Z.pos p) by (apply Z.pow_pos_nonneg; lia).
    rewrite Z.div_mul_cancel_r by lia.
    rewrite Z.mul_mod_distr_r by lia.
    set (a := 2 ^ (e + K)) in *.
    set (q := m / 2 ^ Z.pos p).
    assert (Hk1 : Z.of_nat k = Z.pos p - 1) by lia. rewrite Hk1.
    set (h := 2 ^ (Z.pos p - 1)). assert (Hh : 0 < h) by (apply Z.pow_pos_nonneg; lia).
    assert (H2h : 2 ^ Z.pos p = 2 * h).
    { unfold h. rewrite <- Z.pow_succ_r by lia. f_equal. lia. }
    pose proof (Z.mod_pos_bound m (2 ^ Z.pos p) ltac:(lia)) as Hb.
    set (r := m mod 2 ^ Z.pos p) in *.
    (* the round bit and the sticky bit in terms of r *)
    assert (Hr : exists b, (b = 0 \/ b = 1) /\ (m / h) mod 2 = b /\ r = b * h + m mod h).
    { exists ((m / h) mod 2).
      pose proof (Z.mod_pos_bound (m / h) 2 ltac:(lia)).
      split; [lia|]. split; [reflexivity|].
      unfold r. rewrite H2h. symmetry.
      pose proof (Z.div_mod m h ltac:(lia)).
      pose proof (Z.div_mod (m / h) 2 ltac:(lia)).
      pose proof (Z.mod_pos_bound m h ltac:(lia)).
      apply Z.mod_unique_pos with (q := (m / h) / 2); nia. }
    destruct Hr as (b & Hb01 & Hbm & Hr).
    pose proof (Z.mod_pos_bound m h ltac:(lia)) as Hmh.
    assert (Hbit : Z.testbit m (Z.pos p - 1) = (h <=? r)).
    { rewrite Z.testbit_eqb by lia. fold h. rewrite Hbm.
      destruct Hb01 as [-> | ->]; destruct (Z.leb_spec h r);
        try reflexivity; exfalso; lia. }
    assert (Hst : negb (m mod h =? 0) = negb ((r =? 0) || (r =? h))).
    { destruct (Z.eqb_spec (m mod h) 0); destruct (Z.eqb_spec r 0);
        destruct (Z.eqb_spec r h); simpl; try reflexivity; exfalso;
        destruct Hb01 as [-> | ->]; lia. }
    rewrite Hbit, Hst.
    destruct (Z.leb_spec h r) as [Hle|Hlt];
      destruct (Z.eqb_spec r 0) as [E0|E0];
      destruct (Z.eqb_spec r h) as [Eh|Eh];
      destruct (Z.ltb_spec (h * a) (r * a)) as [L|L];
      destruct (Z.eqb_spec (r * a) (h * a)) as [E|E];
      cbn [negb orb andb loc_of_shr_record round_nearest_even];
      try (exfalso; nia); try lia.
    all: rewrite <- ?Z.negb_odd; destruct (Z.odd q); simpl. all: try lia.
Qed.

Lemma mag_bounds (v : Z) : 0 < v -> 2 ^ (mag v - 1) <= v < 2 ^ mag v.
Proof.
  intros Hv. unfold mag. pose proof (Z.log2_spec v Hv) as H.
  replace (Z.log2 v + 1 - 1) with (Z.log2 v) by lia.
  replace (Z.log2 v + 1) with (Z.succ (Z.log2 v)) by lia. exact H.
Qed.

Lemma mag_pos (v : Z) : 0 < v -> 1 <= mag v.
Proof. intros Hv. unfold mag. pose proof (Z.log2_nonneg v). lia. Qed.

Lemma cexp_ge (v : Z) : 149 <= cexp v /\ mag v - 24 <= cexp v.
Proof. unfold cexp. lia. Qed.

Lemma quotient_bounds (v : Z) : 0 < v ->
  let s := cexp v in
  0 <= v / 2 ^ s < 2 ^ 24 /\ (149 < s -> 2 ^ 23 <= v / 2 ^ s).
Proof.
  intros Hv s. pose proof (mag_bounds v Hv) as [Hlo Hhi].
  pose proof (cexp_ge v) as [H149 Hm]. fold s in H149, Hm.
  pose proof (mag_pos v Hv) as Hmag.
  assert (Hs : 0 < 2 ^ s) by (apply Z.pow_pos_nonneg; lia).
  split; [split|].
  - apply Z.div_pos; lia.
  - apply Z.div_lt_upper_bound; [lia|].
    rewrite <- Z.pow_add_r by lia.
    apply Z.lt_le_trans with (2 ^ mag v); [exact Hhi|].
    apply Z.pow_le_mono_r; lia.
  - intros Hgt. assert (Hseq : s = mag v - 24) by (unfold s, cexp in *; lia).
    apply Z.div_le_lower_bound; [lia|].
    rewrite <- Z.pow_add_r by lia.
    replace (s + 23) with (mag v - 1) by lia. exact Hlo.
Qed.

Lemma rne_bounds (v s : Z) : v / 2 ^ s <= rne v s <= v / 2 ^ s + 1.
Proof. unfold rne. destruct (_ || _); lia. Qed.

Lemma log2_23 (m : Z) : 2 ^ 23 <= m < 2 ^ 24 -> Z.log2 m = 23.
Proof. intros H. apply Z.log2_unique; [lia|]. exact H. Qed.

Lemma digits_le_24 (m : positive) : Z.pos m < 2 ^ 24 -> Z.pos (digits2_pos m) <= 24.
Proof.
  intros H. rewrite digits2_size.
  assert (Z.log2 (Z.pos m) < 24); [|lia].
  apply Z.log2_lt_pow2; lia.
Qed.

Lemma final_stage (s : bool) (m2 c : Z) :
  0 <= m2 <= 2 ^ 24 -> -149 <= c <= 103 -> (-149 < c -> 2 ^ 23 <= m2) ->
  let r :=
    let '(mrs'', e'') := shr_fexp 24 128 m2 c loc_Exact in
    match shr_m mrs'' with
    | 0 => S754_zero s
    | Z.pos m0 => if e'' <=? 128 - 24 then S754_finite s m0 e'' else S754_infinity s
    | Z.neg _ => S754_nan
    end in
  valid_binary 24 128 r = true
  /\ (r = S754_zero s \/ exists m' e', r = S754_finite s m' e')
  /\ F2Z r = if s then - (m2 * 2 ^ (c + K)) else m2 * 2 ^ (c + K).
Proof.
  intros Hm2 Hc Hnorm. unfold shr_fexp. cbn [shr_record_of_loc].
  destruct (Z.eq_dec m2 (2 ^ 24)) as [E24|N24].
  - (* the mantissa carried into a new digit *)
    subst m2. change (2 ^ 24) with 16777216.
    change (Zdigits2 16777216) with 25.
    assert (Hn : fexp32 (25 + c) - c = 1) by (rewrite fexp32_eq; lia).
    rewrite Hn. cbn [shr SpecFloat.iter_pos shr_1 shr_m].
    destruct (Z.leb_spec (c + 1) (128 - 24)) as [Hle|Hgt]; [|lia].
    split; [|split].
    + cbn [valid_binary]. unfold SpecFloat.bounded, canonical_mantissa.
      change (Z.pos (digits2_pos 8388608)) with 24.
      rewrite fexp32_eq.
      apply andb_true_intro. split; [apply Z.eqb_eq; lia | apply Z.leb_le; lia].
    + right. eauto.
    + cbn [F2Z]. unfold Val.
      replace (c + 1 + K) with (1 + (c + K)) by lia.
      rewrite (Z.pow_add_r 2 1 (c + K)) by (unfold K; lia).
      destruct s; lia.
  - assert (Hlt : m2 < 2 ^ 24) by lia.
    destruct m2 as [|p2|p2]; try lia.
    + (* rounded to zero *)
      cbn [Zdigits2].
      assert (Hn : fexp32 (0 + c) - c <= 0) by (rewrite fexp32_eq; lia).
      destruct (fexp32 (0 + c) - c) as [|pn|pn] eqn:En; try lia;
        cbn [shr shr_m]; (split; [reflexivity|split; [left; reflexivity|]]);
        cbn [F2Z]; destruct s; lia.
    + cbn [Zdigits2].
      pose proof (digits_le_24 p2 Hlt) as Hd.
      assert (Hcanon : fexp32 (Z.pos (digits2_pos p2) + c) = c).
      { rewrite fexp32_eq.
        destruct (Z.eq_dec c (-149)) as [->|Hne]; [lia|].
        rewrite digits2_size, (log2_23 (Z.pos p2)) by lia. lia. }
      rewrite Hcanon, Z.sub_diag. cbn [shr shr_m].
      destruct (Z.leb_spec c (128 - 24)) as [Hle|Hgt]; [|lia].
      split; [|split].
      * cbn [valid_binary]. unfold SpecFloat.bounded, canonical_mantissa.
        apply andb_true_intro. split; [apply Z.eqb_eq; exact Hcanon | apply Z.leb_le; lia].
      * right. eauto.
      * cbn [F2Z]. unfold Val. destruct s; lia.
Qed.

Lemma binary_round_aux_spec (s : bool) (m : positive) (e : Z) :
  - K <= e ->
  e <= fexp32 (Z.pos (digits2_pos m) + e) ->
  Val (Z.pos m) e <= 2 ^ (K + 2) ->
  let v := Val (Z.pos m) e in
  let r := binary_round_aux 24 128 s (Z.pos m) e loc_Exact in
  valid_binary 24 128 r = true
  /\ (r = S754_zero s \/ exists m' e', r = S754_finite s m' e')
  /\ F2Z r = if s then - rnd v else rnd v.
Proof.
  intros He Hc Hv4 v r.
  assert (Hv : 0 < v).
  { unfold v, Val. apply Z.mul_pos_pos; [lia|]. apply Z.pow_pos_nonneg; lia. }
  pose proof (cexp_Val m e He) as Hcexp. fold v in Hcexp.
  set (c := fexp32 (Z.pos (digits2_pos m) + e)) in *.
  assert (Hc149 : -149 <= c) by (unfold c; rewrite fexp32_eq; lia).
  (* first shift and rounding *)
  pose proof (shr_round (Z.pos m) e (c - e) ltac:(lia) ltac:(lia) He
                ltac:(unfold K; lia)) as Hsr.
  subst r. unfold binary_round_aux.
  assert (Hfirst : shr_fexp 24 128 (Z.pos m) e loc_Exact
                   = shr {| shr_m := Z.pos m; shr_r := false; shr_s := false |} e (c - e))
    by reflexivity.
  rewrite Hfirst.
  destruct (shr {| shr_m := Z.pos m; shr_r := false; shr_s := false |} e (c - e))
    as [mrs e'].
  destruct Hsr as [He' Hm2].
  replace (e + (c - e)) with c in He' by lia.
  replace (e + (c - e) + K) with (cexp v) in Hm2 by lia.
  subst e'. rewrite Hm2. fold v.
  pose proof (quotient_bounds v Hv) as [Hq Hq23]. cbv zeta in Hq, Hq23.
  pose proof (rne_bounds v (cexp v)) as Hr.
  assert (HR : rnd v = rne v (cexp v) * 2 ^ (c + K)).
  { unfold rnd. rewrite Hcexp. reflexivity. }
  assert (Hmagv : mag v <= K + 3).
  { unfold mag. assert (Z.log2 v < K + 3); [|lia].
    apply Z.log2_lt_pow2; [lia|].
    apply Z.le_lt_trans with (2 ^ (K + 2)); [exact Hv4|].
    apply Z.pow_lt_mono_r; unfold K; lia. }
  assert (Hc21 : c <= -21).
  { assert (cexp v <= K - 21) by (unfold cexp, K in *; lia). lia. }
  rewrite HR.
  apply final_stage; [lia | lia |].
  intros Hgt. assert (H149 : 149 < cexp v) by (unfold K in *; lia).
  specialize (Hq23 H149). lia.
Qed.

Lemma rne_nonneg (v s : Z) : 0 <= v -> 0 <= rne v s.
Proof.
  intros Hv. pose proof (rne_bounds v s).
  assert (0 <= v / 2 ^ s) by (apply Z_div_nonneg_nonneg; [lia | apply Z.pow_nonneg; lia]).
  lia.
Qed.

Lemma rnd_nonneg (v : Z) : 0 <= v -> 0 <= rnd v.
Proof.
  intros Hv. unfold rnd. apply Z.mul_nonneg_nonneg; [apply rne_nonneg; exact Hv|].
  apply Z.pow_nonneg; lia.
Qed.

Lemma rnd_0 : rnd 0 = 0.
Proof. reflexivity. Qed.

Lemma mag_le (v v' : Z) : v <= v' -> mag v <= mag v'.
Proof. intros H. unfold mag. pose proof (Z.log2_le_mono v v' H). lia. Qed.

Lemma rne_mono_same (v v' s : Z) : 0 < s -> 0 <= v <= v' -> rne v s <= rne v' s.
Proof.
  intros Hs [Hv Hvv]. unfold rne.
  assert (HP : 0 < 2 ^ s) by (apply Z.pow_pos_nonneg; lia).
  assert (Hh : 2 ^ s = 2 * 2 ^ (s - 1)).
  { rewrite <- Z.pow_succ_r by lia. f_equal. lia. }
  pose proof (Z.div_mod v (2 ^ s) ltac:(lia)) as Hd.
  pose proof (Z.div_mod v' (2 ^ s) ltac:(lia)) as Hd'.
  pose proof (Z.mod_pos_bound v (2 ^ s) HP) as Hb.
  pose proof (Z.mod_pos_bound v' (2 ^ s) HP) as Hb'.
  pose proof (Z.div_le_mono v v' (2 ^ s) HP Hvv) as Hq.
  set (q := v / 2 ^ s) in *. set (q' := v' / 2 ^ s) in *.
  set (r := v mod 2 ^ s) in *. set (r' := v' mod 2 ^ s) in *.
  set (h := 2 ^ (s - 1)) in *.
  destruct (Z.eq_dec q q') as [E|N].
  - rewrite <- E in *. assert (r <= r') by nia.
    destruct (Z.ltb_spec h r); destruct (Z.ltb_spec h r');
      destruct (Z.eqb_spec r h); destruct (Z.eqb_spec r' h);
      destruct (Z.odd q); simpl; lia.
  - assert (q + 1 <= q') by lia.
    destruct ((h <? r) || (r =? h) && Z.odd q);
      destruct ((h <? r') || (r' =? h) && Z.odd q'); lia.
Qed.

Lemma rnd_mono (v v' : Z) : 0 <= v <= v' -> rnd v <= rnd v'.
Proof.
  intros [Hv Hvv].
  destruct (Z.eq_dec v 0) as [->|Hnz].
  { rewrite rnd_0. apply rnd_nonneg. lia. }
  assert (Hv0 : 0 < v) by lia. assert (Hv0' : 0 < v') by lia.
  pose proof (mag_le v v' Hvv) as Hmag.
  pose proof (cexp_ge v) as [H149 Hm]. pose proof (cexp_ge v') as [H149' Hm'].
  assert (Hss : cexp v <= cexp v') by (unfold cexp; lia).
  destruct (Z.eq_dec (cexp v) (cexp v')) as [E|N].
  - unfold rnd. rewrite <- E.
    apply Z.mul_le_mono_nonneg_r; [apply Z.pow_nonneg; lia|].
    apply rne_mono_same; lia.
  - assert (Hlt : cexp v < cexp v') by lia.
    assert (Hs' : cexp v' = mag v' - 24) by (unfold cexp in *; lia).
    assert (Hmlt : mag v < mag v') by (unfold cexp in *; lia).
    pose proof (quotient_bounds v' Hv0') as [Hq' Hq23']. cbv zeta in Hq', Hq23'.
    specialize (Hq23' ltac:(lia)).
    pose proof (mag_bounds v Hv0) as [_ Hup].
    pose proof (rne_bounds v (cexp v)) as Hr.
    pose proof (rne_bounds v' (cexp v')) as Hr'.
    set (s := cexp v) in *. set (s' := cexp v') in *.
    set (T := mag v' - 1).
    assert (HT : s < T) by (unfold T; lia).
    (* lower bound of the larger one *)
    assert (Hlow : 2 ^ T <= rnd v').
    { unfold rnd. fold s'. replace T with (23 + s') by (unfold T; lia).
      rewrite Z.pow_add_r by lia.
      apply Z.mul_le_mono_nonneg_r; [apply Z.pow_nonneg; lia | lia]. }
    (* upper bound of the smaller one *)
    assert (Hupp : rnd v <= 2 ^ T).
    { unfold rnd. fold s.
      replace T with ((T - s) + s) by lia. rewrite Z.pow_add_r by lia.
      apply Z.mul_le_mono_nonneg_r; [apply Z.pow_nonneg; lia|].
      assert (v / 2 ^ s < 2 ^ (T - s)); [|lia].
      apply Z.div_lt_upper_bound; [apply Z.pow_pos_nonneg; lia|].
      rewrite <- Z.pow_add_r by lia. replace (s + (T - s)) with T by lia.
      apply Z.lt_le_trans with (2 ^ mag v); [exact Hup|].
      apply Z.pow_le_mono_r; unfold T; lia. }
    lia.
Qed.

Lemma valid_canonical s m e :
  valid_binary 24 128 (S754_finite s m e) = true -> canonical32 m e /\ e <= 104.
Proof.
  cbn [valid_binary]. unfold SpecFloat.bounded, canonical_mantissa. intros H.
  apply andb_prop in H. destruct H as [H1 H2].
  apply Z.eqb_eq in H1. apply Z.leb_le in H2. split; [exact H1 | lia].
Qed.

Lemma canonical_bounds m e : canonical32 m e ->
  -149 <= e /\ Z.pos m < 2 ^ 24 /\ (-149 < e -> 2 ^ 23 <= Z.pos m).
Proof.
  unfold canonical32. rewrite fexp32_eq, digits2_size. intros H.
  pose proof (Z.log2_spec (Z.pos m) ltac:(lia)) as [Hlo Hhi].
  split; [lia|]. split.
  - apply Z.lt_le_trans with (2 ^ Z.succ (Z.log2 (Z.pos m))); [exact Hhi|].
    apply Z.pow_le_mono_r; lia.
  - intros Hgt. apply Z.le_trans with (2 ^ Z.log2 (Z.pos m)); [|exact Hlo].
    apply Z.pow_le_mono_r; lia.
Qed.

Lemma rnd_exact (m : positive) (e : Z) : canonical32 m e -> rnd (Val (Z.pos m) e) = Val (Z.pos m) e.
Proof.
  intros Hc. pose proof (canonical_bounds m e Hc) as (He & _ & _).
  unfold rnd. rewrite cexp_Val by (unfold K; lia). rewrite Hc.
  unfold rne, Val.
  assert (HP : 0 < 2 ^ (e + K)) by (apply Z.pow_pos_nonneg; unfold K; lia).
  rewrite Z.div_mul, Z.mod_mul by lia.
  assert (Hh : 0 < 2 ^ (e + K - 1)) by (apply Z.pow_pos_nonneg; unfold K; lia).
  destruct (Z.ltb_spec (2 ^ (e + K - 1)) 0); [lia|].
  destruct (Z.eqb_spec 0 (2 ^ (e + K - 1))); [lia|]. simpl. lia.
Qed.

Lemma Val_pos m e : - K <= e -> 0 < Val (Z.pos m) e.
Proof.
  intros He. unfold Val. apply Z.mul_pos_pos; [lia|]. apply Z.pow_pos_nonneg; lia.
Qed.

Lemma Val_lt_exp m1 e1 m2 e2 :
  canonical32 m1 e1 -> canonical32 m2 e2 -> e1 < e2 ->
  Val (Z.pos m1) e1 < Val (Z.pos m2) e2.
Proof.
  intros H1 H2 Hlt.
  pose proof (canonical_bounds m1 e1 H1) as (He1 & Hm1 & _).
  pose proof (canonical_bounds m2 e2 H2) as (He2 & _ & Hm2).
  specialize (Hm2 ltac:(lia)). unfold Val.
  assert (HP1 : 0 < 2 ^ (e1 + K)) by (apply Z.pow_pos_nonneg; unfold K; lia).
  assert (HP2 : 2 ^ (e2 + K) = 2 ^ (e2 - e1) * 2 ^ (e1 + K)).
  { rewrite <- Z.pow_add_r by (unfold K; lia). f_equal. lia. }
  assert (HP3 : 2 <= 2 ^ (e2 - e1)).
  { change 2 with (2 ^ 1) at 1. apply Z.pow_le_mono_r; lia. }
  rewrite HP2. nia.
Qed.

Lemma SFcompare_F2Z (x y : spec_float) : finite32 x -> finite32 y ->
  SFcompare x y = Some (F2Z x ?= F2Z y).
Proof.
  intros [Vx Fx] [Vy Fy].
  destruct x as [sx|sx| |sx mx ex]; try contradiction;
    destruct y as [sy|sy| |sy my ey]; try contradiction; cbn [SFcompare F2Z].
  - reflexivity.
  - destruct (valid_canonical _ _ _ Vy) as [Cy _].
    pose proof (canonical_bounds _ _ Cy) as (He & _).
    pose proof (Val_pos my ey ltac:(unfold K; lia)).
    destruct sy; f_equal; symmetry; [apply Z.compare_gt_iff | apply Z.compare_lt_iff]; lia.
  - destruct (valid_canonical _ _ _ Vx) as [Cx _].
    pose proof (canonical_bounds _ _ Cx) as (He & _).
    pose proof (Val_pos mx ex ltac:(unfold K; lia)).
    destruct sx; f_equal; symmetry; [apply Z.compare_lt_iff | apply Z.compare_gt_iff]; lia.
  - destruct (valid_canonical _ _ _ Vx) as [Cx _].
    destruct (valid_canonical _ _ _ Vy) as [Cy _].
    pose proof (canonical_bounds _ _ Cx) as (Hex & _).
    pose proof (canonical_bounds _ _ Cy) as (Hey & _).
    pose proof (Val_pos mx ex ltac:(unfold K; lia)).
    pose proof (Val_pos my ey ltac:(unfold K; lia)).
    change (Pos.compare_cont Eq mx my) with (Pos.compare mx my).
    assert (Hsame : ex = ey -> (Val (Z.pos mx) ex ?= Val (Z.pos my) ey) = (mx ?= my)%positive).
    { intros ->. unfold Val.
      assert (HP : 0 < 2 ^ (ey + K)) by (apply Z.pow_pos_nonneg; unfold K; lia).
      change (mx ?= my)%positive with (Z.pos mx ?= Z.pos my).
      destruct (Z.compare_spec (Z.pos mx) (Z.pos my)) as [E|L|G].
      - rewrite E. apply Z.compare_refl.
      - apply Z.compare_lt_iff. nia.
      - apply Z.compare_gt_iff. nia. }
    destruct sx, sy; f_equal.
    + (* both negative *)
      rewrite Z.compare_opp.
      destruct (Z.compare_spec ex ey) as [E|L|G].
      * rewrite (Z.compare_antisym (Val (Z.pos mx) ex) (Val (Z.pos my) ey)), (Hsame E).
        reflexivity.
      * pose proof (Val_lt_exp _ _ _ _ Cx Cy L).
        symmetry. apply Z.compare_gt_iff. lia.
      * pose proof (Val_lt_exp _ _ _ _ Cy Cx G).
        symmetry. apply Z.compare_lt_iff. lia.
    + symmetry. apply Z.compare_lt_iff. lia.
    + symmetry. apply Z.compare_gt_iff. lia.
    + destruct (Z.compare_spec ex ey) as [E|L|G].
      * rewrite (Hsame E). reflexivity.
      * pose proof (Val_lt_exp _ _ _ _ Cx Cy L).
        symmetry. apply Z.compare_lt_iff. lia.
      * pose proof (Val_lt_exp _ _ _ _ Cy Cx G).
        symmetry. apply Z.compare_gt_iff. lia.
Qed.

Lemma rnds_mono (z z' : Z) : z <= z' -> rnds z <= rnds z'.
Proof.
  intros H. unfold rnds.
  destruct (Z.ltb_spec z 0); destruct (Z.ltb_spec z' 0).
  - pose proof (rnd_mono (- z') (- z) ltac:(lia)). lia.
  - pose proof (rnd_nonneg (- z) ltac:(lia)). pose proof (rnd_nonneg z' ltac:(lia)). lia.
  - lia.
  - apply rnd_mono. lia.
Qed.

Lemma finite32_zero s : finite32 (S754_zero s).
Proof. split; [reflexivity | exact I]. Qed.

Lemma rnds_F2Z (x : spec_float) : finite32 x -> rnds (F2Z x) = F2Z x.
Proof.
  intros [V F]. destruct x as [s|s| |s m e]; try contradiction.
  - reflexivity.
  - destruct (valid_canonical _ _ _ V) as [C _].
    pose proof (canonical_bounds _ _ C) as (He & _).
    pose proof (Val_pos m e ltac:(unfold K; lia)) as Hp.
    pose proof (rnd_exact m e C) as HR.
    unfold rnds, F2Z. destruct s.
    + destruct (Z.ltb_spec (- Val (Z.pos m) e) 0); [|lia].
      rewrite Z.opp_involutive, HR. reflexivity.
    + destruct (Z.ltb_spec (Val (Z.pos m) e) 0); [lia|]. exact HR.
Qed.

Lemma shl_align_spec (mx : positive) (ex ex' : Z) :
  - K <= ex -> - K <= ex' ->
  let r := shl_align mx ex ex' in
  snd r = Z.min ex ex'
  /\ Z.pos (fst r) = Z.pos mx * 2 ^ (ex - snd r)
  /\ Val (Z.pos (fst r)) (snd r) = Val (Z.pos mx) ex.
Proof.
  intros Hex Hex'. unfold shl_align.
  destruct (ex' - ex) as [|d|d] eqn:E; cbn [fst snd].
  - split; [lia|]. split; [|reflexivity].
    replace (ex - ex) with 0 by lia. lia.
  - split; [lia|]. split; [|reflexivity].
    replace (ex - ex) with 0 by lia. lia.
  - assert (Hd : ex - ex' = Z.pos d) by lia.
    assert (Hm : Z.pos (Pos.iter xO mx d) = Z.pos mx * 2 ^ (ex - ex')).
    { rewrite Hd. change (Pos.iter xO mx d) with (shift_pos d mx).
      rewrite shift_pos_correct. change (Z.pow_pos 2 d) with (2 ^ Z.pos d). lia. }
    split; [lia|]. split; [exact Hm|].
    unfold Val. rewrite Hm, <- Z.mul_assoc, <- Z.pow_add_r by lia.
    f_equal. f_equal. lia.
Qed.

Lemma binary_round_aux_finite (s : bool) (r : spec_float) :
  valid_binary 24 128 r = true ->
  (r = S754_zero s \/ exists m' e', r = S754_finite s m' e') -> finite32 r.
Proof.
  intros V [->|(m' & e' & ->)]; split; try exact V; exact I.
Qed.

Lemma binary_round_spec (s : bool) (m : positive) (e : Z) :
  -149 <= e -> Val (Z.pos m) e <= 2 ^ (K + 2) ->
  let r := binary_round 24 128 s m e in
  finite32 r /\ F2Z r = if s then - rnd (Val (Z.pos m) e) else rnd (Val (Z.pos m) e).
Proof.
  intros He Hb. unfold binary_round.
  pose proof (fexp32_eq (Z.pos (digits2_pos m) + e)) as Hf.
  pose proof (shl_align_spec m e (fexp32 (Z.pos (digits2_pos m) + e))
                ltac:(unfold K; lia) ltac:(unfold K; lia)) as (H1 & H2 & H3).
  destruct (shl_align m e (fexp32 (Z.pos (digits2_pos m) + e))) as [mz ez].
  cbn [fst snd] in H1, H2, H3.
  assert (Hdig : Z.pos (digits2_pos mz) + ez = Z.pos (digits2_pos m) + e).
  { rewrite !digits2_size, H2. rewrite Z.log2_mul_pow2 by lia. lia. }
  pose proof (binary_round_aux_spec s mz ez ltac:(unfold K; lia)) as Hbra.
  rewrite Hdig in Hbra. specialize (Hbra ltac:(lia)).
  rewrite H3 in Hbra. specialize (Hbra Hb). cbv zeta in Hbra.
  destruct Hbra as (V & Fm & Hval).
  split; [exact (binary_round_aux_finite s _ V Fm) | exact Hval].
Qed.

Lemma binary_normalize_spec (z e : Z) :
  -149 <= e -> Z.abs z * 2 ^ (e + K) <= 2 ^ (K + 2) ->
  let r := binary_normalize 24 128 z e false in
  finite32 r /\ F2Z r = rnds (z * 2 ^ (e + K)).
Proof.
  intros He Hb. assert (HP : 0 < 2 ^ (e + K)) by (apply Z.pow_pos_nonneg; unfold K; lia).
  destruct z as [|m|m]; cbn [binary_normalize].
  - split; [apply finite32_zero | reflexivity].
  - destruct (binary_round_spec false m e He Hb) as [F V]. split; [exact F|].
    rewrite V. unfold rnds, Val.
    destruct (Z.ltb_spec (Z.pos m * 2 ^ (e + K)) 0); [nia | reflexivity].
  - destruct (binary_round_spec true m e He Hb) as [F V]. split; [exact F|].
    rewrite V. unfold rnds, Val.
    destruct (Z.ltb_spec (Z.neg m * 2 ^ (e + K)) 0); [|nia].
    f_equal. f_equal. change (Z.neg m) with (- Z.pos m). lia.
Qed.

Lemma F2Z_finite (s : bool) (m : positive) (e : Z) :
  F2Z (S754_finite s m e) = cond_Zopp s (Z.pos m) * 2 ^ (e + K).
Proof. unfold F2Z, Val. destruct s; cbn [cond_Zopp]; lia. Qed.

Lemma aligned_value (s : bool) (m : positive) (e ez : Z) :
  - K <= e -> - K <= ez -> ez <= e ->
  cond_Zopp s (Z.pos (fst (shl_align m e ez))) * 2 ^ (ez + K) = F2Z (S754_finite s m e).
Proof.
  intros He Hez Hle.
  pose proof (shl_align_spec m e ez He Hez) as (H1 & H2 & H3).
  cbv zeta in H1, H2, H3. rewrite F2Z_finite.
  replace (snd (shl_align m e ez)) with ez in H3 by lia.
  unfold Val in H3. destruct s; cbn [cond_Zopp]; lia.
Qed.

Lemma fadd_spec (x y : spec_float) :
  finite32 x -> finite32 y -> Z.abs (F2Z x + F2Z y) <= 2 ^ (K + 2) ->
  finite32 (fadd x y) /\ F2Z (fadd x y) = rnds (F2Z x + F2Z y).
Proof.
  change (fadd x y) with (SFadd 24 128 x y).
  intros Fx Fy Hb. pose proof (rnds_F2Z x Fx) as Hx. pose proof (rnds_F2Z y Fy) as Hy.
  destruct Fx as [Vx Fx], Fy as [Vy Fy].
  destruct x as [sx|sx| |sx mx ex]; try contradiction;
    destruct y as [sy|sy| |sy my ey]; try contradiction.
  - split; [|destruct sx, sy; reflexivity].
    destruct sx, sy; apply finite32_zero.
  - cbn [SFadd]. split; [split; assumption|].
    change (F2Z (S754_zero sx)) with 0. rewrite Z.add_0_l, Hy. reflexivity.
  - cbn [SFadd]. split; [split; assumption|].
    change (F2Z (S754_zero sy)) with 0. rewrite Z.add_0_r, Hx. reflexivity.
  - cbn [SFadd]. cbv zeta.
    destruct (valid_canonical _ _ _ Vx) as [Cx _].
    destruct (valid_canonical _ _ _ Vy) as [Cy _].
    pose proof (canonical_bounds _ _ Cx) as (Hex & _).
    pose proof (canonical_bounds _ _ Cy) as (Hey & _).
    set (ez := Z.min ex ey).
    pose proof (aligned_value sx mx ex ez ltac:(unfold K; lia) ltac:(unfold K; lia)
                  ltac:(lia)) as Ax.
    pose proof (aligned_value sy my ey ez ltac:(unfold K; lia) ltac:(unfold K; lia)
                  ltac:(lia)) as Ay.
    set (zx := cond_Zopp sx (Z.pos (fst (shl_align mx ex ez)))) in *.
    set (zy := cond_Zopp sy (Z.pos (fst (shl_align my ey ez)))) in *.
    assert (Hsum : (zx + zy) * 2 ^ (ez + K) = F2Z (S754_finite sx mx ex) + F2Z (S754_finite sy my ey))
      by lia.
    assert (HP : 0 < 2 ^ (ez + K)) by (apply Z.pow_pos_nonneg; unfold K; lia).
    rewrite <- Hsum in *.
    apply binary_normalize_spec; [lia|].
    rewrite Z.abs_mul, (Z.abs_eq (2 ^ (ez + K))) in Hb by lia. exact Hb.
Qed.

Lemma fsub_spec (x y : spec_float) :
  finite32 x -> finite32 y -> Z.abs (F2Z x - F2Z y) <= 2 ^ (K + 2) ->
  finite32 (fsub x y) /\ F2Z (fsub x y) = rnds (F2Z x - F2Z y).
Proof.
  change (fsub x y) with (SFsub 24 128 x y).
  intros Fx Fy Hb. pose proof (rnds_F2Z x Fx) as Hx.
  destruct Fx as [Vx Fx], Fy as [Vy Fy].
  destruct x as [sx|sx| |sx mx ex]; try contradiction;
    destruct y as [sy|sy| |sy my ey]; try contradiction.
  - split; [|destruct sx, sy; reflexivity].
    destruct sx, sy; apply finite32_zero.
  - cbn [SFsub].
    assert (Fn : finite32 (S754_finite (negb sy) my ey)) by (split; [exact Vy | exact I]).
    split; [exact Fn|].
    change (F2Z (S754_zero sx)) with 0.
    replace (0 - F2Z (S754_finite sy my ey)) with (F2Z (S754_finite (negb sy) my ey))
      by (rewrite !F2Z_finite; destruct sy; cbn [cond_Zopp negb]; lia).
    symmetry. apply rnds_F2Z. exact Fn.
  - cbn [SFsub]. split; [split; assumption|].
    change (F2Z (S754_zero sy)) with 0. rewrite Z.sub_0_r, Hx. reflexivity.
  - cbn [SFsub]. cbv zeta.
    destruct (valid_canonical _ _ _ Vx) as [Cx _].
    destruct (valid_canonical _ _ _ Vy) as [Cy _].
    pose proof (canonical_bounds _ _ Cx) as (Hex & _).
    pose proof (canonical_bounds _ _ Cy) as (Hey & _).
    set (ez := Z.min ex ey).
    pose proof (aligned_value sx mx ex ez ltac:(unfold K; lia) ltac:(unfold K; lia)
                  ltac:(lia)) as Ax.
    pose proof (aligned_value sy my ey ez ltac:(unfold K; lia) ltac:(unfold K; lia)
                  ltac:(lia)) as Ay.
    set (zx := cond_Zopp sx (Z.pos (fst (shl_align mx ex ez)))) in *.
    set (zy := cond_Zopp sy (Z.pos (fst (shl_align my ey ez)))) in *.
    assert (Hsum : (zx - zy) * 2 ^ (ez + K) = F2Z (S754_finite sx mx ex) - F2Z (S754_finite sy my ey))
      by lia.
    assert (HP : 0 < 2 ^ (ez + K)) by (apply Z.pow_pos_nonneg; unfold K; lia).
    rewrite <- Hsum in *.
    apply binary_normalize_spec; [lia|].
    rewrite Z.abs_mul, (Z.abs_eq (2 ^ (ez + K))) in Hb by lia. exact Hb.
Qed.

Lemma product_digits (mx my : positive) (ex ey : Z) :
  canonical32 mx ex -> canonical32 my ey ->
  ex + ey <= fexp32 (Z.pos (digits2_pos (mx * my)) + (ex + ey)).
Proof.
  intros Cx Cy.
  pose proof (canonical_bounds _ _ Cx) as (Hex & _ & Hmx).
  pose proof (canonical_bounds _ _ Cy) as (Hey & _ & Hmy).
  rewrite fexp32_eq, digits2_size.
  destruct (Z_le_gt_dec (ex + ey) (-149)) as [Hs|Hs]; [lia|].
  assert (Hbig : 2 ^ 23 <= Z.pos (mx * my)).
  { rewrite Pos2Z.inj_mul.
    destruct (Z.eq_dec ex (-149)) as [E|N].
    - specialize (Hmy ltac:(lia)). nia.
    - specialize (Hmx ltac:(lia)). nia. }
  pose proof (Z.log2_le_mono _ _ Hbig) as Hl.
  rewrite Z.log2_pow2 in Hl by lia. lia.
Qed.

Lemma F2Z_mul (sx sy : bool) (mx my : positive) (ex ey : Z) :
  -149 <= ex -> -149 <= ey ->
  F2Z (S754_finite sx mx ex) * F2Z (S754_finite sy my ey)
  = cond_Zopp (xorb sx sy) (Val (Z.pos (mx * my)) (ex + ey)) * 2 ^ K.
Proof.
  intros Hex Hey. rewrite !F2Z_finite. unfold Val. rewrite Pos2Z.inj_mul.
  assert (Hp : 2 ^ (ex + K) * 2 ^ (ey + K) = 2 ^ (ex + ey + K) * 2 ^ K).
  { rewrite <- !Z.pow_add_r by (unfold K in *; lia). f_equal. lia. }
  set (a := 2 ^ (ex + K)) in *. set (b := 2 ^ (ey + K)) in *.
  set (c := 2 ^ (ex + ey + K)) in *. set (k := 2 ^ K) in *.
  assert (Hm : forall p q : Z, p * a * (q * b) = p * q * c * k)
    by (intros p q; rewrite <- (Z.mul_assoc (p * q) c k), <- Hp; ring).
  destruct sx, sy; cbn [cond_Zopp xorb]; rewrite Hm; ring.
Qed.

Lemma fmul_spec (x y : spec_float) :
  finite32 x -> finite32 y -> Z.abs (F2Z x * F2Z y) <= 2 ^ (K + 2) * 2 ^ K ->
  finite32 (fmul x y)
  /\ F2Z (fmul x y) = rnds (F2Z x * F2Z y / 2 ^ K).
Proof.
  change (fmul x y) with (SFmul 24 128 x y).
  intros [Vx Fx] [Vy Fy] Hb.
  assert (HK : 0 < 2 ^ K) by (apply Z.pow_pos_nonneg; unfold K; lia).
  destruct x as [sx|sx| |sx mx ex]; try contradiction;
    destruct y as [sy|sy| |sy my ey]; try contradiction; cbn [SFmul].
  - split; [apply finite32_zero | reflexivity].
  - split; [apply finite32_zero | reflexivity].
  - split; [apply finite32_zero|].
    change (F2Z (S754_zero sy)) with 0. rewrite Z.mul_0_r. reflexivity.
  - destruct (valid_canonical _ _ _ Vx) as [Cx _].
    destruct (valid_canonical _ _ _ Vy) as [Cy _].
    pose proof (canonical_bounds _ _ Cx) as (Hex & _).
    pose proof (canonical_bounds _ _ Cy) as (Hey & _).
    rewrite (F2Z_mul sx sy mx my ex ey Hex Hey) in *.
    rewrite Z.div_mul by lia.
    pose proof (Val_pos (mx * my) (ex + ey) ltac:(unfold K; lia)) as Hpos.
    set (v := Val (Z.pos (mx * my)) (ex + ey)) in *.
    assert (Hv : v <= 2 ^ (K + 2)).
    { rewrite Z.abs_mul, (Z.abs_eq (2 ^ K)) in Hb by lia.
      assert (Z.abs (cond_Zopp (xorb sx sy) v) = v)
        by (destruct (xorb sx sy); cbn [cond_Zopp]; lia).
      nia. }
    pose proof (binary_round_aux_spec (xorb sx sy) (mx * my) (ex + ey) ltac:(unfold K; lia)
                  (product_digits _ _ _ _ Cx Cy) Hv) as (V & Fm & Hval).
    split; [exact (binary_round_aux_finite _ _ V Fm)|].
    cbv zeta in Hval. fold v in Hval. rewrite Hval. unfold rnds.
    destruct (xorb sx sy); cbn [cond_Zopp].
    + destruct (Z.ltb_spec (- v) 0); [|lia]. rewrite Z.opp_involutive. reflexivity.
    + destruct (Z.ltb_spec v 0); [lia|]. reflexivity.
Qed.

(** Numbers on the grid of their own binade are not rounded, and a small
    excess over such a number is rounded away. *)
Lemma rnd_near (v d : Z) :
  0 < v -> v mod 2 ^ cexp v = 0 -> 0 <= d < 2 ^ (cexp v - 1) -> rnd (v + d) = v.
Proof.
  intros Hv Hmod Hd.
  pose proof (cexp_ge v) as [Hc Hcm].
  set (c := cexp v) in *.
  assert (HPc : 0 < 2 ^ c) by (apply Z.pow_pos_nonneg; lia).
  assert (Hhalf : 2 ^ c = 2 * 2 ^ (c - 1)).
  { rewrite <- Z.pow_succ_r by lia. f_equal. lia. }
  pose proof (mag_bounds v Hv) as [Hlo Hhi].
  apply Z.mod_divide in Hmod; [|lia]. destruct Hmod as [k Hk].
  assert (Hk1 : 1 <= k) by nia.
  assert (Hcmag : c < mag v).
  { destruct (Z_lt_le_dec c (mag v)) as [L|G]; [exact L|].
    assert (2 ^ mag v <= 2 ^ c) by (apply Z.pow_le_mono_r; lia). nia. }
  (* the next power of two is on the grid too *)
  assert (Hgrid : 2 ^ mag v = 2 ^ (mag v - c) * 2 ^ c).
  { rewrite <- Z.pow_add_r by lia. f_equal. lia. }
  assert (Hroom : v + 2 ^ c <= 2 ^ mag v).
  { rewrite Hgrid in Hhi |- *.
    set (P := 2 ^ (mag v - c)) in *. set (C := 2 ^ c) in *.
    assert (k < P) by (apply (Z.mul_lt_mono_pos_r C); lia).
    rewrite Hk. replace (k * C + C) with ((k + 1) * C) by ring.
    apply Z.mul_le_mono_nonneg_r; lia. }
  assert (Hmag : mag (v + d) = mag v).
  { unfold mag. f_equal. apply Z.log2_unique; [unfold mag in *; lia|].
    unfold mag in *. replace (Z.succ (Z.log2 v)) with (Z.log2 v + 1) by lia.
    replace (Z.log2 v + 1 - 1) with (Z.log2 v) in Hlo by lia. lia. }
  assert (Hce : cexp (v + d) = c) by (unfold c, cexp; rewrite Hmag; reflexivity).
  unfold rnd. rewrite Hce. unfold rne.
  assert (Hq : (v + d) / 2 ^ c = k).
  { rewrite Hk, Z.div_add_l by lia. rewrite Z.div_small by lia. lia. }
  assert (Hr : (v + d) mod 2 ^ c = d).
  { rewrite Hk, Z.add_comm, Z_mod_plus_full. apply Z.mod_small. lia. }
  rewrite Hq, Hr.
  destruct (Z.ltb_spec (2 ^ (c - 1)) d); [lia|].
  destruct (Z.eqb_spec d (2 ^ (c - 1))); [lia|]. cbn [orb andb]. lia.
Qed.

Lemma rnd_grid (v : Z) : 0 <= v -> v mod 2 ^ cexp v = 0 -> rnd v = v.
Proof.
  intros Hv Hmod. destruct (Z.eq_dec v 0) as [->|N]; [reflexivity|].
  pose proof (cexp_ge v) as [Hc _].
  assert (0 < 2 ^ (cexp v - 1)) by (apply Z.pow_pos_nonneg; lia).
  rewrite <- (Z.add_0_r v) at 1. apply rnd_near; lia.
Qed.

(** Multiples of 2^-24 up to 1 (scaled: multiples of 2^274 up to 2^298). *)
Lemma grid24 (k : Z) : 0 <= k <= 2 ^ 24 -> (k * 2 ^ 274) mod 2 ^ cexp (k * 2 ^ 274) = 0.
Proof.
  intros Hk. destruct (Z.eq_dec k 0) as [->|N]; [reflexivity|].
  destruct (Z.eq_dec k (2 ^ 24)) as [->|N']; [reflexivity|].
  set (v := k * 2 ^ 274).
  assert (Hv : 0 < v) by (unfold v; lia).
  assert (Hlt : v < 2 ^ 298).
  { unfold v. change (2 ^ 298) with (2 ^ 24 * 2 ^ 274). nia. }
  assert (Hmag : mag v <= 298).
  { unfold mag. pose proof (Z.log2_lt_pow2 v 298 Hv) as [H1 _]. specialize (H1 Hlt). lia. }
  assert (Hge : 2 ^ 274 <= v) by (unfold v; nia).
  assert (Hmag' : 275 <= mag v).
  { unfold mag. pose proof (Z.log2_le_mono _ _ Hge) as Hl.
    rewrite Z.log2_pow2 in Hl by lia. lia. }
  assert (Hc : 149 <= cexp v <= 274) by (unfold cexp; lia).
  set (c := cexp v) in *. clearbody c.
  apply Z.mod_divide; [apply Z.pow_nonzero; lia|].
  exists (k * 2 ^ (274 - c)). unfold v.
  rewrite <- Z.mul_assoc, <- Z.pow_add_r by lia. f_equal. f_equal. lia.
Qed.

Lemma cexp_grid24 (k : Z) : 1 <= k <= 2 ^ 24 -> 251 <= cexp (k * 2 ^ 274).
Proof.
  intros Hk. assert (Hge : 2 ^ 274 <= k * 2 ^ 274) by nia.
  pose proof (Z.log2_le_mono _ _ Hge) as Hl. rewrite Z.log2_pow2 in Hl by lia.
  unfold cexp, mag. lia.
Qed.

Lemma SFleb_F2Z (x y : spec_float) : finite32 x -> finite32 y ->
  SFleb x y = true <-> F2Z x <= F2Z y.
Proof.
  intros Fx Fy. unfold SFleb. rewrite (SFcompare_F2Z x y Fx Fy).
  destruct (Z.compare_spec (F2Z x) (F2Z y)); split; intros; try reflexivity;
    try discriminate; lia.
Qed.

Lemma rnds_0 : rnds 0 = 0.
Proof. reflexivity. Qed.

Lemma rnds_nonneg (z : Z) : 0 <= z -> rnds z = rnd z.
Proof. intros H. unfold rnds. destruct (Z.ltb_spec z 0); [lia | reflexivity]. Qed.

Lemma rnds_above_one : rnds (s_one + s_ulp) = s_one.
Proof. vm_compute. reflexivity. Qed.

Lemma rnds_min : rnds s_min = s_min.
Proof. vm_compute. reflexivity. Qed.

Lemma rnds_opp (z : Z) : 0 <= z -> rnds z = z -> rnds (- z) = - z.
Proof.
  intros Hz H. destruct (Z.eq_dec z 0) as [->|N]; [reflexivity|].
  rewrite rnds_nonneg in H by lia.
  unfold rnds. destruct (Z.ltb_spec (- z) 0); [|lia].
  rewrite Z.opp_involutive, H. reflexivity.
Qed.

(** The largest multiple of 2^-24 that [1 - w] cannot exceed. *)
Lemma complement_bound (W : Z) : 0 <= W <= s_one ->
  let B := (2 ^ 24 - W / s_ulp) * s_ulp in
  0 <= B <= s_one /\ s_one - W <= B /\ W + B < s_one + s_ulp
  /\ rnds B = B /\ (B = 0 \/ rnds (B + s_min) = B).
Proof.
  intros HW B. unfold s_one, s_ulp, K in *.
  assert (HU : 0 < 2 ^ 274) by (apply Z.pow_pos_nonneg; lia).
  assert (H1 : 2 ^ 298 = 2 ^ 24 * 2 ^ 274) by reflexivity.
  pose proof (Z.div_mod W (2 ^ 274) ltac:(lia)) as Hdm.
  pose proof (Z.mod_pos_bound W (2 ^ 274) HU) as Hmb.
  assert (Hq0 : 0 <= W / 2 ^ 274) by (apply Z.div_pos; lia).
  assert (Hq1 : W / 2 ^ 274 <= 2 ^ 24).
  { apply Z.div_le_upper_bound; [lia|]. rewrite Z.mul_comm, <- H1. lia. }
  set (k := 2 ^ 24 - W / 2 ^ 274) in *.
  assert (Hk : 0 <= k <= 2 ^ 24) by (unfold k; lia).
  assert (HB : B = k * 2 ^ 274) by reflexivity.
  assert (HBW : W + B = 2 ^ 298 + W mod 2 ^ 274).
  { rewrite HB. unfold k. rewrite Z.mul_sub_distr_r, <- H1. lia. }
  assert (HB0 : 0 <= B) by (rewrite HB; apply Z.mul_nonneg_nonneg; lia).
  assert (HB1 : B <= 2 ^ 298).
  { rewrite HB, H1. apply Z.mul_le_mono_nonneg_r; lia. }
  split; [lia|]. split; [lia|]. split; [lia|].
  pose proof (grid24 k Hk) as Hg. rewrite <- HB in Hg.
  split.
  - rewrite rnds_nonneg by lia. apply rnd_grid; [lia | exact Hg].
  - destruct (Z.eq_dec k 0) as [E|N]; [left; rewrite HB, E; reflexivity | right].
    pose proof (cexp_grid24 k ltac:(lia)) as Hc. rewrite <- HB in Hc.
    assert (HBpos : 0 < B) by (rewrite HB; apply Z.mul_pos_pos; lia).
    rewrite rnds_nonneg by (unfold s_min; lia).
    apply rnd_near; [exact HBpos | exact Hg|].
    unfold s_min. split; [lia|].
    apply Z.lt_le_trans with (2 ^ 250); [reflexivity|].
    apply Z.pow_le_mono_r; lia.
Qed.

Lemma finite32_fone : finite32 fone.
Proof. split; [reflexivity | exact I]. Qed.

Lemma finite32_FLT_MIN : finite32 FLT_MIN.
Proof. split; [reflexivity | exact I]. Qed.

Lemma F2Z_fone : F2Z fone = s_one.
Proof. vm_compute. reflexivity. Qed.

Lemma F2Z_FLT_MIN : F2Z FLT_MIN = s_min.
Proof. vm_compute. reflexivity. Qed.

Lemma s_consts : 0 < s_min /\ s_min < s_ulp /\ s_ulp < s_one
  /\ 4 * s_one = 2 ^ (K + 2) /\ s_one = 2 ^ K.
Proof. repeat split. Qed.

Lemma scaled_product (T D : Z) : 0 <= T <= s_one -> 0 <= D ->
  0 <= T * D / 2 ^ K <= D.
Proof.
  intros HT HD. pose proof s_consts as (_ & _ & _ & _ & H1). rewrite H1 in HT.
  assert (HK : 0 < 2 ^ K) by (apply Z.pow_pos_nonneg; unfold K; lia).
  split.
  - apply Z.div_pos; [apply Z.mul_nonneg_nonneg; lia | lia].
  - apply Z.div_le_upper_bound; [lia|]. apply Z.mul_le_mono_nonneg_r; lia.
Qed.

Lemma scaled_product_neg (T W : Z) : 0 <= T <= s_one -> 0 <= W ->
  - W <= T * (- W) / 2 ^ K <= 0.
Proof.
  intros HT HW. pose proof s_consts as (_ & _ & _ & _ & H1). rewrite H1 in HT.
  assert (HK : 0 < 2 ^ K) by (apply Z.pow_pos_nonneg; unfold K; lia).
  split.
  - apply Z.div_le_lower_bound; [lia|].
    replace (2 ^ K * - W) with (- (2 ^ K * W)) by ring.
    replace (T * - W) with (- (T * W)) by ring.
    apply -> Z.opp_le_mono. apply Z.mul_le_mono_nonneg_r; lia.
  - apply Z.div_le_upper_bound; [lia|].
    replace (T * - W) with (- (T * W)) by ring.
    assert (0 <= T * W) by (apply Z.mul_nonneg_nonneg; lia). lia.
Qed.

Lemma rnds_le_fixed (z b : Z) : z <= b -> rnds b = b -> rnds z <= b.
Proof. intros H E. rewrite <- E. apply rnds_mono. exact H. Qed.

Lemma rnds_ge_fixed (z b : Z) : b <= z -> rnds b = b -> b <= rnds z.
Proof. intros H E. rewrite <- E. apply rnds_mono. exact H. Qed.

Lemma level_up (t w : spec_float) :
  finite32 t -> finite32 w -> 0 <= F2Z t <= s_one -> 0 <= F2Z w <= s_one ->
  let n := fadd w (fadd (fmul t (fsub fone w)) FLT_MIN) in
  finite32 n /\ F2Z w <= F2Z n <= s_one.
Proof.
  intros Ft Fw HT HW.
  pose proof s_consts as (Hc1 & Hc2 & Hc3 & Hc4 & Hc5).
  pose proof (complement_bound (F2Z w) HW) as (HB & HcB & HWB & HRB & HBmin).
  cbv zeta in HB, HcB, HWB, HRB, HBmin.
  set (B := (2 ^ 24 - F2Z w / s_ulp) * s_ulp) in *.
  (* d = 1 - w *)
  destruct (fsub_spec fone w finite32_fone Fw) as [Fd Hd].
  { rewrite F2Z_fone. lia. }
  rewrite F2Z_fone in Hd.
  set (d := fsub fone w) in *.
  assert (HD : 0 <= F2Z d <= B).
  { rewrite Hd. split.
    - apply rnds_ge_fixed; [lia | exact rnds_0].
    - apply rnds_le_fixed; [lia | exact HRB]. }
  (* p = tau * d *)
  pose proof (scaled_product (F2Z t) (F2Z d) HT ltac:(lia)) as Hprod.
  destruct (fmul_spec t d Ft Fd) as [Fp Hp].
  { rewrite Z.abs_eq by (apply Z.mul_nonneg_nonneg; lia).
    rewrite <- Hc4, <- Hc5.
    apply Z.le_trans with (s_one * s_one); [|lia].
    apply Z.mul_le_mono_nonneg; lia. }
  set (p := fmul t d) in *.
  assert (HP : 0 <= F2Z p <= F2Z d).
  { rewrite Hp. split.
    - apply rnds_ge_fixed; [lia | exact rnds_0].
    - apply rnds_le_fixed; [lia | exact (rnds_F2Z d Fd)]. }
  (* q = p + FLT_MIN *)
  destruct (fadd_spec p FLT_MIN Fp finite32_FLT_MIN) as [Fq Hq].
  { rewrite F2Z_FLT_MIN. lia. }
  rewrite F2Z_FLT_MIN in Hq.
  set (q := fadd p FLT_MIN) in *.
  assert (HQ : 0 <= F2Z q /\ F2Z w + F2Z q <= s_one + s_ulp).
  { rewrite Hq. split.
    - apply rnds_ge_fixed; [lia | exact rnds_0].
    - destruct HBmin as [E|E].
      + assert (rnds (F2Z p + s_min) <= s_min)
          by (apply rnds_le_fixed; [lia | exact rnds_min]). lia.
      + pose proof (rnds_mono (F2Z p + s_min) (B + s_min) ltac:(lia)) as Hle.
        rewrite E in Hle. lia. }
  (* the new level *)
  destruct (fadd_spec w q Fw Fq) as [Fn Hn]; [lia|].
  split; [exact Fn|]. cbv zeta. fold d p q. rewrite Hn. split.
  - apply rnds_ge_fixed; [lia | exact (rnds_F2Z w Fw)].
  - pose proof (rnds_mono (F2Z w + F2Z q) (s_one + s_ulp) ltac:(lia)) as Hle.
    rewrite rnds_above_one in Hle. exact Hle.
Qed.

Lemma level_down (t w : spec_float) :
  finite32 t -> finite32 w -> 0 <= F2Z t <= s_one -> 0 <= F2Z w <= s_one ->
  let p := fmul t (fsub fzero w) in
  let n := fadd w (fadd p FLT_MIN) in
  finite32 p /\ finite32 n /\ 0 <= F2Z n <= s_one
  /\ (F2Z p <= - s_min -> F2Z n <= F2Z w).
Proof.
  intros Ft Fw HT HW.
  pose proof s_consts as (Hc1 & Hc2 & Hc3 & Hc4 & Hc5).
  (* d = 0 - w *)
  destruct (fsub_spec fzero w (finite32_zero false) Fw) as [Fd Hd].
  { change (F2Z fzero) with 0. lia. }
  change (F2Z fzero) with 0 in Hd. rewrite Z.sub_0_l in Hd.
  pose proof (rnds_opp (F2Z w) ltac:(lia) (rnds_F2Z w Fw)) as HnegW.
  rewrite HnegW in Hd.
  set (d := fsub fzero w) in *.
  (* p = tau * d *)
  pose proof (scaled_product_neg (F2Z t) (F2Z w) HT ltac:(lia)) as Hprod.
  destruct (fmul_spec t d Ft Fd) as [Fp Hp].
  { rewrite Hd, Z.abs_mul, (Z.abs_eq (F2Z t)), Z.abs_opp, (Z.abs_eq (F2Z w)) by lia.
    rewrite <- Hc4, <- Hc5.
    apply Z.le_trans with (s_one * s_one); [|lia].
    apply Z.mul_le_mono_nonneg; lia. }
  rewrite Hd in Hp.
  set (p := fmul t d) in *.
  assert (HP : - F2Z w <= F2Z p <= 0).
  { rewrite Hp. split.
    - apply rnds_ge_fixed; [lia | exact HnegW].
    - apply rnds_le_fixed; [lia | exact rnds_0]. }
  (* q = p + FLT_MIN *)
  destruct (fadd_spec p FLT_MIN Fp finite32_FLT_MIN) as [Fq Hq].
  { rewrite F2Z_FLT_MIN. lia. }
  rewrite F2Z_FLT_MIN in Hq.
  set (q := fadd p FLT_MIN) in *.
  assert (HQ : - F2Z w <= F2Z q <= s_min /\ (F2Z p <= - s_min -> F2Z q <= 0)).
  { rewrite Hq. split; [split|].
    - apply rnds_ge_fixed; [lia | exact HnegW].
    - apply rnds_le_fixed; [lia | exact rnds_min].
    - intros Hs. apply rnds_le_fixed; [lia | exact rnds_0]. }
  destruct HQ as [HQ HQ0].
  (* the new level *)
  destruct (fadd_spec w q Fw Fq) as [Fn Hn]; [lia|].
  split; [exact Fp|]. split; [exact Fn|]. cbv zeta. fold d p q. rewrite Hn.
  split; [split|].
  - apply rnds_ge_fixed; [lia | exact rnds_0].
  - pose proof (rnds_mono (F2Z w + F2Z q) (s_one + s_ulp) ltac:(lia)) as Hle.
    rewrite rnds_above_one in Hle. exact Hle.
  - intros Hs. specialize (HQ0 Hs).
    apply rnds_le_fixed; [lia | exact (rnds_F2Z w Fw)].
Qed.

(** *** In terms of [float] *)

Lemma is_binary32_finite32 (x : float) : is_binary32 x = true <-> finite32 x.
Proof.
  unfold is_binary32, finite32, is_finite. split.
  - intros H. apply andb_prop in H. destruct H as [F V].
    split; [exact V|]. destruct x; try discriminate; exact I.
  - intros [V F]. apply andb_true_intro. split; [|exact V].
    destruct x; try contradiction; reflexivity.
Qed.

Lemma fle_F2Z (x y : float) : finite32 x -> finite32 y ->
  fle x y = true <-> F2Z x <= F2Z y.
Proof. exact (SFleb_F2Z x y). Qed.

Lemma F2Z_neg_FLT_MIN : F2Z (fneg FLT_MIN) = - s_min.
Proof. vm_compute. reflexivity. Qed.

Lemma finite32_neg_FLT_MIN : finite32 (fneg FLT_MIN).
Proof. split; [reflexivity | exact I]. Qed.

(** The crossfade update towards 1: between the old level and 1. *)
Lemma crossfade_step_up (t w : float) :
  is_binary32 t = true -> fle fzero t = true -> fle t fone = true ->
  is_binary32 w = true -> fle fzero w = true -> fle w fone = true ->
  let n := fadd w (fadd (fmul t (fsub fone w)) FLT_MIN) in
  is_binary32 n = true /\ fle fzero n = true /\ fle w n = true /\ fle n fone = true.
Proof.
  intros Bt Ht0 Ht1 Bw Hw0 Hw1.
  apply is_binary32_finite32 in Bt, Bw.
  apply (fle_F2Z _ _ (finite32_zero false) Bt) in Ht0.
  apply (fle_F2Z _ _ Bt finite32_fone) in Ht1.
  apply (fle_F2Z _ _ (finite32_zero false) Bw) in Hw0.
  apply (fle_F2Z _ _ Bw finite32_fone) in Hw1.
  rewrite F2Z_fone in Ht1, Hw1. change (F2Z fzero) with 0 in Ht0, Hw0.
  destruct (level_up t w Bt Bw (conj Ht0 Ht1) (conj Hw0 Hw1)) as (Fn & Hlo & Hhi).
  cbv zeta. split; [apply is_binary32_finite32; exact Fn|].
  split; [|split].
  - apply (fle_F2Z _ _ (finite32_zero false) Fn). change (F2Z fzero) with 0. lia.
  - apply (fle_F2Z _ _ Bw Fn). exact Hlo.
  - apply (fle_F2Z _ _ Fn finite32_fone). rewrite F2Z_fone. exact Hhi.
Qed.

(** The crossfade update towards 0: between 0 and 1, and not above the old
    level when the step [tau * (0 - w)] is at most [-FLT_MIN]. *)
Lemma crossfade_step_down (t w : float) :
  is_binary32 t = true -> fle fzero t = true -> fle t fone = true ->
  is_binary32 w = true -> fle fzero w = true -> fle w fone = true ->
  let p := fmul t (fsub fzero w) in
  let n := fadd w (fadd p FLT_MIN) in
  is_binary32 n = true /\ fle fzero n = true /\ fle n fone = true
  /\ (fle p (fneg FLT_MIN) = true -> fle n w = true).
Proof.
  intros Bt Ht0 Ht1 Bw Hw0 Hw1.
  apply is_binary32_finite32 in Bt, Bw.
  apply (fle_F2Z _ _ (finite32_zero false) Bt) in Ht0.
  apply (fle_F2Z _ _ Bt finite32_fone) in Ht1.
  apply (fle_F2Z _ _ (finite32_zero false) Bw) in Hw0.
  apply (fle_F2Z _ _ Bw finite32_fone) in Hw1.
  rewrite F2Z_fone in Ht1, Hw1. change (F2Z fzero) with 0 in Ht0, Hw0.
  destruct (level_down t w Bt Bw (conj Ht0 Ht1) (conj Hw0 Hw1))
    as (Fp & Fn & [Hlo Hhi] & Hdown).
  cbv zeta. split; [apply is_binary32_finite32; exact Fn|].
  split; [|split; [|intros Hp]].
  - apply (fle_F2Z _ _ (finite32_zero false) Fn). change (F2Z fzero) with 0. exact Hlo.
  - apply (fle_F2Z _ _ Fn finite32_fone). rewrite F2Z_fone. exact Hhi.
  - apply (fle_F2Z _ _ Fn Bw). apply Hdown.
    apply (fle_F2Z _ _ Fp finite32_neg_FLT_MIN) in Hp.
    rewrite F2Z_neg_FLT_MIN in Hp. exact Hp.
Qed.

End RoundingFacts.

(** ** Facts on array loops *)

Module CArrayFacts.

Import CArray.
Local Open Scope nat_scope.

Lemma length_memcpy dst src n : length (memcpy dst src n) = length dst.
Proof. unfold memcpy. apply length_imap. Qed.

Lemma memcpy_lookup_whole dst src n i :
  i < length dst -> i < n / sizeof_float -> memcpy dst src n !! i = Some (src !!! i).
Proof.
  intros Hi Hw. unfold memcpy. rewrite list_lookup_imap.
  destruct (lookup_lt_is_Some_2 dst i Hi) as [d Hd]. rewrite Hd.
  cbn [fmap option_fmap option_map].
  destruct (Nat.ltb_spec i (n / sizeof_float)); [reflexivity | lia].
Qed.

Lemma for_range_S {A : Type} lo n (body : nat -> A -> A) a :
  for_range lo (S n) body a = for_range (S lo) n body (body lo a).
Proof. reflexivity. Qed.

(** Induction over the passes of a loop, the invariant indexed by the
    loop variable. *)
Lemma for_range_ind {A : Type} (P : nat -> A -> Prop) lo n (body : nat -> A -> A) a :
  P lo a ->
  (forall k x, lo <= k < lo + n -> P k x -> P (S k) (body k x)) ->
  P (lo + n) (for_range lo n body a).
Proof.
  revert lo a. induction n as [|n IH]; intros lo a H0 Hstep.
  - rewrite Nat.add_0_r. exact H0.
  - rewrite for_range_S. replace (lo + S n) with (S lo + n) by lia.
    apply IH.
    + apply Hstep; [lia | exact H0].
    + intros k x Hk. apply Hstep. lia.
Qed.

Lemma for_range_invariant {A : Type} (P : A -> Prop) lo n (body : nat -> A -> A) a :
  P a -> (forall k x, lo <= k < lo + n -> P x -> P (body k x)) ->
  P (for_range lo n body a).
Proof.
  intros H0 Hstep.
  exact (for_range_ind (fun _ => P) lo n body a H0 Hstep).
Qed.

Lemma length_for_range_insert lo n (g : nat -> list float -> float) (a : list float) :
  length (for_range lo n (fun k acc => <[k := g k acc]> acc) a) = length a.
Proof.
  apply (for_range_invariant (fun x : list float => length x = length a));
    [reflexivity|].
  intros k x _ Hx. rewrite length_insert. exact Hx.
Qed.

Lemma length_update_range lo n f a : length (update_range lo n f a) = length a.
Proof. apply length_for_range_insert. Qed.

Lemma update_range_outside lo n f (a : list float) j :
  (j < lo \/ lo + n <= j) -> update_range lo n f a !! j = a !! j.
Proof.
  unfold update_range. revert lo a.
  induction n as [|n IH]; intros lo a Hj; [reflexivity|].
  rewrite for_range_S, IH by lia. apply list_lookup_insert_ne. lia.
Qed.

Lemma update_range_inside lo n f (a : list float) j :
  lo <= j < lo + n -> j < length a ->
  update_range lo n f a !! j = Some (f j (a !!! j)).
Proof.
  unfold update_range. revert lo a.
  induction n as [|n IH]; intros lo a Hj Hl; [lia|].
  rewrite for_range_S.
  destruct (decide (lo = j)) as [->|Hne].
  - change (update_range (S j) n f (<[j:=f j (a !!! j)]> a) !! j = Some (f j (a !!! j))).
    rewrite update_range_outside by lia.
    apply list_lookup_insert_eq. exact Hl.
  - rewrite IH by (rewrite ?length_insert; lia).
    f_equal. f_equal. apply list_lookup_total_insert_ne. exact Hne.
Qed.

Lemma length_update_bins half f a : length (update_bins half f a) = length a.
Proof. apply length_update_range. Qed.

Lemma update_bins_outside half f a j :
  (j < 1 \/ half < j) -> update_bins half f a !! j = a !! j.
Proof. intros Hj. apply update_range_outside. lia. Qed.

Lemma update_bins_inside half f a j :
  1 <= j <= half -> j < length a ->
  update_bins half f a !! j = Some (f j (a !!! j)).
Proof. intros Hj Hl. apply update_range_inside; [lia | exact Hl]. Qed.

End CArrayFacts.

(** ** Loops that assign the elements of an array in turn *)

Module CLoopFacts.

Import CArray CArrayFacts.
Local Open Scope nat_scope.

Lemma for_range_app {A : Type} lo n m (body : nat -> A -> A) (a : A) :
  for_range lo (n + m) body a = for_range (lo + n) m body (for_range lo n body a).
Proof. unfold for_range. rewrite seq_app, fold_left_app. reflexivity. Qed.

Lemma for_range_ext {A : Type} lo n (body body' : nat -> A -> A) (a : A) :
  (forall k x, lo <= k < lo + n -> body k x = body' k x) ->
  for_range lo n body a = for_range lo n body' a.
Proof.
  revert lo a. induction n as [|n IH]; intros lo a Hb; [reflexivity|].
  rewrite !for_range_S, (Hb lo a) by lia. apply IH. intros k x Hk. apply Hb. lia.
Qed.

(** The loop [for (k = lo; k < lo + n; k++) a[k] = g k a], where the
    right-hand side reads [a] at indices from [k] on only: every read sees
    the array as it was before the loop. *)
Lemma for_range_forward (g : nat -> list float -> float) lo n (a0 : list float) :
  (forall k a, length a = length a0 -> (forall j, k <= j -> a !! j = a0 !! j) ->
     g k a = g k a0) ->
  let r := for_range lo n (fun k a => <[k := g k a]> a) a0 in
  length r = length a0
  /\ (forall i, lo <= i < lo + n -> i < length a0 -> r !! i = Some (g i a0))
  /\ (forall j, j < lo \/ lo + n <= j -> r !! j = a0 !! j).
Proof.
  intros Hg r. subst r.
  apply (for_range_ind
           (fun k (a : list float) =>
              length a = length a0
              /\ (forall i, lo <= i < k -> i < length a0 -> a !! i = Some (g i a0))
              /\ (forall j, j < lo \/ k <= j -> a !! j = a0 !! j))).
  - split; [reflexivity|]. split; [intros i Hi; lia | reflexivity].
  - intros k a Hk (Hl & Hin & Hout).
    assert (Hgk : g k a = g k a0).
    { apply Hg; [exact Hl|]. intros j Hj. apply Hout. lia. }
    rewrite Hgk. split; [rewrite length_insert; exact Hl|]. split.
    + intros i Hi Hil. destruct (decide (i = k)) as [->|Hne].
      * apply list_lookup_insert_eq. lia.
      * rewrite list_lookup_insert_ne by lia. apply Hin; [lia | exact Hil].
    + intros j Hj. rewrite list_lookup_insert_ne by lia. apply Hout. lia.
Qed.

(** Two loops of the same number of passes whose bodies keep a relation
    keep it. *)
Lemma for_range_sim {A B : Type} (R : A -> B -> Prop) lo lo' n
    (body : nat -> A -> A) (body' : nat -> B -> B) (a : A) (b : B) :
  R a b ->
  (forall k x y, k < n -> R x y -> R (body (lo + k) x) (body' (lo' + k) y)) ->
  R (for_range lo n body a) (for_range lo' n body' b).
Proof.
  revert lo lo' a b. induction n as [|n IH]; intros lo lo' a b Hab Hstep; [exact Hab|].
  rewrite !for_range_S. apply IH.
  - specialize (Hstep 0 a b ltac:(lia) Hab). rewrite !Nat.add_0_r in Hstep. exact Hstep.
  - intros k x y Hk Hxy. specialize (Hstep (S k) x y ltac:(lia) Hxy).
    replace (S lo + k) with (lo + S k) by lia.
    replace (S lo' + k) with (lo' + S k) by lia. exact Hstep.
Qed.

(** [memcpy] and [memset] count bytes: the floats wholly past the count stay. *)
Lemma memcpy_lookup_past dst src n i :
  n <= sizeof_float * i -> memcpy dst src n !! i = dst !! i.
Proof.
  intros Hi. unfold memcpy. rewrite list_lookup_imap.
  destruct (dst !! i) as [d|]; [|reflexivity].
  cbn [fmap option_fmap option_map]. unfold sizeof_float in *.
  pose proof (Nat.div_mod_eq n 4) as Hd.
  pose proof (Nat.mod_upper_bound n 4 ltac:(lia)) as Hm.
  destruct (Nat.ltb_spec i (n / 4)); [lia|].
  destruct (Nat.eqb_spec i (n / 4)) as [E|N]; [|reflexivity].
  destruct (Nat.eqb_spec (n mod 4) 0); [reflexivity | lia].
Qed.

Lemma memset_zero_lookup_cleared (a : list float) n i :
  sizeof_float * i + sizeof_float <= n -> i < length a ->
  memset_zero a n !! i = Some fzero.
Proof.
  intros Hi Hl. unfold memset_zero. rewrite memcpy_lookup_whole.
  - rewrite lookup_total_replicate_2 by exact Hl. reflexivity.
  - exact Hl.
  - unfold sizeof_float in *. apply Nat.div_le_lower_bound; lia.
Qed.

Lemma memset_zero_lookup_past (a : list float) n i :
  n <= sizeof_float * i -> memset_zero a n !! i = a !! i.
Proof. apply memcpy_lookup_past. Qed.

Lemma lookup_total_eq (a b : list float) i : a !! i = b !! i -> a !!! i = b !!! i.
Proof. intros E. rewrite !list_lookup_total_alt, E. reflexivity. Qed.

End CLoopFacts.

(** ** Proofs on src/src/spectral_processor.c *)

Module SpectralProcessorProofs.

Import CArray CArrayFacts SpectralProcessor.
Local Open Scope nat_scope.

Section WithEstimators.

Context `{Libm} `{Estimators}.

(** *** What each step leaves alone *)

Lemma half_fft_size_whitening self w :
  half_fft_size (residual_spectrum_whitening self w) = half_fft_size self.
Proof.
  unfold residual_spectrum_whitening.
  destruct (for_bins _ _ _) as [wh re]. reflexivity.
Qed.

Lemma processed_whitening self w :
  processed_fft_spectrum (residual_spectrum_whitening self w)
  = processed_fft_spectrum self.
Proof.
  unfold residual_spectrum_whitening.
  destruct (for_bins _ _ _) as [wh re]. reflexivity.
Qed.

Lemma residual_max_whitening self w :
  residual_max_spectrum (whiten_spectrum (residual_spectrum_whitening self w))
  = update_bins (half_fft_size self)
      (fun k old =>
         if fgt (Float32.of_Z (uint32_incr (whitening_window_count (whiten_spectrum self)))) fone
         then fmaxf (fmaxf (residual_spectrum (denoise_builder self) !!! k) WHITENING_FLOOR)
                    (fmul old (max_decay_rate (whiten_spectrum self)))
         else fmaxf (residual_spectrum (denoise_builder self) !!! k) WHITENING_FLOOR)
      (residual_max_spectrum (whiten_spectrum self)).
Proof.
  unfold residual_spectrum_whitening.
  destruct (for_bins _ _ _) as [wh re]. reflexivity.
Qed.

Lemma half_fft_size_get_residual self w :
  half_fft_size (get_residual_spectrum self w) = half_fft_size self.
Proof.
  unfold get_residual_spectrum. destruct (fgt w fzero); [|reflexivity].
  rewrite half_fft_size_whitening. reflexivity.
Qed.

Lemma processed_get_residual self w :
  processed_fft_spectrum (get_residual_spectrum self w) = processed_fft_spectrum self.
Proof.
  unfold get_residual_spectrum. destruct (fgt w fzero); [|reflexivity].
  rewrite processed_whitening. reflexivity.
Qed.

Lemma half_fft_size_denoise_frame self p noise :
  half_fft_size (denoise_frame self p noise) = half_fft_size self.
Proof.
  unfold denoise_frame. destruct (gain_estimation_run _ _ _ _ _ _ _ _) as [ge g].
  unfold get_final_spectrum. simpl. rewrite half_fft_size_get_residual. reflexivity.
Qed.

Lemma half_fft_size_run self p noise fft0 :
  half_fft_size (spectral_processor_run self p noise fft0).1.1 = half_fft_size self.
Proof.
  unfold spectral_processor_run.
  destruct (negb _); [destruct (learn_noise p)|]; simpl.
  - destruct (noise_estimation_run _ _ _) as [ne n1]. reflexivity.
  - destruct (is_noise_estimation_available _); simpl; [|reflexivity].
    rewrite half_fft_size_denoise_frame. reflexivity.
  - reflexivity.
Qed.

(** Index 0 of [processed_fft_spectrum] is outside the range of every
    loop that writes the array. *)
Lemma processed_dc_denoise_frame self p noise :
  processed_fft_spectrum (denoise_frame self p noise) !! 0
  = processed_fft_spectrum self !! 0.
Proof.
  unfold denoise_frame. destruct (gain_estimation_run _ _ _ _ _ _ _ _) as [ge g].
  unfold get_final_spectrum. simpl.
  rewrite processed_get_residual. simpl.
  destruct (residual_listen p); apply update_bins_outside; lia.
Qed.

Lemma processed_dc_run self p noise fft0 :
  processed_fft_spectrum (spectral_processor_run self p noise fft0).1.1 !! 0
  = processed_fft_spectrum self !! 0.
Proof.
  unfold spectral_processor_run.
  destruct (negb _); [destruct (learn_noise p)|]; simpl.
  - destruct (noise_estimation_run _ _ _) as [ne n1]. simpl.
    apply update_bins_outside; lia.
  - destruct (is_noise_estimation_available _); simpl.
    + rewrite update_bins_outside by lia.
      rewrite processed_dc_denoise_frame. reflexivity.
    + apply update_bins_outside; lia.
  - apply update_bins_outside; lia.
Qed.

Lemma processed_dc_reachable self :
  reachable self -> processed_fft_spectrum self !! 0 = Some fzero.
Proof.
  induction 1 as [sr n ov | self p noise fft0 Hr IH].
  - simpl. unfold calloc. apply lookup_replicate_2. lia.
  - rewrite processed_dc_run. exact IH.
Qed.

(** *** The empty frame *)

Lemma is_empty_all_le spectrum half :
  (forall k, k <= half -> fle (spectrum !!! k) FLT_MIN = true) ->
  is_empty spectrum half = true.
Proof.
  intros Hle. unfold is_empty. apply forallb_forall. intros k Hk.
  apply in_seq in Hk. rewrite (fle_fgt _ _ (Hle k ltac:(lia))). reflexivity.
Qed.

(** C5.  When every bin of the frame's power spectrum is at most [FLT_MIN],
    [spectral_processor_run] is the soft-bypass mix alone: after the frame
    is loaded nothing runs but [fft_denoiser_soft_bypass]; the noise profile
    array, both estimators, the gain, denoised and residual spectra and the
    whitening state are the ones before the call. *)
Theorem empty_frame_only_soft_bypass
    (self : SpectralProcessor) (p : ProcessorParameters)
    (noise_spectrum fft_spectrum0 : list float) :
  (forall k, k <= half_fft_size self ->
     fle (power_spectrum (processing_spectrums (frame_loaded self p fft_spectrum0)) !!! k)
         FLT_MIN = true) ->
  let self' := fft_denoiser_soft_bypass (frame_loaded self p fft_spectrum0) in
  spectral_processor_run self p noise_spectrum fft_spectrum0
  = (self', noise_spectrum,
     memcpy fft_spectrum0 (processed_fft_spectrum self')
       (sizeof_float * half_fft_size self' + 1))
  /\ noise_estimation self' = noise_estimation self
  /\ gain_estimation self' = gain_estimation self
  /\ denoise_builder self' = denoise_builder self
  /\ whiten_spectrum self' = whiten_spectrum self
  /\ processed_fft_spectrum self'
     = update_bins (half_fft_size self)
         (fun k v =>
            fadd (fmul (fsub fone (wet_dry (crossfade_spectrum self')))
                       (fft_spectrum self' !!! k))
                 (fmul v (wet_dry (crossfade_spectrum self'))))
         (processed_fft_spectrum self).
Proof.
  intros Hle self'.
  split; [|repeat split; reflexivity].
  assert (He : is_empty
                 (power_spectrum (processing_spectrums (frame_loaded self p fft_spectrum0)))
                 (half_fft_size (frame_loaded self p fft_spectrum0)) = true)
    by exact (is_empty_all_le _ _ Hle).
  unfold spectral_processor_run. rewrite He. reflexivity.
Qed.

(** *** The DC bin *)

(** C10.  In every state of an engine, for any parameters and any spectrum
    handed in, a frame leaves index 0 of [processed_fft_spectrum] as it was,
    which is the zero it was allocated with; with at least two bins
    ([half_fft_size >= 1]) this zero is what the caller's buffer holds at
    index 0 after the call. *)
Theorem dc_bin_never_written
    (self : SpectralProcessor) (p : ProcessorParameters)
    (noise_spectrum fft_spectrum0 : list float) :
  reachable self ->
  1 <= half_fft_size self ->
  0 < length fft_spectrum0 ->
  let r := spectral_processor_run self p noise_spectrum fft_spectrum0 in
  processed_fft_spectrum r.1.1 !! 0 = processed_fft_spectrum self !! 0
  /\ processed_fft_spectrum r.1.1 !! 0 = Some fzero
  /\ r.2 !! 0 = Some fzero.
Proof.
  intros Hr Hhalf Hlen r.
  assert (Hdc : processed_fft_spectrum r.1.1 !! 0 = Some fzero).
  { subst r. rewrite processed_dc_run. apply processed_dc_reachable. exact Hr. }
  split; [|split].
  - subst r. apply processed_dc_run.
  - exact Hdc.
  - assert (Hout : r.2 = memcpy fft_spectrum0 (processed_fft_spectrum r.1.1)
                          (sizeof_float * half_fft_size r.1.1 + 1)).
    { subst r. unfold spectral_processor_run.
      destruct (negb _); [destruct (learn_noise p)|].
      - destruct (noise_estimation_run _ _ _) as [ne n1]. reflexivity.
      - destruct (is_noise_estimation_available _); reflexivity.
      - reflexivity. }
    rewrite Hout. rewrite memcpy_lookup_whole.
    + rewrite (list_lookup_total_correct _ _ _ Hdc). reflexivity.
    + exact Hlen.
    + subst r. rewrite half_fft_size_run. unfold sizeof_float.
      apply Nat.div_str_pos. lia.
Qed.

(** *** The whitening floor *)

Lemma WHITENING_FLOOR_not_nan : is_nan WHITENING_FLOOR = false.
Proof. reflexivity. Qed.

Lemma whitening_floor_bin (residual old decay : float) (b : bool) :
  fle WHITENING_FLOOR
      (if b then fmaxf (fmaxf residual WHITENING_FLOOR) (fmul old decay)
       else fmaxf residual WHITENING_FLOOR) = true.
Proof.
  assert (Hf : fle WHITENING_FLOOR (fmaxf residual WHITENING_FLOOR) = true)
    by (apply fmaxf_ge_r, WHITENING_FLOOR_not_nan).
  destruct b; [apply fmaxf_lower_l|]; exact Hf.
Qed.

(** Right after [residual_spectrum_whitening], whatever the state before. *)
Lemma whitening_floor_after (self : SpectralProcessor) (w : float) (k : nat) :
  1 <= k <= half_fft_size self ->
  k < length (residual_max_spectrum (whiten_spectrum self)) ->
  exists v,
    residual_max_spectrum (whiten_spectrum (residual_spectrum_whitening self w)) !! k
    = Some v
    /\ fle WHITENING_FLOOR v = true.
Proof.
  intros Hk Hlen. rewrite residual_max_whitening.
  rewrite update_bins_inside by assumption.
  eexists; split; [reflexivity|]. apply whitening_floor_bin.
Qed.

Lemma length_residual_max_whitening (self : SpectralProcessor) (w : float) :
  length (residual_max_spectrum (whiten_spectrum (residual_spectrum_whitening self w)))
  = length (residual_max_spectrum (whiten_spectrum self)).
Proof. rewrite residual_max_whitening. apply length_update_bins. Qed.

Lemma floor_holds_whitening (self : SpectralProcessor) (w : float) :
  length (residual_max_spectrum (whiten_spectrum self)) = half_fft_size self + 1 ->
  floor_holds (residual_spectrum_whitening self w).
Proof.
  intros Hlen. split.
  - rewrite length_residual_max_whitening, half_fft_size_whitening. exact Hlen.
  - intros _ k Hk. rewrite half_fft_size_whitening in Hk.
    apply whitening_floor_after; [exact Hk | lia].
Qed.

Lemma floor_holds_get_residual (self : SpectralProcessor) (w : float) :
  floor_holds self -> floor_holds (get_residual_spectrum self w).
Proof.
  intros Hf. unfold get_residual_spectrum.
  destruct (fgt w fzero); [|exact Hf].
  apply floor_holds_whitening. exact (proj1 Hf).
Qed.

Lemma floor_holds_denoise_frame self p noise :
  floor_holds self -> floor_holds (denoise_frame self p noise).
Proof.
  intros Hf. unfold denoise_frame.
  destruct (gain_estimation_run _ _ _ _ _ _ _ _) as [ge g].
  match goal with
  | |- floor_holds (get_final_spectrum (get_residual_spectrum ?s ?w) _ _) =>
      assert (Hs : floor_holds (get_residual_spectrum s w))
        by (apply floor_holds_get_residual; exact Hf)
  end.
  exact Hs.
Qed.

Lemma floor_holds_run self p noise fft0 :
  floor_holds self -> floor_holds (spectral_processor_run self p noise fft0).1.1.
Proof.
  intros Hf. unfold spectral_processor_run.
  destruct (negb _); [destruct (learn_noise p)|].
  - destruct (noise_estimation_run _ _ _) as [ne n1]. exact Hf.
  - destruct (is_noise_estimation_available _); [|exact Hf].
    assert (Hd : floor_holds (denoise_frame (frame_loaded self p fft0) p noise))
      by (apply floor_holds_denoise_frame; exact Hf).
    exact Hd.
  - exact Hf.
Qed.

Lemma floor_holds_reachable self : reachable self -> floor_holds self.
Proof.
  induction 1 as [sr n ov | self p noise fft0 Hr IH].
  - split; [apply length_replicate | simpl; lia].
  - apply floor_holds_run. exact IH.
Qed.

(** Index 0 of [residual_max_spectrum] is outside the range of both loops
    of the whitening, and no other function writes the array. *)
Lemma residual_max_dc_whitening self w :
  residual_max_spectrum (whiten_spectrum (residual_spectrum_whitening self w)) !! 0
  = residual_max_spectrum (whiten_spectrum self) !! 0.
Proof. rewrite residual_max_whitening. apply update_bins_outside. left. lia. Qed.

Lemma residual_max_dc_get_residual self w :
  residual_max_spectrum (whiten_spectrum (get_residual_spectrum self w)) !! 0
  = residual_max_spectrum (whiten_spectrum self) !! 0.
Proof.
  unfold get_residual_spectrum. destruct (fgt w fzero); [|reflexivity].
  rewrite residual_max_dc_whitening. reflexivity.
Qed.

Lemma residual_max_dc_denoise_frame self p noise :
  residual_max_spectrum (whiten_spectrum (denoise_frame self p noise)) !! 0
  = residual_max_spectrum (whiten_spectrum self) !! 0.
Proof.
  unfold denoise_frame. destruct (gain_estimation_run _ _ _ _ _ _ _ _) as [ge g].
  unfold get_final_spectrum. cbn [whiten_spectrum set_processed_fft_spectrum].
  rewrite residual_max_dc_get_residual. reflexivity.
Qed.

Lemma residual_max_dc_run self p noise fft0 :
  residual_max_spectrum (whiten_spectrum (spectral_processor_run self p noise fft0).1.1) !! 0
  = residual_max_spectrum (whiten_spectrum self) !! 0.
Proof.
  unfold spectral_processor_run.
  destruct (negb _); [destruct (learn_noise p)|]; cbn [fst].
  - destruct (noise_estimation_run _ _ _) as [ne n1]. reflexivity.
  - destruct (is_noise_estimation_available _); cbn [fst]; [|reflexivity].
    unfold fft_denoiser_soft_bypass. cbn [whiten_spectrum set_processed_fft_spectrum].
    rewrite residual_max_dc_denoise_frame. reflexivity.
  - reflexivity.
Qed.

Lemma residual_max_dc_reachable self :
  reachable self -> residual_max_spectrum (whiten_spectrum self) !! 0 = Some fzero.
Proof.
  induction 1 as [sr n ov | self p noise fft0 Hr IH].
  - cbn [spectral_processor_initialize whiten_spectrum residual_max_spectrum].
    unfold calloc. apply lookup_replicate_2. lia.
  - rewrite residual_max_dc_run. exact IH.
Qed.

(** C7 (amended).  In every state of an engine with
    [whitening_window_count >= 1], every bin [k] above DC,
    [1 <= k <= half_fft_size], has [residual_max_spectrum[k] >= 0.02]; and
    each whitening update, from any state, ends with that bound on these
    bins.  Bin 0 is never updated: in every state of an engine, and after
    each whitening update, [residual_max_spectrum[0]] is the 0 it was
    allocated with, which is below 0.02. *)
Theorem whitening_floor_above_dc (self : SpectralProcessor) :
  reachable self ->
  (forall k, 1 <= k <= half_fft_size self ->
     ((1 <= whitening_window_count (whiten_spectrum self))%Z ->
      exists v, residual_max_spectrum (whiten_spectrum self) !! k = Some v
                /\ fle WHITENING_FLOOR v = true)
     /\ (forall w, exists v,
           residual_max_spectrum
             (whiten_spectrum (residual_spectrum_whitening self w)) !! k = Some v
           /\ fle WHITENING_FLOOR v = true))
  /\ residual_max_spectrum (whiten_spectrum self) !! 0 = Some fzero
  /\ (forall w,
        residual_max_spectrum (whiten_spectrum (residual_spectrum_whitening self w)) !! 0
        = Some fzero)
  /\ (forall p noise_spectrum fft_spectrum0,
        residual_max_spectrum
          (whiten_spectrum
             (spectral_processor_run self p noise_spectrum fft_spectrum0).1.1) !! 0
        = Some fzero)
  /\ fle WHITENING_FLOOR fzero = false.
Proof.
  intros Hr. destruct (floor_holds_reachable self Hr) as [Hlen Hfl].
  pose proof (residual_max_dc_reachable self Hr) as Hdc.
  split; [|split; [|split; [|split]]].
  - intros k Hk. split.
    + intros Hc. exact (Hfl Hc k Hk).
    + intros w. apply whitening_floor_after; [exact Hk | lia].
  - exact Hdc.
  - intros w. rewrite residual_max_dc_whitening. exact Hdc.
  - intros p noise fft0. rewrite residual_max_dc_run. exact Hdc.
  - reflexivity.
Qed.

(** *** The crossfade level *)

(** The new level as a function of the old one. *)
Lemma wet_dry_update (self : SpectralProcessor) (enable0 : bool) :
  let c := crossfade_spectrum self in
  let c' := crossfade_spectrum (fft_denoiser_update_wetdry_target self enable0) in
  tau c' = tau c
  /\ wet_dry_target c' = (if enable0 then fone else fzero)
  /\ wet_dry c'
     = fadd (wet_dry c)
            (fadd (fmul (tau c) (fsub (if enable0 then fone else fzero) (wet_dry c)))
                  FLT_MIN).
Proof. repeat split; reflexivity. Qed.

Lemma wet_dry_at_target (t : float) :
  is_finite t = true ->
  fadd fone (fadd (fmul t (fsub fone fone)) FLT_MIN) = fone
  /\ fadd fzero (fadd (fmul t (fsub fzero fzero)) FLT_MIN) = FLT_MIN.
Proof.
  destruct t as [s|s| |s m e]; try discriminate; intros _;
    destruct s; split; reflexivity.
Qed.

(** The steps after the update leave the crossfade state alone. *)
Lemma crossfade_whitening self w :
  crossfade_spectrum (residual_spectrum_whitening self w) = crossfade_spectrum self.
Proof.
  unfold residual_spectrum_whitening.
  destruct (for_bins _ _ _) as [wh re]. reflexivity.
Qed.

Lemma crossfade_get_residual self w :
  crossfade_spectrum (get_residual_spectrum self w) = crossfade_spectrum self.
Proof.
  unfold get_residual_spectrum. destruct (fgt w fzero); [|reflexivity].
  rewrite crossfade_whitening. reflexivity.
Qed.

Lemma crossfade_denoise_frame self p noise :
  crossfade_spectrum (denoise_frame self p noise) = crossfade_spectrum self.
Proof.
  unfold denoise_frame. destruct (gain_estimation_run _ _ _ _ _ _ _ _) as [ge g].
  unfold get_final_spectrum. simpl. rewrite crossfade_get_residual. reflexivity.
Qed.

Lemma crossfade_run self p noise fft0 :
  crossfade_spectrum (spectral_processor_run self p noise fft0).1.1
  = crossfade_spectrum (fft_denoiser_update_wetdry_target self (enable p)).
Proof.
  unfold spectral_processor_run.
  destruct (negb _); [destruct (learn_noise p)|]; simpl.
  - destruct (noise_estimation_run _ _ _) as [ne n1]. reflexivity.
  - destruct (is_noise_estimation_available _); simpl; [|reflexivity].
    rewrite crossfade_denoise_frame. reflexivity.
  - reflexivity.
Qed.

Lemma crossfade_in_range_spec (self : SpectralProcessor) :
  crossfade_in_range self = true
  <-> (is_binary32 (tau (crossfade_spectrum self)) = true
       /\ fle fzero (tau (crossfade_spectrum self)) = true
       /\ fle (tau (crossfade_spectrum self)) fone = true)
      /\ (is_binary32 (wet_dry (crossfade_spectrum self)) = true
          /\ fle fzero (wet_dry (crossfade_spectrum self)) = true
          /\ fle (wet_dry (crossfade_spectrum self)) fone = true).
Proof.
  unfold crossfade_in_range. cbv zeta. rewrite !andb_true_iff. tauto.
Qed.

(** C3 (amended).  In a frame the target becomes 1 when [enable] and 0
    otherwise, and [tau (target - wet_dry) + FLT_MIN] is added to
    [wet_dry], in binary32.  With [tau] and [wet_dry] between 0 and 1
    before the frame they are so after it, hence after every sequence of
    frames.  With [enable] the new level is between the old one and the
    target 1.  Without, it is not below the target 0, it is not above the
    old level when the step [tau (0 - wet_dry)] is at most [-FLT_MIN], and
    from the level 0 it goes up to [FLT_MIN]. *)
Theorem wet_dry_step_bounds
    (self : SpectralProcessor) (p : ProcessorParameters)
    (noise_spectrum fft_spectrum0 : list float) :
  crossfade_in_range self = true ->
  let self' := (spectral_processor_run self p noise_spectrum fft_spectrum0).1.1 in
  let c := crossfade_spectrum self in
  let c' := crossfade_spectrum self' in
  wet_dry_target c' = (if enable p then fone else fzero)
  /\ wet_dry c'
     = fadd (wet_dry c)
            (fadd (fmul (tau c) (fsub (wet_dry_target c') (wet_dry c))) FLT_MIN)
  /\ crossfade_in_range self' = true
  /\ (enable p = true ->
      fle (wet_dry c) (wet_dry c') = true /\ fle (wet_dry c') fone = true)
  /\ (enable p = false ->
      fle fzero (wet_dry c') = true
      /\ (fle (fmul (tau c) (fsub fzero (wet_dry c))) (fneg FLT_MIN) = true ->
          fle (wet_dry c') (wet_dry c) = true)
      /\ (wet_dry c = fzero -> wet_dry c' = FLT_MIN)).
Proof.
  intros Hrange self' c c'.
  apply crossfade_in_range_spec in Hrange.
  destruct Hrange as [(Bt & Ht0 & Ht1) (Bw & Hw0 & Hw1)]. fold c in Bt, Ht0, Ht1, Bw, Hw0, Hw1.
  assert (Hc' : c' = crossfade_spectrum (fft_denoiser_update_wetdry_target self (enable p)))
    by (apply crossfade_run).
  destruct (wet_dry_update self (enable p)) as (Htau & Htarget & Hw).
  cbv zeta in Htau, Htarget, Hw. rewrite <- Hc' in Htau, Htarget, Hw. fold c in Htau, Hw.
  assert (Hfin : is_finite (tau c) = true).
  { unfold is_binary32 in Bt. apply andb_prop in Bt. exact (proj1 Bt). }
  destruct (wet_dry_at_target (tau c) Hfin) as [_ Hzero].
  pose proof (RoundingFacts.crossfade_step_up (tau c) (wet_dry c) Bt Ht0 Ht1 Bw Hw0 Hw1)
    as Hup.
  pose proof (RoundingFacts.crossfade_step_down (tau c) (wet_dry c) Bt Ht0 Ht1 Bw Hw0 Hw1)
    as Hdown.
  cbv zeta in Hup, Hdown.
  split; [exact Htarget|]. split; [rewrite Htarget; exact Hw|].
  assert (Hkeep : forall n : float,
             wet_dry c' = n -> is_binary32 n = true -> fle fzero n = true ->
             fle n fone = true -> crossfade_in_range self' = true).
  { intros n En Bn Hn0 Hn1. apply crossfade_in_range_spec.
    change (crossfade_spectrum self') with c'. rewrite Htau, En.
    repeat split; assumption. }
  revert Htarget Hw. destruct (enable p); intros Htarget Hw.
  - destruct Hup as (Bn & Hn0 & Hlo & Hhi).
    split; [exact (Hkeep _ Hw Bn Hn0 Hhi)|].
    split; [intros _; rewrite Hw; split; assumption | discriminate].
  - destruct Hdown as (Bn & Hn0 & Hn1 & Hle).
    split; [exact (Hkeep _ Hw Bn Hn0 Hn1)|].
    split; [discriminate | intros _; rewrite Hw].
    split; [exact Hn0|]. split; [exact Hle|].
    intros E. rewrite E. exact Hzero.
Qed.

End WithEstimators.

End SpectralProcessorProofs.

(** ** Proofs on the two masking estimators *)

Module MaskingProofs.

Import CArray CArrayFacts.
Local Open Scope nat_scope.

Section WithLibm.

Context `{Libm}.

(** *** libnrepel: the offsets after the loop over the bands *)

Lemma SFM_bands (self self' : MaskingEstimator.MaskingEstimator) spectrum band :
  MaskingEstimator.intermediate_band_bins self' = MaskingEstimator.intermediate_band_bins self ->
  MaskingEstimator.n_bins_per_band self' = MaskingEstimator.n_bins_per_band self ->
  MaskingEstimator.SFM self' spectrum band = MaskingEstimator.SFM self spectrum band.
Proof. intros Hi Hn. unfold MaskingEstimator.SFM. rewrite Hi, Hn. reflexivity. Qed.

(** What one pass of the loop does to the estimator. *)
Lemma band_threshold_estimator spectrum j self mt :
  let self' := (MaskingEstimator.band_threshold spectrum j (self, mt)).1 in
  MaskingEstimator.intermediate_band_bins self' = MaskingEstimator.intermediate_band_bins self
  /\ MaskingEstimator.n_bins_per_band self' = MaskingEstimator.n_bins_per_band self
  /\ MaskingEstimator.half_fft_size self' = MaskingEstimator.half_fft_size self
  /\ MaskingEstimator.absolute_thresholds self' = MaskingEstimator.absolute_thresholds self
  /\ MaskingEstimator.reference_spectrum self' = MaskingEstimator.reference_spectrum self
  /\ MaskingEstimator.masking_offset self'
     = <[j := MaskingEstimator.tonality_offset
                (MaskingEstimator.compute_tonality_factor self spectrum j) j]>
         (MaskingEstimator.masking_offset self).
Proof. repeat split; reflexivity. Qed.

Lemma band_threshold_length spectrum j self (mt : list float) :
  length (MaskingEstimator.band_threshold spectrum j (self, mt)).2 = length mt.
Proof. apply length_for_range_insert. Qed.

Lemma bands_done_step self0 spectrum mt0 k st :
  k < length (MaskingEstimator.masking_offset self0) ->
  MaskingEstimator.bands_done self0 spectrum mt0 k st ->
  MaskingEstimator.bands_done self0 spectrum mt0 (S k) (MaskingEstimator.band_threshold spectrum k st).
Proof.
  intros Hk. destruct st as [self mt].
  intros (Hi & Hn & Hh & Ha & Hr & Hl & Hm & Hoff).
  cbn [fst snd] in Hi, Hn, Hh, Ha, Hr, Hl, Hm, Hoff.
  destruct (band_threshold_estimator spectrum k self mt)
    as (Hi' & Hn' & Hh' & Ha' & Hr' & Ho').
  unfold MaskingEstimator.bands_done.
  rewrite Hi', Hn', Hh', Ha', Hr', Ho', length_insert, band_threshold_length.
  repeat split; try congruence.
  intros j Hj. destruct (decide (j = k)) as [->|Hne].
  - rewrite list_lookup_insert_eq by lia.
    unfold MaskingEstimator.compute_tonality_factor.
    rewrite (SFM_bands self0 self spectrum k Hi Hn). reflexivity.
  - rewrite list_lookup_insert_ne by congruence. apply Hoff. lia.
Qed.

Lemma bands_done_all self spectrum mt :
  length (MaskingEstimator.masking_offset self) = MaskingEstimator.N_BARK_BANDS ->
  let self1 := MaskingEstimator.compute_bark_spectrum self spectrum in
  MaskingEstimator.bands_done self1 spectrum mt MaskingEstimator.N_BARK_BANDS
    (MaskingEstimator.band_thresholds self spectrum mt).
Proof.
  intros Hlen self1. unfold MaskingEstimator.band_thresholds.
  fold self1.
  set (self2 := MaskingEstimator.set_spreaded_spectrum _ self1).
  assert (Hl1 : length (MaskingEstimator.masking_offset self1)
                = MaskingEstimator.N_BARK_BANDS).
  { subst self1. unfold MaskingEstimator.compute_bark_spectrum.
    destruct (for_range _ _ _ _) as [[[lp bark] nb] inter]. exact Hlen. }
  apply (for_range_ind (MaskingEstimator.bands_done self1 spectrum mt) 0 MaskingEstimator.N_BARK_BANDS).
  - repeat split; try reflexivity. intros j Hj. lia.
  - intros k x Hk Hx. apply bands_done_step; [lia | exact Hx].
Qed.

(** *** Plugin: the offsets after the loop over the bands *)

Lemma plugin_band_offset self spectrum inter n_bins spreaded j l :
  j < length (MaskingPlugin.masking_offset l) ->
  MaskingPlugin.masking_offset
    (MaskingPlugin.band_threshold self spectrum inter n_bins spreaded j l)
  = <[j := MaskingPlugin.biased_offset j]> (MaskingPlugin.masking_offset l).
Proof.
  intros Hj. unfold MaskingPlugin.band_threshold, MaskingPlugin.biased_offset. simpl.
  destruct (15 <? j).
  - rewrite list_lookup_total_insert_eq by (rewrite length_insert; exact Hj).
    rewrite !list_insert_insert_eq. reflexivity.
  - rewrite list_insert_insert_eq. reflexivity.
Qed.

Lemma plugin_band_length self spectrum inter n_bins spreaded j l :
  length (MaskingPlugin.masking_thresholds_out
            (MaskingPlugin.band_threshold self spectrum inter n_bins spreaded j l))
  = length (MaskingPlugin.masking_thresholds_out l).
Proof. apply length_for_range_insert. Qed.

Lemma plugin_bands_done_all self spectrum mt :
  MaskingPlugin.bands_done mt MaskingPlugin.N_BARK_BANDS
    (MaskingPlugin.band_thresholds self spectrum mt).
Proof.
  unfold MaskingPlugin.band_thresholds.
  destruct (MaskingPlugin.compute_bark_spectrum _ _ _ _ _) as [[bark inter] n_bins].
  apply (for_range_ind (MaskingPlugin.bands_done mt) 0 MaskingPlugin.N_BARK_BANDS).
  - repeat split; try reflexivity. intros j Hj. lia.
  - intros k l Hk (Hl & Hm & Hoff). unfold MaskingPlugin.bands_done.
    rewrite plugin_band_offset, plugin_band_length, length_insert
      by (rewrite Hl; unfold MaskingPlugin.N_BARK_BANDS in *; lia).
    repeat split; try assumption.
    intros j Hj. destruct (decide (j = k)) as [->|Hne].
    + apply list_lookup_insert_eq. rewrite Hl. unfold MaskingPlugin.N_BARK_BANDS in *. lia.
    + rewrite list_lookup_insert_ne by congruence. apply Hoff. lia.
Qed.

(** C1 (amended).  In libnrepel's estimator ([BIAS] is 0) the masking
    offset of every band [j < 25] is [T (14.5 + (j+1)) + 5.5 (1 - T)] with
    [T = fminf (SFM / -60, 1)], whatever the spectrum.  In the plugin's
    estimator of src/src ([BIAS] is 1) the offset used is the entry [j] of
    the table [relative_thresholds], plus 20 for [j > 15]. *)
Theorem masking_offset_by_estimator :
  (forall (self : MaskingEstimator.MaskingEstimator)
          (spectrum masking_thresholds : list float) (j : nat),
     j < 25 ->
     length (MaskingEstimator.masking_offset self) = MaskingEstimator.N_BARK_BANDS ->
     let self1 := MaskingEstimator.compute_bark_spectrum self spectrum in
     let T := fminf (fdiv (MaskingEstimator.SFM self1 spectrum j) (Float32.of_Z (-60)))
                    fone in
     MaskingEstimator.masking_offset
       (MaskingEstimator.compute_masking_thresholds self spectrum masking_thresholds).1.1
       !! j
     = Some (fadd (fmul T (fadd (lit 145 10) (Float32.of_Z (Z.of_nat (j + 1)))))
                  (fmul (lit 55 10) (fsub fone T))))
  /\ (forall (self : MaskingPlugin.MaskingEstimator)
             (spectrum masking_thresholds : list float) (j : nat),
        j < 25 ->
        MaskingPlugin.masking_offset
          (MaskingPlugin.band_thresholds self spectrum masking_thresholds) !! j
        = Some (if 15 <? j
                then fadd (MaskingPlugin.relative_thresholds !!! j)
                          MaskingPlugin.HIGH_FREQ_BIAS
                else MaskingPlugin.relative_thresholds !!! j)).
Proof.
  split.
  - intros self spectrum mt j Hj Hlen self1 T.
    pose proof (bands_done_all self spectrum mt Hlen) as Hd.
    unfold MaskingEstimator.compute_masking_thresholds.
    destruct (MaskingEstimator.band_thresholds self spectrum mt) as [self3 thr].
    destruct Hd as (_ & _ & _ & _ & _ & _ & _ & Hoff).
    exact (Hoff j Hj).
  - intros self spectrum mt j Hj.
    destruct (plugin_bands_done_all self spectrum mt) as (_ & _ & Hoff).
    exact (Hoff j Hj).
Qed.

(** *** The absolute threshold as a floor *)

(** C6.  For both estimators, every spectrum and every bin [k] with
    [0 < k <= half_fft_size] whose absolute threshold is a number (not a
    NaN), the output of [compute_masking_thresholds] at [k] is at least
    [absolute_thresholds[k]]. *)
Theorem masking_threshold_floor :
  (forall (self : MaskingEstimator.MaskingEstimator)
          (spectrum masking_thresholds : list float) (k : nat),
     0 < k <= MaskingEstimator.half_fft_size self ->
     k < length masking_thresholds ->
     length (MaskingEstimator.masking_offset self) = MaskingEstimator.N_BARK_BANDS ->
     is_nan (MaskingEstimator.absolute_thresholds self !!! k) = false ->
     exists v,
       (MaskingEstimator.compute_masking_thresholds self spectrum masking_thresholds).1.2
         !! k = Some v
       /\ fle (MaskingEstimator.absolute_thresholds self !!! k) v = true)
  /\ (forall (self : MaskingPlugin.MaskingEstimator)
             (spectrum masking_thresholds : list float) (k : nat),
        0 < k <= MaskingPlugin.half_fft_size self ->
        k < length masking_thresholds ->
        is_nan (MaskingPlugin.absolute_thresholds self !!! k) = false ->
        exists v,
          MaskingPlugin.compute_masking_thresholds self spectrum masking_thresholds
            !! k = Some v
          /\ fle (MaskingPlugin.absolute_thresholds self !!! k) v = true).
Proof.
  split.
  - intros self spectrum mt k Hk Hlen Hoff Hnan.
    pose proof (bands_done_all self spectrum mt Hoff) as Hd.
    unfold MaskingEstimator.compute_masking_thresholds.
    destruct (MaskingEstimator.band_thresholds self spectrum mt) as [self3 thr].
    destruct Hd as (_ & _ & Hh & Ha & _ & _ & Hl & _). simpl in *.
    assert (Hh0 : MaskingEstimator.half_fft_size
                    (MaskingEstimator.compute_bark_spectrum self spectrum)
                  = MaskingEstimator.half_fft_size self).
    { unfold MaskingEstimator.compute_bark_spectrum.
      destruct (for_range _ _ _ _) as [[[lp bark] nb] inter]. reflexivity. }
    assert (Ha0 : MaskingEstimator.absolute_thresholds
                    (MaskingEstimator.compute_bark_spectrum self spectrum)
                  = MaskingEstimator.absolute_thresholds self).
    { unfold MaskingEstimator.compute_bark_spectrum.
      destruct (for_range _ _ _ _) as [[[lp bark] nb] inter]. reflexivity. }
    rewrite update_bins_inside.
    + eexists; split; [reflexivity|].
      rewrite Ha, Ha0. apply fmaxf_ge_r. exact Hnan.
    + rewrite Hh, Hh0. lia.
    + unfold MaskingEstimator.convert_spectrum_to_dbspl.
      rewrite length_update_range, Hl. exact Hlen.
  - intros self spectrum mt k Hk Hlen Hnan.
    destruct (plugin_bands_done_all self spectrum mt) as (_ & Hl & _).
    unfold MaskingPlugin.compute_masking_thresholds.
    rewrite update_range_inside.
    + eexists; split; [reflexivity|]. apply fmaxf_ge_r. exact Hnan.
    + lia.
    + unfold MaskingPlugin.convert_to_dbspl.
      rewrite length_update_range, Hl. exact Hlen.
Qed.

End WithLibm.

End MaskingProofs.

(** ** Proofs on src/src/stft_processor.c *)

Module STFTProofs.

Import CArray CArrayFacts STFT.

Section WithBackend.

Context `{Libm} `{Backend}.

Lemma transform_cycle_scalars (self : STFTProcessor) noise args :
  let self' := (transform_cycle self noise args).1 in
  fft_size self' = fft_size self
  /\ hop self' = hop self
  /\ input_latency self' = input_latency self
  /\ read_position self' = read_position self.
Proof.
  unfold transform_cycle.
  destruct (get_info_from_bins _ _ _ _ _ _) as [[pw mg] ph].
  destruct (fft_denoiser_run _ _ _ _) as [[d np] pw'].
  destruct (fftwf_execute_backward _) as [i3 o2].
  repeat split; reflexivity.
Qed.

(** One sample: the scalars stay, the position advances by one within the
    hop, and a cycle runs exactly when the hop is complete. *)
Lemma stft_sample_step input args k (p : Progress) :
  framed (processor p) ->
  let p' := stft_sample input args k p in
  let r := offset_in_hop (processor p) in
  fft_size (processor p') = fft_size (processor p)
  /\ hop (processor p') = hop (processor p)
  /\ input_latency (processor p') = input_latency (processor p)
  /\ (if r + 1 =? hop (processor p)
      then offset_in_hop (processor p') = 0 /\ cycles p' = S (cycles p)
      else offset_in_hop (processor p') = r + 1 /\ cycles p' = cycles p).
Proof.
  intros (Hhop & Hlat & Hpos). unfold stft_sample, offset_in_hop.
  cbn [fft_size read_position with_state].
  destruct (Z.leb_spec (fft_size (processor p)) (read_position (processor p) + 1)) as [Hge|Hlt].
  - match goal with
    | |- context [transform_cycle ?s ?n ?a] =>
        pose proof (transform_cycle_scalars s n a) as Hc;
        destruct (transform_cycle s n a) as [self2 profile']
    end.
    cbn [fst] in Hc. destruct Hc as (Hf & Hh & Hl & Hr).
    cbn [processor cycles]. rewrite Hf, Hh, Hl, Hr.
    cbn [fft_size hop input_latency read_position with_read_position with_state].
    destruct (Z.eqb_spec (read_position (processor p) - input_latency (processor p) + 1)
                (hop (processor p))); [repeat split; lia | lia].
  - cbn [processor cycles fft_size hop input_latency read_position with_state].
    destruct (Z.eqb_spec (read_position (processor p) - input_latency (processor p) + 1)
                (hop (processor p))); [lia | repeat split; lia].
Qed.

Lemma for_int_succ {A : Type} (n : Z) (body : Z -> A -> A) (a : A) :
  0 <= n -> for_int (n + 1) body a = body n (for_int n body a).
Proof.
  intros Hn. unfold for_int, for_range.
  replace (Z.to_nat (n + 1)) with (Z.to_nat n + 1)%nat by lia.
  rewrite seq_app, fold_left_app. simpl. rewrite Z2Nat.id by lia. reflexivity.
Qed.

Lemma after_samples_framed self0 k p :
  framed self0 -> after_samples self0 k p -> framed (processor p).
Proof.
  intros (Hhop & Hlat & Hpos) (Hf & Hh & Hl & Hr & _).
  unfold framed, offset_in_hop in *. rewrite Hf, Hh, Hl.
  pose proof (Z.mod_pos_bound (read_position self0 - input_latency self0 + Z.of_nat k)
                (hop self0) Hhop).
  lia.
Qed.

Lemma hop_step (a h : Z) :
  0 < h ->
  if a mod h + 1 =? h
  then (a + 1) mod h = 0 /\ (a + 1) / h = a / h + 1
  else (a + 1) mod h = a mod h + 1 /\ (a + 1) / h = a / h.
Proof.
  intros Hh. pose proof (Z.mod_pos_bound a h Hh) as Hb.
  pose proof (Z.div_mod a h ltac:(lia)) as Hd.
  destruct (Z.eqb_spec (a mod h + 1) h) as [He|Hne].
  - assert (Hq : a + 1 = h * (a / h + 1) + 0) by lia.
    split.
    + symmetry. apply (Z.mod_unique_pos _ _ (a / h + 1) 0); [lia | exact Hq].
    + symmetry. apply (Z.div_unique_pos _ _ (a / h + 1) 0); [lia | exact Hq].
  - assert (Hq : a + 1 = h * (a / h) + (a mod h + 1)) by lia.
    split.
    + symmetry. apply (Z.mod_unique_pos _ _ (a / h) (a mod h + 1)); [lia | exact Hq].
    + symmetry. apply (Z.div_unique_pos _ _ (a / h) (a mod h + 1)); [lia | exact Hq].
Qed.

Lemma after_samples_step self0 input args k p :
  framed self0 -> after_samples self0 k p ->
  after_samples self0 (S k) (stft_sample input args (Z.of_nat k) p).
Proof.
  intros Hfr Hk. pose proof (after_samples_framed self0 k p Hfr Hk) as Hp.
  pose proof (stft_sample_step input args (Z.of_nat k) p Hp) as Hs.
  destruct Hk as (Hf & Hh & Hl & Hr & Hc).
  destruct Hfr as (Hhop & Hlat & Hpos).
  cbv zeta in Hs. destruct Hs as (Hf' & Hh' & Hl' & Hstep).
  unfold after_samples. rewrite Hf', Hh', Hl'.
  replace (offset_in_hop self0 + Z.of_nat (S k))
    with (offset_in_hop self0 + Z.of_nat k + 1) by lia.
  pose proof (hop_step (offset_in_hop self0 + Z.of_nat k) (hop self0) Hhop) as Hq.
  rewrite Hr, Hh in Hstep.
  destruct (_ =? _); destruct Hstep as [Ho Hcy]; destruct Hq as [Hm Hd];
    rewrite Ho, Hcy, Hm, Hd; repeat split; try assumption; lia.
Qed.

Lemma after_samples_run self noise n_samples input output0 args :
  framed self -> 0 <= n_samples ->
  after_samples self (Z.to_nat n_samples)
    (stft_processor_run self noise n_samples input output0 args).
Proof.
  intros Hfr Hn. unfold stft_processor_run, for_int.
  apply (for_range_ind (after_samples self) 0 (Z.to_nat n_samples)).
  - destruct Hfr as (Hhop & Hlat & Hpos). unfold after_samples, offset_in_hop.
    cbn [processor cycles]. rewrite Z.add_0_r.
    rewrite Z.mod_small, Z.div_small by lia. repeat split; reflexivity.
  - intros k p _ Hp. apply after_samples_step; assumption.
Qed.

Lemma initialize_framed d sample_rate n ov fresh :
  0 < ov <= n -> framed (stft_processor_initialize d sample_rate n ov fresh).
Proof.
  intros Hov. unfold framed. cbn.
  assert (0 < Z.quot n ov).
  { rewrite Z.quot_div_nonneg by lia. apply Z.div_str_pos. lia. }
  lia.
Qed.

(** One sample, in full: the sample that completes a hop runs the forward
    transform on the windowed frame, hands the power spectrum of the result
    to the denoiser and runs the inverse transform; any other sample runs
    none of them. *)
Lemma stft_sample_cycle input args k (p : Progress) :
  framed (processor p) ->
  let s := processor p in
  let p' := stft_sample input args k p in
  let frame := wr (in_fifo s) (read_position s) (rd input k) in
  if offset_in_hop s + 1 =? hop s then
    let windowed :=
      for_int (fft_size s) (fun i a => wr a i (fmul (rd a i) (rd (input_window s) i)))
        (memcpy (input_fft_buffer s) frame (sizeof_float * Z.to_nat (fft_size s))) in
    let spectrum := fftwf_execute_forward windowed in
    let bins :=
      get_info_from_bins (power_spectrum s) (magnitude_spectrum s) (phase_spectrum s)
        (half_fft_size s) (fft_size s) spectrum in
    let denoised := fft_denoiser_run (fft_denoiser s) (profile p) bins.1.1 args in
    let inverse := fftwf_execute_backward spectrum in
    let scaled :=
      for_int (fft_size s)
        (fun i a =>
           wr a i (fdiv (fmul (rd (output_window s) i) (rd a i))
                        (fmul (overlap_scale_factor s)
                              (Float32.of_Z (overlap_factor s)))))
        (for_int (fft_size s)
           (fun i a => wr a i (fdiv (rd a i) (Float32.of_Z (fft_size s))))
           inverse.1) in
    let accum :=
      for_int (fft_size s) (fun i a => wr a i (fadd (rd a i) (rd scaled i)))
        (output_accum s) in
    cycles p' = S (cycles p)
    /\ fft_denoiser (processor p') = denoised.1.1
    /\ profile p' = denoised.1.2
    /\ power_spectrum (processor p') = denoised.2
    /\ magnitude_spectrum (processor p') = bins.1.2
    /\ phase_spectrum (processor p') = bins.2
    /\ output_fft_buffer (processor p') = inverse.2
    /\ input_fft_buffer (processor p') = scaled
    /\ out_fifo (processor p')
       = for_int (hop s) (fun i a => wr a i (rd accum i)) (out_fifo s)
    /\ output_accum (processor p')
       = for_int (fft_size s) (fun i a => wr a i (rd accum (i + hop s))) accum
    /\ in_fifo (processor p')
       = for_int (input_latency s) (fun i a => wr a i (rd a (i + hop s))) frame
    /\ read_position (processor p') = input_latency s
  else
    cycles p' = cycles p
    /\ fft_denoiser (processor p') = fft_denoiser s
    /\ profile p' = profile p
    /\ power_spectrum (processor p') = power_spectrum s
    /\ magnitude_spectrum (processor p') = magnitude_spectrum s
    /\ phase_spectrum (processor p') = phase_spectrum s
    /\ output_fft_buffer (processor p') = output_fft_buffer s
    /\ input_fft_buffer (processor p') = input_fft_buffer s
    /\ out_fifo (processor p') = out_fifo s
    /\ output_accum (processor p') = output_accum s
    /\ in_fifo (processor p') = frame
    /\ read_position (processor p') = read_position s + 1.
Proof.
  intros (Hhop & Hlat & Hpos). destruct p as [s np o c].
  cbn [processor profile cycles output] in *. cbv zeta.
  unfold stft_sample, offset_in_hop. cbn [processor profile cycles output].
  cbn [fft_size read_position with_state].
  destruct (Z.eqb_spec (read_position s - input_latency s + 1) (hop s)) as [He|Hne];
    destruct (Z.leb_spec (fft_size s) (read_position s + 1)) as [Hge|Hlt]; try lia.
  - unfold transform_cycle, with_read_position.
    cbn [fft_size half_fft_size input_window output_window in_fifo out_fifo output_accum
         input_fft_buffer output_fft_buffer power_spectrum phase_spectrum
         magnitude_spectrum fft_denoiser overlap_scale_factor overlap_factor hop
         input_latency read_position with_state buffers
         b_input_window b_output_window b_in_fifo b_out_fifo b_output_accum
         b_input_fft_buffer b_output_fft_buffer b_power_spectrum b_phase_spectrum
         b_magnitude_spectrum].
    destruct (get_info_from_bins _ _ _ _ _ _) as [[pw mg] ph].
    cbn [fst snd].
    destruct (fft_denoiser_run _ _ _ _) as [[d np'] pw'].
    destruct (fftwf_execute_backward _) as [i3 o2].
    cbn. repeat split.
  - cbn. repeat split.
Qed.
(** C4.  A processor as [stft_processor_initialize] builds it, with
    [0 < overlap_factor <= fft_size], has [input_latency = fft_size - hop]
    and [read_position] in [[input_latency, fft_size)].  From such a
    processor, during a call of [stft_processor_run] with any [n_samples]
    and input, [read_position] is in that interval after each sample, and
    the number of transform cycles run is the number of hops the samples
    complete: [(read_position - input_latency + n_samples) / hop], which is
    [n_samples / hop] from the initial position.  A cycle is counted at the
    samples that complete a hop and at no other: at such a sample the
    forward transform is run on the frame in [in_fifo] times the input
    window, the denoiser is handed the power spectrum of the result, and the
    inverse transform of the result, divided by [fft_size], windowed and
    scaled, is left in [input_fft_buffer] and added to [output_accum], whose
    first [hop] sums go to [out_fifo] before it moves down by [hop], as
    [in_fifo] does, and [read_position] goes back to [input_latency]; at any
    other sample the denoiser, the noise profile, the spectra, the two
    transform buffers, [out_fifo] and [output_accum] stay as they are and
    [read_position] advances by one. *)
Theorem read_position_window_and_cycles
    (self : STFTProcessor) (noise : NoiseProfile) (n_samples : Z)
    (input output0 : list float) (args : DenoiseArguments) :
  framed self ->
  0 <= n_samples ->
  (forall m, 0 <= m <= n_samples ->
     let q := processor (stft_processor_run self noise m input output0 args) in
     (m < n_samples ->
      stft_processor_run self noise (m + 1) input output0 args
      = stft_sample input args m (stft_processor_run self noise m input output0 args))
     /\ input_latency q = fft_size q - hop q
     /\ hop q = hop self
     /\ fft_size q = fft_size self
     /\ input_latency q <= read_position q < fft_size q)
  /\ (let p := stft_processor_run self noise n_samples input output0 args in
      Z.of_nat (cycles p)
      = (read_position self - input_latency self + n_samples) / hop self
      /\ read_position (processor p)
         = input_latency self
           + (read_position self - input_latency self + n_samples) mod hop self)
  /\ (read_position self = input_latency self ->
      Z.of_nat (cycles (stft_processor_run self noise n_samples input output0 args))
      = n_samples / hop self)
  /\ (forall m, 0 <= m < n_samples ->
      let p := stft_processor_run self noise m input output0 args in
      let s := processor p in
      let p' := stft_processor_run self noise (m + 1) input output0 args in
      let frame := wr (in_fifo s) (read_position s) (rd input m) in
      if offset_in_hop s + 1 =? hop s then
        let windowed :=
          for_int (fft_size s) (fun i a => wr a i (fmul (rd a i) (rd (input_window s) i)))
            (memcpy (input_fft_buffer s) frame (sizeof_float * Z.to_nat (fft_size s))) in
        let spectrum := fftwf_execute_forward windowed in
        let bins :=
          get_info_from_bins (power_spectrum s) (magnitude_spectrum s) (phase_spectrum s)
            (half_fft_size s) (fft_size s) spectrum in
        let denoised := fft_denoiser_run (fft_denoiser s) (profile p) bins.1.1 args in
        let inverse := fftwf_execute_backward spectrum in
        let scaled :=
          for_int (fft_size s)
            (fun i a =>
               wr a i (fdiv (fmul (rd (output_window s) i) (rd a i))
                            (fmul (overlap_scale_factor s)
                                  (Float32.of_Z (overlap_factor s)))))
            (for_int (fft_size s)
               (fun i a => wr a i (fdiv (rd a i) (Float32.of_Z (fft_size s))))
               inverse.1) in
        let accum :=
          for_int (fft_size s) (fun i a => wr a i (fadd (rd a i) (rd scaled i)))
            (output_accum s) in
        cycles p' = S (cycles p)
        /\ fft_denoiser (processor p') = denoised.1.1
        /\ profile p' = denoised.1.2
        /\ power_spectrum (processor p') = denoised.2
        /\ magnitude_spectrum (processor p') = bins.1.2
        /\ phase_spectrum (processor p') = bins.2
        /\ output_fft_buffer (processor p') = inverse.2
        /\ input_fft_buffer (processor p') = scaled
        /\ out_fifo (processor p')
           = for_int (hop s) (fun i a => wr a i (rd accum i)) (out_fifo s)
        /\ output_accum (processor p')
           = for_int (fft_size s) (fun i a => wr a i (rd accum (i + hop s))) accum
        /\ in_fifo (processor p')
           = for_int (input_latency s) (fun i a => wr a i (rd a (i + hop s))) frame
        /\ read_position (processor p') = input_latency s
      else
        cycles p' = cycles p
        /\ fft_denoiser (processor p') = fft_denoiser s
        /\ profile p' = profile p
        /\ power_spectrum (processor p') = power_spectrum s
        /\ magnitude_spectrum (processor p') = magnitude_spectrum s
        /\ phase_spectrum (processor p') = phase_spectrum s
        /\ output_fft_buffer (processor p') = output_fft_buffer s
        /\ input_fft_buffer (processor p') = input_fft_buffer s
        /\ out_fifo (processor p') = out_fifo s
        /\ output_accum (processor p') = output_accum s
        /\ in_fifo (processor p') = frame
        /\ read_position (processor p') = read_position s + 1).
Proof.
  intros Hfr Hn. split; [|split; [|split]].
  - intros m Hm q. split.
    + intros _. unfold stft_processor_run. apply for_int_succ. lia.
    + pose proof (after_samples_run self noise m input output0 args Hfr (proj1 Hm)) as Ha.
      pose proof (after_samples_framed _ _ _ Hfr Ha) as (Hhop & Hlat & Hpos).
      destruct Ha as (Hf & Hh & _). subst q. repeat split; try assumption; lia.
  - pose proof (after_samples_run self noise n_samples input output0 args Hfr Hn)
      as (Hf & Hh & Hl & Hr & Hc).
    cbv zeta. rewrite Z2Nat.id in Hr, Hc by lia.
    unfold offset_in_hop in *. split; [exact Hc | lia].
  - intros Hstart.
    pose proof (after_samples_run self noise n_samples input output0 args Hfr Hn)
      as (_ & _ & _ & _ & Hc).
    rewrite Z2Nat.id in Hc by lia. unfold offset_in_hop in Hc.
    rewrite Hc. f_equal. lia.
  - intros m Hm.
    pose proof (after_samples_run self noise m input output0 args Hfr (proj1 Hm)) as Ha.
    pose proof (after_samples_framed _ _ _ Hfr Ha) as Hfm.
    pose proof (stft_sample_cycle input args m
                  (stft_processor_run self noise m input output0 args) Hfm) as Hc.
    assert (Hsucc : stft_processor_run self noise (m + 1) input output0 args
                    = stft_sample input args m
                        (stft_processor_run self noise m input output0 args)).
    { unfold stft_processor_run. apply for_int_succ. lia. }
    cbv zeta in Hc. cbv zeta. rewrite Hsucc. exact Hc.
Qed.

End WithBackend.

End STFTProofs.

(** ** Proofs on src/src/noise_repellent_state.c *)

Module PluginStateProofs.

Import CArray CArrayFacts PluginState.

(** [plugin_state_savestate] copies [sizeof(int)] bytes: the first float of
    the profile and no other. *)
Lemma savestate_values (self : PluginState) (st : gmap Z Item) (fft_size count : Z)
    (noise_profile : list float) (i : nat) :
  noise_profile_values (plugin_state_savestate self st fft_size count noise_profile).1 !! i
  = if (i =? 0)%nat then (fun _ => noise_profile !!! 0%nat) <$> noise_profile_values self !! 0%nat
    else noise_profile_values self !! i.
Proof.
  unfold plugin_state_savestate. cbn [fst noise_profile_values with_profile].
  unfold memcpy. rewrite list_lookup_imap.
  destruct i as [|i]; [reflexivity|].
  destruct (noise_profile_values self !! S i) as [v|]; [|reflexivity].
  cbn. rewrite andb_false_r. reflexivity.
Qed.

(** What is stored under [property_saved_noise_profile] is the
    [NoiseProfile] object, not the array it points to. *)
Lemma savestate_stored_object (self : PluginState) (st : gmap Z Item)
    (fft_size count : Z) (noise_profile : list float) :
  item_body <$>
    (plugin_state_savestate self st fft_size count noise_profile).2
      !! property_saved_noise_profile self
  = Some (noise_profile_object self).
Proof.
  unfold plugin_state_savestate, store. cbn [snd].
  rewrite lookup_insert_eq. reflexivity.
Qed.

(** [plugin_state_restorestate] compares the stored [fft_size] with
    [half_fft_size]: any other stored value is refused, the engine's
    [fft_size] included. *)
Lemma restorestate_refuses (self : PluginState) (st : gmap Z Item)
    (noise_profile : list float) (count : float) (fft_size half_fft_size : Z)
    (fftsize : Item) :
  st !! property_fft_size self = Some fftsize ->
  int_of_word (item_body fftsize !!! 0%nat) <> half_fft_size ->
  plugin_state_restorestate self st noise_profile count fft_size half_fft_size
  = Returned false self noise_profile.
Proof.
  intros Hget Hne. unfold plugin_state_restorestate. rewrite Hget.
  destruct (Z.eqb_spec (int_of_word (item_body fftsize !!! 0%nat)) half_fft_size);
    [contradiction|].
  rewrite orb_true_r. reflexivity.
Qed.

(** A call that returns leaves the caller's [noise_profile] array as it
    was, whatever it returns. *)
Lemma restorestate_engine_profile (self : PluginState) (st : gmap Z Item)
    (noise_profile : list float) (count : float) (fft_size half_fft_size : Z)
    (value : bool) (self' : PluginState) (noise_profile' : list float) :
  plugin_state_restorestate self st noise_profile count fft_size half_fft_size
  = Returned value self' noise_profile' ->
  noise_profile' = noise_profile.
Proof.
  unfold plugin_state_restorestate. intros Hr.
  repeat match type of Hr with
         | match ?x with _ => _ end = _ => destruct x
         | (if ?b then _ else _) = _ => destruct b
         end; congruence.
Qed.

End PluginStateProofs.

(** ** Proofs on src/nrepel.c *)

Module NrepelProofs.

Import CArray CArrayFacts Nrepel.
Local Open Scope R_scope.

(** Every reassembled bin has its imaginary part equal to its real part,
    [magnitude[k] cos (phase[k])]. *)
Lemma reassemble_bin (output_size : nat) (magnitude phase : list R)
    (buffer : list fftwf_complex) (k : nat) :
  (k <= output_size)%nat -> (k < length buffer)%nat ->
  reassemble output_size magnitude phase buffer !! k
  = Some (magnitude !!! k * cos (phase !!! k), magnitude !!! k * cos (phase !!! k)).
Proof.
  intros Hk Hl. unfold reassemble.
  assert (Out : forall n lo (b : list fftwf_complex), (k < lo)%nat ->
            for_range lo n
              (fun k0 b0 => <[k0 := (magnitude !!! k0 * cos (phase !!! k0),
                                     magnitude !!! k0 * cos (phase !!! k0))]> b0) b !! k
            = b !! k).
  { induction n as [|n IH]; intros lo b Hlo; [reflexivity|].
    rewrite for_range_S, IH by lia. apply list_lookup_insert_ne. lia. }
  assert (In : forall n lo (b : list fftwf_complex),
            (lo <= k < lo + n)%nat -> (k < length b)%nat ->
            for_range lo n
              (fun k0 b0 => <[k0 := (magnitude !!! k0 * cos (phase !!! k0),
                                     magnitude !!! k0 * cos (phase !!! k0))]> b0) b !! k
            = Some (magnitude !!! k * cos (phase !!! k),
                    magnitude !!! k * cos (phase !!! k))).
  { induction n as [|n IH]; intros lo b Hlo Hb; [lia|].
    rewrite for_range_S. destruct (decide (lo = k)) as [->|Hne].
    - rewrite Out by lia. apply list_lookup_insert_eq. exact Hb.
    - apply IH; [lia | rewrite length_insert; exact Hb]. }
  apply In; [lia | exact Hl].
Qed.

(** C8 on the code.  For a bin of magnitude 1 and phase 0 the loop writes
    [(1, 1)], a bin of phase [pi/4], where magnitude and phase give
    [1 (cos 0 + i sin 0) = (1, 0)]: the imaginary part is computed with [cos]. *)
Theorem reassembled_imaginary_is_cosine :
  reassemble 0 [1] [0] [(0, 0)] = [(1, 1)]
  /\ polar 1 0 = (1, 0)
  /\ reassemble 0 [1] [0] [(0, 0)] <> [polar 1 0].
Proof.
  assert (Hcode : reassemble 0 [1] [0] [(0, 0)] = [(1, 1)]).
  { unfold reassemble, for_range. cbn. rewrite cos_0, Rmult_1_l. reflexivity. }
  assert (Hpolar : polar 1 0 = (1, 0)).
  { unfold polar. rewrite cos_0, sin_0, Rmult_1_l, Rmult_0_r. reflexivity. }
  split; [exact Hcode|]. split; [exact Hpolar|].
  rewrite Hcode, Hpolar. intros Heq. inversion Heq as [H10]. lra.
Qed.

End NrepelProofs.

(** ** More on src/src/stft_processor.c *)

Module STFTBehaviour.

Import CArray CArrayFacts CLoopFacts STFT STFTCalls STFTProofs.

Section WithBackend.

Context `{Libm} `{Backend}.

(** The loop [for (k = 0; k < n; k++) a[k] = g k a] with reads of [a] at
    indices from [k] on. *)
Lemma for_int_forward (g : Z -> list float -> float) (n : Z) (a0 : list float) :
  (forall k a, 0 <= k -> length a = length a0 ->
     (forall j, (Z.to_nat k <= j)%nat -> a !! j = a0 !! j) -> g k a = g k a0) ->
  let r := for_int n (fun k a => wr a k (g k a)) a0 in
  length r = length a0
  /\ (forall i, 0 <= i < n -> (Z.to_nat i < length a0)%nat -> rd r i = g i a0)
  /\ (forall j, (Z.to_nat n <= j)%nat -> r !! j = a0 !! j).
Proof.
  intros Hg r. subst r. unfold for_int, wr.
  rewrite (for_range_ext 0 (Z.to_nat n) _
             (fun k a => <[k := g (Z.of_nat k) a]> a))
    by (intros k x _; rewrite Nat2Z.id; reflexivity).
  destruct (for_range_forward (fun k a => g (Z.of_nat k) a) 0 (Z.to_nat n) a0)
    as (Hl & Hin & Hout).
  { intros k a Hla Hj. apply Hg; [lia | exact Hla|].
    intros j Hkj. apply Hj. lia. }
  split; [exact Hl|]. split.
  - intros i Hi Hil. unfold rd. apply list_lookup_total_correct.
    rewrite (Hin (Z.to_nat i)) by (try lia; exact Hil).
    rewrite Z2Nat.id by lia. reflexivity.
  - intros j Hj. apply Hout. lia.
Qed.

Lemma rd_lookup (a : list float) (i : Z) (v : float) :
  a !! Z.to_nat i = Some v -> rd a i = v.
Proof. apply list_lookup_total_correct. Qed.

Lemma rd_eq (a b : list float) (i : Z) :
  a !! Z.to_nat i = b !! Z.to_nat i -> rd a i = rd b i.
Proof. apply lookup_total_eq. Qed.

(** *** One transform cycle *)

(** What [stft_processor_synthesis] does to the three arrays that carry
    samples from one frame to the next, in terms of [frame], the windowed
    and scaled inverse transform it leaves in [input_fft_buffer]. *)
Lemma cycle_arrays (self : STFTProcessor) noise args :
  0 <= hop self ->
  let self' := (transform_cycle self noise args).1 in
  let frame := input_fft_buffer self' in
  let n := fft_size self in
  let sum k := fadd (rd (output_accum self) k) (rd frame k) in
  (length (in_fifo self') = length (in_fifo self)
   /\ length (out_fifo self') = length (out_fifo self)
   /\ length (output_accum self') = length (output_accum self))
  /\ (forall k, 0 <= k < hop self -> k < n ->
        (Z.to_nat k < length (output_accum self))%nat ->
        (Z.to_nat k < length (out_fifo self))%nat ->
        rd (out_fifo self') k = sum k)
  /\ (forall j, (Z.to_nat (hop self) <= j)%nat -> out_fifo self' !! j = out_fifo self !! j)
  /\ (forall k, 0 <= k < n -> (Z.to_nat n <= length (output_accum self))%nat ->
        rd (output_accum self') k
        = if k + hop self <? n then sum (k + hop self)
          else rd (output_accum self) (k + hop self))
  /\ (forall j, (Z.to_nat n <= j)%nat -> output_accum self' !! j = output_accum self !! j)
  /\ (forall k, 0 <= k < input_latency self -> (Z.to_nat k < length (in_fifo self))%nat ->
        rd (in_fifo self') k = rd (in_fifo self) (k + hop self))
  /\ (forall j, (Z.to_nat (input_latency self) <= j)%nat ->
        in_fifo self' !! j = in_fifo self !! j).
Proof.
  intros Hhop. unfold transform_cycle.
  destruct (get_info_from_bins _ _ _ _ _ _) as [[pw mg] ph].
  destruct (fft_denoiser_run _ _ _ _) as [[d np] pw'].
  destruct (fftwf_execute_backward _) as [i3 o2].
  cbn [fst in_fifo out_fifo output_accum input_fft_buffer with_state
       b_in_fifo b_out_fifo b_output_accum b_input_fft_buffer].
  set (n := fft_size self).
  match goal with
  | |- context [for_int n (fun k a => wr a k (fadd (rd a k) (rd ?f k))) (output_accum self)] =>
      set (frame := f)
  end.
  set (accum1 := for_int n (fun k a => wr a k (fadd (rd a k) (rd frame k)))
                   (output_accum self)).
  (* the accumulation *)
  destruct (for_int_forward (fun k a => fadd (rd a k) (rd frame k)) n (output_accum self))
    as (Hl1 & Hin1 & Hout1).
  { intros k a Hk _ Hj. f_equal. apply rd_eq. apply Hj. lia. }
  fold accum1 in Hl1, Hin1, Hout1.
  (* the copy to the output FIFO *)
  destruct (for_int_forward (fun k _ => rd accum1 k) (hop self) (out_fifo self))
    as (Hl2 & Hin2 & Hout2); [reflexivity|].
  (* the move of the accumulator *)
  destruct (for_int_forward (fun k _ => rd accum1 (k + hop self)) n accum1)
    as (Hl3 & Hin3 & Hout3); [reflexivity|].
  (* the move of the input FIFO *)
  destruct (for_int_forward (fun k a => rd a (k + hop self)) (input_latency self)
              (in_fifo self)) as (Hl4 & Hin4 & Hout4).
  { intros k a Hk _ Hj. apply rd_eq. apply Hj. lia. }
  cbv zeta. split; [|split; [|split; [|split; [|split; [|split]]]]].
  - split; [exact Hl4|]. split; [exact Hl2|]. rewrite Hl3. exact Hl1.
  - intros k Hk Hkn Hla Hlo. rewrite (Hin2 k) by (try lia; exact Hlo).
    apply Hin1; [lia | exact Hla].
  - exact Hout2.
  - intros k Hk Hla. rewrite (Hin3 k) by (rewrite ?Hl1; lia).
    destruct (Z.ltb_spec (k + hop self) n) as [Hlt|Hge].
    + apply Hin1; lia.
    + apply rd_eq. apply Hout1. lia.
  - intros j Hj. rewrite Hout3 by exact Hj. apply Hout1. exact Hj.
  - intros k Hk Hl. apply Hin4; [lia | exact Hl].
  - exact Hout4.
Qed.

(** *** The input FIFO *)

(** One sample: the entries of [in_fifo] below [read_position] are the
    samples received last. *)
Lemma window_step (input : list float) args (m : nat) (p : Progress)
    (stream : list float) (r0 : nat) :
  framed (processor p) ->
  0 <= input_latency (processor p) ->
  length (in_fifo (processor p)) = Z.to_nat (fft_size (processor p)) ->
  stream !! (r0 + m)%nat = Some (rd input (Z.of_nat m)) ->
  let r := Z.to_nat (read_position (processor p)) in
  (r <= r0 + m)%nat ->
  (forall i, (i < r)%nat -> in_fifo (processor p) !! i = stream !! (r0 + m - r + i)%nat) ->
  let p' := stft_sample input args (Z.of_nat m) p in
  let r' := Z.to_nat (read_position (processor p')) in
  length (in_fifo (processor p')) = length (in_fifo (processor p))
  /\ (r' <= r0 + S m)%nat
  /\ (forall i, (i < r')%nat ->
        in_fifo (processor p') !! i = stream !! (r0 + S m - r' + i)%nat).
Proof.
  intros (Hhop & Hlat & Hpos) Hlat0 Hlen Hnew r Hr Hwin.
  set (q := processor p) in *.
  set (fifo1 := wr (in_fifo q) (read_position q) (rd input (Z.of_nat m))).
  assert (Hl1 : length fifo1 = length (in_fifo q))
    by (unfold fifo1, wr; apply length_insert).
  assert (Hw1 : forall i, (i < S r)%nat ->
                  fifo1 !! i = stream !! (r0 + S m - S r + i)%nat).
  { intros i Hi. unfold fifo1, wr. fold r.
    destruct (decide (i = r)) as [->|Hne].
    - rewrite list_lookup_insert_eq by (rewrite Hlen; unfold r; lia).
      rewrite <- Hnew. f_equal. lia.
    - rewrite list_lookup_insert_ne by lia.
      rewrite Hwin by lia. f_equal. lia. }
  unfold stft_sample. fold q. fold fifo1.
  cbn [fft_size read_position with_state].
  destruct (Z.leb_spec (fft_size q) (read_position q + 1)) as [Hge|Hlt].
  - (* the frame is complete *)
    match goal with
    | |- context [transform_cycle ?s ?n ?a] =>
        pose proof (transform_cycle_scalars s n a) as Hc;
        pose proof (cycle_arrays s n a) as Ha;
        destruct (transform_cycle s n a) as [self2 profile']
    end.
    cbn [fst] in Hc, Ha. destruct Hc as (Hf & Hh & Hl & Hrp).
    cbn [hop input_latency read_position in_fifo with_read_position with_state
         buffers b_in_fifo fft_size] in Hf, Hh, Hl, Hrp, Ha.
    specialize (Ha ltac:(lia)). cbv zeta in Ha.
    destruct Ha as ((Hlf & _ & _) & _ & _ & _ & _ & Hshift & _).
    cbv zeta. cbn [processor]. rewrite Hrp.
    split; [rewrite Hlf; exact Hl1|]. split; [unfold r in *; lia|].
    intros i Hi.
    assert (Hil : (i < length self2.(in_fifo))%nat) by (rewrite Hlf, Hl1, Hlen; lia).
    destruct (lookup_lt_is_Some_2 _ _ Hil) as [v Hv]. rewrite Hv.
    pose proof (Hshift (Z.of_nat i) ltac:(lia) ltac:(rewrite Nat2Z.id, Hl1, Hlen; lia))
      as Hs.
    unfold rd in Hs. rewrite Nat2Z.id in Hs.
    rewrite (list_lookup_total_correct _ _ _ Hv) in Hs.
    assert (Hidx : Z.to_nat (Z.of_nat i + hop q) = (i + Z.to_nat (hop q))%nat) by lia.
    rewrite Hidx in Hs.
    assert (Hin : (i + Z.to_nat (hop q) < S r)%nat) by (unfold r; lia).
    assert (Hl1' : (i + Z.to_nat (hop q) < length fifo1)%nat)
      by (rewrite Hl1, Hlen; lia).
    destruct (lookup_lt_is_Some_2 _ _ Hl1') as [u Hu].
    rewrite (list_lookup_total_correct _ _ _ Hu) in Hs. subst v.
    rewrite <- Hu, (Hw1 _ Hin). f_equal. unfold r. lia.
  - cbv zeta. cbn [processor read_position in_fifo with_state b_in_fifo].
    split; [exact Hl1|].
    replace (Z.to_nat (read_position q + 1)) with (S r) by (unfold r; lia).
    split; [lia | exact Hw1].
Qed.

(** The invariant of the sample loop on the input FIFO, after [m] samples
    from [self0]. *)
Lemma window_after_samples (self0 : STFTProcessor) noise n_samples input output0 args :
  framed self0 -> 0 <= input_latency self0 -> 0 <= n_samples ->
  length (in_fifo self0) = Z.to_nat (fft_size self0) ->
  (Z.to_nat n_samples <= length input)%nat ->
  let p := stft_processor_run self0 noise n_samples input output0 args in
  let r0 := Z.to_nat (read_position self0) in
  let r := Z.to_nat (read_position (processor p)) in
  let stream := take r0 (in_fifo self0) ++ input in
  length (in_fifo (processor p)) = length (in_fifo self0)
  /\ (r <= r0 + Z.to_nat n_samples)%nat
  /\ forall i, (i < r)%nat ->
       in_fifo (processor p) !! i = stream !! (r0 + Z.to_nat n_samples - r + i)%nat.
Proof.
  intros Hfr Hlat0 Hn Hlen Hinput p r0 r stream. subst p r.
  assert (Hr0 : (r0 <= length (in_fifo self0))%nat).
  { destruct Hfr as (_ & _ & Hpos). rewrite Hlen. unfold r0. lia. }
  unfold stft_processor_run, for_int.
  pose proof (for_range_ind
    (fun m (p : Progress) =>
       after_samples self0 m p
       /\ length (in_fifo (processor p)) = length (in_fifo self0)
       /\ (Z.to_nat (read_position (processor p)) <= r0 + m)%nat
       /\ forall i, (i < Z.to_nat (read_position (processor p)))%nat ->
            in_fifo (processor p) !! i
            = stream !! (r0 + m - Z.to_nat (read_position (processor p)) + i)%nat)
    0%nat (Z.to_nat n_samples)
    (fun k => stft_sample input args (Z.of_nat k))
    {| processor := self0; profile := noise; output := output0; cycles := 0 |}) as Hind.
  cbn [Nat.add] in Hind.
  destruct Hind as (_ & Hl & Hr & Hw).
  - split.
    + exact (after_samples_run self0 noise 0 input output0 args Hfr ltac:(lia)).
    + cbn [processor]. fold r0. split; [reflexivity|]. split; [lia|].
      intros i Hi. unfold stream.
      rewrite lookup_app_l by (rewrite length_take; lia).
      rewrite lookup_take_lt by lia. f_equal. lia.
  - intros m p Hm (Ha & Hl & Hr & Hw).
    pose proof (after_samples_framed self0 m p Hfr Ha) as Hfp.
    destruct Ha as (Hf & Hh & Hla & Ho & Hc).
    assert (Hnew : stream !! (r0 + m)%nat = Some (rd input (Z.of_nat m))).
    { unfold stream. rewrite lookup_app_r by (rewrite length_take; lia).
      rewrite length_take. replace (r0 + m - r0 `min` length (in_fifo self0))%nat with m by lia.
      unfold rd. rewrite Nat2Z.id. apply list_lookup_lookup_total_lt. lia. }
    destruct (window_step input args m p stream r0 Hfp ltac:(lia) ltac:(congruence)
                Hnew Hr Hw) as (Hl' & Hr' & Hw').
    split; [|split; [congruence | split; assumption]].
    apply after_samples_step; [exact Hfr|]. repeat split; assumption.
  - split; [exact Hl|]. split; [exact Hr | exact Hw].
Qed.

(** X5.  The input FIFO is a sliding window on the input: after any number
    of samples, its entries below [read_position] are the samples received
    last, in order: the end of what the FIFO held below [read_position] at the
    start followed by the samples of this call.  So the frame handed to the
    forward transform when [read_position] reaches [fft_size] is made of the
    last [fft_size] samples. *)
Theorem in_fifo_holds_the_latest_samples
    (self : STFTProcessor) (noise : NoiseProfile) (n_samples : Z)
    (input output0 : list float) (args : DenoiseArguments) :
  framed self -> 0 <= input_latency self -> 0 <= n_samples ->
  length (in_fifo self) = Z.to_nat (fft_size self) ->
  (Z.to_nat n_samples <= length input)%nat ->
  let p := stft_processor_run self noise n_samples input output0 args in
  let r0 := Z.to_nat (read_position self) in
  let r := Z.to_nat (read_position (processor p)) in
  let received := take r0 (in_fifo self) ++ take (Z.to_nat n_samples) input in
  (r <= length received)%nat
  /\ take r (in_fifo (processor p)) = drop (length received - r) received.
Proof.
  intros Hfr Hlat0 Hn Hlen Hinput p r0 r received.
  destruct (window_after_samples self noise n_samples input output0 args
              Hfr Hlat0 Hn Hlen Hinput) as (Hl & Hr & Hw).
  fold p in Hl, Hr, Hw. fold r0 in Hr, Hw. fold r in Hr, Hw.
  assert (Hr0 : (r0 <= length (in_fifo self))%nat).
  { destruct Hfr as (_ & _ & Hpos). rewrite Hlen. unfold r0. lia. }
  assert (Hlr : length received = (r0 + Z.to_nat n_samples)%nat).
  { unfold received. rewrite length_app, !length_take. lia. }
  assert (Hrl : (r <= length (in_fifo (processor p)))%nat).
  { pose proof (after_samples_run self noise n_samples input output0 args Hfr Hn) as Ha.
    pose proof (after_samples_framed _ _ _ Hfr Ha) as (_ & _ & Hpos).
    destruct Ha as (Hf & _). fold p in Hpos, Hf.
    rewrite Hl, Hlen. unfold r. lia. }
  split; [lia|].
  apply list_eq. intros i. rewrite lookup_drop, Hlr.
  destruct (decide (i < r)%nat) as [Hi|Hi].
  - rewrite lookup_take_lt by lia. rewrite (Hw i Hi).
    unfold received.
    destruct (decide (r0 + Z.to_nat n_samples - r + i < r0)%nat) as [Hlt|Hge].
    + rewrite !lookup_app_l by (rewrite length_take; lia). reflexivity.
    + rewrite !lookup_app_r by (rewrite length_take; lia).
      rewrite length_take. rewrite lookup_take_lt by lia. reflexivity.
  - rewrite lookup_take_ge by lia. symmetry. apply lookup_ge_None_2. lia.
Qed.

(** What the cycle adds to the accumulator: the inverse transform of the
    transformed frame, divided by [fft_size], multiplied by the output window
    and divided by [overlap_scale_factor * overlap_factor]. *)
Lemma cycle_frame (self : STFTProcessor) noise args :
  let self' := (transform_cycle self noise args).1 in
  let n := fft_size self in
  let windowed :=
    for_int n (fun k a => wr a k (fmul (rd a k) (rd (input_window self) k)))
      (memcpy (input_fft_buffer self) (in_fifo self) (sizeof_float * Z.to_nat n)) in
  let inverse := (fftwf_execute_backward (fftwf_execute_forward windowed)).1 in
  length (input_fft_buffer self') = length inverse
  /\ (forall k, 0 <= k < n -> (Z.to_nat k < length inverse)%nat ->
        rd (input_fft_buffer self') k
        = fdiv (fmul (rd (output_window self) k) (fdiv (rd inverse k) (Float32.of_Z n)))
               (fmul (overlap_scale_factor self) (Float32.of_Z (overlap_factor self))))
  /\ (forall j, (Z.to_nat n <= j)%nat -> input_fft_buffer self' !! j = inverse !! j).
Proof.
  unfold transform_cycle.
  destruct (get_info_from_bins _ _ _ _ _ _) as [[pw mg] ph].
  destruct (fft_denoiser_run _ _ _ _) as [[d np] pw'].
  destruct (fftwf_execute_backward _) as [i3 o2].
  cbn [fst input_fft_buffer with_state b_input_fft_buffer].
  set (n := fft_size self).
  destruct (for_int_forward (fun k a => fdiv (rd a k) (Float32.of_Z n)) n i3)
    as (Hl1 & Hin1 & Hout1).
  { intros k a Hk _ Hj. f_equal. apply rd_eq. apply Hj. lia. }
  set (scaled := for_int n (fun k a => wr a k (fdiv (rd a k) (Float32.of_Z n))) i3) in *.
  destruct (for_int_forward
              (fun k a => fdiv (fmul (rd (output_window self) k) (rd a k))
                               (fmul (overlap_scale_factor self)
                                     (Float32.of_Z (overlap_factor self)))) n scaled)
    as (Hl2 & Hin2 & Hout2).
  { intros k a Hk _ Hj. do 2 f_equal. apply rd_eq. apply Hj. lia. }
  cbv zeta. split; [congruence|]. split.
  - intros k Hk Hl. rewrite (Hin2 k) by (rewrite ?Hl1; lia).
    rewrite (Hin1 k) by lia. reflexivity.
  - intros j Hj. rewrite Hout2 by exact Hj. apply Hout1. exact Hj.
Qed.

(** The frame handed to the forward transform: the input FIFO times the
    input window. *)
Lemma cycle_windowed (self : STFTProcessor) :
  let n := fft_size self in
  let windowed :=
    for_int n (fun k a => wr a k (fmul (rd a k) (rd (input_window self) k)))
      (memcpy (input_fft_buffer self) (in_fifo self) (sizeof_float * Z.to_nat n)) in
  forall k, 0 <= k < n -> (Z.to_nat k < length (input_fft_buffer self))%nat ->
    rd windowed k = fmul (rd (in_fifo self) k) (rd (input_window self) k).
Proof.
  cbv zeta. intros k Hk Hl.
  set (copied := memcpy _ _ _).
  destruct (for_int_forward (fun k a => fmul (rd a k) (rd (input_window self) k))
              (fft_size self) copied) as (_ & Hin & _).
  { intros j a Hj _ Ha. f_equal. apply rd_eq. apply Ha. lia. }
  assert (Hlc : length copied = length (input_fft_buffer self))
    by (unfold copied; apply length_memcpy).
  rewrite (Hin k) by (rewrite ?Hlc; lia).
  f_equal. apply rd_lookup. unfold copied.
  rewrite memcpy_lookup_whole; [reflexivity | exact Hl|].
  unfold sizeof_float. rewrite Nat.mul_comm, Nat.div_mul by discriminate. lia.
Qed.

(** X6.  [stft_processor_synthesis] is an overlap-add.  What is added,
    [frame], is the inverse transform of the transformed frame, each entry
    divided by [fft_size], multiplied by the output window and divided by
    [overlap_scale_factor * overlap_factor]; the transformed frame is the
    forward transform of the input FIFO times the input window.  [frame] is
    added to the first [fft_size] entries of [output_accum], the first [hop]
    sums go to [out_fifo], and the accumulator moves down by [hop]; entries
    of [out_fifo] from [hop] on and of [output_accum] from [fft_size] on stay
    as they were. *)
Theorem synthesis_overlap_adds (self : STFTProcessor) (noise : NoiseProfile)
    (args : DenoiseArguments) :
  0 <= hop self <= fft_size self ->
  (Z.to_nat (fft_size self) <= length (output_accum self))%nat ->
  (Z.to_nat (hop self) <= length (out_fifo self))%nat ->
  let self' := (transform_cycle self noise args).1 in
  let frame := input_fft_buffer self' in
  let sum k := fadd (rd (output_accum self) k) (rd frame k) in
  let windowed :=
    for_int (fft_size self)
      (fun k a => wr a k (fmul (rd a k) (rd (input_window self) k)))
      (memcpy (input_fft_buffer self) (in_fifo self)
         (sizeof_float * Z.to_nat (fft_size self))) in
  let inverse := (fftwf_execute_backward (fftwf_execute_forward windowed)).1 in
  (forall k, 0 <= k < hop self -> rd (out_fifo self') k = sum k)
  /\ (forall k, 0 <= k < fft_size self ->
        rd (output_accum self') k
        = if k + hop self <? fft_size self then sum (k + hop self)
          else rd (output_accum self) (k + hop self))
  /\ (forall j, (Z.to_nat (hop self) <= j)%nat -> out_fifo self' !! j = out_fifo self !! j)
  /\ (forall j, (Z.to_nat (fft_size self) <= j)%nat ->
        output_accum self' !! j = output_accum self !! j)
  /\ length frame = length inverse
  /\ (forall k, 0 <= k < fft_size self -> (Z.to_nat k < length inverse)%nat ->
        rd frame k
        = fdiv (fmul (rd (output_window self) k)
                     (fdiv (rd inverse k) (Float32.of_Z (fft_size self))))
               (fmul (overlap_scale_factor self) (Float32.of_Z (overlap_factor self))))
  /\ (forall k, 0 <= k < fft_size self ->
        (Z.to_nat k < length (input_fft_buffer self))%nat ->
        rd windowed k = fmul (rd (in_fifo self) k) (rd (input_window self) k)).
Proof.
  intros Hhop Hla Hlo.
  pose proof (cycle_arrays self noise args (proj1 Hhop)) as Ha. cbv zeta in Ha.
  destruct Ha as (_ & Hout & Hout' & Hacc & Hacc' & _ & _).
  pose proof (cycle_frame self noise args) as Hf. cbv zeta in Hf.
  destruct Hf as (Hfl & Hfr & _).
  pose proof (cycle_windowed self) as Hw. cbv zeta in Hw.
  cbv zeta. split; [|split; [|split; [|split; [|split; [|split]]]]].
  - intros k Hk. apply Hout; lia.
  - intros k Hk. apply Hacc; [lia | exact Hla].
  - exact Hout'.
  - exact Hacc'.
  - exact Hfl.
  - exact Hfr.
  - exact Hw.
Qed.

(** *** The output *)

Lemma length_output_sample input args k (p : Progress) :
  length (output (stft_sample input args k p)) = length (output p).
Proof.
  unfold stft_sample.
  destruct (_ <=? _); [destruct (transform_cycle _ _ _) as [s2 pr]|];
    cbn [output]; unfold wr; apply length_insert.
Qed.

Lemma length_output_run self noise n_samples input output0 args :
  length (output (stft_processor_run self noise n_samples input output0 args))
  = length output0.
Proof.
  unfold stft_processor_run, for_int.
  apply (for_range_invariant (fun p : Progress => length (output p) = length output0));
    [reflexivity|].
  intros k p _ Hp. rewrite length_output_sample. exact Hp.
Qed.

(** The samples of a call before the first frame completes: the positions
    advance, [out_fifo] stays, and the output is read from it. *)
Lemma outputs_before_the_cycle self noise n_samples input output0 args :
  framed self ->
  let o := offset_in_hop self in
  0 <= n_samples <= hop self - o ->
  let p := stft_processor_run self noise n_samples input output0 args in
  (forall k, 0 <= k < n_samples ->
     output p !! Z.to_nat k = (fun _ => rd (out_fifo self) (o + k)) <$> output0 !! Z.to_nat k)
  /\ (forall j, (Z.to_nat n_samples <= j)%nat -> output p !! j = output0 !! j)
  /\ (n_samples < hop self - o ->
      out_fifo (processor p) = out_fifo self
      /\ read_position (processor p) = read_position self + n_samples
      /\ input_latency (processor p) = input_latency self
      /\ fft_size (processor p) = fft_size self).
Proof.
  intros (Hhop & Hlat & Hpos) o Hn p. subst p.
  unfold stft_processor_run, for_int.
  pose proof (for_range_ind
    (fun m (p : Progress) =>
       (forall k, (k < m)%nat ->
          output p !! k = (fun _ => rd (out_fifo self) (o + Z.of_nat k)) <$> output0 !! k)
       /\ (forall j, (m <= j)%nat -> output p !! j = output0 !! j)
       /\ (Z.of_nat m < hop self - o ->
           out_fifo (processor p) = out_fifo self
           /\ read_position (processor p) = read_position self + Z.of_nat m
           /\ input_latency (processor p) = input_latency self
           /\ fft_size (processor p) = fft_size self))
    0%nat (Z.to_nat n_samples)
    (fun k => stft_sample input args (Z.of_nat k))
    {| processor := self; profile := noise; output := output0; cycles := 0 |}) as Hind.
  cbn [Nat.add] in Hind.
  destruct Hind as (Hk & Hj & Hs).
  - split; [intros k Hk; lia|]. split; [reflexivity|].
    intros _. cbn [processor]. repeat split; lia.
  - intros m p Hm (Hk & Hj & Hs).
    specialize (Hs ltac:(lia)). destruct Hs as (Ho & Hr & Hl & Hf).
    assert (Hout : output (stft_sample input args (Z.of_nat m) p)
                   = wr (output p) (Z.of_nat m) (rd (out_fifo self) (o + Z.of_nat m))).
    { unfold stft_sample. rewrite Ho, Hr, Hl.
      replace (read_position self + Z.of_nat m - input_latency self)
        with (o + Z.of_nat m) by (unfold o, offset_in_hop; lia).
      destruct (_ <=? _); [destruct (transform_cycle _ _ _) as [s2 pr]|]; reflexivity. }
    split; [|split].
    + intros k Hkm. rewrite Hout. unfold wr. rewrite Nat2Z.id.
      destruct (decide (k = m)) as [->|Hne].
      * rewrite list_lookup_insert by reflexivity. rewrite Hj by lia.
        destruct (decide (m < length (output p))%nat) as [Hin|Hnin].
        -- rewrite decide_True by (split; [reflexivity | exact Hin]).
           destruct (lookup_lt_is_Some_2 _ _ Hin) as [v Hv].
           rewrite <- (Hj m ltac:(lia)), Hv. reflexivity.
        -- rewrite decide_False by lia.
           rewrite <- (Hj m ltac:(lia)).
           rewrite (lookup_ge_None_2 (output p) m) by lia. reflexivity.
      * rewrite list_lookup_insert_ne by lia. apply Hk. lia.
    + intros j Hjm. rewrite Hout. unfold wr. rewrite Nat2Z.id.
      rewrite list_lookup_insert_ne by lia. apply Hj. lia.
    + intros Hlt. unfold stft_sample. cbn [fft_size read_position with_state].
      destruct (Z.leb_spec (fft_size (processor p)) (read_position (processor p) + 1))
        as [Hge|Hlt'].
      * unfold o, offset_in_hop in *. lia.
      * cbn [processor out_fifo read_position input_latency fft_size with_state
             buffers b_out_fifo].
        repeat split; try assumption. lia.
  - split; [|split].
    + intros k Hk'. specialize (Hk (Z.to_nat k) ltac:(lia)).
      rewrite Z2Nat.id in Hk by lia. exact Hk.
    + exact Hj.
    + intros Hlt. specialize (Hs ltac:(lia)). rewrite Z2Nat.id in Hs by lia. exact Hs.
Qed.

(** A sample writes its own entry of the output and no other. *)
Lemma output_sample_other input args (j : nat) (p : Progress) (i : nat) :
  i <> j -> output (stft_sample input args (Z.of_nat j) p) !! i = output p !! i.
Proof.
  intros Hne. unfold stft_sample.
  destruct (_ <=? _); [destruct (transform_cycle _ _ _) as [s2 pr]|];
    cbn [output]; unfold wr; rewrite Nat2Z.id; apply list_lookup_insert_ne; lia.
Qed.

Lemma output_range_other input args (lo n : nat) (p : Progress) (i : nat) :
  (i < lo \/ lo + n <= i)%nat ->
  output (for_range lo n (fun k => stft_sample input args (Z.of_nat k)) p) !! i
  = output p !! i.
Proof.
  intros Hi.
  apply (for_range_ind (fun _ (x : Progress) => output x !! i = output p !! i));
    [reflexivity|].
  intros k x Hk Hx. rewrite output_sample_other by lia. exact Hx.
Qed.

(** The samples of a call that precede its first transform cycle are read
    from [out_fifo] as it was, however long the call is. *)
Lemma outputs_of_the_first_hop self noise n_samples input output0 args :
  framed self -> 0 <= n_samples ->
  let o := offset_in_hop self in
  let p := stft_processor_run self noise n_samples input output0 args in
  (forall k, 0 <= k < n_samples -> k < hop self - o ->
     output p !! Z.to_nat k = (fun _ => rd (out_fifo self) (o + k)) <$> output0 !! Z.to_nat k)
  /\ (forall j, (Z.to_nat n_samples <= j)%nat -> output p !! j = output0 !! j).
Proof.
  intros Hfr Hn o p. split.
  - intros k Hk Hko.
    set (m := Z.min n_samples (hop self - o)).
    assert (Hm : 0 <= m <= hop self - o) by (unfold m; lia).
    destruct (outputs_before_the_cycle self noise m input output0 args Hfr Hm)
      as (Hfirst & _).
    etransitivity; [|exact (Hfirst k ltac:(unfold m; lia))].
    unfold p, stft_processor_run, for_int.
    replace (Z.to_nat n_samples) with (Z.to_nat m + (Z.to_nat n_samples - Z.to_nat m))%nat
      by (unfold m; lia).
    rewrite for_range_app. apply output_range_other. unfold m. lia.
  - intros j Hj. unfold p, stft_processor_run, for_int.
    rewrite output_range_other by lia. reflexivity.
Qed.

(** X7.  The output lags the input by a hop.  From a processor at the start
    of a hop, the first [hop] samples a call hands back are the entries of
    [out_fifo] as they were before the call, in order, whatever the input is
    and however many samples the call processes; what the call computes from
    its input appears at the earliest one hop later.  Entries of [output]
    past [n_samples] are not written. *)
Theorem first_hop_of_output_is_the_old_out_fifo
    (self : STFTProcessor) (noise : NoiseProfile) (n_samples : Z)
    (input output0 : list float) (args : DenoiseArguments) :
  framed self ->
  read_position self = input_latency self ->
  (Z.to_nat (hop self) <= length (out_fifo self))%nat ->
  0 <= n_samples ->
  (Z.to_nat n_samples <= length output0)%nat ->
  let p := stft_processor_run self noise n_samples input output0 args in
  length (output p) = length output0
  /\ (forall k, 0 <= k < n_samples -> k < hop self ->
        output p !! Z.to_nat k = Some (rd (out_fifo self) k))
  /\ (forall j, (Z.to_nat n_samples <= j)%nat -> output p !! j = output0 !! j).
Proof.
  intros Hfr Hstart _ Hn Hlen p.
  assert (Ho : offset_in_hop self = 0) by (unfold offset_in_hop; lia).
  destruct (outputs_of_the_first_hop self noise n_samples input output0 args Hfr Hn)
    as (Hk & Hj).
  fold p in Hk, Hj. rewrite Ho in Hk.
  split; [apply length_output_run|]. split; [|exact Hj].
  intros k Hk' Hkh. rewrite (Hk k Hk') by lia.
  destruct (lookup_lt_is_Some_2 output0 (Z.to_nat k) ltac:(lia)) as [v Hv].
  rewrite Hv. reflexivity.
Qed.

(** *** A call in two parts *)

Lemma stft_sample_shifted input args (n1 j c : nat) (before : list float)
    (p p' : Progress) :
  length before = n1 ->
  shifted c before p p' ->
  shifted c before (stft_sample input args (Z.of_nat (n1 + j)) p)
    (stft_sample (drop n1 input) args (Z.of_nat j) p').
Proof.
  intros Hb (Hp & Hn & Hc & Ho).
  destruct p as [s np o cy], p' as [s' np' o' cy'].
  cbn [processor profile cycles output] in *. subst s' np' cy o.
  unfold stft_sample. cbn [processor profile cycles output].
  assert (Hin : rd (drop n1 input) (Z.of_nat j) = rd input (Z.of_nat (n1 + j))).
  { unfold rd. rewrite !Nat2Z.id. apply lookup_total_drop. }
  assert (Hout : forall v, wr (before ++ o') (Z.of_nat (n1 + j)) v
                           = before ++ wr o' (Z.of_nat j) v).
  { intros v. unfold wr. rewrite !Nat2Z.id, <- Hb. apply insert_app_r. }
  rewrite Hin, Hout.
  destruct (_ <=? _).
  - destruct (transform_cycle _ _ _) as [s2 pr]. repeat split. cbn [cycles]. lia.
  - repeat split.
Qed.

(** X8.  Processing a block in one call or in two gives the same result:
    [stft_processor_run] on [n1 + n2] samples leaves the processor and the
    noise profile that a call on the first [n1] samples followed by a call on
    the next [n2] (with [input + n1] and [output + n1]) leaves, writes the same
    output, and runs as many transform cycles. *)
Theorem run_in_two_calls
    (self : STFTProcessor) (noise : NoiseProfile) (n1 n2 : Z)
    (input output0 : list float) (args : DenoiseArguments) :
  0 <= n1 -> 0 <= n2 -> (Z.to_nat n1 <= length output0)%nat ->
  let whole := stft_processor_run self noise (n1 + n2) input output0 args in
  let first := stft_processor_run self noise n1 input output0 args in
  let second :=
    stft_processor_run (processor first) (profile first) n2
      (drop (Z.to_nat n1) input) (drop (Z.to_nat n1) (output first)) args in
  processor whole = processor second
  /\ profile whole = profile second
  /\ cycles whole = (cycles first + cycles second)%nat
  /\ output whole = take (Z.to_nat n1) (output first) ++ output second.
Proof.
  intros H1 H2 Hlen whole first second.
  assert (Hs : shifted (cycles first) (take (Z.to_nat n1) (output first)) whole second).
  { assert (Hw : whole
                 = for_range (0 + Z.to_nat n1) (Z.to_nat n2)
                     (fun k => stft_sample input args (Z.of_nat k)) first).
    { unfold whole, first, stft_processor_run, for_int.
      replace (Z.to_nat (n1 + n2)) with (Z.to_nat n1 + Z.to_nat n2)%nat by lia.
      apply for_range_app. }
    rewrite Hw. unfold second, stft_processor_run, for_int.
    apply (for_range_sim (shifted (cycles first) (take (Z.to_nat n1) (output first)))).
    - unfold shifted. cbn [processor profile cycles output].
      rewrite take_drop. repeat split. lia.
    - intros k x y _ Hxy. cbn [Nat.add].
      apply stft_sample_shifted; [|exact Hxy].
      rewrite length_take. unfold first. rewrite length_output_run. lia. }
  exact Hs.
Qed.

(** *** The bins of a frame *)

(** The loop of [get_info_from_bins] after [m] passes. *)
Lemma info_loop (half fft_size0 : Z) (fft_buffer : list float)
    (pw0 mg0 ph0 : list float) (m : nat) :
  let re k := rd fft_buffer k in
  let im k := rd fft_buffer (fft_size0 - k) in
  let power k :=
    if k <? half then fadd (fmul (re k) (re k)) (fmul (im k) (im k))
    else fmul (re k) (re k) in
  let magnitude k := if k <? half then sqrtf (power k) else re k in
  let phase k := if k <? half then atan2f (re k) (im k) else atan2f (re k) fzero in
  let r :=
    for_range 0 m
      (fun k0 '(pw, mg, ph) =>
         let k := Z.of_nat k0 + 1 in
         let real_p := rd fft_buffer k in
         let imag_n := rd fft_buffer (fft_size0 - k) in
         if k <? half then
           let power := fadd (fmul real_p real_p) (fmul imag_n imag_n) in
           (wr pw k power, wr mg k (sqrtf power), wr ph k (atan2f real_p imag_n))
         else
           (wr pw k (fmul real_p real_p), wr mg k real_p, wr ph k (atan2f real_p fzero)))
      (pw0, mg0, ph0) in
  (length r.1.1 = length pw0 /\ length r.1.2 = length mg0 /\ length r.2 = length ph0)
  /\ (forall k, (1 <= k <= m)%nat ->
        ((k < length pw0)%nat -> r.1.1 !! k = Some (power (Z.of_nat k)))
        /\ ((k < length mg0)%nat -> r.1.2 !! k = Some (magnitude (Z.of_nat k)))
        /\ ((k < length ph0)%nat -> r.2 !! k = Some (phase (Z.of_nat k))))
  /\ (forall j, (j < 1 \/ m < j)%nat ->
        r.1.1 !! j = pw0 !! j /\ r.1.2 !! j = mg0 !! j /\ r.2 !! j = ph0 !! j).
Proof.
  intros re im power magnitude phase r. subst r.
  rewrite (for_range_ext 0 m _
             (fun k0 '(pw, mg, ph) =>
                let k := Z.of_nat k0 + 1 in
                (wr pw k (power k), wr mg k (magnitude k), wr ph k (phase k)))).
  2:{ intros k0 [[pw mg] ph] _. unfold magnitude, phase, power, re, im. cbv zeta.
      destruct (Z.of_nat k0 + 1 <? half); reflexivity. }
  clearbody power magnitude phase. clear re im.
  pose proof (for_range_ind
    (fun n (x : list float * list float * list float) =>
       (length x.1.1 = length pw0 /\ length x.1.2 = length mg0 /\ length x.2 = length ph0)
       /\ (forall k, (1 <= k < S n)%nat ->
             ((k < length pw0)%nat -> x.1.1 !! k = Some (power (Z.of_nat k)))
             /\ ((k < length mg0)%nat -> x.1.2 !! k = Some (magnitude (Z.of_nat k)))
             /\ ((k < length ph0)%nat -> x.2 !! k = Some (phase (Z.of_nat k))))
       /\ (forall j, (j < 1 \/ n < j)%nat ->
             x.1.1 !! j = pw0 !! j /\ x.1.2 !! j = mg0 !! j /\ x.2 !! j = ph0 !! j))
    0%nat m) as Hind.
  cbn [Nat.add] in Hind.
  match goal with
  | |- context [for_range 0 m ?body ?init] => specialize (Hind body init)
  end.
  destruct Hind as (Hl & Hin & Hout).
  - cbn [fst snd]. split; [repeat split; reflexivity|]. split; [intros k Hk; lia|].
    intros j _. repeat split; reflexivity.
  - intros n [[pw mg] ph] _ ((Hl1 & Hl2 & Hl3) & Hin & Hout). cbn [fst snd] in *.
    assert (Hidx : Z.to_nat (Z.of_nat n + 1) = S n) by lia.
    assert (Hstep :
      forall (a a0 : list float) (f : Z -> float),
        length a = length a0 ->
        (forall k, (1 <= k < S n)%nat -> (k < length a0)%nat -> a !! k = Some (f (Z.of_nat k))) ->
        (forall j, (j < 1 \/ n < j)%nat -> a !! j = a0 !! j) ->
        let a' := wr a (Z.of_nat n + 1) (f (Z.of_nat n + 1)) in
        length a' = length a0
        /\ (forall k, (1 <= k < S (S n))%nat -> (k < length a0)%nat ->
              a' !! k = Some (f (Z.of_nat k)))
        /\ (forall j, (j < 1 \/ S n < j)%nat -> a' !! j = a0 !! j)).
    { intros a a0 f Hla Hina Houta. cbv zeta. unfold wr. rewrite Hidx.
      split; [rewrite length_insert; exact Hla|]. split.
      - intros k Hk Hkl. destruct (decide (k = S n)) as [->|Hne].
        + rewrite list_lookup_insert_eq by lia. do 2 f_equal. lia.
        + rewrite list_lookup_insert_ne by lia. apply Hina; [lia | exact Hkl].
      - intros j Hj. rewrite list_lookup_insert_ne by lia. apply Houta. lia. }
    destruct (Hstep pw pw0 power Hl1 (fun k Hk => proj1 (Hin k Hk))
                (fun j Hj => proj1 (Hout j Hj))) as (Hp1 & Hp2 & Hp3).
    destruct (Hstep mg mg0 magnitude Hl2 (fun k Hk => proj1 (proj2 (Hin k Hk)))
                (fun j Hj => proj1 (proj2 (Hout j Hj)))) as (Hm1 & Hm2 & Hm3).
    destruct (Hstep ph ph0 phase Hl3 (fun k Hk => proj2 (proj2 (Hin k Hk)))
                (fun j Hj => proj2 (proj2 (Hout j Hj)))) as (Hh1 & Hh2 & Hh3).
    cbv zeta in Hp1, Hp2, Hp3, Hm1, Hm2, Hm3, Hh1, Hh2, Hh3. cbv zeta. cbn [fst snd].
    split; [repeat split; assumption|]. split.
    + intros k Hk. repeat split; intros Hkl; [apply Hp2 | apply Hm2 | apply Hh2]; assumption.
    + intros j Hj. repeat split; [apply Hp3 | apply Hm3 | apply Hh3]; exact Hj.
  - split; [exact Hl|]. split; [|exact Hout].
    intros k Hk. apply Hin. lia.
Qed.

(** X10.  [get_info_from_bins] fills the bins [0 .. half_fft_size] of the
    three arrays and no other entry.  For a bin [k] strictly between DC and
    [half_fft_size] the power is the sum of the squares of [fft_buffer[k]]
    and [fft_buffer[fft_size - k]] and the magnitude is its square root; at
    DC and at [half_fft_size] the power is the square of [fft_buffer[k]] and
    the magnitude is [fft_buffer[k]] itself, with its sign.  The phase is
    [atan2f] of the real part and the imaginary part, in this order. *)
Theorem bins_of_a_halfcomplex_frame
    (fft_power fft_magnitude fft_phase : list float) (half fft_size0 : Z)
    (fft_buffer : list float) :
  let r := get_info_from_bins fft_power fft_magnitude fft_phase half fft_size0 fft_buffer in
  let re k := rd fft_buffer k in
  let im k := rd fft_buffer (fft_size0 - k) in
  let interior k := (0 <? k) && (k <? half) in
  (length r.1.1 = length fft_power /\ length r.1.2 = length fft_magnitude
   /\ length r.2 = length fft_phase)
  /\ (forall k, 0 <= k <= Z.max half 0 ->
        ((Z.to_nat k < length fft_power)%nat ->
           rd r.1.1 k
           = if interior k then fadd (fmul (re k) (re k)) (fmul (im k) (im k))
             else fmul (re k) (re k))
        /\ ((Z.to_nat k < length fft_magnitude)%nat ->
             rd r.1.2 k
             = if interior k
               then sqrtf (fadd (fmul (re k) (re k)) (fmul (im k) (im k)))
               else re k)
        /\ ((Z.to_nat k < length fft_phase)%nat ->
             rd r.2 k = if interior k then atan2f (re k) (im k) else atan2f (re k) fzero))
  /\ (forall j, (Z.to_nat half < j)%nat ->
        r.1.1 !! j = fft_power !! j /\ r.1.2 !! j = fft_magnitude !! j
        /\ r.2 !! j = fft_phase !! j).
Proof.
  intros r re im interior. subst r. unfold get_info_from_bins, for_int.
  set (pw0 := wr fft_power 0 _). set (mg0 := wr fft_magnitude 0 _).
  set (ph0 := wr fft_phase 0 _).
  pose proof (info_loop half fft_size0 fft_buffer pw0 mg0 ph0 (Z.to_nat half)) as Hloop.
  cbv zeta in Hloop.
  match type of Hloop with
  | context [for_range 0 _ ?body ?init] =>
      match goal with
      | |- context [for_range 0 _ ?body' init] => change body' with body
      end;
      set (r := for_range 0 (Z.to_nat half) body init) in *
  end.
  destruct Hloop as ((Hl1 & Hl2 & Hl3) & Hin & Hout).
  assert (Hlp : length pw0 = length fft_power) by (unfold pw0, wr; apply length_insert).
  assert (Hlm : length mg0 = length fft_magnitude) by (unfold mg0, wr; apply length_insert).
  assert (Hlh : length ph0 = length fft_phase) by (unfold ph0, wr; apply length_insert).
  split; [repeat split; congruence|]. split.
  - intros k Hk. unfold interior.
    destruct (Z.eq_dec k 0) as [->|Hnz].
    + (* the DC bin, written before the loop *)
      cbn [Z.ltb Z.compare andb]. unfold rd. change (Z.to_nat 0) with 0%nat.
      destruct (Hout 0%nat ltac:(lia)) as (E1 & E2 & E3).
      repeat split; intros Hlen; apply list_lookup_total_correct.
      * rewrite E1. unfold pw0, wr. apply list_lookup_insert_eq. exact Hlen.
      * rewrite E2. unfold mg0, wr. apply list_lookup_insert_eq. exact Hlen.
      * rewrite E3. unfold ph0, wr. apply list_lookup_insert_eq. exact Hlen.
    + assert (Hpos : 0 < k) by lia.
      destruct (Z.ltb_spec 0 k); [|lia]. cbn [andb].
      destruct (Hin (Z.to_nat k) ltac:(lia)) as (E1 & E2 & E3).
      rewrite Z2Nat.id in E1, E2, E3 by lia.
      unfold re, im.
      destruct (k <? half);
        (repeat split; intros Hlen; apply rd_lookup;
           [apply E1 | apply E2 | apply E3]; lia).
  - intros j Hj. destruct (Hout j ltac:(lia)) as (E1 & E2 & E3).
    rewrite E1, E2, E3. unfold pw0, mg0, ph0, wr.
    rewrite !list_lookup_insert_ne by (change (Z.to_nat 0) with 0%nat; lia).
    repeat split; reflexivity.
Qed.

(** *** Construction *)

Lemma initialize_fifos d sample_rate n ov fresh :
  let self := stft_processor_initialize d sample_rate n ov fresh in
  in_fifo self = memset_zero (b_in_fifo fresh) (Z.to_nat n)
  /\ out_fifo self = memset_zero (b_out_fifo fresh) (Z.to_nat n)
  /\ output_accum self = memset_zero (b_output_accum fresh) (Z.to_nat (n * 2)).
Proof. repeat split; reflexivity. Qed.

(** X9.  [stft_processor_reset] passes [memset] a number of floats where a
    number of bytes is due, so of the FIFOs and of the accumulator a new
    processor has the first quarter cleared: [in_fifo] and [out_fifo] hold
    zeros in their first [fft_size / 4] entries and [output_accum] in its
    first [fft_size / 2], and every entry wholly past these counts of bytes
    still holds what [malloc] returned. *)
Theorem new_processor_is_cleared_in_part
    (d : FFTDenoiser) (sample_rate n ov : Z) (fresh : Buffers) :
  let self := stft_processor_initialize d sample_rate n ov fresh in
  (forall i, (4 * i + 4 <= Z.to_nat n)%nat ->
     ((i < length (b_in_fifo fresh))%nat -> in_fifo self !! i = Some fzero)
     /\ ((i < length (b_out_fifo fresh))%nat -> out_fifo self !! i = Some fzero))
  /\ (forall i, (Z.to_nat n <= 4 * i)%nat ->
        in_fifo self !! i = b_in_fifo fresh !! i
        /\ out_fifo self !! i = b_out_fifo fresh !! i)
  /\ (forall i, (4 * i + 4 <= Z.to_nat (n * 2))%nat ->
        (i < length (b_output_accum fresh))%nat -> output_accum self !! i = Some fzero)
  /\ (forall i, (Z.to_nat (n * 2) <= 4 * i)%nat ->
        output_accum self !! i = b_output_accum fresh !! i).
Proof.
  intros self.
  destruct (initialize_fifos d sample_rate n ov fresh) as (Hi & Ho & Ha).
  fold self in Hi, Ho, Ha. rewrite Hi, Ho, Ha.
  split; [|split; [|split]].
  - intros i Hn. split; intros Hl; apply memset_zero_lookup_cleared;
      unfold sizeof_float; (lia || exact Hl).
  - intros i Hn. split; apply memset_zero_lookup_past; unfold sizeof_float; lia.
  - intros i Hn Hl. apply memset_zero_lookup_cleared; unfold sizeof_float; (lia || exact Hl).
  - intros i Hn. apply memset_zero_lookup_past. unfold sizeof_float. lia.
Qed.

End WithBackend.

End STFTBehaviour.

(** ** More on src/src/spectral_processor.c *)

Module SpectralFrameProofs.

Import CArray CArrayFacts SpectralProcessor SpectralFrames SpectralProcessorProofs.
Local Open Scope nat_scope.

Section WithEstimators.

Context `{Libm} `{Estimators}.

(** *** The three ways through a frame *)

Lemma run_cases (self : SpectralProcessor) (p : ProcessorParameters)
    (noise fft0 : list float) :
  spectral_processor_run self p noise fft0
  = if frame_is_denoised self p fft0 then
      (fft_denoiser_soft_bypass (denoise_frame (frame_loaded self p fft0) p noise), noise,
       memcpy fft0
         (processed_fft_spectrum
            (fft_denoiser_soft_bypass (denoise_frame (frame_loaded self p fft0) p noise)))
         (sizeof_float * half_fft_size self + 1))
    else if frame_is_learned self p fft0 then
      (fft_denoiser_soft_bypass
         (set_noise_estimation
            (noise_estimation_run (noise_estimation (frame_loaded self p fft0)) noise
               (power_spectrum (processing_spectrums (frame_loaded self p fft0)))).1
            (frame_loaded self p fft0)),
       (noise_estimation_run (noise_estimation (frame_loaded self p fft0)) noise
          (power_spectrum (processing_spectrums (frame_loaded self p fft0)))).2,
       memcpy fft0
         (processed_fft_spectrum
            (fft_denoiser_soft_bypass
               (set_noise_estimation
                  (noise_estimation_run (noise_estimation (frame_loaded self p fft0)) noise
                     (power_spectrum (processing_spectrums (frame_loaded self p fft0)))).1
                  (frame_loaded self p fft0))))
         (sizeof_float * half_fft_size self + 1))
    else
      (fft_denoiser_soft_bypass (frame_loaded self p fft0), noise,
       memcpy fft0 (processed_fft_spectrum (fft_denoiser_soft_bypass (frame_loaded self p fft0)))
         (sizeof_float * half_fft_size self + 1)).
Proof.
  unfold spectral_processor_run, frame_is_denoised, frame_is_learned.
  destruct (negb _); [destruct (learn_noise p)|]; cbn [andb negb].
  - destruct (noise_estimation_run _ _ _) as [ne n1]. reflexivity.
  - destruct (is_noise_estimation_available _); cbn [andb].
    + match goal with
      | |- context [half_fft_size (fft_denoiser_soft_bypass ?s)] =>
          change (half_fft_size (fft_denoiser_soft_bypass s)) with (half_fft_size s)
      end.
      rewrite half_fft_size_denoise_frame. reflexivity.
    + reflexivity.
  - reflexivity.
Qed.






(** *** Whitening *)

Lemma whitening_count_whitening self w :
  whitening_window_count (whiten_spectrum (residual_spectrum_whitening self w))
  = uint32_incr (whitening_window_count (whiten_spectrum self))
  /\ max_decay_rate (whiten_spectrum (residual_spectrum_whitening self w))
     = max_decay_rate (whiten_spectrum self).
Proof.
  unfold residual_spectrum_whitening.
  destruct (for_bins _ _ _) as [wh re]. split; reflexivity.
Qed.

Lemma whiten_get_residual_off self w :
  fgt w fzero = false ->
  whiten_spectrum (get_residual_spectrum self w) = whiten_spectrum self.
Proof. intros Hw. unfold get_residual_spectrum. rewrite Hw. reflexivity. Qed.

Lemma whitening_count_get_residual self w :
  whitening_window_count (whiten_spectrum (get_residual_spectrum self w))
  = (if fgt w fzero then uint32_incr (whitening_window_count (whiten_spectrum self))
     else whitening_window_count (whiten_spectrum self))
  /\ max_decay_rate (whiten_spectrum (get_residual_spectrum self w))
     = max_decay_rate (whiten_spectrum self).
Proof.
  unfold get_residual_spectrum. destruct (fgt w fzero); [|split; reflexivity].
  match goal with
  | |- context [residual_spectrum_whitening ?s w] =>
      exact (whitening_count_whitening s w)
  end.
Qed.

(** X2.  [whitening_window_count] counts, modulo 2^32, the frames that were
    denoised with a [whitening_factor] above 0: such a frame adds one, every
    other frame leaves the count as it is, and with a [whitening_factor] that
    is not above 0 (0, negative or a NaN) the whole whitening state stays.
    No frame changes [max_decay_rate]. *)
Theorem whitening_count_counts_whitened_frames
    (self : SpectralProcessor) (p : ProcessorParameters)
    (noise_spectrum fft_spectrum0 : list float) :
  let self' := (spectral_processor_run self p noise_spectrum fft_spectrum0).1.1 in
  whitening_window_count (whiten_spectrum self')
  = (if frame_is_denoised self p fft_spectrum0 && fgt (whitening_factor p) fzero
     then uint32_incr (whitening_window_count (whiten_spectrum self))
     else whitening_window_count (whiten_spectrum self))
  /\ max_decay_rate (whiten_spectrum self') = max_decay_rate (whiten_spectrum self)
  /\ (fgt (whitening_factor p) fzero = false ->
      whiten_spectrum self' = whiten_spectrum self).
Proof.
  cbv zeta. rewrite run_cases.
  destruct (frame_is_denoised self p fft_spectrum0); cbn [andb].
  - cbn [fst snd]. unfold fft_denoiser_soft_bypass.
    cbn [whiten_spectrum set_processed_fft_spectrum].
    unfold denoise_frame. destruct (gain_estimation_run _ _ _ _ _ _ _ _) as [ge g].
    unfold get_final_spectrum. cbn [whiten_spectrum set_processed_fft_spectrum].
    match goal with
    | |- context [get_residual_spectrum ?s ?w] =>
        pose proof (whitening_count_get_residual s w) as [Hc Hm];
        pose proof (whiten_get_residual_off s w) as Hoff
    end.
    rewrite Hc, Hm. split; [reflexivity|]. split; [reflexivity|].
    intros Hw. rewrite (Hoff Hw). reflexivity.
  - destruct (frame_is_learned self p fft_spectrum0); cbn [fst snd];
      (split; [reflexivity|]; split; [reflexivity|]; intros _; reflexivity).
Qed.

(** *** The buffer handed back *)

Lemma memcpy_lookup_beyond dst src n i :
  n / sizeof_float < i -> memcpy dst src n !! i = dst !! i.
Proof.
  intros Hi. unfold memcpy. rewrite list_lookup_imap.
  destruct (dst !! i) as [d|]; [|reflexivity].
  cbn [fmap option_fmap option_map].
  destruct (Nat.ltb_spec i (n / sizeof_float)); [lia|].
  destruct (Nat.eqb_spec i (n / sizeof_float)); [lia|]. reflexivity.
Qed.

Lemma memcpy_lookup_part dst src n i d :
  i = n / sizeof_float -> n mod sizeof_float <> 0 -> dst !! i = Some d ->
  memcpy dst src n !! i = Some (splice_bytes (n mod sizeof_float) (src !!! i) d).
Proof.
  intros Hi Hp Hd. unfold memcpy. rewrite list_lookup_imap, Hd.
  cbn [fmap option_fmap option_map].
  destruct (Nat.ltb_spec i (n / sizeof_float)); [lia|].
  destruct (Nat.eqb_spec i (n / sizeof_float)); [|lia].
  destruct (Nat.eqb_spec (n mod sizeof_float) 0); [lia|]. reflexivity.
Qed.

Lemma run_output (self : SpectralProcessor) (p : ProcessorParameters)
    (noise fft0 : list float) :
  (spectral_processor_run self p noise fft0).2
  = memcpy fft0
      (processed_fft_spectrum (spectral_processor_run self p noise fft0).1.1)
      (sizeof_float * half_fft_size self + 1).
Proof.
  rewrite run_cases.
  destruct (frame_is_denoised self p fft0); [reflexivity|].
  destruct (frame_is_learned self p fft0); reflexivity.
Qed.

(** X3.  The copy back to the caller is of [sizeof(float) * half_fft_size + 1]
    bytes: the caller's buffer receives the processed bins below
    [half_fft_size], one byte (the lowest) of the bin [half_fft_size], and
    nothing above it.  Entries [half_fft_size + 1 ..] of the buffer, where a
    halfcomplex spectrum of [fft_size] holds the imaginary parts, come back as
    they were handed in. *)
Theorem output_copies_four_h_plus_one_bytes
    (self : SpectralProcessor) (p : ProcessorParameters)
    (noise_spectrum fft_spectrum0 : list float) :
  let r := spectral_processor_run self p noise_spectrum fft_spectrum0 in
  let h := half_fft_size self in
  length r.2 = length fft_spectrum0
  /\ (forall k, k < h -> k < length fft_spectrum0 ->
        r.2 !! k = Some (processed_fft_spectrum r.1.1 !!! k))
  /\ (forall d, fft_spectrum0 !! h = Some d ->
        r.2 !! h = Some (splice_bytes 1 (processed_fft_spectrum r.1.1 !!! h) d))
  /\ (forall k, h < k -> r.2 !! k = fft_spectrum0 !! k).
Proof.
  cbv zeta. rewrite run_output.
  set (processed := processed_fft_spectrum _).
  assert (Hw : (sizeof_float * half_fft_size self + 1) / sizeof_float = half_fft_size self).
  { unfold sizeof_float. symmetry. apply (Nat.div_unique _ 4 _ 1); lia. }
  assert (Hp : (sizeof_float * half_fft_size self + 1) mod sizeof_float = 1).
  { unfold sizeof_float. symmetry. apply (Nat.mod_unique _ 4 (half_fft_size self) 1); lia. }
  split; [apply length_memcpy|]. split; [|split].
  - intros k Hk Hl. apply memcpy_lookup_whole; [exact Hl | rewrite Hw; exact Hk].
  - intros d Hd.
    rewrite (memcpy_lookup_part _ _ _ _ d); [rewrite Hp; reflexivity | | | exact Hd].
    + rewrite Hw. reflexivity.
    + rewrite Hp. discriminate.
  - intros k Hk. apply memcpy_lookup_beyond. rewrite Hw. exact Hk.
Qed.

(** *** Array sizes *)

Lemma length_whiten_bins (residual_max : list float) (w : float) (half : nat)
    (a b : list float) :
  let r := for_bins half (whiten_bin residual_max w) (a, b) in
  length r.1 = length a /\ length r.2 = length b.
Proof.
  cbv zeta. unfold for_bins.
  apply (for_range_invariant
           (fun x : list float * list float =>
              length x.1 = length a /\ length x.2 = length b)).
  - split; reflexivity.
  - intros k [x y] _ [Hx Hy]. unfold whiten_bin.
    destruct (fgt (y !!! k) FLT_MIN); cbn [fst snd] in *.
    + rewrite !length_insert. split; assumption.
    + split; assumption.
Qed.

Lemma arrays_allocated_whitening self w :
  arrays_allocated self -> arrays_allocated (residual_spectrum_whitening self w).
Proof.
  intros (Hh & Hf & Hp & Hr & Hd & Hm & Hw). unfold residual_spectrum_whitening.
  match goal with
  | |- context [for_bins ?n (whiten_bin ?m ?f) (?a, ?b)] =>
      pose proof (length_whiten_bins m f n a b) as Hl;
      destruct (for_bins n (whiten_bin m f) (a, b)) as [wh re]
  end.
  cbv zeta in Hl. cbn [fst snd] in Hl. destruct Hl as [Hl1 Hl2].
  unfold arrays_allocated. cbn -[Nat.div update_bins memcpy].
  rewrite length_update_bins. repeat split; congruence.
Qed.

Lemma arrays_allocated_get_residual self w :
  arrays_allocated self -> arrays_allocated (get_residual_spectrum self w).
Proof.
  intros Ha. unfold get_residual_spectrum.
  assert (Ha1 : arrays_allocated
                  (set_denoise_builder
                     (set_residual_spectrum
                        (update_bins (half_fft_size self)
                           (fun k _ => fsub (fft_spectrum self !!! k)
                                            (denoised_spectrum (denoise_builder self) !!! k))
                           (residual_spectrum (denoise_builder self)))
                        (denoise_builder self)) self)).
  { destruct Ha as (Hh & Hf & Hp & Hr & Hd & Hm & Hw).
    unfold arrays_allocated. cbn -[Nat.div update_bins memcpy]. rewrite length_update_bins.
    repeat split; assumption. }
  destruct (fgt w fzero); [apply arrays_allocated_whitening|]; exact Ha1.
Qed.

Lemma arrays_allocated_denoise_frame self p noise :
  arrays_allocated self -> arrays_allocated (denoise_frame self p noise).
Proof.
  intros Ha. unfold denoise_frame.
  destruct (gain_estimation_run _ _ _ _ _ _ _ _) as [ge g].
  match goal with
  | |- arrays_allocated (get_final_spectrum (get_residual_spectrum ?s ?w) _ _) =>
      assert (Hs : arrays_allocated s);
      [|pose proof (arrays_allocated_get_residual s w Hs) as Hg;
        set (s1 := get_residual_spectrum s w) in *; clearbody s1]
  end.
  { destruct Ha as (Hh & Hf & Hp & Hr & Hd & Hm & Hw).
    unfold arrays_allocated, get_denoised_spectrum. cbn -[Nat.div update_bins memcpy]. rewrite length_update_bins.
    repeat split; assumption. }
  destruct Hg as (Hh & Hf & Hp & Hr & Hd & Hm & Hw).
  unfold arrays_allocated, get_final_spectrum. cbn -[Nat.div update_bins memcpy].
  destruct (residual_listen p); rewrite length_update_bins; repeat split; assumption.
Qed.

Lemma arrays_allocated_soft_bypass self :
  arrays_allocated self -> arrays_allocated (fft_denoiser_soft_bypass self).
Proof.
  intros (Hh & Hf & Hp & Hr & Hd & Hm & Hw).
  unfold arrays_allocated, fft_denoiser_soft_bypass. cbn -[Nat.div update_bins memcpy]. rewrite length_update_bins.
  repeat split; assumption.
Qed.

Lemma arrays_allocated_frame_loaded self p fft0 :
  arrays_allocated self -> arrays_allocated (frame_loaded self p fft0).
Proof.
  intros (Hh & Hf & Hp & Hr & Hd & Hm & Hw).
  unfold arrays_allocated, frame_loaded, fft_denoiser_update_wetdry_target. cbn -[Nat.div update_bins memcpy].
  rewrite length_memcpy. repeat split; assumption.
Qed.

Lemma arrays_allocated_run self p noise fft0 :
  arrays_allocated self ->
  arrays_allocated (spectral_processor_run self p noise fft0).1.1.
Proof.
  intros Ha. rewrite run_cases.
  pose proof (arrays_allocated_frame_loaded self p fft0 Ha) as H3.
  destruct (frame_is_denoised self p fft0); [|destruct (frame_is_learned self p fft0)];
    cbn [fst snd]; apply arrays_allocated_soft_bypass.
  - apply arrays_allocated_denoise_frame. exact H3.
  - destruct H3 as (Hh & Hf & Hp & Hr & Hd & Hm & Hw).
    unfold arrays_allocated. cbn -[Nat.div update_bins memcpy]. repeat split; assumption.
  - exact H3.
Qed.

Lemma estimated_whitening self w :
  estimated_arrays_allocated self ->
  estimated_arrays_allocated (residual_spectrum_whitening self w).
Proof.
  intros Ha. unfold residual_spectrum_whitening.
  destruct (for_bins _ _ _) as [wh re]. exact Ha.
Qed.

Lemma estimated_get_residual self w :
  estimated_arrays_allocated self ->
  estimated_arrays_allocated (get_residual_spectrum self w).
Proof.
  intros Ha. unfold get_residual_spectrum.
  destruct (fgt w fzero); [apply estimated_whitening|]; exact Ha.
Qed.

Lemma estimated_denoise_frame self p noise :
  estimators_keep_lengths ->
  estimated_arrays_allocated self ->
  estimated_arrays_allocated (denoise_frame self p noise).
Proof.
  intros [Hg _] [Ha Hb]. unfold denoise_frame.
  match goal with
  | |- context [gain_estimation_run ?a ?b ?c ?d ?e ?f ?g ?h] =>
      pose proof (Hg a b c d e f g h) as Hl;
      destruct (gain_estimation_run a b c d e f g h) as [ge g0]
  end.
  cbn [snd] in Hl.
  match goal with
  | |- estimated_arrays_allocated (get_final_spectrum (get_residual_spectrum ?s ?w) _ _) =>
      assert (Hs : estimated_arrays_allocated s);
      [|exact (estimated_get_residual s w Hs)]
  end.
  split; [|exact Hb]. cbn. rewrite Hl. exact Ha.
Qed.

Lemma estimated_frame_loaded self p fft0 :
  estimators_keep_lengths ->
  estimated_arrays_allocated self ->
  estimated_arrays_allocated (frame_loaded self p fft0).
Proof.
  intros [_ Hp] [Ha Hb]. split; [exact Ha|].
  unfold frame_loaded. cbn -[memcpy Nat.mul]. rewrite Hp. exact Hb.
Qed.

Lemma estimated_run self p noise fft0 :
  estimators_keep_lengths ->
  estimated_arrays_allocated self ->
  estimated_arrays_allocated (spectral_processor_run self p noise fft0).1.1.
Proof.
  intros He Ha. rewrite run_cases.
  pose proof (estimated_frame_loaded self p fft0 He Ha) as H3.
  destruct (frame_is_denoised self p fft0); [|destruct (frame_is_learned self p fft0)];
    cbn [fst snd].
  - exact (estimated_denoise_frame _ p noise He H3).
  - exact H3.
  - exact H3.
Qed.

Lemma estimated_reachable self :
  estimators_keep_lengths -> reachable self -> estimated_arrays_allocated self.
Proof.
  intros He Hr. induction Hr as [sr n ov | self p noise fft0 Hr IH].
  - split; cbn -[Nat.div]; unfold calloc; apply length_replicate.
  - apply estimated_run; assumption.
Qed.

(** X4.  In every state of an engine the arrays it allocated still have
    their sizes, [fft_size] floats for [fft_spectrum] and
    [half_fft_size + 1] for the others, so every index [1 .. half_fft_size]
    the per-bin loops of a frame use is inside each of them, whatever the
    caller's spectrum and the estimators are.  The same holds of
    [gain_spectrum] and [power_spectrum], the two arrays the estimators
    write, with estimators that keep the size of the array they are handed,
    as a C function writing through a pointer does. *)
Theorem engine_arrays_keep_their_sizes (self : SpectralProcessor) :
  reachable self ->
  arrays_allocated self
  /\ (forall k, 1 <= k <= half_fft_size self ->
        k < length (fft_spectrum self)
        /\ k < length (processed_fft_spectrum self)
        /\ k < length (residual_spectrum (denoise_builder self))
        /\ k < length (denoised_spectrum (denoise_builder self))
        /\ k < length (residual_max_spectrum (whiten_spectrum self))
        /\ k < length (whitened_residual_spectrum (whiten_spectrum self)))
  /\ (estimators_keep_lengths ->
      estimated_arrays_allocated self
      /\ forall k, 1 <= k <= half_fft_size self ->
           k < length (gain_spectrum (denoise_builder self))
           /\ k < length (power_spectrum (processing_spectrums self))).
Proof.
  intros Hr.
  assert (Ha : arrays_allocated self).
  { clear -Hr. induction Hr as [sr n ov | self p noise fft0 Hr IH].
    - unfold arrays_allocated, spectral_processor_initialize, calloc. cbn -[Nat.div update_bins memcpy].
      rewrite !length_replicate. repeat split; reflexivity.
    - apply arrays_allocated_run. exact IH. }
  split; [exact Ha|]. split.
  - destruct Ha as (Hh & Hf & Hp & Hr' & Hd & Hm & Hw). intros k Hk.
    assert (Hhalf : half_fft_size self < fft_size self).
    { rewrite Hh in *.
      assert (0 < fft_size self) by (destruct (fft_size self); [cbn in Hk; lia | lia]).
      apply Nat.div_lt; lia. }
    repeat split; lia.
  - intros He. pose proof (estimated_reachable self He Hr) as He'.
    split; [exact He'|]. destruct He' as [Hg Hp]. intros k Hk. split; lia.
Qed.

End WithEstimators.

End SpectralFrameProofs.

(** ** More on src/src/noise_repellent_state.c *)

Module PluginStateBehaviour.

Import CArray CArrayFacts PluginState PluginStateChecks PluginStateProofs.

(** *** Configuration *)

Lemma configure_map (features : list LV2_Feature) (m0 : option (string -> Z)) :
  fold_left (fun m f => if String.eqb (URI f) LV2_URID__map then data f else m)
    features m0
  = default m0 (last_urid_map features).
Proof.
  unfold last_urid_map. revert m0.
  induction features as [|f fs IH] using rev_ind; intros m0; [reflexivity|].
  rewrite fold_left_app. cbn [fold_left]. rewrite filter_app.
  destruct (String.eqb (URI f) LV2_URID__map) eqn:E.
  - rewrite (filter_cons_True _ f []) by exact E. rewrite filter_nil.
    rewrite last_snoc. reflexivity.
  - rewrite (filter_cons_False _ f []) by (rewrite E; discriminate).
    rewrite filter_nil, app_nil_r. apply IH.
Qed.

(** X11.  [plugin_state_configure] takes the URID map from the last feature
    whose URI is [LV2_URID__map]: features before it do not count, even if
    this last one carries no data.  Without a map it returns false and
    changes no field of the state but [map], which is then null: the state
    is as it was when its [map] was null already, and has lost its map when
    it had one (the last such feature carries no data, and [map] is assigned
    before it is tested).  With a map it returns true, the six URIDs are the
    map's values and the profile holds [noise_profile_size] zeros. *)
Theorem configure_uses_the_last_urid_map
    (self : PluginState) (features : list LV2_Feature)
    (noise_profile_size0 block pad : Z) :
  let r := plugin_state_configure self features noise_profile_size0 block pad in
  let found := default (map self) (last_urid_map features) in
  map r.1 = found
  /\ (found = None ->
      r.2 = false
      /\ (map self = None -> r.1 = self)
      /\ map r.1 = None
      /\ atom_Vector r.1 = atom_Vector self
      /\ atom_Int r.1 = atom_Int self
      /\ atom_Float r.1 = atom_Float self
      /\ property_fft_size r.1 = property_fft_size self
      /\ property_block_count r.1 = property_block_count self
      /\ property_saved_noise_profile r.1 = property_saved_noise_profile self
      /\ noise_profile_object r.1 = noise_profile_object self
      /\ noise_profile_values r.1 = noise_profile_values self
      /\ (map self <> None -> r.1 <> self))
  /\ (forall m, found = Some m ->
        r.2 = true
        /\ atom_Vector r.1 = m LV2_ATOM__Vector
        /\ atom_Int r.1 = m LV2_ATOM__Int
        /\ atom_Float r.1 = m LV2_ATOM__Float
        /\ property_fft_size r.1 = m (String.append NOISEREPELLENT_URI "#fftsize")
        /\ property_block_count r.1 = m (String.append NOISEREPELLENT_URI "#blockcount")
        /\ property_saved_noise_profile r.1
           = m (String.append NOISEREPELLENT_URI "#savednoiseprofile")
        /\ noise_profile_values r.1 = calloc (Z.to_nat noise_profile_size0)
        /\ length (noise_profile_object r.1) = 6%nat).
Proof.
  cbv zeta. unfold plugin_state_configure. rewrite configure_map.
  destruct (default (map self) (last_urid_map features)) as [m|] eqn:E.
  - cbn [fst snd map]. split; [reflexivity|]. split; [discriminate|].
    intros m' Hm. injection Hm as <-. repeat split.
  - cbn [fst snd map atom_Vector atom_Int atom_Float property_fft_size
         property_block_count property_saved_noise_profile noise_profile_object
         noise_profile_values].
    split; [reflexivity|]. split; [|discriminate].
    intros _. split; [reflexivity|]. split.
    { intros Hnone. destruct self. cbn in *. subst. reflexivity. }
    do 9 (split; [reflexivity|]).
    intros Hsome Heq. apply Hsome. rewrite <- Heq. reflexivity.
Qed.

(** *** Restoring *)

Lemma restore_checks_false (self : PluginState) (st : Store)
    (noise_profile : list float) (count : float) (fft_size half_fft_size : Z) :
  restore_checks self st half_fft_size = false ->
  plugin_state_restorestate self st noise_profile count fft_size half_fft_size
  = Returned false self noise_profile.
Proof.
  unfold restore_checks, plugin_state_restorestate.
  destruct (st !! property_fft_size self) as [fftsize|]; [|reflexivity].
  destruct (item_type fftsize =? atom_Int self); cbn [negb orb andb]; [|reflexivity].
  destruct (int_of_word (item_body fftsize !!! 0%nat) =? half_fft_size);
    cbn [negb orb andb]; [|destruct (st !! property_saved_noise_profile self); reflexivity].
  destruct (st !! property_saved_noise_profile self) as [saved|]; [|reflexivity].
  destruct (item_size saved =? sizeof_NoiseProfile); cbn [negb orb andb]; [|reflexivity].
  destruct (item_type saved =? atom_Vector self); cbn [negb orb andb]; [|reflexivity].
  discriminate.
Qed.

Lemma restore_checks_true (self : PluginState) (st : Store)
    (noise_profile : list float) (count : float) (fft_size half_fft_size : Z) :
  restore_checks self st half_fft_size = true ->
  exists saved, st !! property_saved_noise_profile self = Some saved
  /\ plugin_state_restorestate self st noise_profile count fft_size half_fft_size
     = let n := Z.to_nat (half_fft_size + 1) in
       let source := LV2_ATOM_BODY (item_body saved) in
       if (length source <? n)%nat || (length (noise_profile_object self) <? n)%nat
       then Undefined
       else
         let self' :=
           with_profile (take n source ++ drop n (noise_profile_object self))
             (noise_profile_values self) self in
         match st !! property_block_count self with
         | Some _ => Returned true self' noise_profile
         | None =>
             if item_type saved =? atom_Float self then Undefined
             else Returned true self' noise_profile
         end.
Proof.
  unfold restore_checks, plugin_state_restorestate.
  destruct (st !! property_fft_size self) as [fftsize|]; [|discriminate].
  destruct (st !! property_saved_noise_profile self) as [saved|]; [|discriminate].
  intros Hc. apply andb_prop in Hc. destruct Hc as [Hc H4].
  apply andb_prop in Hc. destruct Hc as [Hc H3].
  apply andb_prop in Hc. destruct Hc as [H1 H2].
  rewrite H1, H2, H3, H4. cbn [negb orb]. exists saved. split; reflexivity.
Qed.

(** X12.  [plugin_state_restorestate] returns false exactly when one of its
    checks fails: an item is missing, or is not of the expected type or
    size, or the stored [fft_size] is not [half_fft_size].  It then leaves
    the plugin state and the caller's profile as they were.  A call that
    returns true never changes the caller's [noise_profile] either: the copy
    goes to the [NoiseProfile] object of the state. *)
Theorem restore_fails_on_its_checks_only
    (self : PluginState) (st : Store) (noise_profile : list float)
    (count : float) (fft_size half_fft_size : Z) :
  let r := plugin_state_restorestate self st noise_profile count fft_size half_fft_size in
  (restore_checks self st half_fft_size = false -> r = Returned false self noise_profile)
  /\ (restore_checks self st half_fft_size = true ->
      forall self' noise_profile', r <> Returned false self' noise_profile')
  /\ (forall value self' noise_profile',
        r = Returned value self' noise_profile' ->
        noise_profile' = noise_profile
        /\ noise_profile_values self' = noise_profile_values self
        /\ (value = false -> self' = self)).
Proof.
  cbv zeta. split; [apply restore_checks_false|]. split.
  - intros Hc self' np'.
    destruct (restore_checks_true self st noise_profile count fft_size half_fft_size Hc)
      as (saved & _ & ->).
    cbv zeta. destruct (_ || _); [discriminate|].
    destruct (st !! property_block_count self); [discriminate|].
    destruct (_ =? _); discriminate.
  - intros value self' np' Hr.
    destruct (restore_checks self st half_fft_size) eqn:Hc.
    + destruct (restore_checks_true self st noise_profile count fft_size half_fft_size Hc)
        as (saved & _ & Heq).
      rewrite Heq in Hr. cbv zeta in Hr.
      destruct (_ || _); [discriminate|].
      destruct (st !! property_block_count self);
        [|destruct (_ =? _); [discriminate|]];
        injection Hr as <- <- <-; (split; [reflexivity|]; split; [reflexivity | discriminate]).
    + rewrite (restore_checks_false _ _ _ _ _ _ Hc) in Hr.
      injection Hr as <- <- <-. repeat split.
Qed.

(** *** Saving, then restoring *)

Lemma int_of_word_of_int (z : Z) :
  - 2 ^ 31 <= z < 2 ^ 31 -> int_of_word (word_of_int z) = z.
Proof.
  intros Hz. unfold int_of_word, word_of_int.
  destruct (Z_lt_le_dec z 0) as [Hneg|Hpos].
  - assert (E : z mod 2 ^ 32 = z + 2 ^ 32).
    { symmetry. apply (Z.mod_unique_pos _ _ (-1)); lia. }
    rewrite E. destruct (Z.ltb_spec (z + 2 ^ 32) (2 ^ 31)); lia.
  - rewrite Z.mod_small by lia. destruct (Z.ltb_spec z (2 ^ 31)); lia.
Qed.

(** X13.  What [plugin_state_savestate] stores, [plugin_state_restorestate]
    takes back only by accident.  After a save of [fft_size], the restore
    compares it with [half_fft_size]: it returns false when they differ (so
    with the [fft_size] and [half_fft_size] of one engine, unless both are
    0).  When they are equal and [half_fft_size + 1] is more than 4, the copy
    of [(half_fft_size + 1) * sizeof(float)] bytes reads past the 16 bytes
    that follow the atom header in the 24 bytes stored; up to 4 it
    overwrites the start of the state's [NoiseProfile] object with them. *)
Theorem save_then_restore
    (self : PluginState) (st : Store) (fft_size0 count0 : Z) (profile : list float)
    (noise_profile : list float) (count : float) (fft_size half_fft_size : Z) :
  distinct_keys self ->
  length (noise_profile_object self) = 6%nat ->
  - 2 ^ 31 <= fft_size0 < 2 ^ 31 ->
  let saved := plugin_state_savestate self st fft_size0 count0 profile in
  let r :=
    plugin_state_restorestate saved.1 saved.2 noise_profile count fft_size half_fft_size in
  (fft_size0 <> half_fft_size -> r = Returned false saved.1 noise_profile)
  /\ (fft_size0 = half_fft_size -> 4 <= half_fft_size -> r = Undefined)
  /\ (fft_size0 = half_fft_size -> 0 <= half_fft_size < 4 ->
      r = Returned true
            (with_profile
               (take (Z.to_nat (half_fft_size + 1)) (drop 2 (noise_profile_object self))
                ++ drop (Z.to_nat (half_fft_size + 1)) (noise_profile_object self))
               (noise_profile_values saved.1) saved.1)
            noise_profile).
Proof.
  intros (K1 & K2 & K3) Hobj Hint saved r.
  assert (Hfft : saved.2 !! property_fft_size saved.1
                 = Some {| item_size := Z.of_nat sizeof_int; item_type := atom_Int self;
                           item_flags := Z.lor LV2_STATE_IS_POD LV2_STATE_IS_PORTABLE;
                           item_body := [word_of_int fft_size0] |}).
  { unfold saved, plugin_state_savestate, store.
    cbn [fst snd property_fft_size with_profile].
    rewrite lookup_insert_ne by (intros E; apply K2; symmetry; exact E).
    rewrite lookup_insert_ne by (intros E; apply K1; symmetry; exact E).
    apply lookup_insert_eq. }
  assert (Hsaved : saved.2 !! property_saved_noise_profile saved.1
                   = Some {| item_size := sizeof_NoiseProfile; item_type := atom_Vector self;
                             item_flags := Z.lor LV2_STATE_IS_POD LV2_STATE_IS_PORTABLE;
                             item_body := noise_profile_object self |}).
  { unfold saved, plugin_state_savestate, store.
    cbn [fst snd property_saved_noise_profile with_profile].
    apply lookup_insert_eq. }
  assert (Hcount : is_Some (saved.2 !! property_block_count saved.1)).
  { unfold saved, plugin_state_savestate, store.
    cbn [fst snd property_block_count with_profile].
    rewrite lookup_insert_ne by (intros E; apply K3; symmetry; exact E).
    rewrite lookup_insert_eq. eexists. reflexivity. }
  assert (Hchecks : restore_checks saved.1 saved.2 half_fft_size
                    = (fft_size0 =? half_fft_size)).
  { unfold restore_checks. rewrite Hfft, Hsaved.
    cbn [item_type item_size item_body].
    change (atom_Int saved.1) with (atom_Int self).
    change (atom_Vector saved.1) with (atom_Vector self).
    rewrite !Z.eqb_refl. cbn [andb].
    change ([word_of_int fft_size0] !!! 0%nat) with (word_of_int fft_size0).
    rewrite int_of_word_of_int by exact Hint.
    rewrite !andb_true_r. reflexivity. }
  split; [|split].
  - intros Hne. apply restore_checks_false. rewrite Hchecks.
    apply Z.eqb_neq. exact Hne.
  - intros He H4.
    destruct (restore_checks_true saved.1 saved.2 noise_profile count fft_size
                half_fft_size) as (sv & Hsv & Heq).
    { rewrite Hchecks. apply Z.eqb_eq. exact He. }
    unfold r. rewrite Heq. rewrite Hsaved in Hsv. injection Hsv as <-.
    cbv zeta. cbn [item_body]. unfold LV2_ATOM_BODY.
    rewrite length_drop, Hobj.
    destruct (Nat.ltb_spec (6 - 2) (Z.to_nat (half_fft_size + 1))); [reflexivity | lia].
  - intros He H4.
    destruct (restore_checks_true saved.1 saved.2 noise_profile count fft_size
                half_fft_size) as (sv & Hsv & Heq).
    { rewrite Hchecks. apply Z.eqb_eq. exact He. }
    unfold r. rewrite Heq. rewrite Hsaved in Hsv. injection Hsv as <-.
    cbv zeta. cbn [item_body]. unfold LV2_ATOM_BODY.
    rewrite length_drop.
    change (noise_profile_object saved.1) with (noise_profile_object self).
    rewrite Hobj.
    destruct (Nat.ltb_spec (6 - 2) (Z.to_nat (half_fft_size + 1))); [lia|].
    destruct (Nat.ltb_spec 6 (Z.to_nat (half_fft_size + 1))); [lia|].
    cbn [orb]. destruct Hcount as [bc Hbc]. rewrite Hbc. reflexivity.
Qed.

End PluginStateBehaviour.

(** ** The theorems at concrete engines and frames *)

Module Runs.

Import CArray CArrayFacts Reference Examples.

(** *** Spectral processor *)

Lemma engine0_reachable : SpectralProcessor.reachable engine0.
Proof. unfold engine0. apply SpectralProcessor.reachable_init. Qed.

Lemma after_denoising_reachable : SpectralProcessor.reachable after_denoising.1.1.
Proof.
  unfold after_denoising. apply SpectralProcessor.reachable_run.
  unfold after_learning. apply SpectralProcessor.reachable_run.
  exact engine0_reachable.
Qed.

(** A silent frame: the power spectrum is zero in every bin, and the frame
    is the soft-bypass mix alone. *)
Lemma empty_frame_witness :
  (forall k, (k <= 4)%nat ->
     fle (SpectralProcessor.power_spectrum
            (SpectralProcessor.processing_spectrums
               (SpectralProcessor.frame_loaded engine0 denoise_parameters silence8))
          !!! k) FLT_MIN = true)
  /\ SpectralProcessor.spectral_processor_run engine0 denoise_parameters (calloc 5) silence8
     = (SpectralProcessor.fft_denoiser_soft_bypass
          (SpectralProcessor.frame_loaded engine0 denoise_parameters silence8),
        calloc 5,
        memcpy silence8
          (SpectralProcessor.processed_fft_spectrum
             (SpectralProcessor.fft_denoiser_soft_bypass
                (SpectralProcessor.frame_loaded engine0 denoise_parameters silence8)))
          (sizeof_float * 4 + 1)).
Proof.
  assert (Hle : forall k, (k <= 4)%nat ->
     fle (SpectralProcessor.power_spectrum
            (SpectralProcessor.processing_spectrums
               (SpectralProcessor.frame_loaded engine0 denoise_parameters silence8))
          !!! k) FLT_MIN = true).
  { intros k Hk. do 5 (destruct k as [|k]; [vm_compute; reflexivity|]). lia. }
  split; [exact Hle|].
  exact (proj1 (SpectralProcessorProofs.empty_frame_only_soft_bypass
                  engine0 denoise_parameters (calloc 5) silence8 Hle)).
Defined.

(** The first frame of [engine0]: the caller's buffer holds zero at index 0
    afterwards, although the spectrum handed in has 1 there. *)
Lemma dc_bin_witness :
  SpectralProcessor.reachable engine0
  /\ (1 <= SpectralProcessor.half_fft_size engine0)%nat
  /\ (0 < length spectrum8)%nat
  /\ spectrum8 !! 0%nat = Some fone
  /\ after_learning.2 !! 0%nat = Some fzero.
Proof.
  assert (H1 : (1 <= SpectralProcessor.half_fft_size engine0)%nat) by (vm_compute; lia).
  assert (H2 : (0 < length spectrum8)%nat) by (vm_compute; lia).
  split; [exact engine0_reachable|].
  split; [exact H1|]. split; [exact H2|]. split; [reflexivity|].
  exact (proj2 (proj2 (SpectralProcessorProofs.dc_bin_never_written
                         engine0 learn_parameters (calloc 5) spectrum8
                         engine0_reachable H1 H2))).
Defined.

(** After one whitening update the bin above DC holds at least the floor. *)
Lemma whitening_floor_witness :
  SpectralProcessor.reachable after_denoising.1.1
  /\ (1 <= 1 <= SpectralProcessor.half_fft_size after_denoising.1.1)%nat
  /\ (1 <= SpectralProcessor.whitening_window_count
             (SpectralProcessor.whiten_spectrum after_denoising.1.1))%Z
  /\ (exists v,
        SpectralProcessor.residual_max_spectrum
          (SpectralProcessor.whiten_spectrum after_denoising.1.1) !! 1%nat = Some v
        /\ fle SpectralProcessor.WHITENING_FLOOR v = true)
  /\ SpectralProcessor.residual_max_spectrum
       (SpectralProcessor.whiten_spectrum after_denoising.1.1) !! 0%nat = Some fzero.
Proof.
  assert (Hk : (1 <= 1 <= SpectralProcessor.half_fft_size after_denoising.1.1)%nat)
    by (vm_compute; lia).
  assert (Hc : (1 <= SpectralProcessor.whitening_window_count
                       (SpectralProcessor.whiten_spectrum after_denoising.1.1))%Z)
    by (vm_compute; discriminate).
  split; [exact after_denoising_reachable|].
  split; [exact Hk|]. split; [exact Hc|].
  pose proof (SpectralProcessorProofs.whitening_floor_above_dc
                after_denoising.1.1 after_denoising_reachable) as (Hfloor & Hdc & _).
  split; [exact (proj1 (Hfloor 1%nat Hk) Hc) | exact Hdc].
Defined.

(** C7 as stated fails at the DC bin: after one whitening update
    [whitening_window_count] is 1 and [residual_max_spectrum[0]] is still
    the zero it was allocated with, which is below 0.02. *)
Lemma whitening_floor_fails_at_dc :
  SpectralProcessor.reachable after_denoising.1.1
  /\ SpectralProcessor.whitening_window_count
       (SpectralProcessor.whiten_spectrum after_denoising.1.1) = 1%Z
  /\ SpectralProcessor.residual_max_spectrum
       (SpectralProcessor.whiten_spectrum after_denoising.1.1) !! 0%nat = Some fzero
  /\ fle SpectralProcessor.WHITENING_FLOOR fzero = false.
Proof.
  split; [exact after_denoising_reachable|].
  split; [|split]; vm_compute; reflexivity.
Qed.

(** The second frame of [engine0], with [enable] on: the level is between
    0 and 1 before it, and goes up without passing 1. *)
Lemma wet_dry_witness :
  SpectralProcessor.crossfade_in_range after_learning.1.1 = true
  /\ SpectralProcessor.crossfade_in_range after_denoising.1.1 = true
  /\ fle (SpectralProcessor.wet_dry
            (SpectralProcessor.crossfade_spectrum after_learning.1.1))
         (SpectralProcessor.wet_dry
            (SpectralProcessor.crossfade_spectrum after_denoising.1.1)) = true
  /\ fle (SpectralProcessor.wet_dry
            (SpectralProcessor.crossfade_spectrum after_denoising.1.1)) fone = true.
Proof.
  assert (Hrange : SpectralProcessor.crossfade_in_range after_learning.1.1 = true)
    by (vm_compute; reflexivity).
  split; [exact Hrange|].
  pose proof (SpectralProcessorProofs.wet_dry_step_bounds after_learning.1.1
                denoise_parameters after_learning.1.2 spectrum8 Hrange)
    as (_ & _ & Hkeep & Hup & _).
  split; [exact Hkeep|]. exact (Hup eq_refl).
Defined.

(** C3 as stated fails with [enable] off in the initial state: the level
    is at its target 0, and the update moves it to [FLT_MIN], above the old
    level and away from the target. *)
Lemma wet_dry_leaves_zero :
  SpectralProcessor.wet_dry (SpectralProcessor.crossfade_spectrum engine0) = fzero
  /\ SpectralProcessor.wet_dry_target
       (SpectralProcessor.crossfade_spectrum
          (SpectralProcessor.fft_denoiser_update_wetdry_target engine0 false))
     = fzero
  /\ SpectralProcessor.wet_dry
       (SpectralProcessor.crossfade_spectrum
          (SpectralProcessor.fft_denoiser_update_wetdry_target engine0 false))
     = FLT_MIN
  /\ fle FLT_MIN fzero = false.
Proof. split; [|split; [|split]]; vm_compute; reflexivity. Qed.

(** *** Masking estimators *)

Lemma masking_offset_witness :
  ((0 < 25)%nat
   /\ length (MaskingEstimator.masking_offset masking0) = MaskingEstimator.N_BARK_BANDS
   /\ MaskingEstimator.masking_offset
        (MaskingEstimator.compute_masking_thresholds masking0 power5 (calloc 5)).1.1
        !! 0%nat
      = Some (MaskingEstimator.tonality_offset
                (MaskingEstimator.compute_tonality_factor
                   (MaskingEstimator.compute_bark_spectrum masking0 power5) power5 0) 0))
  /\ ((16 < 25)%nat
      /\ MaskingPlugin.masking_offset
           (MaskingPlugin.band_thresholds masking_plugin0 power5 (calloc 5)) !! 16%nat
         = Some (Float32.of_Z (-3))).
Proof.
  pose proof (@MaskingProofs.masking_offset_by_estimator libm_ref) as [Hlib Hplugin].
  assert (H0 : (0 < 25)%nat) by lia.
  assert (H16 : (16 < 25)%nat) by lia.
  assert (Hlen : length (MaskingEstimator.masking_offset masking0)
                 = MaskingEstimator.N_BARK_BANDS) by reflexivity.
  split; (split; [assumption|]).
  - split; [exact Hlen|]. exact (Hlib masking0 power5 (calloc 5) 0%nat H0 Hlen).
  - rewrite (Hplugin masking_plugin0 power5 (calloc 5) 16%nat H16).
    vm_compute. reflexivity.
Defined.

(** C1 as stated fails on the estimator of src/src: for band 0 of this
    spectrum the offset used is [-16], the first entry of the table, and the
    tonality formula gives another number. *)
Lemma plugin_offset_is_not_tonal :
  MaskingPlugin.masking_offset
    (MaskingPlugin.band_thresholds masking_plugin0 power5 (calloc 5)) !! 0%nat
  = Some (Float32.of_Z (-16))
  /\ MaskingPlugin.masking_offset
       (MaskingPlugin.band_thresholds masking_plugin0 power5 (calloc 5)) !! 0%nat
     <> Some (MaskingPlugin.tonality_offset
                (MaskingPlugin.compute_tonality_factor power5
                   plugin_bands0.1.2 plugin_bands0.2 0) 0).
Proof. split; vm_compute; [reflexivity | discriminate]. Qed.

Lemma masking_floor_witness :
  ((0 < 1 <= MaskingEstimator.half_fft_size masking0)%nat
   /\ is_nan (MaskingEstimator.absolute_thresholds masking0 !!! 1%nat) = false
   /\ exists v,
        (MaskingEstimator.compute_masking_thresholds masking0 power5 (calloc 5)).1.2
          !! 1%nat = Some v
        /\ fle (MaskingEstimator.absolute_thresholds masking0 !!! 1%nat) v = true)
  /\ ((0 < 1 <= MaskingPlugin.half_fft_size masking_plugin0)%nat
      /\ is_nan (MaskingPlugin.absolute_thresholds masking_plugin0 !!! 1%nat) = false
      /\ exists v,
           MaskingPlugin.compute_masking_thresholds masking_plugin0 power5 (calloc 5)
             !! 1%nat = Some v
           /\ fle (MaskingPlugin.absolute_thresholds masking_plugin0 !!! 1%nat) v = true).
Proof.
  pose proof (@MaskingProofs.masking_threshold_floor libm_ref) as [Hlib Hplugin].
  assert (Hk : (0 < 1 <= 4)%nat) by lia.
  assert (Hl : (1 < length (calloc 5))%nat) by (vm_compute; lia).
  split; (split; [exact Hk|]); (split; [reflexivity|]).
  - exact (Hlib masking0 power5 (calloc 5) 1%nat Hk Hl eq_refl eq_refl).
  - exact (Hplugin masking_plugin0 power5 (calloc 5) 1%nat Hk Hl eq_refl).
Defined.

(** *** STFT framer *)

Lemma framing_witness :
  STFT.framed framer0
  /\ 0 <= 5
  /\ Z.of_nat (STFT.cycles
                 (STFT.stft_processor_run framer0 [] 5
                    (map Float32.of_Z [1; 2; 3; 4; 5]) (calloc 5) no_arguments))
     = 5 / STFT.hop framer0
  /\ STFT.cycles
       (STFT.stft_processor_run framer0 [] (1 + 1)
          (map Float32.of_Z [1; 2; 3; 4; 5]) (calloc 5) no_arguments)
     = S (STFT.cycles
            (STFT.stft_processor_run framer0 [] 1
               (map Float32.of_Z [1; 2; 3; 4; 5]) (calloc 5) no_arguments)).
Proof.
  assert (Hf : STFT.framed framer0).
  { unfold framer0. apply STFTProofs.initialize_framed. lia. }
  assert (H5 : 0 <= 5) by lia.
  split; [exact Hf|]. split; [exact H5|].
  pose proof (STFTProofs.read_position_window_and_cycles
                framer0 [] 5 (map Float32.of_Z [1; 2; 3; 4; 5]) (calloc 5)
                no_arguments Hf H5) as (_ & _ & Hcount & Hcycle).
  split; [exact (Hcount eq_refl)|].
  specialize (Hcycle 1 ltac:(lia)). cbv zeta in Hcycle.
  match type of Hcycle with
  | (if ?c then _ else _) =>
      assert (Hc : c = true) by (vm_compute; reflexivity); rewrite Hc in Hcycle
  end.
  exact (proj1 Hcycle).
Defined.

(** *** Plugin state *)

(** C9 on the code.  Saving a profile of three floats ([half_fft_size] 2)
    copies the first of them: the values kept by the state are
    [1, 0, 0], not [1, 2, 3]; and the bytes handed to the host are the
    [NoiseProfile] object (sizes, type, the address 4096 of the values),
    none of the values. *)
Theorem savestate_copies_first_float_only :
  profile3 = map Float32.of_Z [1; 2; 3]
  /\ PluginState.noise_profile_values plugin0 = map Float32.of_Z [0; 0; 0]
  /\ PluginState.noise_profile_values saved0.1 = map Float32.of_Z [1; 0; 0]
  /\ PluginState.item_body <$> saved0.2 !! 6 = Some [4; 3; 3; 0; 4096; 0].
Proof. split; [|split; [|split]]; vm_compute; reflexivity. Qed.

(** C2 on the code.  The state saved by an engine of [fft_size] 4 is
    refused by the same engine ([fft_size] 4, [half_fft_size] 2), because
    the stored 4 is compared with 2; and a state that stores 2 is accepted by
    that engine, and returns [true], although 2 is not its [fft_size].  The
    caller's profile is the same array after both calls. *)
Theorem restorestate_checks_half_fft_size :
  PluginState.int_of_word <$>
    (PluginState.item_body <$> saved0.2 !! 4) ≫= (fun body => body !! 0%nat) = Some 4
  /\ PluginState.plugin_state_restorestate saved0.1 saved0.2 profile3 fone 4 2
     = PluginState.Returned false saved0.1 profile3
  /\ exists self',
       PluginState.plugin_state_restorestate plugin0
         (PluginState.plugin_state_savestate plugin0 ∅ 2 8192 profile3).2
         profile3 fone 4 2
       = PluginState.Returned true self' profile3.
Proof.
  split; [vm_compute; reflexivity|].
  split; [vm_compute; reflexivity|].
  eexists. vm_compute. reflexivity.
Qed.

End Runs.

(** ** Integers held in a [float] *)

Module FloatIntegers.

Import Rounding RoundingFacts.
Local Open Scope Z_scope.

(** A mantissa and an exponent already in the form of the format go
    through the rounding unchanged. *)
Lemma shr_fexp_canonical (m : positive) (e : Z) :
  canonical32 m e ->
  shr_fexp 24 128 (Z.pos m) e loc_Exact
  = ({| shr_m := Z.pos m; shr_r := false; shr_s := false |}, e).
Proof.
  intros Hc. unfold shr_fexp. cbn [Zdigits2 shr_record_of_loc].
  unfold canonical32 in Hc. rewrite Hc, Z.sub_diag. reflexivity.
Qed.

Lemma binary_round_aux_canonical (s : bool) (m : positive) (e : Z) :
  canonical32 m e -> e <= 104 ->
  binary_round_aux 24 128 s (Z.pos m) e loc_Exact = S754_finite s m e.
Proof.
  intros Hc He. unfold binary_round_aux.
  rewrite (shr_fexp_canonical m e Hc).
  cbn [shr_m shr_r shr_s loc_of_shr_record round_nearest_even].
  rewrite (shr_fexp_canonical m e Hc). cbn [shr_m].
  destruct (Z.leb_spec e (128 - 24)); [reflexivity | lia].
Qed.

(** The conversion of a positive integer below 2^24: the integer, shifted
    to a mantissa of 24 digits. *)
Lemma of_Z_small (n : positive) :
  Z.pos n < 2 ^ 24 ->
  exists m e, Float32.of_Z (Z.pos n) = S754_finite false m e
              /\ e <= 0 /\ Z.pos m = Z.pos n * 2 ^ (- e).
Proof.
  intros Hn. unfold Float32.of_Z, binary_normalize, binary_round.
  pose proof (digits_le_24 n Hn) as Hd.
  assert (Hpos : 1 <= Z.pos (digits2_pos n)) by lia.
  set (d := Z.pos (digits2_pos n)) in *.
  assert (Hf : fexp 24 128 (d + 0) = d - 24).
  { rewrite fexp32_eq. lia. }
  unfold Float32.prec, Float32.emax. fold d. rewrite Hf.
  pose proof (shl_align_spec n 0 (d - 24) ltac:(unfold K; lia) ltac:(unfold K; lia))
    as (H1 & H2 & _).
  destruct (shl_align n 0 (d - 24)) as [mz ez]. cbn [fst snd] in H1, H2.
  replace (Z.min 0 (d - 24)) with (d - 24) in H1 by lia. subst ez.
  assert (Hdig : Z.pos (digits2_pos mz) = 24).
  { pose proof (digits2_size n) as Hds. fold d in Hds.
    rewrite digits2_size, H2, Z.log2_mul_pow2 by lia. lia. }
  rewrite binary_round_aux_canonical.
  - exists mz, (d - 24). split; [reflexivity|]. split; [lia|].
    rewrite H2. replace (0 - (d - 24)) with (- (d - 24)) by lia. reflexivity.
  - unfold canonical32. rewrite Hdig, fexp32_eq. lia.
  - lia.
Qed.

(** Read back as an integer, a count below 2^24 is the count. *)
Lemma to_Z_of_Z (n : Z) : 0 <= n < 2 ^ 24 -> Float32.to_Z (Float32.of_Z n) = n.
Proof.
  intros Hn. destruct n as [|p|p]; [reflexivity | | lia].
  destruct (of_Z_small p ltac:(lia)) as (m & e & -> & He & Hm).
  unfold Float32.to_Z.
  destruct (Z.leb_spec 0 e) as [H0|H0].
  - assert (e = 0) by lia. subst e. cbn in Hm. lia.
  - rewrite Hm. apply Z.div_mul. apply Z.pow_nonzero; lia.
Qed.

Lemma to_nat_of_nat (n : nat) :
  Z.of_nat n < 2 ^ 24 -> Z.to_nat (Float32.to_Z (Float32.of_Z (Z.of_nat n))) = n.
Proof. intros Hn. rewrite to_Z_of_Z by lia. apply Nat2Z.id. Qed.

(** *** Products with 1 *)

Lemma rne_exact (m s : Z) : 0 <= m -> 1 <= s -> rne (m * 2 ^ s) s = m.
Proof.
  intros Hm Hs. unfold rne.
  rewrite Z.div_mul, Z.mod_mul by (apply Z.pow_nonzero; lia).
  assert (0 < 2 ^ (s - 1)) by (apply Z.pow_pos_nonneg; lia).
  destruct (Z.ltb_spec (2 ^ (s - 1)) 0); [lia|].
  destruct (Z.eqb_spec 0 (2 ^ (s - 1))); [lia|]. cbn. lia.
Qed.

(** The product of a binary32 number with 1 is the number. *)
Lemma fmul_one_r (x : float) : is_binary32 x = true -> fmul x fone = x.
Proof.
  destruct x as [s|s| |s m e]; try discriminate.
  - intros _. destruct s; reflexivity.
  - unfold is_binary32. cbn [is_finite andb valid_binary].
    unfold Float32.prec, Float32.emax.
    intros Hv. apply andb_prop in Hv as [Hc Hb].
    unfold canonical_mantissa in Hc. apply Z.eqb_eq in Hc. apply Z.leb_le in Hb.
    assert (He : -149 <= e) by (rewrite <- Hc, fexp32_eq; lia).
    change fone with (S754_finite false 8388608 (-23)).
    unfold fmul, SFmul. rewrite xorb_false_r.
    unfold Float32.prec, Float32.emax, binary_round_aux.
    assert (Hdig : Z.pos (digits2_pos (m * 8388608)) = Z.pos (digits2_pos m) + 23).
    { rewrite !digits2_size. change (Z.pos (m * 8388608)) with (Z.pos m * 2 ^ 23).
      rewrite Z.log2_mul_pow2 by lia. lia. }
    assert (Hfirst : shr_fexp 24 128 (Z.pos (m * 8388608)) (e + -23) loc_Exact
                     = shr {| shr_m := Z.pos (m * 8388608); shr_r := false; shr_s := false |}
                         (e + -23) 23).
    { unfold shr_fexp. cbn [Zdigits2 shr_record_of_loc]. rewrite Hdig.
      replace (Z.pos (digits2_pos m) + 23 + (e + -23)) with (Z.pos (digits2_pos m) + e)
        by lia.
      rewrite Hc. f_equal. lia. }
    rewrite Hfirst.
    pose proof (shr_round (Z.pos (m * 8388608)) (e + -23) 23 ltac:(lia) ltac:(lia)
                  ltac:(unfold K; lia) ltac:(unfold K; lia)) as Hsr.
    destruct (shr _ (e + -23) 23) as [mrs e'].
    destruct Hsr as [-> Hr]. rewrite Hr.
    assert (Hval : Val (Z.pos (m * 8388608)) (e + -23) = Z.pos m * 2 ^ (e + -23 + 23 + K)).
    { unfold Val. change (Z.pos (m * 8388608)) with (Z.pos m * 2 ^ 23).
      rewrite <- Z.mul_assoc, <- Z.pow_add_r by (unfold K; lia).
      f_equal. f_equal. lia. }
    rewrite Hval, rne_exact by (unfold K; lia).
    replace (e + -23 + 23) with e by lia.
    rewrite (shr_fexp_canonical m e Hc). cbn [shr_m].
    destruct (Z.leb_spec e (128 - 24)); [reflexivity | lia].
Qed.

End FloatIntegers.

(** ** More on the masking estimators *)

Module MaskingBehaviour.

Import CArray CArrayFacts CLoopFacts MaskingBands.
Local Open Scope nat_scope.

(** *** The Bark bands *)

(** The [while] loop of [compute_bark_spectrum]: it takes the bins from
    [last_position + counter] on while they are in the band, and stops at the
    first that is not, or at the end of [bark_z]. *)
Lemma bark_band_scan_spec (fuel : nat) (bark_z spectrum : list float) (band : float)
    (last c0 : nat) (sum0 : float) :
  let r := MaskingEstimator.bark_band_scan fuel bark_z spectrum band last c0 sum0 in
  c0 <= r.1 <= c0 + fuel
  /\ (forall k, last + c0 <= k < last + r.1 ->
        exists z, bark_z !! k = Some z /\ feq (floorf z) band = true)
  /\ r.2 = for_range (last + c0) (r.1 - c0) (fun k acc => fadd acc (spectrum !!! k)) sum0
  /\ (r.1 < c0 + fuel ->
      match bark_z !! (last + r.1) with
      | Some z => feq (floorf z) band = false
      | None => True
      end).
Proof.
  revert c0 sum0. induction fuel as [|fuel IH]; intros c0 sum0;
    cbn [MaskingEstimator.bark_band_scan].
  - cbn [fst snd]. rewrite Nat.sub_diag. split; [lia|]. split; [intros i Hi; lia|].
    split; [reflexivity | lia].
  - destruct (bark_z !! (last + c0)) as [z|] eqn:Hz.
    + destruct (feq (floorf z) band) eqn:Hb.
      * specialize (IH (c0 + 1) (fadd sum0 (spectrum !!! (last + c0)))).
        cbv zeta in IH. destruct IH as (Hle & Hin & Hsum & Hmax).
        set (r := MaskingEstimator.bark_band_scan fuel bark_z spectrum band last (c0 + 1) _) in *.
        split; [lia|]. split; [|split].
        -- intros k Hk. destruct (decide (k = last + c0)) as [->|Hne].
           ++ exists z. split; assumption.
           ++ apply Hin. lia.
        -- rewrite Hsum.
           replace (r.1 - c0) with (S (r.1 - (c0 + 1))) by lia.
           rewrite for_range_S. replace (last + (c0 + 1)) with (S (last + c0)) by lia.
           reflexivity.
        -- intros Hlt. apply Hmax. lia.
      * cbn [fst snd]. rewrite Nat.sub_diag. split; [lia|]. split; [intros i Hi; lia|].
        split; [reflexivity|]. intros _. rewrite Hz. exact Hb.
    + cbn [fst snd]. rewrite Nat.sub_diag. split; [lia|]. split; [intros i Hi; lia|].
      split; [reflexivity|]. intros _. rewrite Hz. exact I.
Qed.

(** The loop over the bands of [compute_bark_spectrum] after [n] passes. *)
Lemma bark_bands_loop (bark_z spectrum bark0 n_bins0 inter0 : list float) (n : nat) :
  length bark0 = MaskingEstimator.N_BARK_BANDS ->
  length n_bins0 = MaskingEstimator.N_BARK_BANDS ->
  length inter0 = MaskingEstimator.N_BARK_BANDS ->
  n <= MaskingEstimator.N_BARK_BANDS ->
  let r :=
    for_range 0 n
      (fun j '(last_position, bark, n_bins, inter) =>
         let '(counter, sum) :=
           MaskingEstimator.bark_band_scan (length bark_z) bark_z
             spectrum (Float32.of_Z (Z.of_nat (j + 1))) last_position
             (if j =? 0 then 1 else 0) fzero in
         let last_position' := last_position + counter in
         (last_position',
          <[j := sum]> bark,
          <[j := Float32.of_Z (Z.of_nat counter)]> n_bins,
          <[j := Float32.of_Z (Z.of_nat last_position')]> inter))
      (0, bark0, n_bins0, inter0) in
  exists e : nat -> nat,
    let boundary j := match j with 0 => 0 | S i => e i end in
    let first j := boundary j + (if j =? 0 then 1 else 0) in
    r.1.1.1 = boundary n
    /\ length r.1.1.2 = MaskingEstimator.N_BARK_BANDS
    /\ length r.1.2 = MaskingEstimator.N_BARK_BANDS
    /\ length r.2 = MaskingEstimator.N_BARK_BANDS
    /\ (forall j, n <= j ->
          r.1.1.2 !! j = bark0 !! j /\ r.1.2 !! j = n_bins0 !! j /\ r.2 !! j = inter0 !! j)
    /\ forall j, j < n ->
         first j <= e j
         /\ r.2 !! j = Some (Float32.of_Z (Z.of_nat (e j)))
         /\ r.1.2 !! j = Some (Float32.of_Z (Z.of_nat (e j - boundary j)))
         /\ r.1.1.2 !! j
            = Some (for_range (first j) (e j - first j)
                      (fun k acc => fadd acc (spectrum !!! k)) fzero)
         /\ (forall k, first j <= k < e j ->
               exists z, bark_z !! k = Some z
                         /\ feq (floorf z) (Float32.of_Z (Z.of_nat (j + 1))) = true)
         /\ match bark_z !! (e j) with
            | Some z => feq (floorf z) (Float32.of_Z (Z.of_nat (j + 1))) = false
            | None => True
            end.
Proof.
  intros Hb Hn Hi Hle. cbv zeta.
  induction n as [|n IH].
  - exists (fun _ => 0). cbn [for_range seq fold_left fst snd].
    split; [reflexivity|]. split; [exact Hb|]. split; [exact Hn|]. split; [exact Hi|].
    split; [intros j _; repeat split | intros j Hj; lia].
  - specialize (IH ltac:(lia)). destruct IH as (e & Hlast & Hl1 & Hl2 & Hl3 & Hout & Hin).
    replace (S n) with (n + 1) by lia. rewrite for_range_app.
    set (st := for_range 0 n _ _) in *.
    destruct st as [[[last bark] n_bins] inter]. cbn [fst snd] in *.
    cbn [for_range seq fold_left Nat.add].
    pose proof (bark_band_scan_spec (length bark_z) bark_z spectrum
                  (Float32.of_Z (Z.of_nat (n + 1))) last (if n =? 0 then 1 else 0) fzero)
      as Hscan.
    cbv zeta in Hscan.
    destruct (MaskingEstimator.bark_band_scan _ _ _ _ _ _ _) as [counter sum].
    cbn [fst snd] in *. destruct Hscan as (Hc & Hband & Hsum & Hmax).
    exists (fun i => if i =? n then last + counter else e i).
    assert (Hbd : forall j, j <= n ->
              match j with 0 => 0 | S i => if i =? n then last + counter else e i end
              = match j with 0 => 0 | S i => e i end).
    { intros [|i] Hj; [reflexivity|].
      destruct (Nat.eqb_spec i n); [lia | reflexivity]. }
    split; [rewrite Nat.eqb_refl; reflexivity|].
    split; [rewrite length_insert; exact Hl1|].
    split; [rewrite length_insert; exact Hl2|].
    split; [rewrite length_insert; exact Hl3|].
    split.
    + intros j Hj. rewrite !list_lookup_insert_ne by lia. apply Hout. lia.
    + intros j Hj. rewrite (Hbd j) by lia.
      destruct (Nat.eqb_spec j n) as [->|Hne].
      * rewrite <- Hlast.
        rewrite !list_lookup_insert_eq by lia.
        assert (Hfirst : last + (if n =? 0 then 1 else 0) <= last + counter) by lia.
        split; [exact Hfirst|]. split; [reflexivity|].
        split; [do 3 f_equal; lia|].
        split.
        { f_equal. rewrite Hsum. f_equal. lia. }
        split; [exact Hband|].
        destruct (decide (counter < (if n =? 0 then 1 else 0) + length bark_z)) as [Hlt|Hge].
        -- apply Hmax. exact Hlt.
        -- rewrite (lookup_ge_None_2 bark_z (last + counter)) by lia. exact I.
      * rewrite !list_lookup_insert_ne by lia. apply Hin. lia.
Qed.

Lemma plugin_scan_eq fuel (bark_z spectrum : list float) band last c sum :
  MaskingPlugin.bark_band_scan fuel bark_z spectrum band last c sum
  = MaskingEstimator.bark_band_scan fuel bark_z spectrum band last c sum.
Proof.
  revert c sum. induction fuel as [|fuel IH]; intros c sum; [reflexivity|].
  cbn [MaskingPlugin.bark_band_scan MaskingEstimator.bark_band_scan].
  destruct (bark_z !! (last + c)); [|reflexivity].
  destruct (feq _ _); [apply IH | reflexivity].
Qed.

Lemma library_bands_partition (self : MaskingEstimator.MaskingEstimator)
    (spectrum : list float) :
  length (MaskingEstimator.bark_spectrum self) = MaskingEstimator.N_BARK_BANDS ->
  length (MaskingEstimator.n_bins_per_band self) = MaskingEstimator.N_BARK_BANDS ->
  length (MaskingEstimator.intermediate_band_bins self) = MaskingEstimator.N_BARK_BANDS ->
  let self' := MaskingEstimator.compute_bark_spectrum self spectrum in
  bands_partition (MaskingEstimator.bark_z_spectrum self) spectrum
    (MaskingEstimator.bark_spectrum self') (MaskingEstimator.n_bins_per_band self')
    (MaskingEstimator.intermediate_band_bins self').
Proof.
  intros Hb Hn Hi self'.
  destruct (bark_bands_loop (MaskingEstimator.bark_z_spectrum self) spectrum _ _ _
              MaskingEstimator.N_BARK_BANDS Hb Hn Hi (Nat.le_refl _))
    as (e & _ & _ & _ & _ & _ & Hin).
  unfold self', MaskingEstimator.compute_bark_spectrum.
  destruct (for_range 0 MaskingEstimator.N_BARK_BANDS _ _) as [[[last bark] n_bins] inter].
  cbn [fst snd MaskingEstimator.set_bands MaskingEstimator.bark_spectrum
       MaskingEstimator.n_bins_per_band MaskingEstimator.intermediate_band_bins] in *.
  exists e. exact Hin.
Qed.

Lemma plugin_bands_partition (self : MaskingPlugin.MaskingEstimator)
    (bark_spectrum spectrum intermediate_band_bins n_bins_per_band : list float) :
  length bark_spectrum = MaskingPlugin.N_BARK_BANDS ->
  length n_bins_per_band = MaskingPlugin.N_BARK_BANDS ->
  length intermediate_band_bins = MaskingPlugin.N_BARK_BANDS ->
  let r := MaskingPlugin.compute_bark_spectrum self bark_spectrum spectrum
             intermediate_band_bins n_bins_per_band in
  bands_partition (MaskingPlugin.bark_z self) spectrum r.1.1 r.2 r.1.2.
Proof.
  intros Hb Hn Hi r.
  destruct (bark_bands_loop (MaskingPlugin.bark_z self) spectrum _ _ _
              MaskingEstimator.N_BARK_BANDS Hb Hn Hi (Nat.le_refl _))
    as (e & _ & _ & _ & _ & _ & Hin).
  cbv zeta in Hin.
  set (y := for_range 0 MaskingEstimator.N_BARK_BANDS _ _) in Hin.
  unfold r, MaskingPlugin.compute_bark_spectrum.
  set (x := for_range 0 MaskingPlugin.N_BARK_BANDS _ _).
  assert (Hrel : x.1.1.1 = y.1.1.1 /\ x.1.1.2 = y.1.1.2
                 /\ x.1.2 = y.2 /\ x.2 = y.1.2).
  { subst x y.
    apply (for_range_sim
             (fun (x : nat * list float * list float * list float)
                  (y : nat * list float * list float * list float) =>
                x.1.1.1 = y.1.1.1 /\ x.1.1.2 = y.1.1.2
                /\ x.1.2 = y.2 /\ x.2 = y.1.2)).
    - repeat split.
    - intros k [[[l b] i] n] [[[l' b'] n'] i'] _ (E1 & E2 & E3 & E4).
      cbn [fst snd] in *. subst l' b' i' n'. rewrite plugin_scan_eq.
      destruct (MaskingEstimator.bark_band_scan _ _ _ _ _ _ _) as [c s].
      repeat split. }
  destruct x as [[[l b] i] n]. destruct y as [[[l' b'] n'] i'].
  cbn [fst snd] in *. destruct Hrel as (_ & -> & -> & ->).
  exists e. exact Hin.
Qed.

(** The ends of the bands of a partition do not decrease, and none is past
    the end of [bark_z]. *)
Lemma partition_ends (bark_z spectrum bark n_bins inter : list float) :
  bands_partition bark_z spectrum bark n_bins inter ->
  exists e : nat -> nat,
    forall j, j < MaskingEstimator.N_BARK_BANDS ->
      match j with 0 => 0 | S i => e i end <= e j
      /\ e j <= Nat.max 1 (length bark_z)
      /\ inter !! j = Some (Float32.of_Z (Z.of_nat (e j))).
Proof.
  intros (e & Hin). exists e. cbv zeta in Hin.
  assert (Hfacts : forall j, j < MaskingEstimator.N_BARK_BANDS ->
            match j with 0 => 0 | S i => e i end <= e j
            /\ (e j <= match j with 0 => 0 | S i => e i end + (if j =? 0 then 1 else 0)
                \/ e j <= length bark_z)
            /\ inter !! j = Some (Float32.of_Z (Z.of_nat (e j)))).
  { intros j Hj. destruct (Hin j Hj) as (Hfirst & Hinter & _ & _ & Hrun & _).
    split; [lia|]. split; [|exact Hinter].
    destruct (decide (e j <= match j with 0 => 0 | S i => e i end
                              + (if j =? 0 then 1 else 0))) as [Hle|Hgt]; [left; exact Hle|].
    right. destruct (Hrun (e j - 1) ltac:(lia)) as (z & Hz & _).
    apply lookup_lt_Some in Hz. lia. }
  assert (Hbound : forall j, j < MaskingEstimator.N_BARK_BANDS ->
            e j <= Nat.max 1 (length bark_z)).
  { induction j as [|j IH]; intros Hj.
    - destruct (Hfacts 0 Hj) as (_ & [Hle|Hle] & _); cbn in Hle; lia.
    - specialize (IH ltac:(lia)).
      destruct (Hfacts (S j) Hj) as (_ & [Hle|Hle] & _); cbn in Hle; lia. }
  intros j Hj. destruct (Hfacts j Hj) as (H1 & _ & H3).
  split; [exact H1|]. split; [apply Hbound; exact Hj | exact H3].
Qed.

Lemma band_ends_increase (e : nat -> nat) (n : nat) :
  (forall j, j < n -> match j with 0 => 0 | S i => e i end <= e j) ->
  forall j m, j < m -> m <= n -> e j <= match m with 0 => 0 | S i => e i end.
Proof.
  intros He j m. induction m as [|m IH]; intros Hj Hm; [lia|].
  destruct (decide (j = m)) as [->|Hne]; [lia|].
  specialize (IH ltac:(lia) ltac:(lia)).
  specialize (He m ltac:(lia)). lia.
Qed.

(** X14.  [compute_bark_spectrum], in the library and in the plugin, cuts
    the bins from 1 on into 25 consecutive runs: band [j] takes the bins that
    follow the band before for as long as [floorf(bark_z[k])] is [j + 1], and
    ends at the first bin where it is not, so a band can be empty and a bin
    out of sequence stops every later band.  [bark_spectrum[j]] is the sum of
    the spectrum over the run, [intermediate_band_bins[j]] the end of the run
    and [n_bins_per_band[j]] its length, plus one for band 0, whose count
    starts at 1. *)
Theorem bark_bands_are_consecutive_runs :
  (forall (self : MaskingEstimator.MaskingEstimator) (spectrum : list float),
     length (MaskingEstimator.bark_spectrum self) = MaskingEstimator.N_BARK_BANDS ->
     length (MaskingEstimator.n_bins_per_band self) = MaskingEstimator.N_BARK_BANDS ->
     length (MaskingEstimator.intermediate_band_bins self) = MaskingEstimator.N_BARK_BANDS ->
     let self' := MaskingEstimator.compute_bark_spectrum self spectrum in
     bands_partition (MaskingEstimator.bark_z_spectrum self) spectrum
       (MaskingEstimator.bark_spectrum self') (MaskingEstimator.n_bins_per_band self')
       (MaskingEstimator.intermediate_band_bins self'))
  /\ (forall (self : MaskingPlugin.MaskingEstimator)
        (bark_spectrum spectrum intermediate_band_bins n_bins_per_band : list float),
        length bark_spectrum = MaskingPlugin.N_BARK_BANDS ->
        length n_bins_per_band = MaskingPlugin.N_BARK_BANDS ->
        length intermediate_band_bins = MaskingPlugin.N_BARK_BANDS ->
        let r := MaskingPlugin.compute_bark_spectrum self bark_spectrum spectrum
                   intermediate_band_bins n_bins_per_band in
        bands_partition (MaskingPlugin.bark_z self) spectrum r.1.1 r.2 r.1.2).
Proof.
  split.
  - intros self spectrum Hb Hn Hi self'.
    exact (library_bands_partition self spectrum Hb Hn Hi).
  - intros self bark0 spectrum inter0 n_bins0 Hb Hn Hi r.
    exact (plugin_bands_partition self bark0 spectrum inter0 n_bins0 Hb Hn Hi).
Qed.

(** *** A band without bins *)

Lemma to_Z_fadd_zero (x : float) : to_Z (fadd x fzero) = to_Z x.
Proof. destruct x as [s|s| |s m e]; try reflexivity. destruct s; reflexivity. Qed.

Lemma fminf_nan_l (y : float) : fminf S754_nan y = y.
Proof. reflexivity. Qed.

Lemma offset_of_a_tonal_band (j : nat) :
  j < MaskingEstimator.N_BARK_BANDS ->
  fadd (fmul fone (fadd (lit 145 10) (Float32.of_Z (Z.of_nat (j + 1)))))
       (fmul (lit 55 10) (fsub fone fone))
  = fadd (lit 145 10) (Float32.of_Z (Z.of_nat (j + 1))).
Proof.
  intros Hj. unfold MaskingEstimator.N_BARK_BANDS in Hj.
  do 25 (destruct j as [|j]; [vm_compute; reflexivity|]). lia.
Qed.

Section WithLibm.

Context `{Libm}.

(** X15.  A band without bins counts as fully tonal.  When
    [n_bins_per_band[band]] is 0 the loop of [compute_tonality_factor] makes
    no pass, both means are 0/0, the flatness measure is a NaN whatever
    [log10f] returns, and [fminf] of a NaN and 1 is 1: the tonality factor
    is 1, in the library and in the plugin, and the tonal offset of the band
    is [14.5 + (band + 1)]. *)
Theorem empty_band_counts_as_tonal :
  (forall (self : MaskingEstimator.MaskingEstimator) (spectrum : list float) (band : nat),
     MaskingEstimator.n_bins_per_band self !!! band = Float32.of_Z 0 ->
     MaskingEstimator.compute_tonality_factor self spectrum band = fone
     /\ (band < MaskingEstimator.N_BARK_BANDS ->
         MaskingEstimator.tonality_offset
           (MaskingEstimator.compute_tonality_factor self spectrum band) band
         = fadd (lit 145 10) (Float32.of_Z (Z.of_nat (band + 1)))))
  /\ (forall (spectrum intermediate_band_bins n_bins_per_band : list float) (band : nat),
        n_bins_per_band !!! band = Float32.of_Z 0 ->
        MaskingPlugin.compute_tonality_factor spectrum intermediate_band_bins
          n_bins_per_band band = fone
        /\ (band < MaskingPlugin.N_BARK_BANDS ->
            MaskingPlugin.tonality_offset
              (MaskingPlugin.compute_tonality_factor spectrum intermediate_band_bins
                 n_bins_per_band band) band
            = fadd (lit 145 10) (Float32.of_Z (Z.of_nat (band + 1))))).
Proof.
  change (Float32.of_Z 0) with fzero.
  split.
  - intros self spectrum band Hn.
    assert (Ht : MaskingEstimator.compute_tonality_factor self spectrum band = fone).
    { unfold MaskingEstimator.compute_tonality_factor, MaskingEstimator.SFM.
      rewrite Hn, to_Z_fadd_zero.
      change (to_Z fzero) with 0%Z. change (Z.to_nat 0) with 0.
      destruct (Nat.eqb_spec band 0) as [->|_]; rewrite Nat.sub_diag; reflexivity. }
    split; [exact Ht|]. intros Hb. rewrite Ht. apply offset_of_a_tonal_band. exact Hb.
  - intros spectrum inter n_bins band Hn.
    assert (Ht : MaskingPlugin.compute_tonality_factor spectrum inter n_bins band = fone).
    { unfold MaskingPlugin.compute_tonality_factor, MaskingPlugin.SFM.
      rewrite Hn, to_Z_fadd_zero.
      change (to_Z fzero) with 0%Z. change (Z.to_nat 0) with 0.
      destruct (Nat.eqb_spec band 0) as [->|_]; rewrite Nat.sub_diag; reflexivity. }
    split; [exact Ht|]. intros Hb. rewrite Ht. apply offset_of_a_tonal_band. exact Hb.
Qed.

End WithLibm.

End MaskingBehaviour.

(** ** The spreading function *)

Module MaskingTableFacts.

Import CArray CArrayFacts CLoopFacts MaskingTables.
Local Open Scope nat_scope.

(** A loop that stores [v k] at the index [f k], with different indices in
    different passes. *)
Lemma for_range_scatter (f : nat -> nat) (v : nat -> float) lo n (a : list float) :
  (forall k k', lo <= k < lo + n -> lo <= k' < lo + n -> f k = f k' -> k = k') ->
  let r := for_range lo n (fun k x => <[f k := v k]> x) a in
  length r = length a
  /\ (forall k, lo <= k < lo + n -> f k < length a -> r !! f k = Some (v k))
  /\ (forall i, (forall k, lo <= k < lo + n -> i <> f k) -> r !! i = a !! i).
Proof.
  intros Hinj r. subst r.
  apply (for_range_ind
           (fun m (x : list float) =>
              length x = length a
              /\ (forall k, lo <= k < m -> f k < length a -> x !! f k = Some (v k))
              /\ (forall i, (forall k, lo <= k < m -> i <> f k) -> x !! i = a !! i))).
  - split; [reflexivity|]. split; [intros k Hk; lia | reflexivity].
  - intros m x Hm (Hl & Hin & Hout).
    split; [rewrite length_insert; exact Hl|]. split.
    + intros k Hk Hf. destruct (decide (k = m)) as [->|Hne].
      * apply list_lookup_insert_eq. lia.
      * rewrite list_lookup_insert_ne.
        -- apply Hin; [lia | exact Hf].
        -- intros E. apply Hne. symmetry. apply Hinj; [lia | lia | exact E].
    + intros i Hi. rewrite list_lookup_insert_ne.
      * apply Hout. intros k Hk. apply Hi. lia.
      * intros E. apply (Hi m); [lia | symmetry; exact E].
Qed.

(** Two stores to the same element, the second computed from what the
    first left there. *)
Lemma store_twice (a : list float) (i : nat) (x : float) (g : float -> float) :
  <[i := g (<[i := x]> a !!! i)]> (<[i := x]> a) = <[i := g x]> a.
Proof.
  destruct (decide (i < length a)) as [Hi|Hi].
  - rewrite list_lookup_total_insert_eq by exact Hi. apply list_insert_insert_eq.
  - rewrite !list_insert_ge by (rewrite ?length_insert; lia). reflexivity.
Qed.

(** A table filled row by row. *)
Lemma table_rows (v : nat -> nat -> float) (rows cols : nat) (a : list float) :
  let r := for_range 0 rows
             (fun i x => for_range 0 cols (fun j x' => <[i * cols + j := v i j]> x') x) a in
  length r = length a
  /\ (forall i j, i < rows -> j < cols -> i * cols + j < length a ->
        r !! (i * cols + j) = Some (v i j))
  /\ (forall k, rows * cols <= k -> r !! k = a !! k).
Proof.
  intros r. subst r.
  apply (for_range_ind
           (fun m (x : list float) =>
              length x = length a
              /\ (forall i j, i < m -> j < cols -> i * cols + j < length a ->
                    x !! (i * cols + j) = Some (v i j))
              /\ (forall k, m * cols <= k -> x !! k = a !! k))).
  - split; [reflexivity|]. split; [intros i j Hi; lia | reflexivity].
  - intros m x Hm (Hl & Hin & Hout).
    destruct (for_range_scatter (fun j => m * cols + j) (v m) 0 cols x
                ltac:(intros k k' _ _ E; cbv beta in E; lia)) as (Hl' & Hin' & Hout').
    cbv zeta in Hl', Hin', Hout'.
    split; [rewrite Hl'; exact Hl|]. split.
    + intros i j Hi Hj Hlen. destruct (decide (i = m)) as [->|Hne].
      * apply (Hin' j); [lia | rewrite Hl; exact Hlen].
      * rewrite Hout'; [apply Hin; [lia | exact Hj | exact Hlen]|].
        intros k Hk.
        pose proof (Nat.mul_le_mono_r (i + 1) m cols ltac:(lia)). lia.
    + intros k Hk. cbn [Nat.mul] in Hk.
      rewrite Hout'; [apply Hout; lia|]. intros j Hj. lia.
Qed.

(** Below 2^32 by at most 128 an integer converts to the [float] 2^32. *)
Lemma wrapped_distance (i j : nat) :
  i < j -> j < MaskingEstimator.N_BARK_BANDS ->
  Float32.of_Z (uint32 (Z.of_nat (i + 1) - Z.of_nat (j + 1))) = Float32.of_Z (2 ^ 32).
Proof.
  intros Hij Hj. unfold MaskingEstimator.N_BARK_BANDS in Hj.
  assert (Hd : exists d, (1 <= d <= 24)%nat
                         /\ uint32 (Z.of_nat (i + 1) - Z.of_nat (j + 1))
                            = (2 ^ 32 - Z.of_nat d)%Z).
  { exists (j - i). split; [lia|]. unfold uint32.
    symmetry. apply (Z.mod_unique _ _ (-1)); lia. }
  destruct Hd as (d & Hd & ->).
  destruct d as [|d]; [lia|].
  do 24 (destruct d as [|d]; [vm_compute; reflexivity|]). lia.
Qed.

Lemma plain_distance (i j : nat) :
  j <= i -> i < MaskingEstimator.N_BARK_BANDS ->
  uint32 (Z.of_nat (i + 1) - Z.of_nat (j + 1)) = Z.of_nat (i - j).
Proof.
  intros Hji Hi. unfold MaskingEstimator.N_BARK_BANDS in Hi. unfold uint32.
  rewrite Z.mod_small; lia.
Qed.

(** *** Loops with checked stores *)

Lemma for_range_opt_failed {A : Type} (body : nat -> A -> option A) (l : list nat) :
  fold_left (fun acc k => acc ≫= body k) l None = None.
Proof. induction l as [|k l IH]; [reflexivity | exact IH]. Qed.

(** A loop whose passes each go through when a condition on the length of
    the array holds, and keep that length. *)
Lemma for_range_opt_guarded (c : nat -> nat -> bool)
    (step : nat -> list float -> list float) lo n (a : list float) :
  (forall k x, length (step k x) = length x) ->
  for_range_opt lo n (fun k x => if c k (length x) then Some (step k x) else None) a
  = if forallb (fun k => c k (length a)) (seq lo n)
    then Some (for_range lo n step a) else None.
Proof.
  intros Hlen. revert lo a. induction n as [|n IH]; intros lo a; [reflexivity|].
  unfold for_range_opt in *. cbn [seq fold_left forallb mbind option_bind].
  destruct (c lo (length a)); cbn [andb].
  - rewrite IH, Hlen. reflexivity.
  - apply for_range_opt_failed.
Qed.

Lemma for_range_opt_ext {A : Type} lo n (body body' : nat -> A -> option A) (a : A) :
  (forall k x, body k x = body' k x) ->
  for_range_opt lo n body a = for_range_opt lo n body' a.
Proof.
  intros Hb. unfold for_range_opt. generalize (Some a). revert lo.
  induction n as [|n IH]; intros lo o; [reflexivity|].
  cbn [seq fold_left]. rewrite IH. f_equal. destruct o; [apply Hb | reflexivity].
Qed.

(** A checked store, a read of the element stored and a checked store of
    what is computed from it. *)
Lemma store_twice_checked (a : list float) (i : nat) (x : float) (g : float -> float) :
  (a1 ← store a i x; stored ← load a1 i; store a1 i (g stored))
  = if i <? length a then Some (<[i := g x]> a) else None.
Proof.
  unfold store, load. destruct (Nat.ltb_spec i (length a)) as [Hi|Hi]; [|reflexivity].
  cbn [mbind option_bind]. rewrite list_lookup_insert_eq by exact Hi.
  cbn [mbind option_bind]. rewrite length_insert.
  destruct (Nat.ltb_spec i (length a)); [|lia].
  rewrite list_insert_insert_eq. reflexivity.
Qed.

Lemma rows_fit (rows cols len : nat) :
  0 < cols ->
  forallb (fun i => forallb (fun j => i * cols + j <? len) (seq 0 cols)) (seq 0 rows)
  = (rows * cols <=? len) || (rows =? 0).
Proof.
  intros Hc. apply eq_true_iff_eq. rewrite forallb_forall, orb_true_iff.
  rewrite Nat.leb_le, Nat.eqb_eq. split.
  - intros Hall. destruct rows as [|r]; [right; reflexivity|]. left.
    specialize (Hall r ltac:(apply in_seq; lia)). rewrite forallb_forall in Hall.
    specialize (Hall (cols - 1) ltac:(apply in_seq; lia)).
    apply Nat.ltb_lt in Hall. cbn [Nat.mul]. lia.
  - intros Hfit i Hi. apply in_seq in Hi. apply forallb_forall. intros j Hj.
    apply in_seq in Hj. apply Nat.ltb_lt.
    destruct Hfit as [Hfit|Hfit]; [|lia].
    pose proof (Nat.mul_le_mono_r (i + 1) rows cols ltac:(lia)). lia.
Qed.

Section WithLibm.

Context `{Libm}.

(** X16.  In the library the distance [(i + 1) - (j + 1)] between two bands
    is computed in [uint32_t].  On and below the diagonal ([j <= i]) the
    entry is the spreading gain at the distance [i - j]; above it the
    difference wraps, its conversion to [float] is 2^32 for every pair, and
    all these entries hold the one gain at a distance of 2^32 Bark.  Entries
    of the array from [N_BARK_BANDS * N_BARK_BANDS] on are not written. *)
Theorem spreading_function_wraps_above_the_diagonal (spreading : list float) :
  let r := compute_spectral_spreading_function spreading in
  let n := MaskingEstimator.N_BARK_BANDS in
  length r = length spreading
  /\ (forall i j, i < n -> j < n -> i * n + j < length spreading ->
        r !! (i * n + j)
        = Some (spreading_gain
                  (spreading_db
                     (if j <=? i then Float32.of_Z (Z.of_nat (i - j))
                      else Float32.of_Z (2 ^ 32)))))
  /\ (forall k, n * n <= k -> r !! k = spreading !! k).
Proof.
  intros r n. subst r.
  pose (v := fun i j : nat =>
               spreading_gain
                 (spreading_db
                    (Float32.of_Z (uint32 (Z.of_nat (i + 1) - Z.of_nat (j + 1)))))).
  assert (Heq : compute_spectral_spreading_function spreading
                = for_range 0 n
                    (fun i x => for_range 0 n (fun j x' => <[i * n + j := v i j]> x') x)
                    spreading).
  { unfold compute_spectral_spreading_function. fold n.
    apply for_range_ext. intros i x _. apply for_range_ext. intros j x' _.
    cbv zeta. apply (store_twice x' (i * n + j) _ spreading_gain). }
  rewrite Heq.
  destruct (table_rows v n n spreading) as (Hl & Hin & Hout). cbv zeta in Hl, Hin, Hout.
  split; [exact Hl|]. split; [|exact Hout].
  intros i j Hi Hj Hlen. rewrite (Hin i j Hi Hj Hlen). unfold v.
  destruct (Nat.leb_spec j i) as [Hji|Hij].
  - rewrite plain_distance by assumption. reflexivity.
  - rewrite wrapped_distance by assumption. reflexivity.
Qed.

(** X17.  In the plugin the distance is computed in [int], and every entry
    is the spreading gain at the distance [i - j], negative above the
    diagonal; but the stores go up to the index
    [N_BARK_BANDS * N_BARK_BANDS - 1], and an array of fewer floats is
    overrun.  The array that [masking_estimation_initialize] allocates has
    [N_BARK_BANDS] floats, not their square. *)
Theorem plugin_spreading_function_overruns_its_array (spreading : list float) :
  let n := MaskingPlugin.N_BARK_BANDS in
  (length spreading < n * n ->
   plugin_compute_spectral_spreading_function spreading = None)
  /\ (n * n <= length spreading ->
      exists r,
        plugin_compute_spectral_spreading_function spreading = Some r
        /\ length r = length spreading
        /\ (forall i j, i < n -> j < n ->
              r !! (i * n + j)
              = Some (spreading_gain
                        (spreading_db (Float32.of_Z (Z.of_nat i - Z.of_nat j)))))
        /\ (forall k, n * n <= k -> r !! k = spreading !! k))
  /\ length plugin_spreading_allocated = n
  /\ plugin_compute_spectral_spreading_function plugin_spreading_allocated = None.
Proof.
  intros n.
  pose (v := fun i j : nat =>
               spreading_gain
                 (spreading_db (Float32.of_Z (Z.of_nat (i + 1) - Z.of_nat (j + 1))))).
  assert (Heq : forall a,
            plugin_compute_spectral_spreading_function a
            = if n * n <=? length a
              then Some (for_range 0 n
                           (fun i x =>
                              for_range 0 n (fun j x' => <[i * n + j := v i j]> x') x) a)
              else None).
  { intros a. unfold plugin_compute_spectral_spreading_function. fold n.
    rewrite (for_range_opt_ext 0 n _
               (fun i x =>
                  if forallb (fun j => i * n + j <? length x) (seq 0 n)
                  then Some (for_range 0 n (fun j x' => <[i * n + j := v i j]> x') x)
                  else None)).
    - rewrite (for_range_opt_guarded
                 (fun i len => forallb (fun j => i * n + j <? len) (seq 0 n))
                 (fun i x => for_range 0 n (fun j x' => <[i * n + j := v i j]> x') x)).
      + rewrite rows_fit by (unfold n, MaskingPlugin.N_BARK_BANDS; lia).
        change (n =? 0) with false. rewrite orb_false_r. reflexivity.
      + intros k x.
        apply (for_range_invariant (fun y : list float => length y = length x));
          [reflexivity|].
        intros j y _ Hy. rewrite length_insert. exact Hy.
    - intros i x.
      rewrite (for_range_opt_ext 0 n _
                 (fun j x' => if i * n + j <? length x'
                              then Some (<[i * n + j := v i j]> x') else None)).
      + apply (for_range_opt_guarded (fun j len => i * n + j <? len)
                 (fun j x' => <[i * n + j := v i j]> x')).
        intros k x'. apply length_insert.
      + intros j x'. cbv zeta. apply (store_twice_checked x' (i * n + j) _ spreading_gain). }
  assert (Hnone : forall a, length a < n * n ->
                            plugin_compute_spectral_spreading_function a = None).
  { intros a Ha. rewrite Heq. destruct (Nat.leb_spec (n * n) (length a)); [lia | reflexivity]. }
  split; [apply Hnone|]. split.
  - intros Hlen. rewrite Heq. destruct (Nat.leb_spec (n * n) (length spreading)); [|lia].
    destruct (table_rows v n n spreading) as (Hl & Hin & Hout). cbv zeta in Hl, Hin, Hout.
    eexists. split; [reflexivity|]. split; [exact Hl|]. split; [|exact Hout].
    intros i j Hi Hj. rewrite (Hin i j Hi Hj).
    + unfold v.
      replace (Z.of_nat (i + 1) - Z.of_nat (j + 1))%Z with (Z.of_nat i - Z.of_nat j)%Z
        by lia.
      reflexivity.
    + pose proof (Nat.mul_le_mono_r (i + 1) n n ltac:(lia)). lia.
  - assert (Hl : length plugin_spreading_allocated = n).
    { unfold plugin_spreading_allocated, memset_zero. rewrite length_memcpy.
      apply length_replicate. }
    split; [exact Hl|]. apply Hnone. rewrite Hl. unfold n, MaskingPlugin.N_BARK_BANDS. lia.
Qed.

End WithLibm.

End MaskingTableFacts.

(** ** The reset of the plugin's masking estimator *)

Module MaskingResetFacts.

Import CArray CArrayFacts CLoopFacts MaskingPlugin MaskingReset.
Local Open Scope nat_scope.

Lemma memcpy_lookup_partial dst src n i d :
  i = n / sizeof_float -> n mod sizeof_float <> 0 -> dst !! i = Some d ->
  memcpy dst src n !! i = Some (splice_bytes (n mod sizeof_float) (src !!! i) d).
Proof.
  intros Hi Hp Hd. unfold memcpy. rewrite list_lookup_imap, Hd.
  cbn [fmap option_fmap option_map]. f_equal.
  destruct (Nat.ltb_spec i (n / sizeof_float)); [lia|].
  destruct (Nat.eqb_spec i (n / sizeof_float)); [|lia].
  destruct (Nat.eqb_spec (n mod sizeof_float) 0); [lia|]. reflexivity.
Qed.

(** X18.  [masking_estimation_reset] does not set the unity-gain Bark
    spectrum to ones.  [memset] fills [N_BARK_BANDS] bytes, not floats, with
    the byte 1: the first six floats become the number with the bit pattern
    0x01010101 (about 2.4e-38), the seventh has its lowest byte set to 1, and
    the floats from the eighth on stay as they were.  No entry it writes is
    1. *)
Theorem reset_fills_bytes_not_floats (self : MaskingEstimator) :
  let u := unity_gain_bark_spectrum (masking_estimation_reset self) in
  let filled := S754_finite false 8454401 (-148) in
  length u = length (unity_gain_bark_spectrum self)
  /\ (forall i, i < 6 -> i < length (unity_gain_bark_spectrum self) ->
        u !! i = Some filled)
  /\ (forall d, unity_gain_bark_spectrum self !! 6 = Some d ->
        u !! 6 = Some (splice_bytes 1 filled d))
  /\ (forall i, 6 < i -> u !! i = unity_gain_bark_spectrum self !! i)
  /\ bits_of_float filled = 16843009%Z
  /\ feq filled fone = false
  /\ splice_bytes 1 filled fzero = S754_finite false 1 (-149).
Proof.
  cbv zeta. cbn [masking_estimation_reset unity_gain_bark_spectrum].
  unfold memset.
  change (float_of_bits _) with (S754_finite false 8454401 (-148)).
  split; [apply length_memcpy|]. split; [|split; [|split]].
  - intros i Hi Hl. rewrite memcpy_lookup_whole; [|exact Hl|].
    + rewrite list_lookup_total_alt, lookup_replicate_2 by exact Hl. reflexivity.
    + change (N_BARK_BANDS / sizeof_float) with 6. exact Hi.
  - intros d Hd.
    rewrite (memcpy_lookup_partial _ _ _ 6 d); [| reflexivity | discriminate | exact Hd].
    change (N_BARK_BANDS mod sizeof_float) with 1.
    rewrite list_lookup_total_alt, lookup_replicate_2
      by (apply lookup_lt_Some in Hd; exact Hd).
    reflexivity.
  - intros i Hi. apply memcpy_lookup_past. unfold sizeof_float, N_BARK_BANDS. lia.
  - repeat split; vm_compute; reflexivity.
Qed.

End MaskingResetFacts.

(** ** The first samples of a new processor *)

Module STFTStart.

Import CArray CArrayFacts CLoopFacts STFT STFTProofs STFTBehaviour.

Section WithBackend.

Context `{Libm} `{Backend}.

(** X19.  The first hop of output of a new processor is its [out_fifo] as
    [stft_processor_reset] left it, cleared over [fft_size] bytes only,
    however many samples the first call processes.  An output sample [k] of
    the first hop with [4 * k + 4 <= fft_size] is zero; one with
    [fft_size <= 4 * k] is what [malloc] returned in [out_fifo[k]].  So the
    first hop is silence when [overlap_factor] is at least 4, and carries
    uninitialised memory from sample [fft_size / 4] on when it is less. *)
Theorem new_processor_first_outputs
    (d : FFTDenoiser) (sample_rate n ov : Z) (fresh : Buffers)
    (noise : NoiseProfile) (n_samples : Z) (input output0 : list float)
    (args : DenoiseArguments) :
  0 < ov <= n ->
  0 <= n_samples ->
  (Z.to_nat n_samples <= length output0)%nat ->
  (Z.to_nat (Z.quot n ov) <= length (b_out_fifo fresh))%nat ->
  let self := stft_processor_initialize d sample_rate n ov fresh in
  let p := stft_processor_run self noise n_samples input output0 args in
  (forall k, 0 <= k < n_samples -> k < Z.quot n ov ->
     (4 * k + 4 <= n -> output p !! Z.to_nat k = Some fzero)
     /\ (n <= 4 * k -> output p !! Z.to_nat k = Some (rd (b_out_fifo fresh) k)))
  /\ (4 <= ov -> forall k, 0 <= k < n_samples -> k < Z.quot n ov ->
        output p !! Z.to_nat k = Some fzero).
Proof.
  intros Hov Hn Hout Hfifo self p.
  pose proof (initialize_framed d sample_rate n ov fresh Hov) as Hfr. fold self in Hfr.
  assert (Hhop : hop self = Z.quot n ov) by reflexivity.
  assert (Ho : offset_in_hop self = 0) by (unfold offset_in_hop; cbn; lia).
  destruct (outputs_of_the_first_hop self noise n_samples input output0 args Hfr Hn)
    as (Hk & _).
  fold p in Hk. rewrite Ho, Hhop in Hk.
  destruct (initialize_fifos d sample_rate n ov fresh) as (_ & Hof & _).
  fold self in Hof.
  assert (Hquot : Z.quot n ov = n / ov) by (apply Z.quot_div_nonneg; lia).
  assert (Hread : forall k, 0 <= k < n_samples -> k < Z.quot n ov ->
            output p !! Z.to_nat k
            = Some (rd (memset_zero (b_out_fifo fresh) (Z.to_nat n)) k)).
  { intros k Hk' Hkq. rewrite (Hk k Hk') by lia. rewrite Hof.
    destruct (lookup_lt_is_Some_2 output0 (Z.to_nat k) ltac:(lia)) as [v Hv].
    rewrite Hv. reflexivity. }
  assert (Hzero : forall k, 0 <= k < n_samples -> k < Z.quot n ov -> 4 * k + 4 <= n ->
            output p !! Z.to_nat k = Some fzero).
  { intros k Hk' Hkq H4. rewrite (Hread k Hk' Hkq). f_equal. unfold rd.
    apply list_lookup_total_correct.
    apply memset_zero_lookup_cleared; unfold sizeof_float; lia. }
  split.
  - intros k Hk' Hkq. split; [apply Hzero; assumption|].
    intros H4. rewrite (Hread k Hk' Hkq). f_equal. unfold rd.
    apply lookup_total_eq. apply memset_zero_lookup_past. unfold sizeof_float. lia.
  - intros H4 k Hk' Hkq. apply Hzero; [exact Hk' | exact Hkq |].
    assert (n / ov <= n / 4) by (apply Z.div_le_compat_l; lia).
    pose proof (Z.mul_div_le n 4 ltac:(lia)). lia.
Qed.

(** [fft_window] for the Vorbis window. *)
Lemma fft_window_vorbis (window : list float) (N : Z) :
  let r := fft_window window N VORBIS_WINDOW in
  length r = length window
  /\ (forall k, 0 <= k < N -> (Z.to_nat k < length window)%nat -> rd r k = vorbis k N)
  /\ (forall j, (Z.to_nat N <= j)%nat -> r !! j = window !! j).
Proof.
  exact (for_int_forward (fun k _ => vorbis k N) N window (fun _ _ _ _ _ => eq_refl)).
Qed.

(** X20.  Both windows of a new processor are the Vorbis window over all
    their [fft_size] entries, and [overlap_scale_factor] is the mean of its
    squares, summed in the order of the samples: neither depends on what
    [malloc] returned for the windows, nor on how much of them
    [stft_processor_reset] cleared. *)
Theorem new_processor_windows
    (d : FFTDenoiser) (sample_rate n ov : Z) (fresh : Buffers) :
  length (b_input_window fresh) = Z.to_nat n ->
  length (b_output_window fresh) = Z.to_nat n ->
  let self := stft_processor_initialize d sample_rate n ov fresh in
  (forall k, 0 <= k < n ->
     rd (input_window self) k = vorbis k n /\ rd (output_window self) k = vorbis k n)
  /\ overlap_scale_factor self
     = fdiv (for_int n (fun i acc => fadd acc (fmul (vorbis i n) (vorbis i n))) fzero)
            (Float32.of_Z n).
Proof.
  intros Hin Hout self.
  set (w_in := memset_zero (b_input_window fresh) (Z.to_nat n)).
  set (w_out := memset_zero (b_output_window fresh) (Z.to_nat n)).
  assert (Ew : input_window self = fft_window w_in n VORBIS_WINDOW) by reflexivity.
  assert (Eo : output_window self = fft_window w_out n VORBIS_WINDOW) by reflexivity.
  assert (Es : overlap_scale_factor self
               = fdiv (for_int n
                         (fun i acc =>
                            fadd acc (fmul (rd (fft_window w_in n VORBIS_WINDOW) i)
                                           (rd (fft_window w_out n VORBIS_WINDOW) i)))
                         fzero)
                      (Float32.of_Z n)) by reflexivity.
  destruct (fft_window_vorbis w_in n) as (_ & Hwin & _).
  destruct (fft_window_vorbis w_out n) as (_ & Hwout & _).
  cbv zeta in Hwin, Hwout.
  assert (Hl_in : length w_in = Z.to_nat n)
    by (unfold w_in, memset_zero; rewrite length_memcpy; exact Hin).
  assert (Hl_out : length w_out = Z.to_nat n)
    by (unfold w_out, memset_zero; rewrite length_memcpy; exact Hout).
  split.
  - intros k Hk. rewrite Ew, Eo. split; [apply Hwin | apply Hwout]; lia.
  - rewrite Es. f_equal. unfold for_int. apply for_range_ext.
    intros k x Hk. rewrite Hwin, Hwout by lia. reflexivity.
Qed.

End WithBackend.

End STFTStart.

(** ** Numbers that are not finite *)

Module SpectralRobustness.

Import CArray CArrayFacts SpectralProcessor SpectralFrames SpectralProcessorProofs
  SpectralFrameProofs FloatIntegers.
Local Open Scope nat_scope.

Lemma fmul_not_finite_r (x y : float) :
  is_finite y = false -> is_finite (fmul x y) = false.
Proof.
  destruct y as [s|s| |s m e]; try discriminate; intros _;
    destruct x as [s'|s'| |s' m' e']; reflexivity.
Qed.

Lemma fadd_not_finite_l (x y : float) :
  is_finite x = false -> is_finite (fadd x y) = false.
Proof.
  destruct x as [s|s| |s m e]; try discriminate; intros _;
    destruct y as [s'|s'| |s' m' e']; try reflexivity.
  destruct s, s'; reflexivity.
Qed.

Lemma fmul_nan_r (x : float) : fmul x S754_nan = S754_nan.
Proof. destruct x; reflexivity. Qed.

(** The mix of the soft bypass at a crossfade level of 1. *)
Lemma mix_at_full_wet (x p : float) :
  is_finite x = true -> is_binary32 p = true ->
  let out := fadd (fmul (fsub fone fone) x) (fmul p fone) in
  feq out p = true /\ (feq p fzero = false -> out = p).
Proof.
  intros Hx Hp. cbv zeta. rewrite (fmul_one_r p Hp).
  change (fsub fone fone) with (S754_zero false).
  destruct x as [sx|sx| |sx mx ex]; try discriminate;
    destruct p as [sp|sp| |sp mp ep]; try discriminate.
  - split; [destruct sx, sp; reflexivity|]. destruct sp; discriminate.
  - split; [|reflexivity]. unfold feq, SFeqb. cbn [fmul SFmul fadd SFadd].
    rewrite SFcompare_refl; reflexivity.
  - split; [destruct sx, sp; reflexivity|]. destruct sp; discriminate.
  - split; [|reflexivity]. unfold feq, SFeqb. cbn [fmul SFmul fadd SFadd].
    rewrite SFcompare_refl; reflexivity.
Qed.

(** A binary32 number minus itself is +0. *)
Lemma fsub_diag (x : float) : is_finite x = true -> fsub x x = fzero.
Proof.
  destruct x as [s|s| |s m e]; try discriminate; intros _.
  - destruct s; reflexivity.
  - unfold fsub, SFsub. rewrite Z.sub_diag. reflexivity.
Qed.

(** A number plus the product of +0 and a finite number. *)
Lemma fadd_zero_product (x r : float) :
  is_finite x = true -> is_finite r = true ->
  let out := fadd x (fmul fzero r) in
  feq out x = true /\ (feq x fzero = false -> out = x).
Proof.
  intros Hx Hr. cbv zeta.
  destruct r as [sr|sr| |sr mr er]; try discriminate;
    destruct x as [sx|sx| |sx mx ex]; try discriminate.
  - split; [destruct sx, sr; reflexivity|]. destruct sx; discriminate.
  - split; [|reflexivity]. unfold feq, SFeqb. cbn [fmul SFmul fadd SFadd].
    rewrite SFcompare_refl; reflexivity.
  - split; [destruct sx, sr; reflexivity|]. destruct sx; discriminate.
  - split; [|reflexivity]. unfold feq, SFeqb. cbn [fmul SFmul fadd SFadd].
    rewrite SFcompare_refl; reflexivity.
Qed.

(** A finite number plus the product of +0 and an infinity or a NaN. *)
Lemma fadd_zero_product_not_finite (x r : float) :
  is_finite x = true -> is_finite r = false -> fadd x (fmul fzero r) = S754_nan.
Proof.
  intros Hx Hr.
  destruct r as [sr|sr| |sr mr er]; try discriminate;
    destruct x as [sx|sx| |sx mx ex]; try discriminate; reflexivity.
Qed.

Section WithEstimators.

Context `{Libm} `{Estimators}.

Lemma fft_spectrum_whitening self w :
  fft_spectrum (residual_spectrum_whitening self w) = fft_spectrum self.
Proof.
  unfold residual_spectrum_whitening.
  destruct (for_bins _ _ _) as [wh re]. reflexivity.
Qed.

Lemma fft_spectrum_get_residual self w :
  fft_spectrum (get_residual_spectrum self w) = fft_spectrum self.
Proof.
  unfold get_residual_spectrum. destruct (fgt w fzero); [|reflexivity].
  rewrite fft_spectrum_whitening. reflexivity.
Qed.

Lemma fft_spectrum_denoise_frame self p noise :
  fft_spectrum (denoise_frame self p noise) = fft_spectrum self.
Proof.
  unfold denoise_frame. destruct (gain_estimation_run _ _ _ _ _ _ _ _) as [ge g].
  unfold get_final_spectrum. cbn [fft_spectrum set_processed_fft_spectrum].
  rewrite fft_spectrum_get_residual. reflexivity.
Qed.

(** The soft bypass of a bin whose spectrum entry is not finite. *)
Lemma soft_bypass_not_finite self k v :
  arrays_allocated self -> 1 <= k <= half_fft_size self ->
  fft_spectrum self !! k = Some v -> is_finite v = false ->
  exists out,
    processed_fft_spectrum (fft_denoiser_soft_bypass self) !! k = Some out
    /\ is_finite out = false /\ (v = S754_nan -> out = S754_nan).
Proof.
  intros (Hh & Hf & Hp & _) Hk Hv Hfin.
  unfold fft_denoiser_soft_bypass. cbn [processed_fft_spectrum set_processed_fft_spectrum].
  unfold update_bins. rewrite update_range_inside by lia.
  rewrite (list_lookup_total_correct _ _ _ Hv).
  eexists. split; [reflexivity|]. split.
  - apply fadd_not_finite_l, fmul_not_finite_r. exact Hfin.
  - intros ->. rewrite fmul_nan_r. reflexivity.
Qed.

(** X21.  A frame never cleans a number that is not finite.  If bin [k]
    of the spectrum handed in, above DC and below [half_fft_size], holds a
    NaN or an infinity, then bin [k] of the buffer handed back holds a NaN or
    an infinity (a NaN for a NaN), whatever the parameters, the crossfade
    level, the noise profile and the estimators are. *)
Theorem non_finite_bin_reaches_the_output
    (self : SpectralProcessor) (p : ProcessorParameters)
    (noise_spectrum fft_spectrum0 : list float) (k : nat) (v : float) :
  arrays_allocated self ->
  1 <= k < half_fft_size self ->
  fft_spectrum0 !! k = Some v ->
  is_finite v = false ->
  let r := spectral_processor_run self p noise_spectrum fft_spectrum0 in
  exists out,
    r.2 !! k = Some out
    /\ processed_fft_spectrum r.1.1 !! k = Some out
    /\ is_finite out = false
    /\ (v = S754_nan -> out = S754_nan).
Proof.
  intros Ha Hk Hv Hfin r.
  pose proof (arrays_allocated_frame_loaded self p fft_spectrum0 Ha) as H3.
  assert (Hhalf : half_fft_size (frame_loaded self p fft_spectrum0) = half_fft_size self)
    by reflexivity.
  assert (Hin : fft_spectrum (frame_loaded self p fft_spectrum0) !! k = Some v).
  { destruct Ha as (Hh & Hf & _).
    unfold frame_loaded, fft_denoiser_update_wetdry_target.
    cbn -[Nat.div Nat.mul sizeof_float update_bins memcpy get_fft_power_spectrum].
    assert (Hkf : k < fft_size self).
    { pose proof (Nat.div_mod_eq (fft_size self) 2). lia. }
    rewrite memcpy_lookup_whole.
    - rewrite (list_lookup_total_correct _ _ _ Hv). reflexivity.
    - rewrite Hf. exact Hkf.
    - unfold sizeof_float. rewrite Nat.mul_comm, Nat.div_mul by lia. exact Hkf. }
  assert (Hout : exists out,
            processed_fft_spectrum r.1.1 !! k = Some out
            /\ is_finite out = false /\ (v = S754_nan -> out = S754_nan)).
  { unfold r. rewrite run_cases.
    destruct (frame_is_denoised self p fft_spectrum0);
      [|destruct (frame_is_learned self p fft_spectrum0)]; cbn [fst snd].
    - apply soft_bypass_not_finite; [| |rewrite fft_spectrum_denoise_frame; exact Hin|exact Hfin].
      + apply arrays_allocated_denoise_frame. exact H3.
      + rewrite half_fft_size_denoise_frame, Hhalf. lia.
    - apply soft_bypass_not_finite; [| |exact Hin|exact Hfin].
      + destruct H3 as (Hh & Hf & Hp & Hr & Hd & Hm & Hw).
        unfold arrays_allocated. cbn -[Nat.div update_bins memcpy]. repeat split; assumption.
      + cbn [half_fft_size set_noise_estimation]. rewrite Hhalf. lia.
    - apply soft_bypass_not_finite; [exact H3| |exact Hin|exact Hfin].
      rewrite Hhalf. lia. }
  destruct Hout as (out & Hp & Ho & Hn).
  exists out. split; [|split; [exact Hp|split; [exact Ho | exact Hn]]].
  unfold r. rewrite run_output. fold r.
  rewrite memcpy_lookup_whole.
  - rewrite (list_lookup_total_correct _ _ _ Hp). reflexivity.
  - apply lookup_lt_Some in Hv. exact Hv.
  - unfold sizeof_float.
    replace ((4 * half_fft_size self + 1) / 4) with (half_fft_size self); [lia|].
    apply (Nat.div_unique _ 4 _ 1); lia.
Qed.

(** X23.  At a crossfade level of exactly 1 the soft bypass is
    transparent: for a finite entry of the spectrum handed in, every bin of
    the processed spectrum that holds a binary32 number comes out equal to
    what it held, and the same bit for bit unless it is a zero (a zero can
    change its sign). *)
Theorem full_wet_keeps_the_processed_bins
    (self : SpectralProcessor) (k : nat) (p : float) :
  wet_dry (crossfade_spectrum self) = fone ->
  1 <= k <= half_fft_size self ->
  is_finite (fft_spectrum self !!! k) = true ->
  processed_fft_spectrum self !! k = Some p ->
  is_binary32 p = true ->
  let out := processed_fft_spectrum (fft_denoiser_soft_bypass self) !!! k in
  feq out p = true /\ (feq p fzero = false -> out = p).
Proof.
  intros Hw Hk Hx Hp Hb out.
  assert (Hout : out = fadd (fmul (fsub fone fone) (fft_spectrum self !!! k))
                            (fmul p fone)).
  { unfold out, fft_denoiser_soft_bypass.
    cbn [processed_fft_spectrum set_processed_fft_spectrum].
    apply list_lookup_total_correct. unfold update_bins.
    rewrite update_range_inside by (try lia; apply lookup_lt_Some in Hp; exact Hp).
    rewrite Hw, (list_lookup_total_correct _ _ _ Hp). reflexivity. }
  rewrite Hout. apply mix_at_full_wet; assumption.
Qed.

(** X25.  A gain of 1 is transparent.  In a denoised frame without
    whitening, a bin whose gain the gain estimator sets to 1 has the
    spectrum entry itself as its denoised value and +0 as its residual; the
    processed bin is +0 with [residual_listen], and otherwise equal to the
    spectrum entry (the same bit for bit unless it is a zero), whatever the
    finite reduction amount is.  With a reduction amount that is an
    infinity or a NaN, the processed bin without [residual_listen] is a
    NaN: the product of the +0 residual and the amount is one. *)
Theorem unit_gain_is_transparent
    (self : SpectralProcessor) (p : ProcessorParameters) (noise_spectrum : list float)
    (k : nat) (x : float) :
  arrays_allocated self ->
  1 <= k <= half_fft_size self ->
  fft_spectrum self !! k = Some x ->
  is_binary32 x = true ->
  (gain_estimation_run (gain_estimation self)
     (power_spectrum (processing_spectrums self)) noise_spectrum
     (gain_spectrum (denoise_builder self))
     (transient_threshold p) (masking_ceiling_limit p) (release_time p)
     (noise_rescale p)).2 !!! k = fone ->
  fgt (whitening_factor p) fzero = false ->
  let r := denoise_frame self p noise_spectrum in
  denoised_spectrum (denoise_builder r) !! k = Some x
  /\ residual_spectrum (denoise_builder r) !! k = Some fzero
  /\ exists out,
       processed_fft_spectrum r !! k = Some out
       /\ (residual_listen p = true -> out = fzero)
       /\ (residual_listen p = false ->
           (is_finite (reduction_amount p) = true ->
            feq out x = true /\ (feq x fzero = false -> out = x))
           /\ (is_finite (reduction_amount p) = false -> out = S754_nan)).
Proof.
  intros (Hh & Hf & Hp & Hr & Hd & Hm & Hw) Hk Hx Hb Hgain Hwh r.
  assert (Hfin : is_finite x = true).
  { unfold is_binary32 in Hb. apply andb_prop in Hb. apply Hb. }
  pose proof (list_lookup_total_correct _ _ _ Hx) as Hx'.
  subst r. unfold denoise_frame.
  destruct (gain_estimation_run _ _ _ _ _ _ _ _) as [ge gain]. cbn [snd] in Hgain.
  unfold get_final_spectrum, get_residual_spectrum. rewrite Hwh.
  unfold get_denoised_spectrum.
  cbn -[update_bins].
  set (denoised := update_bins (half_fft_size self) _
                     (denoised_spectrum (denoise_builder self))).
  set (residual := update_bins (half_fft_size self) _
                     (residual_spectrum (denoise_builder self))).
  assert (Hden : denoised !! k = Some x).
  { unfold denoised, update_bins. rewrite update_range_inside by lia.
    rewrite Hx', Hgain, (fmul_one_r x Hb). reflexivity. }
  assert (Hres : residual !! k = Some fzero).
  { unfold residual, update_bins. rewrite update_range_inside by lia.
    rewrite Hx', (list_lookup_total_correct _ _ _ Hden), (fsub_diag x Hfin).
    reflexivity. }
  split; [exact Hden|]. split; [exact Hres|].
  destruct (residual_listen p).
  - eexists. split.
    + unfold update_bins. rewrite update_range_inside by lia. reflexivity.
    + split; [|discriminate]. intros _. apply list_lookup_total_correct. exact Hres.
  - eexists. split.
    + unfold update_bins. rewrite update_range_inside by lia. reflexivity.
    + split; [discriminate|]. intros _.
      rewrite (list_lookup_total_correct _ _ _ Hden),
        (list_lookup_total_correct _ _ _ Hres).
      split.
      * intros Hred. apply fadd_zero_product; assumption.
      * intros Hred. apply fadd_zero_product_not_finite; assumption.
Qed.

End WithEstimators.

End SpectralRobustness.

(** ** The denoiser and the audio *)

Module STFTAudioFacts.

Import CArray CArrayFacts CLoopFacts STFT STFTAudio STFTProofs.

Section WithBackend.

Context `{Libm} `{Backend}.

(** The magnitudes and phases [get_info_from_bins] computes do not depend
    on the array it writes the powers to. *)
Lemma info_without_power (pw pw' mg ph : list float) (half n : Z) (buffer : list float) :
  let r := get_info_from_bins pw mg ph half n buffer in
  let r' := get_info_from_bins pw' mg ph half n buffer in
  r.1.2 = r'.1.2 /\ r.2 = r'.2.
Proof.
  cbv zeta. unfold get_info_from_bins, for_int.
  apply (for_range_sim
           (fun (x y : list float * list float * list float) =>
              x.1.2 = y.1.2 /\ x.2 = y.2)).
  - split; reflexivity.
  - intros k [[a b] c] [[a' b'] c'] _ [E1 E2]. cbn [fst snd] in E1, E2. subst b' c'.
    cbn [Nat.add]. destruct (_ <? _); split; reflexivity.
Qed.

Lemma same_audio_refl (s : STFTProcessor) : same_audio s s.
Proof. repeat split. Qed.

(** One transform cycle on two processors that carry the same audio. *)
Lemma transform_cycle_same_audio (s s' : STFTProcessor) (noise noise' : NoiseProfile)
    (args args' : DenoiseArguments) :
  same_audio s s' ->
  same_audio (transform_cycle s noise args).1 (transform_cycle s' noise' args').1.
Proof.
  destruct s as [n h wi wo ov sc hp lat pos win wout inf outf acc ibuf obuf pw ph mg d].
  destruct s' as [n' h' wi' wo' ov' sc' hp' lat' pos' win' wout' inf' outf' acc' ibuf'
                  obuf' pw' ph' mg' d'].
  unfold same_audio. cbn. 
  intros (-> & -> & -> & -> & -> & -> & -> & -> & -> & -> & -> & -> & -> & -> & -> & ->
          & -> & ->).
  unfold transform_cycle. cbn.
  match goal with
  | |- context [get_info_from_bins pw mg' ph' ?hh ?nn ?buf] =>
      pose proof (info_without_power pw pw' mg' ph' hh nn buf) as [E1 E2];
      destruct (get_info_from_bins pw mg' ph' hh nn buf) as [[p1 m1] f1];
      destruct (get_info_from_bins pw' mg' ph' hh nn buf) as [[p2 m2] f2]
  end.
  cbn [fst snd] in E1, E2. subst m2 f2.
  destruct (fft_denoiser_run d noise p1 args) as [[d1 n1] q1].
  destruct (fft_denoiser_run d' noise' p2 args') as [[d2 n2] q2].
  destruct (fftwf_execute_backward _) as [i3 o2].
  cbn. repeat split.
Qed.

Lemma stft_sample_same_audio input (args args' : DenoiseArguments) (k : Z)
    (p p' : Progress) :
  same_audio (processor p) (processor p') -> output p = output p' -> cycles p = cycles p' ->
  let q := stft_sample input args k p in
  let q' := stft_sample input args' k p' in
  same_audio (processor q) (processor q') /\ output q = output q' /\ cycles q = cycles q'.
Proof.
  intros Hs Ho Hc. cbv zeta. unfold stft_sample.
  destruct p as [s np o c], p' as [s' np' o' c']. cbn [processor profile output cycles] in *.
  subst o' c'.
  set (s1 := with_state _ (read_position s + 1) _ _ s).
  set (s1' := with_state _ (read_position s' + 1) _ _ s').
  assert (H1 : same_audio s1 s1').
  { subst s1 s1'. destruct Hs as (E1 & E2 & E3 & E4 & E5 & E6 & E7 & E8 & E9 & E10 & E11
                                  & E12 & E13 & E14 & E15 & E16 & E17 & E18).
    unfold same_audio. cbn. rewrite E9, E12. repeat split; assumption. }
  assert (Hpos : read_position s1 = read_position s1') by apply H1.
  assert (Hn : fft_size s1 = fft_size s1') by apply H1.
  assert (Hlat : input_latency s1 = input_latency s1') by apply H1.
  assert (Hout : wr o k (rd (out_fifo s) (read_position s - input_latency s))
                 = wr o k (rd (out_fifo s') (read_position s' - input_latency s'))).
  { destruct Hs as (E1 & E2 & E3 & E4 & E5 & E6 & E7 & E8 & E9 & E10 & E11
                    & E12 & E13 & E14 & E15 & E16 & E17 & E18).
    rewrite E8, E9, E13. reflexivity. }
  rewrite Hout, <- Hpos, <- Hn.
  destruct (fft_size s1 <=? read_position s1).
  - pose proof (transform_cycle_same_audio
                  (with_read_position (input_latency s1) s1)
                  (with_read_position (input_latency s1') s1') np np' args args') as Ht.
    destruct (transform_cycle (with_read_position (input_latency s1) s1) np args)
      as [s2 n2].
    destruct (transform_cycle (with_read_position (input_latency s1') s1') np' args')
      as [s2' n2'].
    cbn [processor output cycles fst] in *. split; [|split; reflexivity].
    apply Ht.
    destruct H1 as (E1 & E2 & E3 & E4 & E5 & E6 & E7 & E8 & E9 & E10 & E11
                    & E12 & E13 & E14 & E15 & E16 & E17 & E18).
    unfold same_audio, with_read_position. cbn. repeat split; assumption.
  - cbn [processor output cycles]. split; [exact H1|]. split; reflexivity.
Qed.

(** X24.  What the denoiser returns never reaches the audio.
    [fft_denoiser_run] is handed the power spectrum, and the inverse
    transform is run on [output_fft_buffer], the forward transform as it
    is.  So the samples [stft_processor_run] writes, and every field of the
    processor but [fft_denoiser] and [power_spectrum], are the same whatever
    the arguments of the denoiser (enable, learn, the amounts), the noise
    profile, the state of the denoiser and the power spectrum are. *)
Theorem output_ignores_the_denoiser
    (self self' : STFTProcessor) (noise noise' : NoiseProfile) (n_samples : Z)
    (input output0 : list float) (args args' : DenoiseArguments) :
  same_audio self self' ->
  let p := stft_processor_run self noise n_samples input output0 args in
  let p' := stft_processor_run self' noise' n_samples input output0 args' in
  output p = output p'
  /\ same_audio (processor p) (processor p')
  /\ cycles p = cycles p'.
Proof.
  intros Hs p p'.
  assert (Hsim : same_audio (processor p) (processor p') /\ output p = output p'
                 /\ cycles p = cycles p').
  { unfold p, p', stft_processor_run, for_int.
    apply (for_range_sim
             (fun x y : Progress =>
                same_audio (processor x) (processor y) /\ output x = output y
                /\ cycles x = cycles y)).
    - cbn [processor output cycles]. split; [exact Hs|]. split; reflexivity.
    - intros k x y _ (H1 & H2 & H3). cbn [Nat.add].
      apply stft_sample_same_audio; assumption. }
  destruct Hsim as (H1 & H2 & H3). split; [exact H2|]. split; [exact H1 | exact H3].
Qed.

End WithBackend.

End STFTAudioFacts.

(** ** The thresholds of the bins of a band *)

Module MaskingAssignment.

Import CArray CArrayFacts CLoopFacts MaskingBands MaskingBehaviour FloatIntegers.
Local Open Scope nat_scope.

(** The loop [for (k = start_pos; k < end_pos; k++) masking_thresholds[k] =
    v] of one band, given what the bands before have left. *)
Lemma band_bins_step (e : nat -> nat) (m : nat) (v : float) (mt0 mt : list float)
    (T T' : list float) :
  (forall j, j < S m -> match j with 0 => 0 | S i => e i end <= e j) ->
  length mt = length mt0 ->
  (forall j k, j < m -> match j with 0 => 0 | S i => e i end <= k < e j ->
     k < length mt0 -> mt !! k = Some (T !!! j)) ->
  (forall k, match m with 0 => 0 | S i => e i end <= k -> mt !! k = mt0 !! k) ->
  T' !!! m = v ->
  (forall j, j < m -> T' !!! j = T !!! j) ->
  let start := match m with 0 => 0 | S i => e i end in
  let mt' := for_range start (e m - start) (fun k acc => <[k := v]> acc) mt in
  length mt' = length mt0
  /\ (forall j k, j < S m -> match j with 0 => 0 | S i => e i end <= k < e j ->
        k < length mt0 -> mt' !! k = Some (T' !!! j))
  /\ (forall k, e m <= k -> mt' !! k = mt0 !! k).
Proof.
  intros He Hlm Hdone Hrest Hv Hold start mt'.
  assert (Hse : start <= e m) by (apply (He m); lia).
  assert (Hmono := band_ends_increase e (S m) He).
  destruct (for_range_forward (fun _ _ => v) start (e m - start) mt
              (fun _ _ _ _ => eq_refl)) as (Hl' & Hin' & Hout').
  cbv zeta in Hl', Hin', Hout'. fold mt' in Hl', Hin', Hout'.
  split; [rewrite Hl'; exact Hlm|]. split.
  - intros j k Hj Hk Hkl. destruct (decide (j = m)) as [->|Hne].
    + rewrite Hv. apply Hin'; [fold start in Hk; lia | rewrite Hlm; exact Hkl].
    + assert (Hjm : e j <= start) by (apply Hmono; lia).
      rewrite Hout' by lia. rewrite Hold by lia.
      apply Hdone; [lia | exact Hk | exact Hkl].
  - intros k Hk. rewrite Hout' by lia. apply Hrest. fold start. lia.
Qed.

(** The positions read back from [intermediate_band_bins]. *)
Lemma band_positions (e : nat -> nat) (bark_z inter : list float) :
  (Z.of_nat (length bark_z) < 2 ^ 24)%Z ->
  (forall j, j < MaskingEstimator.N_BARK_BANDS ->
     match j with 0 => 0 | S i => e i end <= e j
     /\ e j <= Nat.max 1 (length bark_z)
     /\ inter !! j = Some (Float32.of_Z (Z.of_nat (e j)))) ->
  forall m, m < MaskingEstimator.N_BARK_BANDS ->
    (if m =? 0 then 0 else Z.to_nat (to_Z (inter !!! (m - 1))))
    = match m with 0 => 0 | S i => e i end
    /\ Z.to_nat (to_Z (inter !!! m)) = e m.
Proof.
  intros Hsize He m Hm.
  assert (Hread : forall j, j < MaskingEstimator.N_BARK_BANDS ->
            Z.to_nat (to_Z (inter !!! j)) = e j).
  { intros j Hj. destruct (He j Hj) as (_ & Hle & Hl).
    rewrite (list_lookup_total_correct _ _ _ Hl). apply to_nat_of_nat. lia. }
  split; [|apply Hread; exact Hm].
  destruct m as [|i]; [reflexivity|]. cbn [Nat.eqb].
  replace (S i - 1) with i by lia. apply Hread. lia.
Qed.

Section WithLibm.

Context `{Libm}.

Lemma library_band_bins (self : MaskingEstimator.MaskingEstimator)
    (spectrum masking_thresholds : list float) :
  length (MaskingEstimator.bark_spectrum self) = MaskingEstimator.N_BARK_BANDS ->
  length (MaskingEstimator.n_bins_per_band self) = MaskingEstimator.N_BARK_BANDS ->
  length (MaskingEstimator.intermediate_band_bins self) = MaskingEstimator.N_BARK_BANDS ->
  length (MaskingEstimator.threshold_j self) = MaskingEstimator.N_BARK_BANDS ->
  (Z.of_nat (length (MaskingEstimator.bark_z_spectrum self)) < 2 ^ 24)%Z ->
  let r := MaskingEstimator.band_thresholds self spectrum masking_thresholds in
  exists e : nat -> nat,
    let boundary j := match j with 0 => 0 | S i => e i end in
    (forall j, j < MaskingEstimator.N_BARK_BANDS ->
       boundary j <= e j
       /\ MaskingEstimator.intermediate_band_bins r.1 !! j
          = Some (Float32.of_Z (Z.of_nat (e j))))
    /\ length r.2 = length masking_thresholds
    /\ (forall j k, j < MaskingEstimator.N_BARK_BANDS -> boundary j <= k < e j ->
          k < length masking_thresholds ->
          r.2 !! k = Some (MaskingEstimator.threshold_j r.1 !!! j))
    /\ (forall k, e (MaskingEstimator.N_BARK_BANDS - 1) <= k ->
          r.2 !! k = masking_thresholds !! k).
Proof.
  intros Hb Hn Hi Ht Hsize r.
  destruct (partition_ends _ _ _ _ _ (library_bands_partition self spectrum Hb Hn Hi))
    as (e & He).
  exists e. cbv zeta.
  set (self1 := MaskingEstimator.compute_bark_spectrum self spectrum) in *.
  set (inter1 := MaskingEstimator.intermediate_band_bins self1) in *.
  assert (Ht1 : length (MaskingEstimator.threshold_j self1) = MaskingEstimator.N_BARK_BANDS).
  { subst self1. unfold MaskingEstimator.compute_bark_spectrum.
    destruct (for_range _ _ _ _) as [[[lp bark] nb] inter]. exact Ht. }
  pose proof (band_positions e _ inter1 Hsize He) as Hpos.
  assert (Hinv :
    MaskingEstimator.intermediate_band_bins r.1 = inter1
    /\ length (MaskingEstimator.threshold_j r.1) = MaskingEstimator.N_BARK_BANDS
    /\ length r.2 = length masking_thresholds
    /\ (forall j k, j < MaskingEstimator.N_BARK_BANDS ->
          match j with 0 => 0 | S i => e i end <= k < e j ->
          k < length masking_thresholds ->
          r.2 !! k = Some (MaskingEstimator.threshold_j r.1 !!! j))
    /\ (forall k, match MaskingEstimator.N_BARK_BANDS with 0 => 0 | S i => e i end <= k ->
          r.2 !! k = masking_thresholds !! k)).
  { unfold r, MaskingEstimator.band_thresholds. fold self1.
    set (self2 := MaskingEstimator.set_spreaded_spectrum _ self1).
    replace MaskingEstimator.N_BARK_BANDS
      with (0 + MaskingEstimator.N_BARK_BANDS) at 3 4 by reflexivity.
    apply (for_range_ind
             (fun m (st : MaskingEstimator.MaskingEstimator * list float) =>
                MaskingEstimator.intermediate_band_bins st.1 = inter1
                /\ length (MaskingEstimator.threshold_j st.1) = MaskingEstimator.N_BARK_BANDS
                /\ length st.2 = length masking_thresholds
                /\ (forall j k, j < m ->
                      match j with 0 => 0 | S i => e i end <= k < e j ->
                      k < length masking_thresholds ->
                      st.2 !! k = Some (MaskingEstimator.threshold_j st.1 !!! j))
                /\ (forall k, match m with 0 => 0 | S i => e i end <= k ->
                      st.2 !! k = masking_thresholds !! k))).
    - cbn [fst snd]. split; [reflexivity|]. split; [exact Ht1|]. split; [reflexivity|].
      split; [intros j k Hj; lia | reflexivity].
    - intros m [s mt] Hm (Hinter & Hlt & Hlm & Hdone & Hrest). cbn [fst snd] in *.
      unfold MaskingEstimator.band_threshold.
      set (threshold := fsub _ _).
      set (thresholds := <[m := threshold]> (MaskingEstimator.threshold_j s)).
      cbn [fst snd MaskingEstimator.intermediate_band_bins MaskingEstimator.threshold_j
           MaskingEstimator.set_band_threshold].
      rewrite Hinter.
      destruct (Hpos m ltac:(lia)) as [Hstart Hend]. rewrite Hstart, Hend.
      destruct (band_bins_step e m (thresholds !!! m) masking_thresholds mt
                  (MaskingEstimator.threshold_j s) thresholds) as (H1 & H2 & H3).
      + intros j Hj. apply (He j). lia.
      + exact Hlm.
      + exact Hdone.
      + exact Hrest.
      + reflexivity.
      + intros j Hj. unfold thresholds. apply list_lookup_total_insert_ne. lia.
      + cbv zeta in H1, H2, H3.
        split; [reflexivity|].
        split; [unfold thresholds; rewrite length_insert; exact Hlt|].
        split; [exact H1|]. split; [exact H2 | exact H3]. }
  destruct Hinv as (Hinter & _ & Hlen & Hdone & Hrest).
  split.
  - intros j Hj. destruct (He j Hj) as (H1 & _ & H3).
    split; [exact H1|]. rewrite Hinter. exact H3.
  - split; [exact Hlen|]. split; [exact Hdone | exact Hrest].
Qed.

Lemma plugin_band_bins (self : MaskingPlugin.MaskingEstimator)
    (spectrum masking_thresholds : list float) :
  (Z.of_nat (length (MaskingPlugin.bark_z self)) < 2 ^ 24)%Z ->
  let bands :=
    MaskingPlugin.compute_bark_spectrum self (calloc MaskingPlugin.N_BARK_BANDS) spectrum
      (calloc MaskingPlugin.N_BARK_BANDS) (calloc MaskingPlugin.N_BARK_BANDS) in
  let l := MaskingPlugin.band_thresholds self spectrum masking_thresholds in
  exists e : nat -> nat,
    let boundary j := match j with 0 => 0 | S i => e i end in
    (forall j, j < MaskingPlugin.N_BARK_BANDS ->
       boundary j <= e j /\ bands.1.2 !! j = Some (Float32.of_Z (Z.of_nat (e j))))
    /\ length (MaskingPlugin.masking_thresholds_out l) = length masking_thresholds
    /\ (forall j k, j < MaskingPlugin.N_BARK_BANDS -> boundary j <= k < e j ->
          k < length masking_thresholds ->
          MaskingPlugin.masking_thresholds_out l !! k
          = Some (MaskingPlugin.threshold_j l !!! j))
    /\ (forall k, e (MaskingPlugin.N_BARK_BANDS - 1) <= k ->
          MaskingPlugin.masking_thresholds_out l !! k = masking_thresholds !! k).
Proof.
  intros Hsize bands l.
  pose proof (plugin_bands_partition self (calloc MaskingPlugin.N_BARK_BANDS) spectrum
                (calloc MaskingPlugin.N_BARK_BANDS) (calloc MaskingPlugin.N_BARK_BANDS)
                (length_replicate _ _) (length_replicate _ _) (length_replicate _ _))
    as Hpart.
  cbv zeta in Hpart. fold bands in Hpart.
  destruct (partition_ends _ _ _ _ _ Hpart) as (e & He).
  exists e. cbv zeta.
  pose proof (band_positions e _ bands.1.2 Hsize He) as Hpos.
  assert (Hinv :
    length (MaskingPlugin.threshold_j l) = MaskingPlugin.N_BARK_BANDS
    /\ length (MaskingPlugin.masking_thresholds_out l) = length masking_thresholds
    /\ (forall j k, j < MaskingPlugin.N_BARK_BANDS ->
          match j with 0 => 0 | S i => e i end <= k < e j ->
          k < length masking_thresholds ->
          MaskingPlugin.masking_thresholds_out l !! k
          = Some (MaskingPlugin.threshold_j l !!! j))
    /\ (forall k, match MaskingPlugin.N_BARK_BANDS with 0 => 0 | S i => e i end <= k ->
          MaskingPlugin.masking_thresholds_out l !! k = masking_thresholds !! k)).
  { unfold l, MaskingPlugin.band_thresholds. fold bands.
    destruct bands as [[bark inter] n_bins]. cbn [fst snd] in *.
    replace MaskingPlugin.N_BARK_BANDS
      with (0 + MaskingPlugin.N_BARK_BANDS) at 6 7 by reflexivity.
    apply (for_range_ind
             (fun m (x : MaskingPlugin.BandLocals) =>
                length (MaskingPlugin.threshold_j x) = MaskingPlugin.N_BARK_BANDS
                /\ length (MaskingPlugin.masking_thresholds_out x)
                   = length masking_thresholds
                /\ (forall j k, j < m ->
                      match j with 0 => 0 | S i => e i end <= k < e j ->
                      k < length masking_thresholds ->
                      MaskingPlugin.masking_thresholds_out x !! k
                      = Some (MaskingPlugin.threshold_j x !!! j))
                /\ (forall k, match m with 0 => 0 | S i => e i end <= k ->
                      MaskingPlugin.masking_thresholds_out x !! k
                      = masking_thresholds !! k))).
    - cbn [MaskingPlugin.threshold_j MaskingPlugin.masking_thresholds_out].
      split; [apply length_replicate|]. split; [reflexivity|].
      split; [intros j k Hj; lia | reflexivity].
    - intros m x Hm (Hlt & Hlm & Hdone & Hrest).
      unfold MaskingPlugin.band_threshold.
      cbn [MaskingPlugin.threshold_j MaskingPlugin.masking_thresholds_out].
      match goal with
      | |- context [for_range _ _ (fun k acc => <[k := ?T !!! m]> acc) _] =>
          set (thresholds := T)
      end.
      destruct (Hpos m ltac:(exact (proj2 Hm))) as [Hstart Hend]. rewrite Hstart, Hend.
      assert (Hlen' : length thresholds = MaskingPlugin.N_BARK_BANDS).
      { unfold thresholds. rewrite !length_insert. exact Hlt. }
      destruct (band_bins_step e m (thresholds !!! m) masking_thresholds
                  (MaskingPlugin.masking_thresholds_out x)
                  (MaskingPlugin.threshold_j x) thresholds) as (H1 & H2 & H3).
      + intros j Hj. apply (He j). unfold MaskingEstimator.N_BARK_BANDS.
        unfold MaskingPlugin.N_BARK_BANDS in Hm. lia.
      + exact Hlm.
      + exact Hdone.
      + exact Hrest.
      + reflexivity.
      + intros j Hj. unfold thresholds.
        rewrite !list_lookup_total_insert_ne by lia. reflexivity.
      + cbv zeta in H1, H2, H3.
        split; [exact Hlen'|]. split; [exact H1|]. split; [exact H2 | exact H3]. }
  destruct Hinv as (_ & Hlen & Hdone & Hrest).
  split.
  - intros j Hj. destruct (He j Hj) as (H1 & _ & H3). split; [exact H1 | exact H3].
  - split; [exact Hlen|]. split; [exact Hdone | exact Hrest].
Qed.

(** X22.  Every bin of a band receives the threshold of the band.  After
    the loop over the bands of [compute_masking_thresholds], in the library
    and in the plugin, [masking_thresholds[k]] is [threshold_j[j]] for each
    bin [k] from the end of band [j - 1] (from bin 0 for band 0) up to the end
    of band [j], the ends being those [compute_bark_spectrum] stored in
    [intermediate_band_bins]; bins from the end of the last band on keep what
    the caller's array held. *)
Theorem band_bins_share_the_band_threshold :
  (forall (self : MaskingEstimator.MaskingEstimator)
          (spectrum masking_thresholds : list float),
     length (MaskingEstimator.bark_spectrum self) = MaskingEstimator.N_BARK_BANDS ->
     length (MaskingEstimator.n_bins_per_band self) = MaskingEstimator.N_BARK_BANDS ->
     length (MaskingEstimator.intermediate_band_bins self) = MaskingEstimator.N_BARK_BANDS ->
     length (MaskingEstimator.threshold_j self) = MaskingEstimator.N_BARK_BANDS ->
     (Z.of_nat (length (MaskingEstimator.bark_z_spectrum self)) < 2 ^ 24)%Z ->
     let r := MaskingEstimator.band_thresholds self spectrum masking_thresholds in
     exists e : nat -> nat,
       let boundary j := match j with 0 => 0 | S i => e i end in
       (forall j, j < MaskingEstimator.N_BARK_BANDS ->
          boundary j <= e j
          /\ MaskingEstimator.intermediate_band_bins r.1 !! j
             = Some (Float32.of_Z (Z.of_nat (e j))))
       /\ length r.2 = length masking_thresholds
       /\ (forall j k, j < MaskingEstimator.N_BARK_BANDS -> boundary j <= k < e j ->
             k < length masking_thresholds ->
             r.2 !! k = Some (MaskingEstimator.threshold_j r.1 !!! j))
       /\ (forall k, e (MaskingEstimator.N_BARK_BANDS - 1) <= k ->
             r.2 !! k = masking_thresholds !! k))
  /\ (forall (self : MaskingPlugin.MaskingEstimator)
             (spectrum masking_thresholds : list float),
        (Z.of_nat (length (MaskingPlugin.bark_z self)) < 2 ^ 24)%Z ->
        let bands :=
          MaskingPlugin.compute_bark_spectrum self (calloc MaskingPlugin.N_BARK_BANDS)
            spectrum (calloc MaskingPlugin.N_BARK_BANDS)
            (calloc MaskingPlugin.N_BARK_BANDS) in
        let l := MaskingPlugin.band_thresholds self spectrum masking_thresholds in
        exists e : nat -> nat,
          let boundary j := match j with 0 => 0 | S i => e i end in
          (forall j, j < MaskingPlugin.N_BARK_BANDS ->
             boundary j <= e j /\ bands.1.2 !! j = Some (Float32.of_Z (Z.of_nat (e j))))
          /\ length (MaskingPlugin.masking_thresholds_out l) = length masking_thresholds
          /\ (forall j k, j < MaskingPlugin.N_BARK_BANDS -> boundary j <= k < e j ->
                k < length masking_thresholds ->
                MaskingPlugin.masking_thresholds_out l !! k
                = Some (MaskingPlugin.threshold_j l !!! j))
          /\ (forall k, e (MaskingPlugin.N_BARK_BANDS - 1) <= k ->
                MaskingPlugin.masking_thresholds_out l !! k = masking_thresholds !! k)).
Proof.
  split.
  - intros self spectrum mt Hb Hn Hi Ht Hsize.
    exact (library_band_bins self spectrum mt Hb Hn Hi Ht Hsize).
  - intros self spectrum mt Hsize.
    exact (plugin_band_bins self spectrum mt Hsize).
Qed.

End WithLibm.

End MaskingAssignment.

(** ** More theorems at concrete engines and frames *)

Module MoreRuns.

Import CArray CArrayFacts Reference Examples MoreExamples.

(** *** Spectral processor *)


(** The reference estimators write into the arrays they are handed. *)
Lemma reference_estimators_keep_lengths : SpectralFrames.estimators_keep_lengths.
Proof.
  split.
  - intros ge power noise gain t m r n. cbn. apply length_imap.
  - intros spectrum n power half. cbn. unfold power_spectrum_ref.
    apply (CArrayFacts.for_range_invariant (fun acc => length acc = length power)).
    + reflexivity.
    + intros k acc _ Hl. rewrite length_insert. exact Hl.
Qed.

(** The arrays of the engine after a learned and a denoised frame. *)
Lemma engine_arrays_witness :
  SpectralProcessor.reachable after_denoising.1.1
  /\ SpectralFrames.estimators_keep_lengths
  /\ SpectralFrames.arrays_allocated after_denoising.1.1
  /\ SpectralFrames.estimated_arrays_allocated after_denoising.1.1.
Proof.
  split; [exact Runs.after_denoising_reachable|].
  split; [exact reference_estimators_keep_lengths|].
  pose proof (SpectralFrameProofs.engine_arrays_keep_their_sizes
                after_denoising.1.1 Runs.after_denoising_reachable) as (Ha & _ & He).
  split; [exact Ha|]. exact (proj1 (He reference_estimators_keep_lengths)).
Defined.

(** *** STFT framer *)

Lemma framer0_framed : STFT.framed framer0.
Proof. unfold framer0. apply STFTProofs.initialize_framed. lia. Qed.

(** Five samples into [framer0], whose FIFO of 8 floats has 6 below
    [read_position]. *)
Lemma in_fifo_witness :
  STFT.framed framer0
  /\ 0 <= STFT.input_latency framer0
  /\ 0 <= 5
  /\ length (STFT.in_fifo framer0) = Z.to_nat (STFT.fft_size framer0)
  /\ (Z.to_nat 5 <= length samples5)%nat
  /\ (let p := STFT.stft_processor_run framer0 [] 5
                 samples5 (calloc 5) no_arguments in
      let r := Z.to_nat (STFT.read_position (STFT.processor p)) in
      let received :=
        take (Z.to_nat (STFT.read_position framer0)) (STFT.in_fifo framer0)
        ++ take (Z.to_nat 5) samples5 in
      take r (STFT.in_fifo (STFT.processor p)) = drop (length received - r) received).
Proof.
  assert (H1 : 0 <= STFT.input_latency framer0) by (vm_compute; discriminate).
  assert (H2 : 0 <= 5) by lia.
  assert (H3 : length (STFT.in_fifo framer0) = Z.to_nat (STFT.fft_size framer0))
    by (vm_compute; reflexivity).
  assert (H4 : (Z.to_nat 5 <= length samples5)%nat)
    by (vm_compute; lia).
  split; [exact framer0_framed|]. split; [exact H1|]. split; [exact H2|].
  split; [exact H3|]. split; [exact H4|].
  exact (proj2 (STFTBehaviour.in_fifo_holds_the_latest_samples
                  framer0 [] 5 samples5 (calloc 5)
                  no_arguments framer0_framed H1 H2 H3 H4)).
Defined.

(** One transform cycle of [framer0]: hop 2, frames of 8, an accumulator of
    16.  The two entries that reach [out_fifo] are the accumulator plus the
    windowed and scaled inverse transform. *)
Lemma synthesis_witness :
  0 <= STFT.hop framer0 <= STFT.fft_size framer0
  /\ (Z.to_nat (STFT.fft_size framer0) <= length (STFT.output_accum framer0))%nat
  /\ (Z.to_nat (STFT.hop framer0) <= length (STFT.out_fifo framer0))%nat
  /\ forall k, 0 <= k < STFT.hop framer0 ->
       STFT.rd (STFT.out_fifo (STFT.transform_cycle framer0 [] no_arguments).1) k
       = fadd (STFT.rd (STFT.output_accum framer0) k)
           (fdiv
              (fmul (STFT.rd (STFT.output_window framer0) k)
                 (fdiv
                    (STFT.rd (STFT.fftwf_execute_backward
                           (STFT.fftwf_execute_forward
                              (STFT.for_int (STFT.fft_size framer0)
                                 (fun i a =>
                                    STFT.wr a i (fmul (STFT.rd a i) (STFT.rd (STFT.input_window framer0) i)))
                                 (memcpy (STFT.input_fft_buffer framer0)
                                    (STFT.in_fifo framer0)
                                    (sizeof_float * Z.to_nat (STFT.fft_size framer0)))))).1
                        k)
                    (Float32.of_Z (STFT.fft_size framer0))))
              (fmul (STFT.overlap_scale_factor framer0)
                 (Float32.of_Z (STFT.overlap_factor framer0)))).
Proof.
  assert (H1 : 0 <= STFT.hop framer0 <= STFT.fft_size framer0) by (vm_compute; split; discriminate).
  assert (H2 : (Z.to_nat (STFT.fft_size framer0) <= length (STFT.output_accum framer0))%nat)
    by (vm_compute; lia).
  assert (H3 : (Z.to_nat (STFT.hop framer0) <= length (STFT.out_fifo framer0))%nat)
    by (vm_compute; lia).
  split; [exact H1|]. split; [exact H2|]. split; [exact H3|].
  pose proof (STFTBehaviour.synthesis_overlap_adds framer0 [] no_arguments H1 H2 H3) as Hx.
  cbv zeta in Hx. destruct Hx as (Hout & _ & _ & _ & Hl & Hframe & _).
  assert (Hlen : length (STFT.input_fft_buffer
                           (STFT.transform_cycle framer0 [] no_arguments).1) = 8%nat)
    by (vm_compute; reflexivity).
  assert (Hhop : STFT.hop framer0 = 2) by (vm_compute; reflexivity).
  assert (Hn : STFT.fft_size framer0 = 8) by (vm_compute; reflexivity).
  intros k Hk. rewrite (Hout k Hk). f_equal.
  apply Hframe; [lia|]. rewrite <- Hl, Hlen. lia.
Defined.

(** Of the five samples of output of [framer0], the first two are the first
    two entries of its [out_fifo]. *)
Lemma first_hop_witness :
  STFT.framed framer0
  /\ STFT.read_position framer0 = STFT.input_latency framer0
  /\ (Z.to_nat (STFT.hop framer0) <= length (STFT.out_fifo framer0))%nat
  /\ 0 <= 5
  /\ (Z.to_nat 5 <= length (calloc 5))%nat
  /\ forall k, 0 <= k < 5 -> k < STFT.hop framer0 ->
       STFT.output (STFT.stft_processor_run framer0 [] 5
                      samples5 (calloc 5) no_arguments)
         !! Z.to_nat k
       = Some (STFT.rd (STFT.out_fifo framer0) k).
Proof.
  assert (H1 : STFT.read_position framer0 = STFT.input_latency framer0)
    by (vm_compute; reflexivity).
  assert (H2 : (Z.to_nat (STFT.hop framer0) <= length (STFT.out_fifo framer0))%nat)
    by (vm_compute; lia).
  assert (H3 : 0 <= 5) by lia.
  assert (H4 : (Z.to_nat 5 <= length (calloc 5))%nat) by (vm_compute; lia).
  split; [exact framer0_framed|]. split; [exact H1|]. split; [exact H2|].
  split; [exact H3|]. split; [exact H4|].
  exact (proj1 (proj2 (STFTBehaviour.first_hop_of_output_is_the_old_out_fifo
                         framer0 [] 5 samples5 (calloc 5)
                         no_arguments framer0_framed H1 H2 H3 H4))).
Defined.

(** Five samples in one call, and in calls of two and three. *)
Lemma two_calls_witness :
  0 <= 2
  /\ 0 <= 3
  /\ (Z.to_nat 2 <= length (calloc 5))%nat
  /\ (let whole := STFT.stft_processor_run framer0 [] (2 + 3)
                     samples5 (calloc 5) no_arguments in
      let first := STFT.stft_processor_run framer0 [] 2
                     samples5 (calloc 5) no_arguments in
      let second :=
        STFT.stft_processor_run (STFT.processor first) (STFT.profile first) 3
          (drop (Z.to_nat 2) samples5)
          (drop (Z.to_nat 2) (STFT.output first)) no_arguments in
      STFT.processor whole = STFT.processor second).
Proof.
  assert (H1 : 0 <= 2) by lia.
  assert (H2 : 0 <= 3) by lia.
  assert (H3 : (Z.to_nat 2 <= length (calloc 5))%nat) by (vm_compute; lia).
  split; [exact H1|]. split; [exact H2|]. split; [exact H3|].
  exact (proj1 (STFTBehaviour.run_in_two_calls
                  framer0 [] 2 3 samples5 (calloc 5)
                  no_arguments H1 H2 H3)).
Defined.

(** *** Plugin state *)

(** The state saved by [plugin0] with [fft_size] 4 is refused by the engine
    that saved it, whose [half_fft_size] is 2. *)
Lemma save_then_restore_witness :
  PluginStateChecks.distinct_keys plugin0
  /\ length (PluginState.noise_profile_object plugin0) = 6%nat
  /\ - 2 ^ 31 <= 4 < 2 ^ 31
  /\ PluginState.plugin_state_restorestate saved0.1 saved0.2 profile3 fzero 4 2
     = PluginState.Returned false saved0.1 profile3.
Proof.
  assert (H1 : PluginStateChecks.distinct_keys plugin0).
  { unfold PluginStateChecks.distinct_keys. vm_compute. repeat split; discriminate. }
  assert (H2 : length (PluginState.noise_profile_object plugin0) = 6%nat)
    by (vm_compute; reflexivity).
  assert (H3 : - 2 ^ 31 <= 4 < 2 ^ 31) by lia.
  assert (H4 : 4 <> 2) by lia.
  split; [exact H1|]. split; [exact H2|]. split; [exact H3|].
  exact (proj1 (PluginStateBehaviour.save_then_restore
                  plugin0 ∅ 4 8192 profile3 profile3 fzero 4 2 H1 H2 H3) H4).
Defined.

(** [plugin0] has the host's map.  Configured again with a map feature that
    carries no data, it comes back without a map, and so is not the state
    it was. *)
Lemma configure_witness :
  default (PluginState.map plugin0)
    (PluginStateChecks.last_urid_map
       [{| PluginState.URI := PluginState.LV2_URID__map; PluginState.data := None |}])
  = None
  /\ PluginState.map plugin0 <> None
  /\ (PluginState.plugin_state_configure plugin0
        [{| PluginState.URI := PluginState.LV2_URID__map; PluginState.data := None |}]
        3 4096 0).2 = false
  /\ PluginState.map
       (PluginState.plugin_state_configure plugin0
          [{| PluginState.URI := PluginState.LV2_URID__map; PluginState.data := None |}]
          3 4096 0).1 = None
  /\ (PluginState.plugin_state_configure plugin0
        [{| PluginState.URI := PluginState.LV2_URID__map; PluginState.data := None |}]
        3 4096 0).1 <> plugin0.
Proof.
  assert (H1 : default (PluginState.map plugin0)
                 (PluginStateChecks.last_urid_map
                    [{| PluginState.URI := PluginState.LV2_URID__map;
                        PluginState.data := None |}]) = None)
    by (vm_compute; reflexivity).
  assert (H2 : PluginState.map plugin0 <> None) by (vm_compute; discriminate).
  split; [exact H1|]. split; [exact H2|].
  pose proof (PluginStateBehaviour.configure_uses_the_last_urid_map plugin0
                [{| PluginState.URI := PluginState.LV2_URID__map;
                    PluginState.data := None |}] 3 4096 0) as Hx.
  cbv zeta in Hx. destruct Hx as (_ & Hnone & _).
  destruct (Hnone H1) as (Hr & _ & Hm & _ & _ & _ & _ & _ & _ & _ & _ & Hne).
  split; [exact Hr|]. split; [exact Hm | exact (Hne H2)].
Defined.

(** *** Masking estimators *)

(** The bands of [masking0] for [power5]. *)
Lemma bark_bands_witness :
  length (MaskingEstimator.bark_spectrum masking0) = MaskingEstimator.N_BARK_BANDS
  /\ length (MaskingEstimator.n_bins_per_band masking0) = MaskingEstimator.N_BARK_BANDS
  /\ length (MaskingEstimator.intermediate_band_bins masking0)
     = MaskingEstimator.N_BARK_BANDS
  /\ MaskingBands.bands_partition (MaskingEstimator.bark_z_spectrum masking0) power5
       (MaskingEstimator.bark_spectrum
          (MaskingEstimator.compute_bark_spectrum masking0 power5))
       (MaskingEstimator.n_bins_per_band
          (MaskingEstimator.compute_bark_spectrum masking0 power5))
       (MaskingEstimator.intermediate_band_bins
          (MaskingEstimator.compute_bark_spectrum masking0 power5)).
Proof.
  assert (H1 : length (MaskingEstimator.bark_spectrum masking0)
               = MaskingEstimator.N_BARK_BANDS) by reflexivity.
  assert (H2 : length (MaskingEstimator.n_bins_per_band masking0)
               = MaskingEstimator.N_BARK_BANDS) by reflexivity.
  assert (H3 : length (MaskingEstimator.intermediate_band_bins masking0)
               = MaskingEstimator.N_BARK_BANDS) by reflexivity.
  split; [exact H1|]. split; [exact H2|]. split; [exact H3|].
  exact (proj1 MaskingBehaviour.bark_bands_are_consecutive_runs masking0 power5 H1 H2 H3).
Defined.

(** Band 5 of [masking0] has no bin. *)
Lemma empty_band_witness :
  MaskingEstimator.n_bins_per_band masking0 !!! 5%nat = Float32.of_Z 0
  /\ MaskingEstimator.compute_tonality_factor masking0 power5 5 = fone.
Proof.
  assert (H0 : MaskingEstimator.n_bins_per_band masking0 !!! 5%nat = Float32.of_Z 0)
    by (vm_compute; reflexivity).
  split; [exact H0|].
  exact (proj1 (proj1 MaskingBehaviour.empty_band_counts_as_tonal masking0 power5 5%nat H0)).
Defined.

(** *** A new framer *)

(** The first hop of [framer0], whose overlap factor is 4, is silence, in a
    call of five samples too. *)
Lemma first_outputs_witness :
  0 < 4 <= 8
  /\ 0 <= 5
  /\ (Z.to_nat 5 <= length (calloc 5))%nat
  /\ (Z.to_nat (Z.quot 8 4) <= length (STFT.b_out_fifo fresh8))%nat
  /\ forall k, 0 <= k < 5 -> k < Z.quot 8 4 ->
       STFT.output (STFT.stft_processor_run framer0 [] 5 samples5 (calloc 5) no_arguments)
         !! Z.to_nat k
       = Some fzero.
Proof.
  assert (H1 : 0 < 4 <= 8) by lia.
  assert (H2 : 0 <= 5) by lia.
  assert (H3 : (Z.to_nat 5 <= length (calloc 5))%nat) by (vm_compute; lia).
  assert (H4 : (Z.to_nat (Z.quot 8 4) <= length (STFT.b_out_fifo fresh8))%nat)
    by (vm_compute; lia).
  assert (H5 : 4 <= 4) by lia.
  split; [exact H1|]. split; [exact H2|]. split; [exact H3|]. split; [exact H4|].
  exact (proj2 (STFTStart.new_processor_first_outputs tt 4000 8 4 fresh8 [] 5 samples5
                  (calloc 5) no_arguments H1 H2 H3 H4) H5).
Defined.

(** The windows of [framer0]. *)
Lemma windows_witness :
  length (STFT.b_input_window fresh8) = Z.to_nat 8
  /\ length (STFT.b_output_window fresh8) = Z.to_nat 8
  /\ forall k, 0 <= k < 8 ->
       STFT.rd (STFT.input_window framer0) k = STFT.vorbis k 8
       /\ STFT.rd (STFT.output_window framer0) k = STFT.vorbis k 8.
Proof.
  assert (H1 : length (STFT.b_input_window fresh8) = Z.to_nat 8) by reflexivity.
  assert (H2 : length (STFT.b_output_window fresh8) = Z.to_nat 8) by reflexivity.
  split; [exact H1|]. split; [exact H2|].
  exact (proj1 (STFTStart.new_processor_windows tt 4000 8 4 fresh8 H1 H2)).
Defined.

(** *** A NaN in a frame *)

Lemma engine0_arrays_allocated : SpectralFrames.arrays_allocated engine0.
Proof. repeat split. Qed.

Lemma non_finite_witness :
  SpectralFrames.arrays_allocated engine0
  /\ (1 <= 1 < SpectralProcessor.half_fft_size engine0)%nat
  /\ spectrum8_nan !! 1%nat = Some S754_nan
  /\ is_finite S754_nan = false
  /\ exists out,
       (SpectralProcessor.spectral_processor_run engine0 denoise_parameters (calloc 5)
          spectrum8_nan).2 !! 1%nat = Some out
       /\ is_finite out = false.
Proof.
  assert (H1 : (1 <= 1 < SpectralProcessor.half_fft_size engine0)%nat) by (vm_compute; lia).
  assert (H2 : spectrum8_nan !! 1%nat = Some S754_nan) by reflexivity.
  assert (H3 : is_finite S754_nan = false) by reflexivity.
  split; [exact engine0_arrays_allocated|]. split; [exact H1|]. split; [exact H2|].
  split; [exact H3|].
  destruct (SpectralRobustness.non_finite_bin_reaches_the_output engine0
              denoise_parameters (calloc 5) spectrum8_nan 1%nat S754_nan
              engine0_arrays_allocated H1 H2 H3) as (out & Ho & _ & Hf & _).
  exists out. split; [exact Ho | exact Hf].
Defined.

(** The bin above DC of [engine_wet] goes through the soft bypass
    unchanged. *)
Lemma full_wet_witness :
  SpectralProcessor.wet_dry (SpectralProcessor.crossfade_spectrum engine_wet) = fone
  /\ (1 <= 1 <= SpectralProcessor.half_fft_size engine_wet)%nat
  /\ is_finite (SpectralProcessor.fft_spectrum engine_wet !!! 1%nat) = true
  /\ SpectralProcessor.processed_fft_spectrum engine_wet !! 1%nat
     = Some (SpectralProcessor.processed_fft_spectrum engine_wet !!! 1%nat)
  /\ is_binary32 (SpectralProcessor.processed_fft_spectrum engine_wet !!! 1%nat) = true
  /\ feq (SpectralProcessor.processed_fft_spectrum
            (SpectralProcessor.fft_denoiser_soft_bypass engine_wet) !!! 1%nat)
         (SpectralProcessor.processed_fft_spectrum engine_wet !!! 1%nat) = true.
Proof.
  assert (H1 : SpectralProcessor.wet_dry (SpectralProcessor.crossfade_spectrum engine_wet)
               = fone) by (vm_compute; reflexivity).
  assert (H2 : (1 <= 1 <= SpectralProcessor.half_fft_size engine_wet)%nat)
    by (vm_compute; lia).
  assert (H3 : is_finite (SpectralProcessor.fft_spectrum engine_wet !!! 1%nat) = true)
    by (vm_compute; reflexivity).
  assert (H4 : SpectralProcessor.processed_fft_spectrum engine_wet !! 1%nat
               = Some (SpectralProcessor.processed_fft_spectrum engine_wet !!! 1%nat))
    by (vm_compute; reflexivity).
  assert (H5 : is_binary32 (SpectralProcessor.processed_fft_spectrum engine_wet !!! 1%nat)
               = true) by (vm_compute; reflexivity).
  split; [exact H1|]. split; [exact H2|]. split; [exact H3|]. split; [exact H4|].
  split; [exact H5|].
  exact (proj1 (SpectralRobustness.full_wet_keeps_the_processed_bins engine_wet 1%nat _
                  H1 H2 H3 H4 H5)).
Defined.

(** With a noise profile of zeros the reference gain is 1: bin 1 of
    [engine_loaded] comes out as it went in. *)
Lemma unit_gain_witness :
  SpectralFrames.arrays_allocated engine_loaded
  /\ (1 <= 1 <= SpectralProcessor.half_fft_size engine_loaded)%nat
  /\ SpectralProcessor.fft_spectrum engine_loaded !! 1%nat = Some (Float32.of_Z 2)
  /\ is_binary32 (Float32.of_Z 2) = true
  /\ (SpectralProcessor.gain_estimation_run
        (SpectralProcessor.gain_estimation engine_loaded)
        (SpectralProcessor.power_spectrum
           (SpectralProcessor.processing_spectrums engine_loaded))
        (calloc 5)
        (SpectralProcessor.gain_spectrum (SpectralProcessor.denoise_builder engine_loaded))
        (SpectralProcessor.transient_threshold plain_parameters)
        (SpectralProcessor.masking_ceiling_limit plain_parameters)
        (SpectralProcessor.release_time plain_parameters)
        (SpectralProcessor.noise_rescale plain_parameters)).2 !!! 1%nat = fone
  /\ fgt (SpectralProcessor.whitening_factor plain_parameters) fzero = false
  /\ SpectralProcessor.denoised_spectrum
       (SpectralProcessor.denoise_builder
          (SpectralProcessor.denoise_frame engine_loaded plain_parameters (calloc 5)))
       !! 1%nat = Some (Float32.of_Z 2).
Proof.
  assert (H1 : SpectralFrames.arrays_allocated engine_loaded)
    by (repeat split; vm_compute; reflexivity).
  assert (H2 : (1 <= 1 <= SpectralProcessor.half_fft_size engine_loaded)%nat)
    by (vm_compute; lia).
  assert (H3 : SpectralProcessor.fft_spectrum engine_loaded !! 1%nat
               = Some (Float32.of_Z 2)) by (vm_compute; reflexivity).
  assert (H4 : is_binary32 (Float32.of_Z 2) = true) by (vm_compute; reflexivity).
  assert (H5 : (SpectralProcessor.gain_estimation_run
        (SpectralProcessor.gain_estimation engine_loaded)
        (SpectralProcessor.power_spectrum
           (SpectralProcessor.processing_spectrums engine_loaded))
        (calloc 5)
        (SpectralProcessor.gain_spectrum (SpectralProcessor.denoise_builder engine_loaded))
        (SpectralProcessor.transient_threshold plain_parameters)
        (SpectralProcessor.masking_ceiling_limit plain_parameters)
        (SpectralProcessor.release_time plain_parameters)
        (SpectralProcessor.noise_rescale plain_parameters)).2 !!! 1%nat = fone)
    by (vm_compute; reflexivity).
  assert (H6 : fgt (SpectralProcessor.whitening_factor plain_parameters) fzero = false)
    by (vm_compute; reflexivity).
  split; [exact H1|]. split; [exact H2|]. split; [exact H3|]. split; [exact H4|].
  split; [exact H5|]. split; [exact H6|].
  exact (proj1 (SpectralRobustness.unit_gain_is_transparent engine_loaded plain_parameters
                  (calloc 5) 1%nat (Float32.of_Z 2) H1 H2 H3 H4 H5 H6)).
Defined.

(** The thresholds of [masking0] for [power5]. *)
Lemma band_threshold_witness :
  length (MaskingEstimator.bark_spectrum masking0) = MaskingEstimator.N_BARK_BANDS
  /\ length (MaskingEstimator.n_bins_per_band masking0) = MaskingEstimator.N_BARK_BANDS
  /\ length (MaskingEstimator.intermediate_band_bins masking0)
     = MaskingEstimator.N_BARK_BANDS
  /\ length (MaskingEstimator.threshold_j masking0) = MaskingEstimator.N_BARK_BANDS
  /\ (Z.of_nat (length (MaskingEstimator.bark_z_spectrum masking0)) < 2 ^ 24)%Z
  /\ length (MaskingEstimator.band_thresholds masking0 power5 (calloc 5)).2
     = length (calloc 5).
Proof.
  assert (H1 : length (MaskingEstimator.bark_spectrum masking0)
               = MaskingEstimator.N_BARK_BANDS) by reflexivity.
  assert (H2 : length (MaskingEstimator.n_bins_per_band masking0)
               = MaskingEstimator.N_BARK_BANDS) by reflexivity.
  assert (H3 : length (MaskingEstimator.intermediate_band_bins masking0)
               = MaskingEstimator.N_BARK_BANDS) by reflexivity.
  assert (H4 : length (MaskingEstimator.threshold_j masking0)
               = MaskingEstimator.N_BARK_BANDS) by reflexivity.
  assert (H5 : (Z.of_nat (length (MaskingEstimator.bark_z_spectrum masking0)) < 2 ^ 24)%Z)
    by (vm_compute; reflexivity).
  split; [exact H1|]. split; [exact H2|]. split; [exact H3|]. split; [exact H4|].
  split; [exact H5|].
  destruct (proj1 MaskingAssignment.band_bins_share_the_band_threshold masking0 power5
              (calloc 5) H1 H2 H3 H4 H5) as (e & _ & Hlen & _).
  exact Hlen.
Defined.

(** *** The denoiser and the audio *)

(** [framer0] writes the same five samples in denoise mode and in learn
    mode, with different noise profiles. *)
Lemma denoiser_witness :
  STFTAudio.same_audio framer0 framer0
  /\ STFT.output (STFT.stft_processor_run framer0 [] 5 samples5 (calloc 5) no_arguments)
     = STFT.output (STFT.stft_processor_run framer0 [fone] 5 samples5 (calloc 5)
                      learn_arguments).
Proof.
  assert (H1 : STFTAudio.same_audio framer0 framer0) by (repeat split).
  split; [exact H1|].
  exact (proj1 (STFTAudioFacts.output_ignores_the_denoiser framer0 framer0 [] [fone] 5
                  samples5 (calloc 5) no_arguments learn_arguments H1)).
Defined.

End MoreRuns.

